(** * EnumTypeComposer (graphql-compose): a shallow embedding and its properties

    The composer of [src/enumTypeComposer.js] is a thin mutable wrapper over a
    [GraphQLEnumType] instance.  Its methods allocate, alias and mutate
    JavaScript objects, so the embedding is a state-and-exception monad over an
    explicit object store:

    - value configs ([GraphQLEnumValueConfig]) are ordered property tables;
    - value maps ([GraphQLEnumValueConfigMap]) are ordered tables from an enum
      value name to the address of its value config;
    - the enum type and the config it was built from are records in the store.

    Each sort of object has its own addresses, as the Flow types of the source
    keep them apart; two names may still point to one object, and the caller's
    objects may be the composer's.  Own properties are kept in the order
    [Object.keys] reports them: the names that are array indices in ascending
    order, then the other names in the order of their creation.  The lookup
    table of an enum type has no prototype: a lookup in it is a lookup among
    its own properties, and an assignment to it creates or changes an own
    property.  An object made by [{}] inherits the accessor [__proto__] of
    [Object.prototype]: the store keeps the prototype such an assignment
    gives it. *)

From Stdlib Require Import String List Bool Arith Lia ZArith.
From Stdlib Require Import Ascii.
Import ListNotations.
Open Scope string_scope.

Set Implicit Arguments.

(** ** JavaScript values and ordered objects *)

Definition loc := nat.

(** The value of a property of a value config.  [JRef l] is a reference to
    an object of the caller (the internal value of an enum value, say): the
    composer copies such a reference and never reads through it, so the store
    holds nothing behind it. *)
Inductive JsVal : Type :=
| JUndefined
| JNull
| JBool (b : bool)
| JNum (z : Z)
| JStr (s : string)
| JRef (l : loc).

(** [Boolean(v)] *)
Definition truthy (v : JsVal) : bool :=
  match v with
  | JUndefined | JNull => false
  | JBool b => b
  | JNum z => negb (Z.eqb z 0)
  | JStr s => negb (String.eqb s "")
  | JRef _ => true
  end.

Module Obj.

(** [c] is one of the digits [0] to [9]. *)
Definition is_digit (c : ascii) : bool :=
  Nat.leb 48 (nat_of_ascii c) && Nat.leb (nat_of_ascii c) 57.

(** Shorter first, and by the codes of the characters at equal length: on
    numerals without a leading zero this is the order of the numbers. *)
Definition shortlex_lt (a b : string) : bool :=
  Nat.ltb (String.length a) (String.length b)
  || (Nat.eqb (String.length a) (String.length b) && String.ltb a b).

(** [k] is an array index: the canonical numeral of an integer from [0] to
    [2^32 - 2]. *)
Definition is_array_index (k : string) : bool :=
  match k with
  | EmptyString => false
  | String c rest =>
      forallb is_digit (list_ascii_of_string k)
      && (negb (Ascii.eqb c "0") || String.eqb rest "")
      && shortlex_lt k "4294967295"
  end.

(** The order of [OrdinaryOwnPropertyKeys], as far as it does not depend on
    the order of creation: an array index comes before a larger one and
    before every other name. *)
Definition precedes (k k' : string) : bool :=
  if is_array_index k
  then (if is_array_index k' then shortlex_lt k k' else true)
  else false.

(** The names are listed as [Object.keys] lists the properties of an object:
    no name comes after a name it precedes. *)
Fixpoint ordered (ks : list string) : bool :=
  match ks with
  | [] => true
  | k :: ks' => forallb (fun k' => negb (precedes k' k)) ks' && ordered ks'
  end.

Section Table.
Variable V : Type.

Definition t := list (string * V).

(** [o[k]] on own properties; [None] is JavaScript's [undefined]. *)
Fixpoint get (o : t) (k : string) : option V :=
  match o with
  | [] => None
  | (k', v) :: o' => if String.eqb k' k then Some v else get o' k
  end.

Definition has (o : t) (k : string) : bool :=
  match get o k with Some _ => true | None => false end.

(** The value of the property [k], which exists, becomes [v]. *)
Fixpoint replace (o : t) (k : string) (v : V) : t :=
  match o with
  | [] => []
  | (k', v') :: o' =>
      if String.eqb k' k then (k', v) :: o' else (k', v') :: replace o' k v
  end.

(** The property [k], which does not exist, is created: after the properties
    created before it, but before those its name precedes. *)
Fixpoint insert (o : t) (k : string) (v : V) : t :=
  match o with
  | [] => [(k, v)]
  | (k', v') :: o' =>
      if precedes k k' then (k, v) :: (k', v') :: o'
      else (k', v') :: insert o' k v
  end.

(** The own property [k] is given the value [v] ([CreateDataProperty]): what
    an entry of an object literal, a spread, or an assignment [o[k] = v] to
    an object without prototype does.  An existing property keeps its
    place. *)
Definition set (o : t) (k : string) (v : V) : t :=
  if has o k then replace o k v else insert o k v.

(** [o[k] = v] reaches the setter of [Object.prototype.__proto__] when [o]
    was made by [{}] and has no own property of that name: the assignment
    then changes the prototype of [o] and creates no property. *)
Definition reaches_setter (o : t) (k : string) : bool :=
  String.eqb k "__proto__" && negb (has o k).

(** [delete o[k]] *)
Definition delete (o : t) (k : string) : t :=
  filter (fun kv => negb (String.eqb (fst kv) k)) o.

(** [Object.keys(o)] *)
Definition keys (o : t) : list string := map fst o.

(** [Object.assign(target, source)]: what one [...source] of an object
    literal does to the properties written so far. *)
Definition assign (target source : t) : t :=
  fold_left (fun acc kv => set acc (fst kv) (snd kv)) source target.

(** [{ ...a }] and [{ ...a, ...b }] *)
Definition copy (a : t) : t := assign [] a.
Definition spread (a b : t) : t := assign (assign [] a) b.
End Table.

(** [ks.indexOf(k) !== -1] *)
Definition mem (k : string) (ks : list string) : bool :=
  existsb (String.eqb k) ks.

(** The same names in the same order, each value sent through [f]. *)
Definition map_values {A B : Type} (f : A -> B) (o : t A) : t B :=
  map (fun kv => (fst kv, f (snd kv))) o.

(** The addresses a table of addresses points to. *)
Definition targets {A : Type} (o : t A) : list A := map snd o.

(** The names of [ks] that are not array indices. *)
Definition plain (ks : list string) : list string :=
  filter (fun k => negb (is_array_index k)) ks.
End Obj.

Arguments Obj.get {V} o k.
Arguments Obj.has {V} o k.
Arguments Obj.replace {V} o k v.
Arguments Obj.insert {V} o k v.
Arguments Obj.set {V} o k v.
Arguments Obj.reaches_setter {V} o k.
Arguments Obj.delete {V} o k.
Arguments Obj.keys {V} o.
Arguments Obj.assign {V} target source.
Arguments Obj.copy {V} a.
Arguments Obj.spread {V} a b.

(** A value config or a derived enum value: property name to value. *)
Definition JsObject := Obj.t JsVal.

(** A value map: enum value name to the address of its config object. *)
Definition ValueMap := Obj.t loc.

(** ** The object store *)

(** [GraphQLEnumTypeConfig]: the object handed to [new GraphQLEnumType]. *)
Module Config.
Record t := make {
  name : string;
  description : option string;
  values : loc
}.
Definition set_name (c : t) (s : string) : t :=
  make s (description c) (values c).
Definition set_description (c : t) (d : option string) : t :=
  make (name c) d (values c).
Definition set_values (c : t) (v : loc) : t :=
  make (name c) (description c) v.
End Config.

(** The fields of a [GraphQLEnumType] instance the composer touches. *)
Module EnumType.
Record t := make {
  name : string;
  description : option string;
  _enumConfig : loc;
  _values : option loc;
  _valueLookup : option loc;
  _nameLookup : option loc
}.
Definition set_name (ty : t) (s : string) : t :=
  make s (description ty) (_enumConfig ty) (_values ty) (_valueLookup ty)
       (_nameLookup ty).
Definition set_description (ty : t) (d : option string) : t :=
  make (name ty) d (_enumConfig ty) (_values ty) (_valueLookup ty)
       (_nameLookup ty).
Definition set_values (ty : t) (v : option loc) : t :=
  make (name ty) (description ty) (_enumConfig ty) v (_valueLookup ty)
       (_nameLookup ty).
Definition set_valueLookup (ty : t) (v : option loc) : t :=
  make (name ty) (description ty) (_enumConfig ty) (_values ty) v
       (_nameLookup ty).
Definition set_nameLookup (ty : t) (v : option loc) : t :=
  make (name ty) (description ty) (_enumConfig ty) (_values ty)
       (_valueLookup ty) v.
End EnumType.

(** One table per sort of object, each with its own addresses; [next_*] is
    the first address of that sort never handed out.  [protos] gives the
    prototype an assignment to [__proto__] gave a value map, if any. *)
Record Heap := mkHeap {
  objs : loc -> JsObject;
  maps : loc -> ValueMap;
  protos : loc -> option loc;
  configs : loc -> Config.t;
  types : loc -> EnumType.t;
  next_obj : loc;
  next_map : loc;
  next_config : loc;
  next_type : loc
}.

Definition upd {A : Type} (f : loc -> A) (l : loc) (a : A) : loc -> A :=
  fun l' => if Nat.eqb l' l then a else f l'.

Definition with_objs (h : Heap) (f : loc -> JsObject) (n : loc) : Heap :=
  mkHeap f (maps h) (protos h) (configs h) (types h)
         n (next_map h) (next_config h) (next_type h).
Definition with_maps (h : Heap) (f : loc -> ValueMap) (n : loc) : Heap :=
  mkHeap (objs h) f (protos h) (configs h) (types h)
         (next_obj h) n (next_config h) (next_type h).
Definition with_protos (h : Heap) (f : loc -> option loc) : Heap :=
  mkHeap (objs h) (maps h) f (configs h) (types h)
         (next_obj h) (next_map h) (next_config h) (next_type h).
Definition with_configs (h : Heap) (f : loc -> Config.t) (n : loc) : Heap :=
  mkHeap (objs h) (maps h) (protos h) f (types h)
         (next_obj h) (next_map h) n (next_type h).
Definition with_types (h : Heap) (f : loc -> EnumType.t) (n : loc) : Heap :=
  mkHeap (objs h) (maps h) (protos h) (configs h) f
         (next_obj h) (next_map h) (next_config h) n.

(** ** Computations: a store threaded through, ending normally or by a throw *)

Inductive JsError : Type :=
| Error (message : string)
| TypeError (message : string).

Inductive Completion (A : Type) : Type :=
| Normal (a : A)
| Throw (e : JsError).
Arguments Normal {A} a.
Arguments Throw {A} e.

Definition M (A : Type) : Type := Heap -> Completion A * Heap.

Definition ret {A} (a : A) : M A := fun h => (Normal a, h).

Definition bind {A B} (c : M A) (k : A -> M B) : M B :=
  fun h =>
    match c h with
    | (Normal a, h') => k a h'
    | (Throw e, h') => (Throw e, h')
    end.

Definition throw {A} (e : JsError) : M A := fun h => (Throw e, h).

(** [try { c } catch (e) { handler e }] *)
Definition try_catch {A} (c : M A) (handler : JsError -> M A) : M A :=
  fun h =>
    match c h with
    | (Normal a, h') => (Normal a, h')
    | (Throw e, h') => handler e h'
    end.

Notation "x <- c1 ;; c2" := (bind c1 (fun x => c2))
  (at level 61, c1 at next level, right associativity).
Notation "c1 ;;; c2" := (bind c1 (fun _ => c2))
  (at level 61, right associativity).

(** [xs.forEach(f)]: a throw in the callback leaves the loop. *)
Fixpoint forEach {X} (xs : list X) (f : X -> M unit) : M unit :=
  match xs with
  | [] => ret tt
  | x :: xs' => f x ;;; forEach xs' f
  end.

Definition read_obj (l : loc) : M JsObject := fun h => (Normal (objs h l), h).
Definition write_obj (l : loc) (o : JsObject) : M unit :=
  fun h => (Normal tt, with_objs h (upd (objs h) l o) (next_obj h)).
Definition new_obj (o : JsObject) : M loc :=
  fun h => (Normal (next_obj h),
            with_objs h (upd (objs h) (next_obj h) o) (S (next_obj h))).

Definition read_map (l : loc) : M ValueMap := fun h => (Normal (maps h l), h).
Definition write_map (l : loc) (m : ValueMap) : M unit :=
  fun h => (Normal tt, with_maps h (upd (maps h) l m) (next_map h)).
(** The store after the allocation of the value map [m], which has the
    prototype it is created with. *)
Definition alloc_map (h : Heap) (m : ValueMap) : Heap :=
  with_protos (with_maps h (upd (maps h) (next_map h) m) (S (next_map h)))
              (upd (protos h) (next_map h) None).
Definition new_map (m : ValueMap) : M loc :=
  fun h => (Normal (next_map h), alloc_map h m).

Definition read_proto (l : loc) : M (option loc) :=
  fun h => (Normal (protos h l), h).
Definition write_proto (l : loc) (p : option loc) : M unit :=
  fun h => (Normal tt, with_protos h (upd (protos h) l p)).

(** [o[k] = v] on a value map made by [{}].  The name [__proto__], unless
    it is an own property, is the accessor of [Object.prototype]: its setter
    makes the object [v] the prototype of [o] and creates no property.  Any
    other name becomes an own property. *)
Definition member_set (o : loc) (k : string) (v : loc) : M unit :=
  m <- read_map o ;;
  if Obj.reaches_setter m k then write_proto o (Some v)
  else write_map o (Obj.set m k v).

(** [o[k]] on a value map made by [{}], read just after [o[k] = v]: an own
    property, or for [__proto__] what the getter of [Object.prototype]
    returns, the prototype the setter has given [o].  [None] is
    [undefined]. *)
Definition member_get (o : loc) (k : string) : M (option loc) :=
  m <- read_map o ;;
  match Obj.get m k with
  | Some v => ret (Some v)
  | None => if String.eqb k "__proto__" then read_proto o else ret None
  end.

Definition read_config (l : loc) : M Config.t :=
  fun h => (Normal (configs h l), h).
Definition write_config (l : loc) (c : Config.t) : M unit :=
  fun h => (Normal tt, with_configs h (upd (configs h) l c) (next_config h)).
Definition new_config (c : Config.t) : M loc :=
  fun h => (Normal (next_config h),
            with_configs h (upd (configs h) (next_config h) c)
              (S (next_config h))).

Definition read_type (l : loc) : M EnumType.t :=
  fun h => (Normal (types h l), h).
Definition write_type (l : loc) (ty : EnumType.t) : M unit :=
  fun h => (Normal tt, with_types h (upd (types h) l ty) (next_type h)).
Definition new_type (ty : EnumType.t) : M loc :=
  fun h => (Normal (next_type h),
            with_types h (upd (types h) (next_type h) ty) (S (next_type h))).

(** ** GraphQLEnumType *)

Module GraphQLEnumType.

(** Modelled from the spec: the class [GraphQLEnumType] comes from the
    [graphql] package and is not part of the sources.  Section 4.3: "the read
    view computes deprecation display-state from [deprecationReason]
    presence".  A derived enum value is the value config with the marker
    [isDeprecated] set to [Boolean(config.deprecationReason)]. *)
Definition defineEnumValue (config : JsObject) : JsObject :=
  Obj.set config "isDeprecated"
    (JBool (match Obj.get config "deprecationReason" with
            | Some v => truthy v
            | None => false
            end)).

(** Modelled from the spec: the constructor of the absent class.  The
    instance takes its name and description from the config and keeps the
    config object itself as its mirror [_enumConfig]; no derived view exists
    yet. *)
Definition new (config : loc) : M loc :=
  c <- read_config config ;;
  new_type (EnumType.make (Config.name c) (Config.description c) config
              None None None).

(** Modelled from the spec: the name lookup table of the absent class.
    Section 4.3: the "cached derived views (name/value lookup tables)" are
    "recomputed lazily on next read"; section 9: "derived views are
    recomputed from the canonical map".  A cached table is returned as it is;
    otherwise a fresh table holding one fresh derived value per entry of
    [_enumConfig.values], in that order, is built and cached. *)
Definition _getNameLookup (this : loc) : M loc :=
  ty <- read_type this ;;
  match EnumType._nameLookup ty with
  | Some l => ret l
  | None =>
      c <- read_config (EnumType._enumConfig ty) ;;
      valueMap <- read_map (Config.values c) ;;
      nameLookup <- new_map [] ;;
      forEach valueMap (fun entry =>
        config <- read_obj (snd entry) ;;
        value <- new_obj (defineEnumValue config) ;;
        m <- read_map nameLookup ;;
        write_map nameLookup (Obj.set m (fst entry) value)) ;;;
      ty' <- read_type this ;;
      write_type this (EnumType.set_nameLookup ty' (Some nameLookup)) ;;;
      ret nameLookup
  end.

End GraphQLEnumType.

(** ** EnumTypeComposer *)

(** The composer holds the address of its type; no method assigns [gqType]
    after the constructor (lines 58-60). *)
Record EnumTypeComposer := mkETC { gqType : loc }.

(** [string | Array<string>] *)
Inductive NameOrArray : Type :=
| OneName (name : string)
| NameArray (names : list string).

(** The argument of [deprecateFields]: a name, an array of names, or a
    name-to-reason object (only read, so taken by value). *)
Inductive DeprecateSpec : Type :=
| DeprecateName (field : string)
| DeprecateArray (fields : list string)
| DeprecateMap (fieldMap : JsObject).

(** [xs.indexOf(x) === -1] *)
Definition indexOf_is_minus_one (xs : list string) (x : string) : bool :=
  negb (Obj.mem x xs).

(** Lines 67-69. *)
Definition getFields (this : EnumTypeComposer) : M loc :=
  GraphQLEnumType._getNameLookup (gqType this).

(** Lines 62-65: [!!values[name]]; a value of the table is an object, hence
    truthy. *)
Definition hasField (this : EnumTypeComposer) (name : string) : M bool :=
  values <- getFields this ;;
  m <- read_map values ;;
  ret (Obj.has m name).

(** Lines 184-186. *)
Definition getTypeName (this : EnumTypeComposer) : M string :=
  ty <- read_type (gqType this) ;;
  ret (EnumType.name ty).

(** Lines 71-81. *)
Definition getField (this : EnumTypeComposer) (name : string) : M loc :=
  values <- getFields this ;;
  m <- read_map values ;;
  match Obj.get m name with
  | None =>
      typeName <- getTypeName this ;;
      throw (Error ("Cannot get value '" ++ name ++ "' from enum type '"
                    ++ typeName ++ "'. Value with such name does not exist."))
  | Some v => ret v
  end.

(** Lines 83-85. *)
Definition getFieldNames (this : EnumTypeComposer) : M (list string) :=
  values <- getFields this ;;
  m <- read_map values ;;
  ret (Obj.keys m).

(** Lines 91-106.  [delete values[key].isDeprecated] throws a [TypeError]
    when [values[key]] is [undefined]; on the keys of [values] it never is. *)
Definition setFields (this : EnumTypeComposer) (values : loc)
  : M EnumTypeComposer :=
  m <- read_map values ;;
  forEach (Obj.keys m) (fun key =>
    m' <- read_map values ;;
    match Obj.get m' key with
    | Some v =>
        o <- read_obj v ;;
        write_obj v (Obj.delete o "isDeprecated")
    | None =>
        throw (TypeError "Cannot convert undefined or null to object")
    end) ;;;
  ty <- read_type (gqType this) ;;
  c <- read_config (EnumType._enumConfig ty) ;;
  write_config (EnumType._enumConfig ty) (Config.set_values c values) ;;;
  ty1 <- read_type (gqType this) ;;
  write_type (gqType this) (EnumType.set_values ty1 None) ;;;
  ty2 <- read_type (gqType this) ;;
  write_type (gqType this) (EnumType.set_valueLookup ty2 None) ;;;
  ty3 <- read_type (gqType this) ;;
  write_type (gqType this) (EnumType.set_nameLookup ty3 None) ;;;
  ret this.

(** Lines 116-119: [this.setFields({ ...this.getFields(), ...newValues })]. *)
Definition addFields (this : EnumTypeComposer) (newValues : loc)
  : M EnumTypeComposer :=
  fields <- getFields this ;;
  a <- read_map fields ;;
  b <- read_map newValues ;;
  merged <- new_map (Obj.spread a b) ;;
  setFields this merged ;;;
  ret this.

(** Lines 108-111: [this.addFields({ [name]: valueConfig })]. *)
Definition setField (this : EnumTypeComposer) (name : string)
  (valueConfig : loc) : M EnumTypeComposer :=
  single <- new_map (Obj.set [] name valueConfig) ;;
  addFields this single ;;;
  ret this.

(** Lines 121-127: the names are deleted from the table [getFields()]
    returned, and a copy of it goes to [setFields]. *)
Definition removeField (this : EnumTypeComposer) (nameOrArray : NameOrArray)
  : M EnumTypeComposer :=
  let valueNames :=
    match nameOrArray with
    | NameArray names => names
    | OneName name => [name]
    end in
  values <- getFields this ;;
  forEach valueNames (fun valueName =>
    m <- read_map values ;;
    write_map values (Obj.delete m valueName)) ;;;
  m <- read_map values ;;
  copy <- new_map (Obj.copy m) ;;
  setFields this copy ;;;
  ret this.

(** Lines 129-139: the table [getFields()] returned, with the other names
    deleted, goes to [setFields] itself. *)
Definition removeOtherFields (this : EnumTypeComposer)
  (fieldNameOrArray : NameOrArray) : M EnumTypeComposer :=
  let keepFieldNames :=
    match fieldNameOrArray with
    | NameArray names => names
    | OneName name => [name]
    end in
  fields <- getFields this ;;
  m <- read_map fields ;;
  forEach (Obj.keys m) (fun fieldName =>
    if indexOf_is_minus_one keepFieldNames fieldName
    then f <- read_map fields ;; write_map fields (Obj.delete f fieldName)
    else ret tt) ;;;
  setFields this fields ;;;
  ret this.

(** Lines 141-152.  [orderedFields] is made by [{}], so line 146 is an
    assignment that may reach the setter of [__proto__]; the spread of line
    150 copies own properties only. *)
Definition reorderFields (this : EnumTypeComposer) (names : list string)
  : M EnumTypeComposer :=
  orderedFields <- new_map [] ;;
  fields <- getFields this ;;
  forEach names (fun name =>
    f <- read_map fields ;;
    match Obj.get f name with
    | Some v =>
        member_set orderedFields name v ;;;
        f' <- read_map fields ;;
        write_map fields (Obj.delete f' name)
    | None => ret tt
    end) ;;;
  o <- read_map orderedFields ;;
  f <- read_map fields ;;
  merged <- new_map (Obj.spread o f) ;;
  setFields this merged ;;;
  ret this.

(** Lines 154-170. *)
Definition extendField (this : EnumTypeComposer) (name : string)
  (partialValueConfig : loc) : M EnumTypeComposer :=
  prevValueConfig <-
    try_catch (getField this name) (fun _ =>
      typeName <- getTypeName this ;;
      throw (Error ("Cannot extend value '" ++ name ++ "' from enum '"
                    ++ typeName ++ "'. Value does not exist."))) ;;
  prev <- read_obj prevValueConfig ;;
  partial <- read_obj partialValueConfig ;;
  valueConfig <- new_obj (Obj.spread prev partial) ;;
  setField this name valueConfig ;;;
  ret this.

(** Lines 188-192. *)
Definition setTypeName (this : EnumTypeComposer) (name : string)
  : M EnumTypeComposer :=
  ty <- read_type (gqType this) ;;
  write_type (gqType this) (EnumType.set_name ty name) ;;;
  ty' <- read_type (gqType this) ;;
  c <- read_config (EnumType._enumConfig ty') ;;
  write_config (EnumType._enumConfig ty') (Config.set_name c name) ;;;
  ret this.

(** Lines 194-196: [this.gqType.description || '']. *)
Definition getDescription (this : EnumTypeComposer) : M string :=
  ty <- read_type (gqType this) ;;
  ret (match EnumType.description ty with
       | Some d => if String.eqb d "" then "" else d
       | None => ""
       end).

(** Lines 198-202. *)
Definition setDescription (this : EnumTypeComposer) (description : string)
  : M EnumTypeComposer :=
  ty <- read_type (gqType this) ;;
  write_type (gqType this) (EnumType.set_description ty (Some description)) ;;;
  ty' <- read_type (gqType this) ;;
  c <- read_config (EnumType._enumConfig ty') ;;
  write_config (EnumType._enumConfig ty')
    (Config.set_description c (Some description)) ;;;
  ret this.

(** The [throw] of lines 209-211, 217-219 and 227-229. *)
Definition deprecate_missing (this : EnumTypeComposer) (field : string)
  : M unit :=
  typeName <- getTypeName this ;;
  throw (Error ("Cannot deprecate unexisted value '" ++ field
                ++ "' from enum '" ++ typeName ++ "'")).

(** Lines 204-237. *)
Definition deprecateFields (this : EnumTypeComposer) (fields : DeprecateSpec)
  : M EnumTypeComposer :=
  existedFieldNames <- getFieldNames this ;;
  match fields with
  | DeprecateName field =>
      (if indexOf_is_minus_one existedFieldNames field
       then deprecate_missing this field else ret tt) ;;;
      partial <- new_obj [("deprecationReason", JStr "deprecated")] ;;
      extendField this field partial ;;;
      ret tt
  | DeprecateArray names =>
      forEach names (fun field =>
        (if indexOf_is_minus_one existedFieldNames field
         then deprecate_missing this field else ret tt) ;;;
        partial <- new_obj [("deprecationReason", JStr "deprecated")] ;;
        extendField this field partial ;;;
        ret tt)
  | DeprecateMap fieldMap =>
      forEach (Obj.keys fieldMap) (fun field =>
        (if indexOf_is_minus_one existedFieldNames field
         then deprecate_missing this field else ret tt) ;;;
        let deprecationReason :=
          match Obj.get fieldMap field with
          | Some v => v
          | None => JUndefined
          end in
        partial <- new_obj [("deprecationReason", deprecationReason)] ;;
        extendField this field partial ;;;
        ret tt)
  end ;;;
  ret this.

(** Lines 239-261: [!newTypeName] holds of the empty string only.
    [newValues] is made by [{}], so line 247 is an assignment that may reach
    the setter of [__proto__], and line 248 reads the same name back. *)
Definition clone (this : EnumTypeComposer) (newTypeName : string)
  : M EnumTypeComposer :=
  if String.eqb newTypeName "" then
    throw (Error
      "You should provide newTypeName:string for EnumTypeComposer.clone()")
  else
    values <- getFields this ;;
    newValues <- new_map [] ;;
    m <- read_map values ;;
    forEach (Obj.keys m) (fun fieldName =>
      m' <- read_map values ;;
      fresh <-
        match Obj.get m' fieldName with
        | Some v => o <- read_obj v ;; new_obj (Obj.copy o)
        | None => new_obj [] (* [{ ...undefined }] is the empty object *)
        end ;;
      member_set newValues fieldName fresh ;;;
      w <- member_get newValues fieldName ;;
      match w with
      | Some w =>
          o' <- read_obj w ;;
          write_obj w (Obj.delete o' "isDeprecated")
      | None =>
          throw (TypeError "Cannot convert undefined or null to object")
      end) ;;;
    config <- new_config (Config.make newTypeName None newValues) ;;
    ty <- GraphQLEnumType.new config ;;
    let cloned := mkETC ty in
    d <- getDescription this ;;
    setDescription cloned d ;;;
    ret cloned.

(** Lines 172-174. *)
Definition getType (this : EnumTypeComposer) : M loc := ret (gqType this).

(** [c] is one of the characters of the class [[_a-zA-Z]]. *)
Definition is_name_start (c : ascii) : bool :=
  let n := nat_of_ascii c in
  Nat.eqb n 95
  || (Nat.leb 97 n && Nat.leb n 122)
  || (Nat.leb 65 n && Nat.leb n 90).

(** [c] is one of the characters of the class [[_a-zA-Z0-9]]. *)
Definition is_name_char (c : ascii) : bool :=
  is_name_start c || (Nat.leb 48 (nat_of_ascii c) && Nat.leb (nat_of_ascii c) 57).

(** Line 26-27: [/^[_a-zA-Z][_a-zA-Z0-9]*$/.test(typeName)].  Without the
    flag [m], [$] is the end of the input.  A character outside ASCII is in
    neither class, whatever units encode it. *)
Definition NAME_RX_test (typeName : string) : bool :=
  match typeName with
  | EmptyString => false
  | String c rest =>
      is_name_start c && forallb is_name_char (list_ascii_of_string rest)
  end.

(** The argument of [create], by the first test of lines 24, 45 and 47 it
    passes: [isString(opts)], [opts instanceof GraphQLEnumType],
    [isObject(opts)], or none of them (a number or [undefined], say).  An
    object is a [GraphQLEnumTypeConfig], as the Flow type of [opts] has it. *)
Inductive CreateOpts : Type :=
| OptsString (typeName : string)
| OptsEnumType (type : loc)
| OptsObject (config : loc)
| OptsOther.

(** What [TypeMapper.createType] returned: an instance of [GraphQLEnumType],
    or anything else. *)
Inductive CreatedType : Type :=
| CreatedEnumType (type : loc)
| CreatedOther.

Section Create.

(** [TypeMapper.createType] of [./typeMapper], which is not part of the
    sources: any computation on the store, returning or throwing. *)
Variable createType : string -> M CreatedType.

(** Lines 21-56.  The literal [{ name: typeName, values: {} }] allocates its
    value map before the config object itself; [{ ...opts }] is a new config
    object with the properties of [opts]. *)
Definition create (opts : CreateOpts) : M EnumTypeComposer :=
  match opts with
  | OptsString typeName =>
      if NAME_RX_test typeName then
        values <- new_map [] ;;
        config <- new_config (Config.make typeName None values) ;;
        ty <- GraphQLEnumType.new config ;;
        ret (mkETC ty)
      else
        type <- createType typeName ;;
        match type with
        | CreatedEnumType ty => ret (mkETC ty)
        | CreatedOther =>
            throw (Error
              ("You should provide correct GraphQLEnumType type definition."
               ++ "Eg. `enum MyType { KEY1 KEY2 KEY3 }`"))
        end
  | OptsEnumType ty => ret (mkETC ty)
  | OptsObject opts' =>
      c <- read_config opts' ;;
      config <- new_config c ;;
      ty <- GraphQLEnumType.new config ;;
      ret (mkETC ty)
  | OptsOther =>
      throw (Error
        "You should provide GraphQLEnumTypeConfig or string with enum name or SDL")
  end.

End Create.

(** ** Observations and well-formed stores *)

(** [delete o.isDeprecated] *)
Definition strip (o : JsObject) : JsObject := Obj.delete o "isDeprecated".

(** A value map read through: each name with the properties of its object. *)
Definition deep (h : Heap) (l : loc) : Obj.t JsObject :=
  Obj.map_values (objs h) (maps h l).

(** The backing value map [gqType._enumConfig.values] of a type. *)
Definition backing (h : Heap) (t : loc) : loc :=
  Config.values (configs h (EnumType._enumConfig (types h t))).

(** What [getFields()] shows at store [h]: the cached lookup table if there is
    one, the derived values of the backing map otherwise. *)
Definition view (h : Heap) (t : loc) : Obj.t JsObject :=
  match EnumType._nameLookup (types h t) with
  | Some l => deep h l
  | None =>
      Obj.map_values GraphQLEnumType.defineEnumValue (deep h (backing h t))
  end.

(** The value objects of the cached lookup table, if any. *)
Definition view_locs (h : Heap) (t : loc) : list loc :=
  match EnumType._nameLookup (types h t) with
  | Some l => Obj.targets (maps h l)
  | None => []
  end.

Fixpoint nodupb (ks : list string) : bool :=
  match ks with
  | [] => true
  | k :: ks' => negb (Obj.mem k ks') && nodupb ks'
  end.

Definition option_below (n : loc) (o : option loc) : bool :=
  match o with Some l => Nat.ltb l n | None => true end.

(** No dangling address among the allocated objects, no repeated key, and
    the keys of each object in the order of [Object.keys]: what every
    JavaScript heap satisfies. *)
Definition type_ok (h : Heap) (l : loc) : bool :=
  Nat.ltb (EnumType._enumConfig (types h l)) (next_config h)
  && option_below (next_map h) (EnumType._nameLookup (types h l)).

Definition config_ok (h : Heap) (l : loc) : bool :=
  Nat.ltb (Config.values (configs h l)) (next_map h).

Definition map_ok (h : Heap) (l : loc) : bool :=
  nodupb (Obj.keys (maps h l))
  && forallb (fun v => Nat.ltb v (next_obj h)) (Obj.targets (maps h l))
  && Obj.ordered (Obj.keys (maps h l)).

Definition obj_ok (h : Heap) (l : loc) : bool :=
  nodupb (Obj.keys (objs h l))
  && Obj.ordered (Obj.keys (objs h l)).

Definition well_formed (h : Heap) : bool :=
  forallb (type_ok h) (seq 0 (next_type h))
  && forallb (config_ok h) (seq 0 (next_config h))
  && forallb (map_ok h) (seq 0 (next_map h))
  && forallb (obj_ok h) (seq 0 (next_obj h)).

Definition JsVal_eqb (a b : JsVal) : bool :=
  match a, b with
  | JUndefined, JUndefined => true
  | JNull, JNull => true
  | JBool x, JBool y => Bool.eqb x y
  | JNum x, JNum y => Z.eqb x y
  | JStr x, JStr y => String.eqb x y
  | JRef x, JRef y => Nat.eqb x y
  | _, _ => false
  end.

Fixpoint JsObject_eqb (a b : JsObject) : bool :=
  match a, b with
  | [], [] => true
  | (k, v) :: a', (k', v') :: b' =>
      String.eqb k k' && JsVal_eqb v v' && JsObject_eqb a' b'
  | _, _ => false
  end.

(** A value is in read-view form when deriving it again from its stripped
    self gives it back. *)
Definition derived_form (p : JsObject) : bool :=
  JsObject_eqb (GraphQLEnumType.defineEnumValue (strip p)) p.

(** Every value [getFields()] shows is in read-view form: true of every type
    whose lookup table was built by [_getNameLookup] from configs that carry
    no marker of their own. *)
Definition settled (h : Heap) (t : loc) : bool :=
  forallb (fun kv => derived_form (snd kv)) (view h t).

(** Running a computation. *)
Definition outcome {A} (c : M A) (h : Heap) : Completion A := fst (c h).
Definition store {A} (c : M A) (h : Heap) : Heap := snd (c h).

(** The address [x] is the value of [m] under one of the keys [ks]. *)
Definition reached (m : ValueMap) (ks : list string) (x : loc) : bool :=
  existsb (fun k => match Obj.get m k with
                    | Some v => Nat.eqb v x
                    | None => false
                    end) ks.

(** The propositional reading of [well_formed]. *)
Record wf (h : Heap) : Prop := {
  wf_config : forall l, l < next_type h ->
    EnumType._enumConfig (types h l) < next_config h;
  wf_cache : forall l c, l < next_type h ->
    EnumType._nameLookup (types h l) = Some c -> c < next_map h;
  wf_values : forall l, l < next_config h ->
    Config.values (configs h l) < next_map h;
  wf_keys : forall l, l < next_map h -> NoDup (Obj.keys (maps h l));
  wf_targets : forall l v, l < next_map h ->
    In v (Obj.targets (maps h l)) -> v < next_obj h;
  wf_props : forall l, l < next_obj h -> NoDup (Obj.keys (objs h l));
  wf_key_order : forall l, l < next_map h ->
    Obj.ordered (Obj.keys (maps h l)) = true;
  wf_prop_order : forall l, l < next_obj h ->
    Obj.ordered (Obj.keys (objs h l)) = true
}.

(** Allocation only moves the frontiers forward. *)
Record grows (h h' : Heap) : Prop := {
  grows_obj : next_obj h <= next_obj h';
  grows_map : next_map h <= next_map h';
  grows_config : next_config h <= next_config h';
  grows_type : next_type h <= next_type h'
}.

Definition frontier (h : Heap) : loc * loc * loc * loc :=
  (next_obj h, next_map h, next_config h, next_type h).

(** A type without derived views, as [setFields] leaves it. *)
Definition cleared (ty : EnumType.t) : EnumType.t :=
  EnumType.make (EnumType.name ty) (EnumType.description ty)
    (EnumType._enumConfig ty) None None None.

(** What a call of [getFields] on type [t] from store [h] establishes: the
    table [l] it returns and the store [h'] it leaves. *)
Record fetched (t : loc) (h : Heap) (l : loc) (h' : Heap) : Prop := {
  fe_wf : wf h';
  fe_grows : grows h h';
  fe_lt : l < next_map h';
  fe_cache : EnumType._nameLookup (types h' t) = Some l;
  fe_deep : deep h' l = view h t;
  fe_configs : configs h' = configs h;
  fe_next_config : next_config h' = next_config h;
  fe_next_type : next_type h' = next_type h;
  fe_types : forall x, x <> t -> types h' x = types h x;
  fe_type : types h' t = EnumType.set_nameLookup (types h t) (Some l);
  fe_maps : forall x, x < next_map h -> maps h' x = maps h x;
  fe_objs : forall x, x < next_obj h -> objs h' x = objs h x;
  fe_locs : forall v, In v (Obj.targets (maps h' l)) -> v < next_obj h ->
    In v (view_locs h t);
  fe_fresh : l < next_map h -> EnumType._nameLookup (types h t) = Some l
}.

(** [derive (strip o)]: the read view of a config once its marker is gone. *)
Definition refreshed (o : JsObject) : JsObject :=
  GraphQLEnumType.defineEnumValue (strip o).

(** What [setFields(values)] on type [t] establishes from store [h]. *)
Record replaced (t values : loc) (h h' : Heap) : Prop := {
  rp_wf : wf h';
  rp_frontier : frontier h' = frontier h;
  rp_maps : maps h' = maps h;
  rp_backing : backing h' t = values;
  rp_type : types h' t = cleared (types h t);
  rp_types : forall x, x <> t -> types h' x = types h x;
  rp_config :
    configs h' (EnumType._enumConfig (types h t))
    = Config.set_values (configs h (EnumType._enumConfig (types h t))) values;
  rp_configs : forall x, x <> EnumType._enumConfig (types h t) ->
    configs h' x = configs h x;
  rp_objs_in : forall x, In x (Obj.targets (maps h values)) ->
    objs h' x = strip (objs h x);
  rp_objs_out : forall x, ~ In x (Obj.targets (maps h values)) ->
    objs h' x = objs h x;
  rp_deep : deep h' values = Obj.map_values strip (deep h values);
  rp_view : view h' t = Obj.map_values refreshed (deep h values)
}.

(** The table [getFields()] reads for type [t]. *)
Definition shown (h : Heap) (t : loc) : loc :=
  match EnumType._nameLookup (types h t) with
  | Some l => l
  | None => backing h t
  end.

(** What every mutator of the composer over type [t] guarantees about the
    rest of the store; [args] are the value objects the caller passed in. *)
Record mutated (t : loc) (args : list loc) (h h' : Heap) : Prop := {
  mu_wf : wf h';
  mu_grows : grows h h';
  mu_next_type : next_type h' = next_type h;
  mu_next_config : next_config h' = next_config h;
  mu_type : types h' t = cleared (types h t);
  mu_types : forall x, x <> t -> types h' x = types h x;
  mu_config :
    configs h' (EnumType._enumConfig (types h t))
    = Config.set_values (configs h (EnumType._enumConfig (types h t)))
        (backing h' t);
  mu_configs : forall x, x <> EnumType._enumConfig (types h t) ->
    configs h' x = configs h x;
  mu_backing : next_map h <= backing h' t;
  mu_maps : forall x, x < next_map h ->
    EnumType._nameLookup (types h t) <> Some x -> maps h' x = maps h x;
  mu_objs : forall x, x < next_obj h ->
    ~ In x (view_locs h t) -> ~ In x args -> objs h' x = objs h x;
  mu_strip : forall x, x < next_obj h -> strip (objs h' x) = strip (objs h x);
  mu_targets : forall v, In v (Obj.targets (maps h' (backing h' t))) ->
    v < next_obj h -> In v (view_locs h t) \/ In v args
}.

(** What [setFields({ ... })] establishes when handed a fresh table [m]:
    the closing step of every derived mutator. *)
Record installed (t : loc) (m : ValueMap) (h h' : Heap) : Prop := {
  is_wf : wf h';
  is_next_obj : next_obj h' = next_obj h;
  is_next_map : next_map h' = S (next_map h);
  is_next_config : next_config h' = next_config h;
  is_next_type : next_type h' = next_type h;
  is_type : types h' t = cleared (types h t);
  is_types : forall x, x <> t -> types h' x = types h x;
  is_backing : backing h' t = next_map h;
  is_config :
    configs h' (EnumType._enumConfig (types h t))
    = Config.set_values (configs h (EnumType._enumConfig (types h t)))
        (next_map h);
  is_configs : forall x, x <> EnumType._enumConfig (types h t) ->
    configs h' x = configs h x;
  is_map : maps h' (next_map h) = m;
  is_maps : forall x, x <> next_map h -> maps h' x = maps h x;
  is_objs_in : forall x, In x (Obj.targets m) -> objs h' x = strip (objs h x);
  is_objs_out : forall x, ~ In x (Obj.targets m) -> objs h' x = objs h x;
  is_view : view h' t = Obj.map_values (fun v => refreshed (objs h v)) m;
  is_deep : deep h' (next_map h) = Obj.map_values (fun v => strip (objs h v)) m
}.

(** [h'] is [h] after allocations only. *)
Record extends (h h' : Heap) : Prop := {
  ex_grows : grows h h';
  ex_next_type : next_type h' = next_type h;
  ex_next_config : next_config h' = next_config h;
  ex_types : types h' = types h;
  ex_configs : configs h' = configs h;
  ex_maps : forall x, x < next_map h -> maps h' x = maps h x;
  ex_objs : forall x, x < next_obj h -> objs h' x = objs h x
}.

(** The footprint of any call on the composer over [t], whether it returns
    or throws: among the objects allocated in [h] it writes only the type
    [t], its config, its cached lookup table and the values of that table;
    the table it shows afterwards is the one it showed or a new one, and holds
    no other object of [h] than the former did. *)
Record framed (t : loc) (h h' : Heap) : Prop := {
  fr_grows : grows h h';
  fr_next_type : next_type h' = next_type h;
  fr_next_config : next_config h' = next_config h;
  fr_types : forall x, x <> t -> types h' x = types h x;
  fr_enumConfig :
    EnumType._enumConfig (types h' t) = EnumType._enumConfig (types h t);
  fr_configs : forall x, x <> EnumType._enumConfig (types h t) ->
    configs h' x = configs h x;
  fr_cache : forall c, EnumType._nameLookup (types h' t) = Some c ->
    c < next_map h -> EnumType._nameLookup (types h t) = Some c;
  fr_maps : forall x, x < next_map h ->
    EnumType._nameLookup (types h t) <> Some x -> maps h' x = maps h x;
  fr_locs : forall v, In v (view_locs h' t) -> v < next_obj h ->
    In v (view_locs h t);
  fr_objs : forall x, x < next_obj h -> ~ In x (view_locs h t) ->
    objs h' x = objs h x;
  fr_shown : shown h' t = shown h t \/ next_map h <= shown h' t;
  fr_shown_locs : forall v, In v (Obj.targets (maps h' (shown h' t))) ->
    v < next_obj h -> In v (Obj.targets (maps h (shown h t)))
}.

(** What the view of [t1] reads is nothing a call on [t2] writes. *)
Definition apart (h : Heap) (t1 t2 : loc) : Prop :=
  t1 <> t2
  /\ EnumType._enumConfig (types h t1) <> EnumType._enumConfig (types h t2)
  /\ EnumType._nameLookup (types h t2) <> Some (shown h t1)
  /\ forall v, In v (Obj.targets (maps h (shown h t1))) ->
       ~ In v (view_locs h t2).

(** ** Reference functions on tables *)

(** The table without the listed keys. *)
Definition delete_all {V} (names : list string) (o : Obj.t V) : Obj.t V :=
  fold_left Obj.delete names o.

(** The keys of [ks] that [removeOtherFields(keep)] deletes. *)
Definition others (keep ks : list string) : list string :=
  filter (fun k => negb (Obj.mem k keep)) ks.

(** The names [removeField] is asked to delete. *)
Definition names_of (nameOrArray : NameOrArray) : list string :=
  match nameOrArray with
  | NameArray names => names
  | OneName name => [name]
  end.

(** [l] with only the first occurrence of each name kept. *)
Fixpoint dedup (l : list string) : list string :=
  match l with
  | [] => []
  | x :: xs => x :: filter (fun y => negb (String.eqb y x)) (dedup xs)
  end.

(** No name of [ks] is an array index: [Object.keys] lists properties of
    such names in the order of their creation. *)
Definition no_index (ks : list string) : bool :=
  forallb (fun k => negb (Obj.is_array_index k)) ks.

(** A name that an assignment to an object made by [{}] turns into an own
    property listed in the order of creation: no array index, and not
    [__proto__]. *)
Definition plain_name (k : string) : bool :=
  negb (Obj.is_array_index k) && negb (String.eqb k "__proto__").

(** The field [__proto__], if there is one, is not among [names]: no
    assignment of [reorderFields(names)] reaches the setter of
    [Object.prototype]. *)
Definition no_setter (names old : list string) : bool :=
  negb (Obj.mem "__proto__" names && Obj.mem "__proto__" old).

(** The names [reorderFields(names)] moves to the front: those of [names]
    that are fields, in the order of [names], each once. *)
Definition moved (names old : list string) : list string :=
  dedup (filter (fun n => Obj.mem n old) names).

(** The fields [reorderFields(names)] leaves behind, in their prior order. *)
Definition unmoved (names old : list string) : list string :=
  filter (fun k => negb (Obj.mem k names)) old.

(** The loop of [reorderFields] on the two tables it works on. *)
Fixpoint reorder_loop {V} (names : list string) (o f : Obj.t V)
  : Obj.t V * Obj.t V :=
  match names with
  | [] => (o, f)
  | n :: ns =>
      match Obj.get f n with
      | Some v =>
          reorder_loop ns
            (if Obj.reaches_setter o n then o else Obj.set o n v)
            (Obj.delete f n)
      | None => reorder_loop ns o f
      end
  end.

(** The table [reorderFields(names)] hands to [setFields]. *)
Definition reordered {V} (names : list string) (f : Obj.t V) : Obj.t V :=
  Obj.spread (fst (reorder_loop names [] f)) (snd (reorder_loop names [] f)).

(** The names a [deprecateFields] argument lists, in the order the call
    visits them, and the reason it gives for each. *)
Definition fields_of (fields : DeprecateSpec) : list string :=
  match fields with
  | DeprecateName field => [field]
  | DeprecateArray names => names
  | DeprecateMap fieldMap => Obj.keys fieldMap
  end.

Definition reason_of (fields : DeprecateSpec) (field : string) : JsVal :=
  match fields with
  | DeprecateName _ => JStr "deprecated"
  | DeprecateArray _ => JStr "deprecated"
  | DeprecateMap fieldMap =>
      match Obj.get fieldMap field with
      | Some v => v
      | None => JUndefined
      end
  end.

(** What each of the three branches of [deprecateFields] does for one name:
    the existence check, then [extendField] with the reason. *)
Definition deprecate_one (this : EnumTypeComposer)
    (existedFieldNames : list string) (reason : string -> JsVal)
    (field : string) : M unit :=
  (if indexOf_is_minus_one existedFieldNames field
   then deprecate_missing this field else ret tt) ;;;
  partial <- new_obj [("deprecationReason", reason field)] ;;
  extendField this field partial ;;;
  ret tt.

(** [p.deprecationReason] *)
Definition reason (p : JsObject) : option JsVal :=
  Obj.get p "deprecationReason".

(** The mutators of the composer. *)
Inductive Mutation : Type :=
| MSetFields (values : loc)
| MSetField (name : string) (valueConfig : loc)
| MAddFields (newValues : loc)
| MRemoveField (nameOrArray : NameOrArray)
| MRemoveOtherFields (fieldNameOrArray : NameOrArray)
| MReorderFields (names : list string)
| MExtendField (name : string) (partialValueConfig : loc)
| MDeprecateFields (fields : DeprecateSpec)
| MSetTypeName (name : string)
| MSetDescription (description : string).

Definition mutate (this : EnumTypeComposer) (mu : Mutation)
  : M EnumTypeComposer :=
  match mu with
  | MSetFields values => setFields this values
  | MSetField name valueConfig => setField this name valueConfig
  | MAddFields newValues => addFields this newValues
  | MRemoveField nameOrArray => removeField this nameOrArray
  | MRemoveOtherFields fieldNameOrArray =>
      removeOtherFields this fieldNameOrArray
  | MReorderFields names => reorderFields this names
  | MExtendField name partialValueConfig =>
      extendField this name partialValueConfig
  | MDeprecateFields fields => deprecateFields this fields
  | MSetTypeName name => setTypeName this name
  | MSetDescription description => setDescription this description
  end.

(** The objects a mutation refers to exist. *)
Definition allocated (h : Heap) (mu : Mutation) : Prop :=
  match mu with
  | MSetFields values => values < next_map h
  | MSetField _ valueConfig => valueConfig < next_obj h
  | MAddFields newValues => newValues < next_map h
  | MExtendField _ partialValueConfig => partialValueConfig < next_obj h
  | _ => True
  end.

(** The value configs a mutation receives from its caller to install as
    fields: [setFields], [addFields] and [setField] strip them in place. *)
Definition handed_over (h : Heap) (mu : Mutation) : list loc :=
  match mu with
  | MSetFields values => Obj.targets (maps h values)
  | MSetField _ valueConfig => [valueConfig]
  | MAddFields newValues => Obj.targets (maps h newValues)
  | _ => []
  end.

(** What a call on the composer over [t] may write among the objects
    allocated in [h], when the caller hands over the value configs [args]. *)
Record touched (t : loc) (args : list loc) (h h' : Heap) : Prop := {
  to_types : forall x, x <> t -> types h' x = types h x;
  to_configs : forall x, x <> EnumType._enumConfig (types h t) ->
    configs h' x = configs h x;
  to_maps : forall x, x < next_map h ->
    EnumType._nameLookup (types h t) <> Some x -> maps h' x = maps h x;
  to_objs : forall x, x < next_obj h -> ~ In x (view_locs h t) ->
    ~ In x args -> objs h' x = objs h x
}.

(** [this.gqType.description || ''] at store [h]. *)
Definition description_or_empty (h : Heap) (t : loc) : string :=
  match EnumType.description (types h t) with
  | Some d => d
  | None => ""
  end.

(** What [clone(newTypeName)] on the composer over [t] establishes: the
    composer over the new type [c] and the store [h'] it leaves.  The copy of
    a field named [__proto__] is no field of the clone: line 247 makes it the
    prototype of the new value map. *)
Record cloned_from (t : loc) (newTypeName : string) (h : Heap)
    (c : loc) (h' : Heap) : Prop := {
  cl_wf : wf h';
  cl_type : c = next_type h;
  cl_next_type : next_type h' = S (next_type h);
  cl_config : EnumType._enumConfig (types h' c) = next_config h;
  cl_map : next_map h <= backing h' c;
  cl_objs : forall v, In v (Obj.targets (maps h' (backing h' c))) ->
    next_obj h <= v;
  cl_cache : EnumType._nameLookup (types h' c) = None;
  cl_name : EnumType.name (types h' c) = newTypeName;
  cl_mirror_name :
    Config.name (configs h' (EnumType._enumConfig (types h' c)))
    = newTypeName;
  cl_description :
    EnumType.description (types h' c) = Some (description_or_empty h t);
  cl_original_description :
    EnumType.description (types h' t) = EnumType.description (types h t);
  cl_original_name : EnumType.name (types h' t) = EnumType.name (types h t);
  cl_stored :
    deep h' (backing h' c)
    = Obj.map_values strip (Obj.delete (view h t) "__proto__");
  cl_view :
    view h' c = Obj.map_values refreshed (Obj.delete (view h t) "__proto__");
  cl_original : view h' t = view h t;
  cl_apart : apart h' t c;
  cl_apart' : apart h' c t
}.

(** ** Invariants and footprints of sequences of calls *)

(** Whatever store the computation [c] starts from, the store it leaves,
    returning or throwing, is related to it by [R]. *)
Definition preserves {A} (R : Heap -> Heap -> Prop) (c : M A) : Prop :=
  forall h, R h (store c h).

(** The part of a type and of a config that names and describes it. *)
Definition type_header (ty : EnumType.t) : string * option string * loc :=
  (EnumType.name ty, EnumType.description ty, EnumType._enumConfig ty).
Definition config_header (c : Config.t) : string * option string :=
  (Config.name c, Config.description c).

(** No type and no config object has changed its name or description, and
    every type still mirrors the same config object. *)
Definition same_headers (h h' : Heap) : Prop :=
  (forall x, type_header (types h' x) = type_header (types h x))
  /\ (forall x, config_header (configs h' x) = config_header (configs h x)).

(** The mutators that work on the fields, not on the name or description. *)
Definition is_field_mutation (mu : Mutation) : bool :=
  match mu with
  | MSetTypeName _ | MSetDescription _ => false
  | _ => true
  end.

(** The type [t] and the config object it was built from agree on the name
    and on the description. *)
Definition mirrored (h : Heap) (t : loc) : Prop :=
  Config.name (configs h (EnumType._enumConfig (types h t)))
  = EnumType.name (types h t)
  /\ Config.description (configs h (EnumType._enumConfig (types h t)))
     = EnumType.description (types h t).

(** The type [t] keeps its config object, and no other config object is
    written. *)
Definition own_config (t : loc) (h h' : Heap) : Prop :=
  EnumType._enumConfig (types h' t) = EnumType._enumConfig (types h t)
  /\ forall x, x <> EnumType._enumConfig (types h t) ->
       configs h' x = configs h x.

(** The store after the mutations [mus] on [this], one after the other,
    whether each returned or threw. *)
Definition after_all (this : EnumTypeComposer) (mus : list Mutation)
    (h : Heap) : Heap :=
  fold_left (fun h' mu => store (mutate this mu) h') mus h.

(** What a call on the composer over [t] leaves of its cached lookup table:
    a table cached afterwards is the one cached before, or a new one, and
    likewise its values. *)
Definition cache_kept (t : loc) (h h' : Heap) : Prop :=
  (forall c, EnumType._nameLookup (types h' t) = Some c -> c < next_map h ->
     EnumType._nameLookup (types h t) = Some c)
  /\ (forall v, In v (view_locs h' t) -> v < next_obj h ->
        In v (view_locs h t)).

(** The mutations [mus] are called on [this] one after the other from the
    store [h]: each refers to objects that exist when it is called, and is
    handed no value config that the composer over [other] shows then. *)
Fixpoint hands_off (this : EnumTypeComposer) (other : loc)
    (mus : list Mutation) (h : Heap) : Prop :=
  match mus with
  | [] => True
  | mu :: mus' =>
      allocated h mu
      /\ (forall v, In v (handed_over h mu) ->
            ~ In v (Obj.targets (maps h (shown h other))))
      /\ hands_off this other mus' (store (mutate this mu) h)
  end.

(** Calls on two composers [a] and [b] in any order: [(true, mu)] is the
    mutation [mu] called on [a], [(false, mu)] is [mu] called on [b]. *)
Definition callee (a b : EnumTypeComposer) (on_a : bool) : EnumTypeComposer :=
  if on_a then a else b.

(** The mutation [mu] refers to objects that exist in [h] and is handed
    nothing of the composer over [other]: no value config that it shows, and
    not its cached lookup table as the new field map. *)
Definition kept_off (other : loc) (mu : Mutation) (h : Heap) : Prop :=
  allocated h mu
  /\ (forall v, In v (handed_over h mu) ->
        ~ In v (Obj.targets (maps h (shown h other))))
  /\ (forall values, mu = MSetFields values ->
        EnumType._nameLookup (types h other) <> Some values).

(** Every call of [calls], made from [h] on, is kept off the composer it is
    not called on. *)
Fixpoint each_kept_off (a b : EnumTypeComposer)
    (calls : list (bool * Mutation)) (h : Heap) : Prop :=
  match calls with
  | [] => True
  | (on_a, mu) :: rest =>
      kept_off (gqType (callee a b (negb on_a))) mu h
      /\ each_kept_off a b rest (store (mutate (callee a b on_a) mu) h)
  end.

(** Every call of [calls], made from [h] on, leaves the fields of the
    composer it is not called on as they are. *)
Fixpoint each_leaves_other (a b : EnumTypeComposer)
    (calls : list (bool * Mutation)) (h : Heap) : Prop :=
  match calls with
  | [] => True
  | (on_a, mu) :: rest =>
      let h1 := store (mutate (callee a b on_a) mu) h in
      view h1 (gqType (callee a b (negb on_a)))
      = view h (gqType (callee a b (negb on_a)))
      /\ each_leaves_other a b rest h1
  end.

(** When [c] returns, the type [t] has no cached lookup table. *)
Definition leaves_cleared {A} (t : loc) (c : M A) : Prop :=
  forall h a h', c h = (Normal a, h') ->
    EnumType._nameLookup (types h' t) = None.

(** The mutations that end in a call of [setFields] when they return. *)
Definition replaces_fields (mu : Mutation) : bool :=
  match mu with
  | MSetTypeName _ | MSetDescription _ => false
  | MDeprecateFields fields =>
      match fields_of fields with [] => false | _ :: _ => true end
  | _ => true
  end.

(** ** A sample store *)

Definition empty_heap : Heap :=
  mkHeap (fun _ => []) (fun _ => []) (fun _ => None)
         (fun _ => Config.make "" None 0)
         (fun _ => EnumType.make "" None 0 None None None)
         0 0 0 0.

(** [Color = new EnumTypeComposer(new GraphQLEnumType({ name: 'Color',
    values: { RED: { value: 1 }, GREEN: { value: 2, deprecationReason: 'old' },
    BLUE: {} } }))], followed by what a caller holds: the maps
    [{ PINK: { value: 4, isDeprecated: true }, RED: { value: 5 } }] and
    [{ RED: teal, TEAL: teal }] with [teal = { description: 'teal' }], and the
    object [{ value: 7, description: 'the red one' }]. *)
Definition color_setup : M EnumTypeComposer :=
  red <- new_obj [("value", JNum 1)] ;;
  green <- new_obj [("value", JNum 2); ("deprecationReason", JStr "old")] ;;
  blue <- new_obj [] ;;
  values <- new_map [("RED", red); ("GREEN", green); ("BLUE", blue)] ;;
  config <- new_config (Config.make "Color" None values) ;;
  ty <- GraphQLEnumType.new config ;;
  pink <- new_obj [("value", JNum 4); ("isDeprecated", JBool true)] ;;
  red' <- new_obj [("value", JNum 5)] ;;
  _ <- new_map [("PINK", pink); ("RED", red')] ;;
  teal <- new_obj [("description", JStr "teal")] ;;
  _ <- new_map [("RED", teal); ("TEAL", teal)] ;;
  _ <- new_obj [("value", JNum 7); ("description", JStr "the red one")] ;;
  ret (mkETC ty).

Definition color_heap : Heap := snd (color_setup empty_heap).
Definition Color : EnumTypeComposer := mkETC 0.

(** [Odd = new EnumTypeComposer(new GraphQLEnumType({ name: 'Odd', values:
    { a: {}, 1: {}, b: {}, ['__proto__']: {} } }))]: an enum with a value
    whose name is an array index, listed first by [Object.keys], and a value
    named [__proto__], an own property of the literal as its key is
    computed. *)
Definition odd_setup : M EnumTypeComposer :=
  one <- new_obj [] ;;
  a <- new_obj [] ;;
  b <- new_obj [] ;;
  proto <- new_obj [] ;;
  values <- new_map (Obj.assign []
                       [("a", a); ("1", one); ("b", b); ("__proto__", proto)]) ;;
  config <- new_config (Config.make "Odd" None values) ;;
  ty <- GraphQLEnumType.new config ;;
  ret (mkETC ty).

Definition odd_heap : Heap := snd (odd_setup empty_heap).
Definition Odd : EnumTypeComposer := mkETC 0.

(** The addresses of the caller's maps and object in [color_heap]. *)
Definition pink_map : loc := 1.
Definition teal_map : loc := 2.
Definition red_update : loc := 6.

(** * Properties *)

(** ** Ordered tables *)

(** *** The order of property names *)

Module KeyOrder.
Local Open Scope list_scope.

Lemma ascii_compare_refl c : Ascii.compare c c = Eq.
Proof. unfold Ascii.compare. apply N.compare_refl. Qed.

Lemma compare_refl s : String.compare s s = Eq.
Proof.
  induction s as [|c s IH]; simpl; [reflexivity|].
  now rewrite ascii_compare_refl.
Qed.

Lemma compare_lt_trans a : forall b c,
  String.compare a b = Lt -> String.compare b c = Lt ->
  String.compare a c = Lt.
Proof.
  induction a as [|x a IH]; intros [|y b] [|z c]; simpl; try discriminate;
    try reflexivity.
  unfold Ascii.compare.
  destruct (N.compare_spec (N_of_ascii x) (N_of_ascii y)) as [E1|L1|G1];
    try discriminate;
    destruct (N.compare_spec (N_of_ascii y) (N_of_ascii z)) as [E2|L2|G2];
    try discriminate; intros H1 H2.
  - rewrite E1, E2, N.compare_refl. now apply (IH b c).
  - rewrite E1. now apply N.compare_lt_iff in L2 as ->.
  - rewrite <- E2. now apply N.compare_lt_iff in L1 as ->.
  - assert (L : (N_of_ascii x < N_of_ascii z)%N) by lia.
    now apply N.compare_lt_iff in L as ->.
Qed.

Lemma ltb_lt a b : String.ltb a b = true <-> String.compare a b = Lt.
Proof. unfold String.ltb. destruct (String.compare a b); split; congruence. Qed.

Lemma shortlex_irrefl a : Obj.shortlex_lt a a = false.
Proof.
  unfold Obj.shortlex_lt. rewrite Nat.ltb_irrefl, Nat.eqb_refl. simpl.
  unfold String.ltb. now rewrite compare_refl.
Qed.

Lemma shortlex_trans a b c :
  Obj.shortlex_lt a b = true -> Obj.shortlex_lt b c = true ->
  Obj.shortlex_lt a c = true.
Proof.
  unfold Obj.shortlex_lt.
  rewrite !orb_true_iff, !andb_true_iff, !Nat.ltb_lt, !Nat.eqb_eq, !ltb_lt.
  intros [H1|[E1 L1]] [H2|[E2 L2]].
  - left. lia.
  - left. lia.
  - left. lia.
  - right. split; [lia|]. now apply (compare_lt_trans a b c).
Qed.

Lemma shortlex_total a b :
  Obj.shortlex_lt a b = false -> Obj.shortlex_lt b a = false -> a = b.
Proof.
  unfold Obj.shortlex_lt.
  rewrite !orb_false_iff, !andb_false_iff, !Nat.ltb_ge, !Nat.eqb_neq.
  intros [H1 H1'] [H2 H2'].
  assert (E : String.length a = String.length b) by lia.
  destruct H1' as [H1'|H1']; [contradiction|].
  destruct H2' as [H2'|H2']; [symmetry in E; contradiction|].
  apply String.compare_eq_iff. unfold String.ltb in *.
  rewrite String.compare_antisym in H2'.
  destruct (String.compare a b); simpl in *; congruence.
Qed.

Lemma precedes_plain k k' :
  Obj.is_array_index k = false -> Obj.precedes k k' = false.
Proof. unfold Obj.precedes. now intros ->. Qed.

Lemma precedes_irrefl k : Obj.precedes k k = false.
Proof.
  unfold Obj.precedes. destruct (Obj.is_array_index k); [|reflexivity].
  apply shortlex_irrefl.
Qed.

Lemma precedes_trans a b c :
  Obj.precedes a b = true -> Obj.precedes b c = true ->
  Obj.precedes a c = true.
Proof.
  unfold Obj.precedes.
  destruct (Obj.is_array_index a); [|discriminate].
  destruct (Obj.is_array_index b); [|discriminate].
  destruct (Obj.is_array_index c); [|reflexivity].
  apply shortlex_trans.
Qed.

(** Two names neither of which precedes the other are both array indices
    only if they are the same. *)
Lemma precedes_total a b :
  Obj.precedes a b = false -> Obj.precedes b a = false ->
  Obj.is_array_index a = Obj.is_array_index b
  /\ (Obj.is_array_index a = true -> a = b).
Proof.
  unfold Obj.precedes.
  destruct (Obj.is_array_index a), (Obj.is_array_index b);
    try discriminate; intros H1 H2; split; try reflexivity;
    try discriminate.
  intros _. now apply shortlex_total.
Qed.

(** ** Ordered lists of names *)

Lemma ordered_cons k ks :
  Obj.ordered (k :: ks) = true <->
  (forall e, In e ks -> Obj.precedes e k = false) /\ Obj.ordered ks = true.
Proof.
  simpl. rewrite andb_true_iff, forallb_forall. split; intros [H1 H2];
    (split; [|assumption]); intros e He; specialize (H1 e He).
  - now apply negb_true_iff.
  - now apply negb_true_iff.
Qed.

Lemma ordered_filter (p : string -> bool) ks :
  Obj.ordered ks = true -> Obj.ordered (filter p ks) = true.
Proof.
  induction ks as [|k ks IH]; [reflexivity|].
  intros H. apply ordered_cons in H as [H1 H2]. simpl.
  destruct (p k); [|now apply IH].
  apply ordered_cons. split; [|now apply IH].
  intros e He. apply filter_In in He as [He _]. now apply H1.
Qed.

Lemma ordered_app a b :
  Obj.ordered (a ++ b) = true <->
  Obj.ordered a = true /\ Obj.ordered b = true
  /\ forall x y, In x a -> In y b -> Obj.precedes y x = false.
Proof.
  induction a as [|k a IH]; simpl app.
  - split; [intros H; repeat split; [assumption | intros x y []]|tauto].
  - rewrite !ordered_cons, IH. split.
    + intros [H1 (H2 & H3 & H4)]. split; [split; [|assumption]|split].
      * intros e He. apply H1. apply in_or_app. now left.
      * assumption.
      * intros x y [<-|Hx] Hy; [|now apply H4].
        apply H1. apply in_or_app. now right.
    + intros [[H1 H2] (H3 & H4)]. split; [|split; [assumption|split]].
      * intros e He. apply in_app_or in He as [He|He]; [now apply H1|].
        apply H4; [now left | assumption].
      * assumption.
      * intros x y Hx Hy. apply H4; [now right | assumption].
Qed.

(** Two ordered lists of distinct names with the same names, and with the
    names that are not array indices in the same order, are the same. *)
Lemma ordered_ext : forall l1 l2,
  NoDup l1 -> NoDup l2 ->
  Obj.ordered l1 = true -> Obj.ordered l2 = true ->
  (forall k, In k l1 <-> In k l2) ->
  filter (fun k => negb (Obj.is_array_index k)) l1
  = filter (fun k => negb (Obj.is_array_index k)) l2 ->
  l1 = l2.
Proof.
  induction l1 as [|a l1 IH]; intros [|b l2] N1 N2 O1 O2 Hin Hni.
  - reflexivity.
  - exfalso. apply (Hin b). now left.
  - exfalso. apply (Hin a). now left.
  - apply ordered_cons in O1 as [P1 O1]. apply ordered_cons in O2 as [P2 O2].
    inversion N1 as [|? ? Na N1']; subst. inversion N2 as [|? ? Nb N2']; subst.
    assert (E : a = b).
    { destruct (string_dec a b) as [E|Hne]; [exact E|exfalso].
      assert (Ha : In a l2).
      { destruct (proj1 (Hin a) (or_introl eq_refl)); [congruence|assumption]. }
      assert (Hb : In b l1).
      { destruct (proj2 (Hin b) (or_introl eq_refl)); [congruence|assumption]. }
      destruct (@precedes_total a b (P2 a Ha) (P1 b Hb)) as [Hc Hi].
      destruct (Obj.is_array_index a) eqn:Ia.
      - now apply Hne, Hi.
      - simpl in Hni. rewrite Ia, <- Hc in Hni. simpl in Hni.
        injection Hni as Hni _. contradiction. }
    subst b. f_equal. apply IH; try assumption.
    + intros k. specialize (Hin k). simpl in Hin. split; intros Hk.
      * destruct (proj1 Hin (or_intror Hk)); [subst; contradiction|assumption].
      * destruct (proj2 Hin (or_intror Hk)); [subst; contradiction|assumption].
    + simpl in Hni. destruct (Obj.is_array_index a); simpl in Hni;
        [assumption | now injection Hni].
Qed.

End KeyOrder.

Module ObjFacts.

Lemma filter_filter {A} (f g : A -> bool) (l : list A) :
  filter f (filter g l) = filter (fun x => g x && f x) l.
Proof.
  induction l as [|x l IH]; simpl; [reflexivity|].
  destruct (g x); simpl; [destruct (f x)|]; now rewrite IH.
Qed.

Section Facts.
Local Open Scope list_scope.
Variable V : Type.
Implicit Types (o a b : Obj.t V) (k : string) (v : V).

Lemma mem_In k ks : Obj.mem k ks = true <-> In k ks.
Proof.
  unfold Obj.mem. rewrite existsb_exists. split.
  - intros [x [Hx He]]. apply String.eqb_eq in He. now subst.
  - intros H. exists k. split; [assumption | apply String.eqb_refl].
Qed.

Lemma mem_false k ks : Obj.mem k ks = false <-> ~ In k ks.
Proof.
  rewrite <- mem_In. destruct (Obj.mem k ks); split; intros; congruence.
Qed.

Lemma get_None o k : Obj.get o k = None <-> ~ In k (Obj.keys o).
Proof.
  induction o as [|[k' v'] o IH]; simpl.
  - tauto.
  - destruct (String.eqb_spec k' k).
    + split; [discriminate | intros H; exfalso; apply H; now left].
    + rewrite IH. tauto.
Qed.

Lemma get_Some_In o k v : Obj.get o k = Some v -> In (k, v) o.
Proof.
  induction o as [|[k' v'] o IH]; simpl; [discriminate|].
  destruct (String.eqb_spec k' k).
  - intros [= ->]. subst. now left.
  - intros H. right. now apply IH.
Qed.

Lemma get_In_keys o k v : Obj.get o k = Some v -> In k (Obj.keys o).
Proof.
  intros H. apply get_Some_In in H.
  unfold Obj.keys. now apply (in_map fst) in H.
Qed.

Lemma In_keys_get o k : In k (Obj.keys o) -> exists v, Obj.get o k = Some v.
Proof.
  intros H. destruct (Obj.get o k) eqn:E; [eauto|].
  apply get_None in E. contradiction.
Qed.

Lemma In_get o k v :
  NoDup (Obj.keys o) -> In (k, v) o -> Obj.get o k = Some v.
Proof.
  induction o as [|[k' v'] o IH]; simpl; [tauto|].
  intros Hnd [H|H].
  - inversion H; subst. now rewrite String.eqb_refl.
  - inversion Hnd; subst. destruct (String.eqb_spec k' k).
    + subst. exfalso. apply H2. now apply (in_map fst) in H.
    + now apply IH.
Qed.

Lemma has_In o k : Obj.has o k = true <-> In k (Obj.keys o).
Proof.
  unfold Obj.has. split.
  - destruct (Obj.get o k) eqn:E; [|discriminate].
    intros _. eapply get_In_keys; eauto.
  - intros H. apply In_keys_get in H as [v ->]. reflexivity.
Qed.

Lemma has_false o k : Obj.has o k = false <-> ~ In k (Obj.keys o).
Proof.
  rewrite <- has_In. destruct (Obj.has o k); split; intros; congruence.
Qed.

(** *** Replacing and creating a property *)

Lemma keys_replace o k v : Obj.keys (Obj.replace o k v) = Obj.keys o.
Proof.
  induction o as [|[k' v'] o IH]; simpl; [reflexivity|].
  destruct (String.eqb k' k); simpl; [reflexivity | now rewrite IH].
Qed.

Lemma get_replace_same o k v :
  In k (Obj.keys o) -> Obj.get (Obj.replace o k v) k = Some v.
Proof.
  induction o as [|[k' v'] o IH]; simpl; [tauto|].
  intros H. destruct (String.eqb_spec k' k); simpl.
  - subst. now rewrite String.eqb_refl.
  - destruct (String.eqb_spec k' k); [contradiction|].
    apply IH. destruct H; [contradiction | assumption].
Qed.

Lemma get_replace_other o k k' v :
  k <> k' -> Obj.get (Obj.replace o k v) k' = Obj.get o k'.
Proof.
  intros Hne. induction o as [|[k1 v1] o IH]; simpl; [reflexivity|].
  destruct (String.eqb_spec k1 k); simpl.
  - subst. destruct (String.eqb_spec k k'); [contradiction | reflexivity].
  - now rewrite IH.
Qed.

Lemma delete_replace o k v :
  Obj.delete (Obj.replace o k v) k = Obj.delete o k.
Proof.
  induction o as [|[k' v'] o IH]; simpl; [reflexivity|].
  destruct (String.eqb_spec k' k); simpl.
  - destruct (String.eqb_spec k' k); [reflexivity | contradiction].
  - destruct (String.eqb_spec k' k); [contradiction|]. simpl. now rewrite IH.
Qed.

Lemma get_insert_same o k v :
  ~ In k (Obj.keys o) -> Obj.get (Obj.insert o k v) k = Some v.
Proof.
  induction o as [|[k' v'] o IH]; simpl.
  - now rewrite String.eqb_refl.
  - intros H. destruct (Obj.precedes k k'); simpl.
    + now rewrite String.eqb_refl.
    + destruct (String.eqb_spec k' k); [exfalso; apply H; now left|].
      apply IH. tauto.
Qed.

Lemma get_insert_other o k k' v :
  k <> k' -> Obj.get (Obj.insert o k v) k' = Obj.get o k'.
Proof.
  intros Hne. induction o as [|[k1 v1] o IH]; simpl.
  - destruct (String.eqb_spec k k'); [contradiction | reflexivity].
  - destruct (Obj.precedes k k1); simpl.
    + destruct (String.eqb_spec k k'); [contradiction | reflexivity].
    + now rewrite IH.
Qed.

Lemma In_keys_insert o k v k' :
  In k' (Obj.keys (Obj.insert o k v)) <-> In k' (Obj.keys o) \/ k' = k.
Proof.
  induction o as [|[k1 v1] o IH]; simpl.
  - intuition auto.
  - destruct (Obj.precedes k k1); simpl; [intuition auto|].
    rewrite IH. intuition auto.
Qed.

Lemma NoDup_keys_insert o k v :
  NoDup (Obj.keys o) -> ~ In k (Obj.keys o) ->
  NoDup (Obj.keys (Obj.insert o k v)).
Proof.
  induction o as [|[k1 v1] o IH]; simpl; intros Hnd Hk.
  - repeat constructor. intros [].
  - destruct (Obj.precedes k k1); simpl.
    + constructor; assumption.
    + inversion Hnd; subst. constructor.
      * rewrite In_keys_insert. intuition auto.
      * apply IH; tauto.
Qed.

(** A new property whose name precedes none of the others goes last. *)
Lemma insert_last o k v :
  (forall e, In e (Obj.keys o) -> Obj.precedes k e = false) ->
  Obj.insert o k v = o ++ [(k, v)].
Proof.
  induction o as [|[k1 v1] o IH]; simpl; intros H; [reflexivity|].
  rewrite (H k1) by now left. f_equal. apply IH. intros e He. apply H.
  now right.
Qed.

Lemma delete_insert o k v :
  Obj.delete (Obj.insert o k v) k = Obj.delete o k.
Proof.
  induction o as [|[k' v'] o IH]; simpl.
  - now rewrite String.eqb_refl.
  - destruct (Obj.precedes k k'); simpl.
    + now rewrite String.eqb_refl.
    + now rewrite IH.
Qed.

Lemma ordered_insert o k v :
  Obj.ordered (Obj.keys o) = true ->
  Obj.ordered (Obj.keys (Obj.insert o k v)) = true.
Proof.
  induction o as [|[k1 v1] o IH]; simpl Obj.insert; intros H.
  - reflexivity.
  - change (Obj.keys ((k1, v1) :: o)) with (k1 :: Obj.keys o) in H.
    pose proof H as H0. apply KeyOrder.ordered_cons in H as [H1 H2].
    destruct (Obj.precedes k k1) eqn:P.
    + change (Obj.ordered (k :: k1 :: Obj.keys o) = true).
      apply KeyOrder.ordered_cons. split; [|exact H0].
      intros e [<-|He].
      * destruct (Obj.precedes k1 k) eqn:Q; [|reflexivity].
        pose proof (KeyOrder.precedes_trans _ _ _ P Q) as T.
        now rewrite KeyOrder.precedes_irrefl in T.
      * destruct (Obj.precedes e k) eqn:Q; [|reflexivity].
        pose proof (KeyOrder.precedes_trans _ _ _ Q P) as T.
        now rewrite (H1 e He) in T.
    + change (Obj.ordered (k1 :: Obj.keys (Obj.insert o k v)) = true).
      apply KeyOrder.ordered_cons. split; [|now apply IH].
      intros e He. apply In_keys_insert in He as [He| ->]; [now apply H1|].
      exact P.
Qed.

(** *** Writing a property *)

Lemma get_set_same o k v : Obj.get (Obj.set o k v) k = Some v.
Proof.
  unfold Obj.set. destruct (Obj.has o k) eqn:E.
  - apply get_replace_same. now apply has_In.
  - apply get_insert_same. now apply has_false.
Qed.

Lemma get_set_other o k k' v :
  k <> k' -> Obj.get (Obj.set o k v) k' = Obj.get o k'.
Proof.
  intros Hne. unfold Obj.set. destruct (Obj.has o k).
  - now apply get_replace_other.
  - now apply get_insert_other.
Qed.

(** A new property goes last when its name precedes none of the others. *)
Lemma set_last o k v :
  ~ In k (Obj.keys o) ->
  (forall e, In e (Obj.keys o) -> Obj.precedes k e = false) ->
  Obj.set o k v = o ++ [(k, v)].
Proof.
  intros Hk Hp. unfold Obj.set. apply has_false in Hk. rewrite Hk.
  now apply insert_last.
Qed.

(** So does every new property whose name is not an array index. *)
Lemma set_fresh o k v :
  Obj.is_array_index k = false -> ~ In k (Obj.keys o) ->
  Obj.set o k v = o ++ [(k, v)].
Proof.
  intros Hi Hk. apply set_last; [assumption|].
  intros e _. now apply KeyOrder.precedes_plain.
Qed.

Lemma keys_set_in o k v : In k (Obj.keys o) -> Obj.keys (Obj.set o k v) = Obj.keys o.
Proof.
  intros H. unfold Obj.set. apply has_In in H. rewrite H.
  apply keys_replace.
Qed.

Lemma keys_app a b : Obj.keys (a ++ b) = Obj.keys a ++ Obj.keys b.
Proof. apply map_app. Qed.

Lemma keys_delete o k :
  Obj.keys (Obj.delete o k) =
  filter (fun k' => negb (String.eqb k' k)) (Obj.keys o).
Proof.
  induction o as [|[k' v'] o IH]; simpl; [reflexivity|].
  destruct (String.eqb k' k); simpl; now rewrite IH.
Qed.

Lemma In_keys_delete o k k' :
  In k' (Obj.keys (Obj.delete o k)) <-> In k' (Obj.keys o) /\ k' <> k.
Proof.
  rewrite keys_delete, filter_In, negb_true_iff, String.eqb_neq. tauto.
Qed.

Lemma get_delete_same o k : Obj.get (Obj.delete o k) k = None.
Proof. apply get_None. rewrite In_keys_delete. tauto. Qed.

Lemma get_delete_other o k k' :
  k <> k' -> Obj.get (Obj.delete o k) k' = Obj.get o k'.
Proof.
  intros Hne. induction o as [|[k1 v1] o IH]; simpl; [reflexivity|].
  destruct (String.eqb_spec k1 k); simpl.
  - subst. destruct (String.eqb_spec k k'); [contradiction | assumption].
  - destruct (String.eqb_spec k1 k'); [reflexivity | assumption].
Qed.

Lemma delete_absent o k : ~ In k (Obj.keys o) -> Obj.delete o k = o.
Proof.
  induction o as [|[k' v'] o IH]; simpl; [reflexivity|].
  intros H. destruct (String.eqb_spec k' k); simpl.
  - exfalso. apply H. now left.
  - f_equal. apply IH. tauto.
Qed.

Lemma delete_set o k v : Obj.delete (Obj.set o k v) k = Obj.delete o k.
Proof.
  unfold Obj.set. destruct (Obj.has o k).
  - apply delete_replace.
  - apply delete_insert.
Qed.

Lemma delete_idem o k : Obj.delete (Obj.delete o k) k = Obj.delete o k.
Proof. apply delete_absent. rewrite In_keys_delete. tauto. Qed.

Lemma NoDup_keys_delete o k :
  NoDup (Obj.keys o) -> NoDup (Obj.keys (Obj.delete o k)).
Proof. rewrite keys_delete. apply NoDup_filter. Qed.

Lemma ordered_delete o k :
  Obj.ordered (Obj.keys o) = true ->
  Obj.ordered (Obj.keys (Obj.delete o k)) = true.
Proof. rewrite keys_delete. apply KeyOrder.ordered_filter. Qed.

Lemma NoDup_keys_set o k v :
  NoDup (Obj.keys o) -> NoDup (Obj.keys (Obj.set o k v)).
Proof.
  intros H. unfold Obj.set. destruct (Obj.has o k) eqn:E.
  - now rewrite keys_replace.
  - apply NoDup_keys_insert; [assumption|]. now apply has_false.
Qed.

Lemma In_keys_set o k v k' :
  In k' (Obj.keys (Obj.set o k v)) <-> In k' (Obj.keys o) \/ k' = k.
Proof.
  unfold Obj.set. destruct (Obj.has o k) eqn:E.
  - rewrite keys_replace. apply has_In in E. split; [tauto|].
    intros [H|H]; [assumption | now subst].
  - apply In_keys_insert.
Qed.

Lemma ordered_set o k v :
  Obj.ordered (Obj.keys o) = true ->
  Obj.ordered (Obj.keys (Obj.set o k v)) = true.
Proof.
  intros H. unfold Obj.set. destruct (Obj.has o k).
  - now rewrite keys_replace.
  - now apply ordered_insert.
Qed.

(** Tables with the same keys in the same order and the same value under
    each key are equal. *)
Lemma table_ext a b :
  NoDup (Obj.keys a) -> Obj.keys a = Obj.keys b ->
  (forall k, Obj.get a k = Obj.get b k) -> a = b.
Proof.
  revert b. induction a as [|[k v] a IH]; intros [|[k' v'] b] Hnd Hk Hg;
    simpl in *; try discriminate; [reflexivity|].
  injection Hk as -> Hk. inversion Hnd; subst.
  pose proof (Hg k') as H0. rewrite String.eqb_refl in H0.
  injection H0 as ->. f_equal. apply IH; [assumption | assumption |].
  intros k. specialize (Hg k).
  destruct (String.eqb_spec k' k); [|assumption].
  subst. transitivity (@None V).
  - now apply get_None.
  - symmetry. apply get_None. now rewrite <- Hk.
Qed.

(** *** Spreading *)

Lemma assign_app a s1 s2 :
  Obj.assign a (s1 ++ s2) = Obj.assign (Obj.assign a s1) s2.
Proof. unfold Obj.assign. apply fold_left_app. Qed.

Lemma get_assign a s k :
  Obj.get (Obj.assign a s) k =
  match Obj.get (rev s) k with Some v => Some v | None => Obj.get a k end.
Proof.
  induction s as [|[k' v'] s IH] using rev_ind; [reflexivity|].
  rewrite assign_app, rev_app_distr. simpl.
  destruct (String.eqb_spec k' k).
  - subst. apply get_set_same.
  - rewrite get_set_other by assumption. apply IH.
Qed.

Lemma get_rev o k : NoDup (Obj.keys o) -> Obj.get (rev o) k = Obj.get o k.
Proof.
  intros Hnd. destruct (Obj.get o k) eqn:E.
  - apply In_get.
    + unfold Obj.keys. rewrite map_rev. now apply NoDup_rev.
    + apply in_rev. rewrite rev_involutive. now apply get_Some_In.
  - apply get_None. apply get_None in E.
    unfold Obj.keys in *. rewrite map_rev, <- in_rev. assumption.
Qed.

(** Spreading a source whose new names are not array indices appends them
    in their order. *)
Lemma keys_assign a s :
  NoDup (Obj.keys s) ->
  (forall k, In k (Obj.keys s) -> ~ In k (Obj.keys a) ->
     Obj.is_array_index k = false) ->
  Obj.keys (Obj.assign a s) =
  Obj.keys a ++ filter (fun k => negb (Obj.mem k (Obj.keys a))) (Obj.keys s).
Proof.
  revert a. induction s as [|[k v] s IH]; intros a Hnd Hp; simpl.
  - now rewrite app_nil_r.
  - inversion Hnd; subst. change (Obj.assign a ((k, v) :: s))
      with (Obj.assign (Obj.set a k v) s).
    rewrite IH; [|assumption|].
    2:{ intros x Hx Hn. apply Hp; [now right|].
        intros Hin. apply Hn. apply In_keys_set. now left. }
    destruct (Obj.mem k (Obj.keys a)) eqn:E; simpl.
    + apply mem_In in E. rewrite keys_set_in by assumption. reflexivity.
    + apply mem_false in E.
      rewrite set_fresh, keys_app; [|apply Hp; [now left|assumption]
                                    |assumption].
      simpl. rewrite <- app_assoc. simpl. do 2 f_equal.
      apply filter_ext_in. intros x Hx. f_equal.
      destruct (Obj.mem x (Obj.keys a)) eqn:E1.
      * apply mem_In. apply mem_In in E1. apply in_or_app. now left.
      * apply mem_false. apply mem_false in E1. rewrite in_app_iff. simpl.
        intros [H|[H|[]]]; [contradiction|]. subst. contradiction.
Qed.

Lemma NoDup_keys_assign a s :
  NoDup (Obj.keys a) -> NoDup (Obj.keys (Obj.assign a s)).
Proof.
  revert a. induction s as [|[k v] s IH]; intros a Hnd; [assumption|].
  apply IH. now apply NoDup_keys_set.
Qed.

Lemma In_keys_assign a s k :
  In k (Obj.keys (Obj.assign a s)) <-> In k (Obj.keys a) \/ In k (Obj.keys s).
Proof.
  revert a. induction s as [|[k' v] s IH]; intros a; simpl; [tauto|].
  change (Obj.assign a ((k', v) :: s)) with (Obj.assign (Obj.set a k' v) s).
  rewrite IH, In_keys_set. intuition auto.
Qed.

Lemma ordered_assign a s :
  Obj.ordered (Obj.keys a) = true ->
  Obj.ordered (Obj.keys (Obj.assign a s)) = true.
Proof.
  revert a. induction s as [|[k v] s IH]; intros a H; [assumption|].
  apply IH. now apply ordered_set.
Qed.

(** Spreading new properties that are already in the order of [Object.keys]
    after the others appends them. *)
Lemma assign_append s : forall a,
  NoDup (Obj.keys a ++ Obj.keys s) ->
  Obj.ordered (Obj.keys a ++ Obj.keys s) = true ->
  Obj.assign a s = a ++ s.
Proof.
  induction s as [|[k v] s IH]; intros a Hnd Ho.
  - now rewrite app_nil_r.
  - change (Obj.assign a ((k, v) :: s))
      with (Obj.assign (Obj.set a k v) s).
    assert (E : Obj.set a k v = a ++ [(k, v)]).
    { apply set_last.
      - intros Hin. apply NoDup_remove_2 in Hnd. apply Hnd.
        apply in_or_app. now left.
      - intros e He. apply KeyOrder.ordered_app in Ho as (_ & _ & Ho).
        apply Ho; [assumption | now left]. }
    rewrite E, IH.
    + now rewrite <- app_assoc.
    + rewrite keys_app. simpl. now rewrite <- app_assoc.
    + rewrite keys_app. simpl. now rewrite <- app_assoc.
Qed.

(** [{ ...a }] is a table with the same content. *)
Lemma copy_id a :
  NoDup (Obj.keys a) -> Obj.ordered (Obj.keys a) = true -> Obj.copy a = a.
Proof. intros Hnd Ho. unfold Obj.copy. now rewrite assign_append. Qed.

Lemma spread_eq a b :
  NoDup (Obj.keys a) -> Obj.ordered (Obj.keys a) = true ->
  Obj.spread a b = Obj.assign a b.
Proof.
  intros H Ho. unfold Obj.spread. fold (Obj.copy a). now rewrite copy_id.
Qed.

Lemma NoDup_keys_spread a b : NoDup (Obj.keys (Obj.spread a b)).
Proof.
  unfold Obj.spread. apply NoDup_keys_assign, NoDup_keys_assign. constructor.
Qed.

Lemma ordered_spread a b : Obj.ordered (Obj.keys (Obj.spread a b)) = true.
Proof. unfold Obj.spread. now apply ordered_assign, ordered_assign. Qed.

Lemma get_spread a b k :
  NoDup (Obj.keys a) -> NoDup (Obj.keys b) ->
  Obj.get (Obj.spread a b) k =
  match Obj.get b k with Some v => Some v | None => Obj.get a k end.
Proof.
  intros Ha Hb. unfold Obj.spread.
  rewrite !get_assign, !get_rev by assumption.
  destruct (Obj.get b k), (Obj.get a k); reflexivity.
Qed.

Lemma keys_spread a b :
  NoDup (Obj.keys a) -> Obj.ordered (Obj.keys a) = true ->
  NoDup (Obj.keys b) ->
  (forall k, In k (Obj.keys b) -> ~ In k (Obj.keys a) ->
     Obj.is_array_index k = false) ->
  Obj.keys (Obj.spread a b) =
  Obj.keys a ++ filter (fun k => negb (Obj.mem k (Obj.keys a))) (Obj.keys b).
Proof.
  intros Ha Ho Hb Hp. rewrite spread_eq by assumption. now apply keys_assign.
Qed.

Lemma mem_keys_spread a b k :
  Obj.mem k (Obj.keys (Obj.spread a b))
  = Obj.mem k (Obj.keys a) || Obj.mem k (Obj.keys b).
Proof.
  apply eq_true_iff_eq. rewrite orb_true_iff, !mem_In.
  unfold Obj.spread. rewrite !In_keys_assign. simpl. tauto.
Qed.

(** *** The names that are not array indices *)

Lemma plain_keys_insert o k v :
  Obj.plain (Obj.keys (Obj.insert o k v))
  = if Obj.is_array_index k then Obj.plain (Obj.keys o)
    else Obj.plain (Obj.keys o) ++ [k].
Proof.
  destruct (Obj.is_array_index k) eqn:Ik.
  - unfold Obj.plain, Obj.keys. induction o as [|[k1 v1] o IH]; simpl.
    + now rewrite Ik.
    + destruct (Obj.precedes k k1); simpl.
      * now rewrite Ik.
      * now rewrite IH.
  - rewrite insert_last by (intros e _; now apply KeyOrder.precedes_plain).
    rewrite keys_app. unfold Obj.plain. rewrite filter_app. simpl.
    now rewrite Ik.
Qed.

Lemma plain_keys_set o k v :
  Obj.plain (Obj.keys (Obj.set o k v))
  = if Obj.is_array_index k || Obj.mem k (Obj.keys o)
    then Obj.plain (Obj.keys o) else Obj.plain (Obj.keys o) ++ [k].
Proof.
  unfold Obj.set. destruct (Obj.has o k) eqn:E.
  - rewrite keys_replace. apply has_In, mem_In in E. rewrite E.
    now rewrite orb_true_r.
  - rewrite plain_keys_insert. apply has_false, mem_false in E. rewrite E.
    now rewrite orb_false_r.
Qed.

Lemma plain_keys_assign a s :
  NoDup (Obj.keys s) ->
  Obj.plain (Obj.keys (Obj.assign a s))
  = Obj.plain (Obj.keys a)
    ++ filter (fun k => negb (Obj.mem k (Obj.keys a))) (Obj.plain (Obj.keys s)).
Proof.
  revert a. induction s as [|[k v] s IH]; intros a Hnd; simpl.
  - now rewrite app_nil_r.
  - inversion Hnd; subst. change (Obj.assign a ((k, v) :: s))
      with (Obj.assign (Obj.set a k v) s).
    rewrite IH by assumption. rewrite plain_keys_set.
    assert (F : filter (fun x => negb (Obj.mem x (Obj.keys (Obj.set a k v))))
                  (Obj.plain (Obj.keys s))
                = filter (fun x => negb (Obj.mem x (Obj.keys a)))
                    (Obj.plain (Obj.keys s))).
    { apply filter_ext_in. intros x Hx. f_equal.
      apply filter_In in Hx as [Hx _].
      apply eq_true_iff_eq. rewrite !mem_In, In_keys_set.
      split; [|tauto]. intros [H|H]; [assumption|]. subst. contradiction. }
    rewrite F. unfold Obj.plain at 4. simpl.
    destruct (Obj.is_array_index k) eqn:Ik; simpl; [reflexivity|].
    destruct (Obj.mem k (Obj.keys a)) eqn:E; simpl; [reflexivity|].
    now rewrite <- app_assoc.
Qed.

Lemma plain_keys_copy a :
  NoDup (Obj.keys a) -> Obj.plain (Obj.keys (Obj.copy a)) = Obj.plain (Obj.keys a).
Proof.
  intros Ha. unfold Obj.copy. rewrite plain_keys_assign by assumption.
  change (Obj.plain (@Obj.keys V [])) with (@nil string). rewrite app_nil_l.
  apply forallb_filter_id. apply forallb_forall. reflexivity.
Qed.

Lemma plain_keys_spread a b :
  NoDup (Obj.keys a) -> NoDup (Obj.keys b) ->
  Obj.plain (Obj.keys (Obj.spread a b))
  = Obj.plain (Obj.keys a)
    ++ filter (fun k => negb (Obj.mem k (Obj.keys a))) (Obj.plain (Obj.keys b)).
Proof.
  intros Ha Hb. unfold Obj.spread. fold (Obj.copy a).
  rewrite plain_keys_assign, plain_keys_copy by assumption.
  f_equal. apply filter_ext. intros k. f_equal.
  apply eq_true_iff_eq. rewrite !mem_In. unfold Obj.copy.
  rewrite In_keys_assign. simpl. tauto.
Qed.

(** Two tables in the order of [Object.keys] with the same value under each
    name, and with the names that are not array indices in the same order,
    are equal. *)
Lemma ordered_table_ext a b :
  NoDup (Obj.keys a) -> NoDup (Obj.keys b) ->
  Obj.ordered (Obj.keys a) = true -> Obj.ordered (Obj.keys b) = true ->
  Obj.plain (Obj.keys a) = Obj.plain (Obj.keys b) ->
  (forall k, Obj.get a k = Obj.get b k) -> a = b.
Proof.
  intros Na Nb Oa Ob Hp Hg. apply table_ext; [assumption| |assumption].
  apply KeyOrder.ordered_ext; try assumption.
  intros k. rewrite <- !has_In. unfold Obj.has. now rewrite Hg.
Qed.

(** [{ ...{ ...x, ...y }, ...z }] and [{ ...x, ...{ ...y, ...z } }] are the
    same table: same keys in the same order, the rightmost value under each. *)
Lemma spread_assoc (x y z : Obj.t V) :
  NoDup (Obj.keys x) -> NoDup (Obj.keys y) -> NoDup (Obj.keys z) ->
  Obj.spread (Obj.spread x y) z = Obj.spread x (Obj.spread y z).
Proof.
  intros Hx Hy Hz.
  pose proof (NoDup_keys_spread x y) as Hxy.
  pose proof (NoDup_keys_spread y z) as Hyz.
  apply ordered_table_ext; try apply NoDup_keys_spread;
    try apply ordered_spread.
  - rewrite !plain_keys_spread, filter_app, <- app_assoc by assumption.
    do 2 f_equal.
    rewrite filter_filter. apply filter_ext. intros k.
    rewrite mem_keys_spread, negb_orb. apply andb_comm.
  - intros k. rewrite !get_spread by assumption.
    destruct (Obj.get z k), (Obj.get y k); reflexivity.
Qed.

End Facts.

Section MapFacts.
Variables A B : Type.
Variable f : A -> B.

Lemma keys_map_values (o : Obj.t A) :
  Obj.keys (Obj.map_values f o) = Obj.keys o.
Proof.
  unfold Obj.keys, Obj.map_values. rewrite map_map. reflexivity.
Qed.

Lemma get_map_values (o : Obj.t A) k :
  Obj.get (Obj.map_values f o) k = option_map f (Obj.get o k).
Proof.
  induction o as [|[k' v'] o IH]; simpl; [reflexivity|].
  destruct (String.eqb k' k); [reflexivity | assumption].
Qed.

Lemma has_map_values' (o : Obj.t A) k :
  Obj.has (Obj.map_values f o) k = Obj.has o k.
Proof.
  unfold Obj.has. rewrite get_map_values. now destruct (Obj.get o k).
Qed.

Lemma map_values_set (o : Obj.t A) k v :
  Obj.map_values f (Obj.set o k v) = Obj.set (Obj.map_values f o) k (f v).
Proof.
  unfold Obj.set. rewrite has_map_values'. destruct (Obj.has o k).
  - induction o as [|[k' v'] o IH]; simpl; [reflexivity|].
    destruct (String.eqb k' k); simpl; [reflexivity | now rewrite IH].
  - induction o as [|[k' v'] o IH]; simpl; [reflexivity|].
    destruct (Obj.precedes k k'); simpl; [reflexivity | now rewrite IH].
Qed.

Lemma map_values_delete (o : Obj.t A) k :
  Obj.map_values f (Obj.delete o k) = Obj.delete (Obj.map_values f o) k.
Proof.
  induction o as [|[k' v'] o IH]; simpl; [reflexivity|].
  destruct (String.eqb k' k); simpl; now rewrite IH.
Qed.

Lemma map_values_assign (a s : Obj.t A) :
  Obj.map_values f (Obj.assign a s) =
  Obj.assign (Obj.map_values f a) (Obj.map_values f s).
Proof.
  revert a. induction s as [|[k v] s IH]; intros a; [reflexivity|].
  simpl. change (Obj.assign a ((k, v) :: s))
    with (Obj.assign (Obj.set a k v) s).
  rewrite IH, map_values_set. reflexivity.
Qed.

Lemma map_values_spread (a b : Obj.t A) :
  Obj.map_values f (Obj.spread a b) =
  Obj.spread (Obj.map_values f a) (Obj.map_values f b).
Proof. unfold Obj.spread. now rewrite !map_values_assign. Qed.

Lemma map_values_ext (g : A -> B) (o : Obj.t A) :
  (forall v, In v (Obj.targets o) -> f v = g v) ->
  Obj.map_values f o = Obj.map_values g o.
Proof.
  intros H. apply map_ext_in. intros [k v] Hin. simpl. f_equal.
  apply H. unfold Obj.targets. now apply (in_map snd) in Hin.
Qed.
End MapFacts.

Lemma map_values_map_values {A B C} (f : A -> B) (g : B -> C) (o : Obj.t A) :
Obj.map_values g (Obj.map_values f o) = Obj.map_values (fun x => g (f x)) o.
Proof. unfold Obj.map_values. rewrite map_map. reflexivity. Qed.

End ObjFacts.

(** ** Stores *)

Section StoreFacts.
Local Open Scope list_scope.

Lemma upd_same {A} (f : loc -> A) l a : upd f l a l = a.
Proof. unfold upd. now rewrite Nat.eqb_refl. Qed.

Lemma upd_other {A} (f : loc -> A) l a x : x <> l -> upd f l a x = f x.
Proof. unfold upd. intros H. apply Nat.eqb_neq in H. now rewrite H. Qed.

Lemma nodupb_NoDup ks : nodupb ks = true <-> NoDup ks.
Proof.
  induction ks as [|k ks IH]; simpl.
  - split; [constructor | reflexivity].
  - rewrite andb_true_iff, negb_true_iff, ObjFacts.mem_false, IH. split.
    + intros [H1 H2]. now constructor.
    + intros H. inversion H. tauto.
Qed.

Lemma well_formed_wf h : well_formed h = true -> wf h.
Proof.
  unfold well_formed. rewrite !andb_true_iff, !forallb_forall.
  intros [[[Ht Hc] Hm] Hp].
  assert (Hts : forall l, l < next_type h -> type_ok h l = true).
  { intros l Hl. apply Ht. apply in_seq. lia. }
  assert (Hcs : forall l, l < next_config h -> config_ok h l = true).
  { intros l Hl. apply Hc. apply in_seq. lia. }
  assert (Hms : forall l, l < next_map h -> map_ok h l = true).
  { intros l Hl. apply Hm. apply in_seq. lia. }
  assert (Hps : forall l, l < next_obj h -> obj_ok h l = true).
  { intros l Hl. apply Hp. apply in_seq. lia. }
  clear Ht Hc Hm Hp. constructor.
  - intros l Hl. specialize (Hts l Hl). unfold type_ok in Hts.
    rewrite andb_true_iff in Hts. apply Nat.ltb_lt. tauto.
  - intros l c Hl Hc. specialize (Hts l Hl). unfold type_ok in Hts.
    rewrite andb_true_iff, Hc in Hts. simpl in Hts. apply Nat.ltb_lt. tauto.
  - intros l Hl. specialize (Hcs l Hl). now apply Nat.ltb_lt.
  - intros l Hl. specialize (Hms l Hl). unfold map_ok in Hms.
    rewrite !andb_true_iff in Hms. apply nodupb_NoDup. tauto.
  - intros l v Hl Hv. specialize (Hms l Hl). unfold map_ok in Hms.
    rewrite !andb_true_iff, forallb_forall in Hms. apply Nat.ltb_lt.
    now apply Hms.
  - intros l Hl. specialize (Hps l Hl). unfold obj_ok in Hps.
    rewrite andb_true_iff in Hps. apply nodupb_NoDup. tauto.
  - intros l Hl. specialize (Hms l Hl). unfold map_ok in Hms.
    rewrite !andb_true_iff in Hms. tauto.
  - intros l Hl. specialize (Hps l Hl). unfold obj_ok in Hps.
    rewrite andb_true_iff in Hps. tauto.
Qed.

Lemma grows_refl h : grows h h.
Proof. constructor; lia. Qed.

Lemma grows_trans h1 h2 h3 : grows h1 h2 -> grows h2 h3 -> grows h1 h3.
Proof. intros [] []. constructor; lia. Qed.

Lemma frontier_grows h h' : frontier h' = frontier h -> grows h h'.
Proof. unfold frontier. intros [= H1 H2 H3 H4]. constructor; lia. Qed.

Lemma strip_idem o : strip (strip o) = strip o.
Proof. apply ObjFacts.delete_idem. Qed.

Lemma strip_define o :
  strip (GraphQLEnumType.defineEnumValue o) = strip o.
Proof. apply ObjFacts.delete_set. Qed.

Lemma has_strip o : Obj.has (strip o) "isDeprecated" = false.
Proof.
  unfold Obj.has, strip. now rewrite ObjFacts.get_delete_same.
Qed.

Lemma get_strip o k :
  k <> "isDeprecated" -> Obj.get (strip o) k = Obj.get o k.
Proof. intros H. apply ObjFacts.get_delete_other. congruence. Qed.

Lemma get_define o k :
  k <> "isDeprecated" ->
  Obj.get (GraphQLEnumType.defineEnumValue o) k = Obj.get o k.
Proof. intros H. apply ObjFacts.get_set_other. congruence. Qed.

Lemma reached_In m ks x :
  reached m ks x = true <->
  exists k, In k ks /\ Obj.get m k = Some x.
Proof.
  unfold reached. rewrite existsb_exists. split.
  - intros [k [Hk Hg]]. exists k. split; [assumption|].
    destruct (Obj.get m k); [|discriminate].
    apply Nat.eqb_eq in Hg. now subst.
  - intros [k [Hk Hg]]. exists k. split; [assumption|].
    rewrite Hg. apply Nat.eqb_refl.
Qed.

Lemma reached_targets m x :
  NoDup (Obj.keys m) ->
  reached m (Obj.keys m) x = true <-> In x (Obj.targets m).
Proof.
  intros Hnd. rewrite reached_In. split.
  - intros [k [_ Hg]]. apply ObjFacts.get_Some_In in Hg.
    now apply (in_map snd) in Hg.
  - intros Hin. unfold Obj.targets in Hin. apply in_map_iff in Hin.
    destruct Hin as [[k v] [Hv Hin]]. simpl in Hv. subst.
    exists k. split.
    + now apply (in_map fst) in Hin.
    + now apply ObjFacts.In_get.
Qed.

End StoreFacts.

(** ** The full-replace primitive *)

Section SetFields.
Local Open Scope list_scope.

(** The clean-up loop of [setFields]: every object reached through a listed
    key loses its marker, nothing else changes. *)
Lemma strip_loop values ks : forall h,
  (forall k, In k ks -> In k (Obj.keys (maps h values))) ->
  exists h',
    forEach ks (fun key =>
      m' <- read_map values ;;
      match Obj.get m' key with
      | Some v =>
          o <- read_obj v ;;
          write_obj v (Obj.delete o "isDeprecated")
      | None =>
          throw (TypeError "Cannot convert undefined or null to object")
      end) h = (Normal tt, h')
    /\ frontier h' = frontier h /\ maps h' = maps h
    /\ configs h' = configs h /\ types h' = types h
    /\ forall x, objs h' x =
         if reached (maps h values) ks x then strip (objs h x) else objs h x.
Proof.
  induction ks as [|k ks IH]; intros h Hin.
  - exists h. simpl. repeat split; reflexivity.
  - destruct (ObjFacts.In_keys_get (maps h values) k) as [v Hv].
    { apply Hin. now left. }
    set (h1 := with_objs h (upd (objs h) v (strip (objs h v))) (next_obj h)).
    destruct (IH h1) as (h' & Hrun & Hn & Hm & Hc & Ht & Ho).
    { intros k' Hk'. apply Hin. now right. }
    exists h'. split; [|repeat split; try assumption].
    + simpl. unfold bind at 1. unfold bind at 1. unfold read_map at 1.
      rewrite Hv. unfold bind at 1. unfold read_obj at 1, write_obj at 1.
      exact Hrun.
    + intros x. rewrite Ho. simpl. rewrite Hv.
      destruct (Nat.eqb_spec v x) as [->|Hne]; simpl.
      * rewrite upd_same.
        destruct (reached (maps h values) ks x); [apply strip_idem | reflexivity].
      * rewrite upd_other by congruence. reflexivity.
Qed.

Lemma setFields_run this values h :
  exists h',
    setFields this values h = (Normal this, h')
    /\ frontier h' = frontier h /\ maps h' = maps h
    /\ (forall x, objs h' x =
          if reached (maps h values) (Obj.keys (maps h values)) x
          then strip (objs h x) else objs h x)
    /\ (forall x, configs h' x =
          if Nat.eqb x (EnumType._enumConfig (types h (gqType this)))
          then Config.set_values
                 (configs h (EnumType._enumConfig (types h (gqType this))))
                 values
          else configs h x)
    /\ (forall x, types h' x =
          if Nat.eqb x (gqType this) then cleared (types h (gqType this))
          else types h x).
Proof.
  destruct (strip_loop values (Obj.keys (maps h values)) h)
    as (h1 & Hrun & Hn & Hm & Hc & Ht & Ho); [auto|].
  eexists. split.
  - unfold setFields. unfold bind at 1. unfold read_map at 1.
    unfold bind at 1. rewrite Hrun.
    unfold bind, read_type, read_config, write_config, write_type, ret.
    simpl. reflexivity.
  - simpl. repeat split; try assumption.
    + intros x. rewrite Hc, Ht. unfold upd. reflexivity.
    + intros x. rewrite Ht. unfold upd. rewrite !Nat.eqb_refl.
      destruct (Nat.eqb x (gqType this)); reflexivity.
Qed.

End SetFields.

(** ** The read view *)

Section GetFields.
Local Open Scope list_scope.
Import GraphQLEnumType.

Lemma deep_frame h h' l :
  maps h' l = maps h l ->
  (forall v, In v (Obj.targets (maps h l)) -> objs h' v = objs h v) ->
  deep h' l = deep h l.
Proof.
  intros Hm Ho. unfold deep. rewrite Hm. now apply ObjFacts.map_values_ext.
Qed.

(** The loop of [_getNameLookup]: one fresh derived value per entry. *)
Lemma build_loop (lk : loc) (es : ValueMap) : forall h,
  NoDup (Obj.keys (maps h lk) ++ Obj.keys es) ->
  Obj.ordered (Obj.keys (maps h lk) ++ Obj.keys es) = true ->
  (forall v, In v (Obj.targets (maps h lk)) -> v < next_obj h) ->
  (forall v, In v (Obj.targets es) -> v < next_obj h) ->
  (forall x, x < next_obj h -> NoDup (Obj.keys (objs h x))) ->
  (forall x, x < next_obj h -> Obj.ordered (Obj.keys (objs h x)) = true) ->
  exists h',
    forEach es (fun entry =>
      config <- read_obj (snd entry) ;;
      value <- new_obj (defineEnumValue config) ;;
      m <- read_map lk ;;
      write_map lk (Obj.set m (fst entry) value)) h = (Normal tt, h')
    /\ next_obj h' = next_obj h + length es
    /\ next_map h' = next_map h /\ next_config h' = next_config h
    /\ next_type h' = next_type h
    /\ configs h' = configs h /\ types h' = types h
    /\ (forall x, x <> lk -> maps h' x = maps h x)
    /\ Obj.keys (maps h' lk) = Obj.keys (maps h lk) ++ Obj.keys es
    /\ Obj.targets (maps h' lk)
       = Obj.targets (maps h lk) ++ seq (next_obj h) (length es)
    /\ (forall x, x < next_obj h -> objs h' x = objs h x)
    /\ (forall x, x < next_obj h' -> NoDup (Obj.keys (objs h' x)))
    /\ deep h' lk
       = deep h lk ++ Obj.map_values (fun c => defineEnumValue (objs h c)) es
    /\ (forall x, x < next_obj h' ->
          Obj.ordered (Obj.keys (objs h' x)) = true).
Proof.
  induction es as [|[k c] es IH]; intros h Hnd Hord Hlk Hes Hp Hq.
  - exists h. simpl. rewrite !app_nil_r, Nat.add_0_r.
    repeat split; try reflexivity; assumption.
  - set (v := next_obj h).
    set (h1 := with_maps
                 (with_objs h (upd (objs h) v (defineEnumValue (objs h c)))
                            (S v))
                 (upd (maps h) lk (Obj.set (maps h lk) k v)) (next_map h)).
    assert (Hk : ~ In k (Obj.keys (maps h lk))).
    { intros Hin. simpl in Hnd. apply NoDup_remove_2 in Hnd.
      apply Hnd. apply in_or_app. now left. }
    assert (Hm1 : maps h1 lk = maps h lk ++ [(k, v)]).
    { simpl. rewrite upd_same. apply ObjFacts.set_last; [assumption|].
      intros e He. apply KeyOrder.ordered_app in Hord as (_ & _ & Hord).
      apply Hord; [assumption | now left]. }
    destruct (IH h1) as (h' & Hrun & Hno & Hnm & Hnc & Hnt & Hc & Ht & Hm
                            & Hks & Hts & Ho & Hp' & Hd & Hq').
    { rewrite Hm1, ObjFacts.keys_app, <- app_assoc. exact Hnd. }
    { rewrite Hm1, ObjFacts.keys_app, <- app_assoc. exact Hord. }
    { rewrite Hm1. unfold Obj.targets. rewrite map_app. simpl.
      intros x Hx. apply in_app_or in Hx as [Hx|[Hx|[]]].
      - apply Hlk in Hx. lia.
      - subst. unfold v. lia. }
    { intros x Hx. simpl. assert (x < next_obj h); [|lia].
      apply Hes. now right. }
    { intros x Hx. simpl in *. unfold upd. destruct (Nat.eqb_spec x v).
      - apply ObjFacts.NoDup_keys_set. apply Hp. apply Hes. now left.
      - apply Hp. unfold v in *. lia. }
    { intros x Hx. simpl in *. unfold upd. destruct (Nat.eqb_spec x v).
      - apply ObjFacts.ordered_set. apply Hq. apply Hes. now left.
      - apply Hq. unfold v in *. lia. }
    exists h'. split; [exact Hrun|].
    split; [rewrite Hno; simpl; lia|].
    split; [assumption|]. split; [assumption|]. split; [assumption|].
    split; [assumption|]. split; [assumption|].
    split.
    { intros x Hx. rewrite Hm by assumption. simpl. now rewrite upd_other. }
    split.
    { rewrite Hks, Hm1, ObjFacts.keys_app, <- app_assoc. reflexivity. }
    split.
    { rewrite Hts, Hm1. unfold Obj.targets. rewrite map_app, <- app_assoc.
      reflexivity. }
    split.
    { intros x Hx. rewrite Ho by (simpl; lia). simpl.
      apply upd_other. unfold v. lia. }
    split; [assumption|].
    split; [|assumption].
    rewrite Hd. unfold deep at 1. rewrite Hm1. unfold Obj.map_values at 1.
    rewrite map_app, <- app_assoc. simpl. rewrite upd_same. f_equal.
    { apply map_ext_in. intros [k' x] Hin. simpl. f_equal.
      apply upd_other. apply (in_map snd) in Hin. apply Hlk in Hin.
      simpl in Hin. unfold v. lia. }
    f_equal. apply ObjFacts.map_values_ext. intros x Hx.
    rewrite upd_other; [reflexivity|].
    assert (x < next_obj h) by (apply Hes; now right). unfold v. lia.
Qed.

Lemma set_nameLookup_same ty l :
  EnumType._nameLookup ty = Some l -> EnumType.set_nameLookup ty (Some l) = ty.
Proof. destruct ty. simpl. now intros ->. Qed.

Lemma getFields_spec this h :
  wf h -> gqType this < next_type h ->
  exists l h',
    getFields this h = (Normal l, h') /\ fetched (gqType this) h l h'.
Proof.
  intros Hwf Ht. set (t := gqType this) in *.
  unfold getFields, _getNameLookup. fold t.
  unfold bind at 1, read_type at 1.
  destruct (EnumType._nameLookup (types h t)) as [l|] eqn:Hc.
  - exists l, h. split; [reflexivity|]. constructor; auto.
    + apply grows_refl.
    + eapply wf_cache; eauto.
    + unfold view. now rewrite Hc.
    + symmetry. now apply set_nameLookup_same.
    + intros v Hv _. unfold view_locs. now rewrite Hc.
  - set (lk := next_map h).
    set (es := maps h (backing h t)).
    set (h1 := alloc_map h []).
    assert (Hb : backing h t < next_map h).
    { apply wf_values; [assumption|]. now apply wf_config. }
    destruct (build_loop lk es h1)
      as (h2 & Hrun & Hno & Hnm & Hnc & Hnt & Hcf & Hty & Hm & Hks & Hts
             & Ho & Hp & Hd & Hq).
    { simpl. rewrite upd_same. simpl. now apply wf_keys. }
    { simpl. rewrite upd_same. simpl. now apply wf_key_order. }
    { simpl. rewrite upd_same. simpl. tauto. }
    { simpl. intros v Hv. eapply wf_targets; eauto. }
    { simpl. now apply wf_props. }
    { simpl. now apply wf_prop_order. }
    assert (Hml : maps h1 lk = []) by (simpl; apply upd_same).
    rewrite Hml in Hks, Hts. simpl in Hks, Hts.
    eexists lk, _. split.
    { unfold bind at 1, read_config at 1. unfold bind at 1, read_map at 1.
      unfold bind at 1, new_map at 1. fold lk. fold (backing h t). fold es.
      change (alloc_map h []) with h1.
      unfold bind at 1. rewrite Hrun.
      unfold bind, read_type, write_type, ret. reflexivity. }
    constructor; simpl; try rewrite Hcf; try rewrite Hty; simpl;
      try assumption; try reflexivity.
    + constructor; simpl; rewrite ?Hnm, ?Hnc, ?Hnt, ?Hno, ?Hty; simpl.
      * intros l Hl. unfold upd.
        destruct (Nat.eqb l t); simpl; now apply wf_config.
      * intros l c Hl. unfold upd. destruct (Nat.eqb l t); simpl.
        -- intros [= <-]. unfold lk. lia.
        -- intros Hc'. apply (wf_cache Hwf) in Hc'; [lia | assumption].
      * intros l Hl. rewrite Hcf. simpl.
        assert (Config.values (configs h l) < next_map h); [|unfold lk; lia].
        now apply wf_values.
      * intros l Hl. destruct (Nat.eq_dec l lk) as [->|Hne].
        -- rewrite Hks. now apply wf_keys.
        -- rewrite Hm by assumption. simpl. rewrite upd_other by assumption.
           apply wf_keys; [assumption|]. unfold lk in *. lia.
      * intros l v Hl. destruct (Nat.eq_dec l lk) as [->|Hne].
        -- rewrite Hts. intros Hv. apply in_seq in Hv. simpl in Hv. lia.
        -- rewrite Hm by assumption. simpl. rewrite upd_other by assumption.
           intros Hv. apply (wf_targets Hwf) in Hv; [lia|].
           unfold lk in *. lia.
      * intros l Hl. apply Hp. rewrite Hno. simpl in *. lia.
      * intros l Hl. destruct (Nat.eq_dec l lk) as [->|Hne].
        -- rewrite Hks. now apply wf_key_order.
        -- rewrite Hm by assumption. simpl. rewrite upd_other by assumption.
           apply wf_key_order; [assumption|]. unfold lk in *. lia.
      * intros l Hl. apply Hq. rewrite Hno. simpl in *. lia.
    + constructor; simpl; rewrite ?Hnm, ?Hnc, ?Hnt, ?Hno; simpl; unfold lk; lia.
    + rewrite Hnm. simpl. lia.
    + now rewrite upd_same.
    + change (deep h2 lk = view h t).
      rewrite Hd. unfold deep at 1. rewrite Hml. simpl.
      unfold view. rewrite Hc. unfold deep.
      rewrite ObjFacts.map_values_map_values. reflexivity.
    + intros x Hx. now apply upd_other.
    + now rewrite upd_same.
    + intros x Hx. rewrite Hm by (unfold lk; lia). simpl.
      apply upd_other. unfold lk. lia.
    + intros v. rewrite Hts. intros Hv Hlt. apply in_seq in Hv.
      simpl in Hv. lia.
    + unfold lk. lia.
Qed.

Lemma fetched_view t h l h' : fetched t h l h' -> view h' t = view h t.
Proof. intros F. unfold view at 1. rewrite (fe_cache F). apply (fe_deep F). Qed.

End GetFields.

(** ** Mutators *)

Section Mutators.
Local Open Scope list_scope.
Import GraphQLEnumType.

Lemma cleared_cache ty : EnumType._nameLookup (cleared ty) = None.
Proof. reflexivity. Qed.

Lemma setFields_spec this values h :
  wf h -> gqType this < next_type h -> values < next_map h ->
  exists h',
    setFields this values h = (Normal this, h')
    /\ replaced (gqType this) values h h'.
Proof.
  intros Hwf Ht Hv. set (t := gqType this) in *.
  destruct (setFields_run this values h)
    as (h' & Hrun & Hf & Hm & Ho & Hc & Hty).
  fold t in Hc, Hty.
  exists h'. split; [assumption|].
  pose proof (wf_keys Hwf Hv) as Hnd.
  injection Hf as Hno Hnm Hnc Hnt.
  assert (Hin : forall x, In x (Obj.targets (maps h values)) ->
                          objs h' x = strip (objs h x)).
  { intros x Hx. rewrite Ho.
    apply (reached_targets _ x Hnd) in Hx. now rewrite Hx. }
  assert (Hout : forall x, ~ In x (Obj.targets (maps h values)) ->
                           objs h' x = objs h x).
  { intros x Hx. rewrite Ho.
    destruct (reached (maps h values) (Obj.keys (maps h values)) x) eqn:E;
      [|reflexivity].
    apply (reached_targets _ x Hnd) in E. contradiction. }
  assert (Hdeep : deep h' values = Obj.map_values strip (deep h values)).
  { unfold deep. rewrite Hm, ObjFacts.map_values_map_values.
    apply ObjFacts.map_values_ext. exact Hin. }
  assert (Hback : backing h' t = values).
  { unfold backing. rewrite (Hty t), Nat.eqb_refl. simpl.
    rewrite Hc, Nat.eqb_refl. reflexivity. }
  constructor; try assumption.
  - constructor; rewrite ?Hno, ?Hnm, ?Hnc, ?Hnt, ?Hm.
    + intros l Hl. rewrite Hty.
      destruct (Nat.eqb l t); simpl; now apply wf_config.
    + intros l c Hl. rewrite Hty. destruct (Nat.eqb_spec l t).
      * discriminate.
      * now apply wf_cache.
    + intros l Hl. rewrite Hc.
      destruct (Nat.eqb l (EnumType._enumConfig (types h t))); simpl;
        [assumption | now apply wf_values].
    + now apply wf_keys.
    + now apply wf_targets.
    + intros l Hl. rewrite Ho.
      destruct (reached (maps h values) (Obj.keys (maps h values)) l).
      * apply ObjFacts.NoDup_keys_delete. now apply wf_props.
      * now apply wf_props.
    + now apply wf_key_order.
    + intros l Hl. rewrite Ho.
      destruct (reached (maps h values) (Obj.keys (maps h values)) l).
      * apply ObjFacts.ordered_delete. now apply wf_prop_order.
      * now apply wf_prop_order.
  - unfold frontier. congruence.
  - rewrite Hty, Nat.eqb_refl. reflexivity.
  - intros x Hx. rewrite Hty. apply Nat.eqb_neq in Hx. now rewrite Hx.
  - rewrite Hc, Nat.eqb_refl. reflexivity.
  - intros x Hx. rewrite Hc. apply Nat.eqb_neq in Hx. now rewrite Hx.
  - unfold view. rewrite (Hty t), Nat.eqb_refl. simpl.
    rewrite Hback, Hdeep, ObjFacts.map_values_map_values. reflexivity.
Qed.

(** Allocating a table of live objects keeps the store well formed. *)
Lemma wf_new_map h (m : ValueMap) :
  wf h -> NoDup (Obj.keys m) ->
  (forall v, In v (Obj.targets m) -> v < next_obj h) ->
  Obj.ordered (Obj.keys m) = true ->
  wf (alloc_map h m).
Proof.
  intros Hwf Hnd Hv Hord. constructor; simpl.
  - now apply wf_config.
  - intros l c Hl Hc. apply (wf_cache Hwf) in Hc; [lia | assumption].
  - intros l Hl. apply (wf_values Hwf) in Hl. lia.
  - intros l Hl. unfold upd. destruct (Nat.eqb_spec l (next_map h)).
    + assumption.
    + apply wf_keys; [assumption | lia].
  - intros l v Hl. unfold upd. destruct (Nat.eqb_spec l (next_map h)).
    + apply Hv.
    + apply wf_targets; [assumption | lia].
  - now apply wf_props.
  - intros l Hl. unfold upd. destruct (Nat.eqb_spec l (next_map h)).
    + assumption.
    + apply wf_key_order; [assumption | lia].
  - now apply wf_prop_order.
Qed.

Lemma wf_new_obj h (o : JsObject) :
  wf h -> NoDup (Obj.keys o) -> Obj.ordered (Obj.keys o) = true ->
  wf (with_objs h (upd (objs h) (next_obj h) o) (S (next_obj h))).
Proof.
  intros Hwf Hnd Hord. constructor; simpl.
  - now apply wf_config.
  - now apply wf_cache.
  - now apply wf_values.
  - now apply wf_keys.
  - intros l v Hl Hv. apply (wf_targets Hwf) in Hv; [lia | assumption].
  - intros l Hl. unfold upd. destruct (Nat.eqb_spec l (next_obj h)).
    + assumption.
    + apply wf_props; [assumption | lia].
  - now apply wf_key_order.
  - intros l Hl. unfold upd. destruct (Nat.eqb_spec l (next_obj h)).
    + assumption.
    + apply wf_prop_order; [assumption | lia].
Qed.

Lemma In_targets_set (m : ValueMap) k v x :
  In x (Obj.targets (Obj.set m k v)) -> In x (Obj.targets m) \/ x = v.
Proof.
  unfold Obj.set. destruct (Obj.has m k).
  - induction m as [|[k' v'] m IH]; simpl; [tauto|].
    destruct (String.eqb k' k); simpl.
    + intros [H|H]; [now right | left; now right].
    + intros [H|H]; [left; now left|].
      apply IH in H as [H|H]; [left; now right | now right].
  - induction m as [|[k' v'] m IH]; simpl.
    + intros [H|[]]. now right.
    + destruct (Obj.precedes k k'); simpl.
      * intros [H|H]; [now right | now left].
      * intros [H|H]; [left; now left|].
        apply IH in H as [H|H]; [left; now right | now right].
Qed.

Lemma In_targets_assign (a s : ValueMap) x :
  In x (Obj.targets (Obj.assign a s)) ->
  In x (Obj.targets a) \/ In x (Obj.targets s).
Proof.
  revert a. induction s as [|[k v] s IH]; intros a; simpl; [tauto|].
  change (Obj.assign a ((k, v) :: s)) with (Obj.assign (Obj.set a k v) s).
  intros H. apply IH in H as [H|H]; [|tauto].
  apply In_targets_set in H. intuition auto.
Qed.

Lemma In_targets_spread (a b : ValueMap) x :
  In x (Obj.targets (Obj.spread a b)) ->
  In x (Obj.targets a) \/ In x (Obj.targets b).
Proof.
  unfold Obj.spread. intros H.
  apply In_targets_assign in H as [H|H]; [|tauto].
  apply In_targets_assign in H as [[]|H]. tauto.
Qed.

Lemma In_targets_delete (m : ValueMap) k x :
  In x (Obj.targets (Obj.delete m k)) -> In x (Obj.targets m).
Proof.
  unfold Obj.targets, Obj.delete. rewrite !in_map_iff.
  intros [e [He Hin]]. apply filter_In in Hin as [Hin _]. eauto.
Qed.

Lemma install_spec this (m : ValueMap) h :
  wf h -> gqType this < next_type h -> NoDup (Obj.keys m) ->
  (forall v, In v (Obj.targets m) -> v < next_obj h) ->
  Obj.ordered (Obj.keys m) = true ->
  exists h',
    (merged <- new_map m ;; setFields this merged ;;; ret this) h
    = (Normal this, h')
    /\ installed (gqType this) m h h'.
Proof.
  intros Hwf Ht Hnd Hv Hord. set (t := gqType this) in *.
  set (lm := next_map h).
  set (h1 := alloc_map h m).
  assert (Hwf1 : wf h1) by now apply wf_new_map.
  assert (Hm1 : maps h1 lm = m) by (simpl; apply upd_same).
  destruct (@setFields_spec this lm h1) as (h' & Hrun & R);
    [assumption | assumption | simpl; lia |].
  fold t in R. exists h'. split.
  - unfold bind at 1, new_map at 1. fold lm. fold h1.
    unfold bind. rewrite Hrun. reflexivity.
  - pose proof (rp_frontier R) as Hf. injection Hf as Hno Hnm Hnc Hnt.
    constructor; try assumption.
    + apply (rp_wf R).
    + apply (rp_type R).
    + apply (rp_types R).
    + apply (rp_backing R).
    + apply (rp_config R).
    + apply (rp_configs R).
    + rewrite (rp_maps R). exact Hm1.
    + intros x Hx. rewrite (rp_maps R). simpl. now apply upd_other.
    + intros x Hx. rewrite (rp_objs_in R) by (now rewrite Hm1). reflexivity.
    + intros x Hx. rewrite (rp_objs_out R) by (now rewrite Hm1). reflexivity.
    + rewrite (rp_view R). unfold deep. rewrite Hm1.
      rewrite ObjFacts.map_values_map_values. reflexivity.
    + fold lm. rewrite (rp_deep R). unfold deep. rewrite Hm1.
      rewrite ObjFacts.map_values_map_values. reflexivity.
Qed.

(** From a store [h1] that differs from [h] only by allocations and by the
    lookup table of [t], installing [m] is a mutation of [t]. *)
Lemma mutated_intro t args (m : ValueMap) h h1 h' :
  grows h h1 ->
  next_type h1 = next_type h -> next_config h1 = next_config h ->
  configs h1 = configs h ->
  (forall x, x <> t -> types h1 x = types h x) ->
  cleared (types h1 t) = cleared (types h t) ->
  (forall x, x < next_map h ->
     EnumType._nameLookup (types h t) <> Some x -> maps h1 x = maps h x) ->
  (forall x, x < next_obj h -> objs h1 x = objs h x) ->
  (forall x, In x (Obj.targets m) -> x < next_obj h ->
     In x (view_locs h t) \/ In x args) ->
  installed t m h1 h' ->
  mutated t args h h'.
Proof.
  intros Hg Hnt Hnc Hc Hty Hcl Hm Ho Hin I.
  assert (Hcfg : EnumType._enumConfig (types h1 t)
                 = EnumType._enumConfig (types h t)).
  { change (EnumType._enumConfig (cleared (types h1 t))
            = EnumType._enumConfig (cleared (types h t))). now rewrite Hcl. }
  destruct Hg as [G1 G2 G3 G4].
  constructor.
  - apply (is_wf I).
  - constructor; rewrite ?(is_next_obj I), ?(is_next_map I),
      ?(is_next_config I), ?(is_next_type I); lia.
  - rewrite (is_next_type I). assumption.
  - rewrite (is_next_config I). assumption.
  - rewrite (is_type I). assumption.
  - intros x Hx. rewrite (is_types I) by assumption. now apply Hty.
  - rewrite (is_backing I), <- Hcfg, (is_config I), Hc. reflexivity.
  - intros x Hx. rewrite (is_configs I) by (now rewrite Hcfg).
    now rewrite Hc.
  - rewrite (is_backing I). assumption.
  - intros x Hx Hne. rewrite (is_maps I) by lia. now apply Hm.
  - intros x Hx Hv Ha. rewrite (is_objs_out I); [now apply Ho|].
    intros Hi. destruct (Hin x Hi Hx); contradiction.
  - intros x Hx. rewrite <- (Ho x Hx).
    destruct (in_dec Nat.eq_dec x (Obj.targets m)) as [Hi|Hi].
    + rewrite (is_objs_in I) by assumption. apply strip_idem.
    + rewrite (is_objs_out I) by assumption. reflexivity.
  - intros v Hv Hlt. rewrite (is_backing I), (is_map I) in Hv. now apply Hin.
Qed.

Lemma cleared_set_nameLookup ty c :
  cleared (EnumType.set_nameLookup ty c) = cleared ty.
Proof. reflexivity. Qed.

Lemma deep_spread h (a b : ValueMap) :
  Obj.map_values (objs h) (Obj.spread a b)
  = Obj.spread (Obj.map_values (objs h) a) (Obj.map_values (objs h) b).
Proof. apply ObjFacts.map_values_spread. Qed.

Lemma fetched_deep_old t h l h' x :
  wf h -> fetched t h l h' -> x < next_map h -> deep h' x = deep h x.
Proof.
  intros Hwf F Hx. apply deep_frame.
  - now apply (fe_maps F).
  - intros v Hv. apply (fe_objs F). eapply wf_targets; eauto.
Qed.

Lemma addFields_spec this a h :
  wf h -> gqType this < next_type h -> a < next_map h ->
  exists h',
    addFields this a h = (Normal this, h')
    /\ mutated (gqType this) (Obj.targets (maps h a)) h h'
    /\ view h' (gqType this)
       = Obj.map_values refreshed
           (Obj.spread (view h (gqType this)) (deep h a))
    /\ (forall x, x < next_map h -> maps h' x = maps h x)
    /\ deep h' (backing h' (gqType this))
       = Obj.map_values strip
           (Obj.spread (view h (gqType this)) (deep h a)).
Proof.
  intros Hwf Ht Ha. set (t := gqType this) in *.
  destruct (@getFields_spec this h Hwf Ht) as (l & h1 & Hrun1 & F).
  fold t in F.
  pose proof (fe_grows F) as [G1 G2 G3 G4].
  set (m := Obj.spread (maps h1 l) (maps h1 a)).
  destruct (@install_spec this m h1) as (h' & Hrun2 & I).
  { apply (fe_wf F). }
  { rewrite (fe_next_type F). assumption. }
  { apply ObjFacts.NoDup_keys_spread. }
  { intros v Hv. apply In_targets_spread in Hv as [Hv|Hv].
    - eapply (wf_targets (fe_wf F)); [|exact Hv]. apply (fe_lt F).
    - eapply (wf_targets (fe_wf F)); [|exact Hv]. lia. }
  { apply ObjFacts.ordered_spread. }
  assert (Hsp : Obj.map_values (objs h1) m
                = Obj.spread (view h t) (deep h a)).
  { unfold m. rewrite deep_spread. fold (deep h1 l). fold (deep h1 a).
    now rewrite (fe_deep F), (fetched_deep_old Hwf F Ha). }
  fold t in I. exists h'. split; [|split; [|split; [|split]]].
  - unfold addFields. unfold bind at 1. rewrite Hrun1.
    unfold bind at 1, read_map at 1. unfold bind at 1, read_map at 1.
    fold m. exact Hrun2.
  - eapply mutated_intro with (h1 := h1) (m := m); try exact I.
    + apply (fe_grows F).
    + apply (fe_next_type F).
    + apply (fe_next_config F).
    + apply (fe_configs F).
    + apply (fe_types F).
    + rewrite (fe_type F). reflexivity.
    + intros x Hx _. now apply (fe_maps F).
    + apply (fe_objs F).
    + intros x Hx Hlt. apply In_targets_spread in Hx as [Hx|Hx].
      * left. now apply (fe_locs F).
      * right. rewrite (fe_maps F) in Hx by assumption. exact Hx.
  - rewrite (is_view I).
    rewrite <- (ObjFacts.map_values_map_values (objs h1) refreshed).
    now rewrite Hsp.
  - intros x Hx. rewrite (is_maps I) by lia. now apply (fe_maps F).
  - rewrite (is_backing I), (is_deep I).
    rewrite <- (ObjFacts.map_values_map_values (objs h1) strip).
    now rewrite Hsp.
Qed.

Lemma keys_deep h l : Obj.keys (deep h l) = Obj.keys (maps h l).
Proof. apply ObjFacts.keys_map_values. Qed.

Lemma get_deep h l k :
  Obj.get (deep h l) k = option_map (objs h) (Obj.get (maps h l) k).
Proof. apply ObjFacts.get_map_values. Qed.

Lemma backing_lt h t : wf h -> t < next_type h -> backing h t < next_map h.
Proof. intros Hwf Ht. apply wf_values; [assumption|]. now apply wf_config. Qed.

Lemma keys_view_NoDup h t :
  wf h -> t < next_type h -> NoDup (Obj.keys (view h t)).
Proof.
  intros Hwf Ht. unfold view.
  destruct (EnumType._nameLookup (types h t)) as [l|] eqn:E.
  - rewrite keys_deep. apply wf_keys; [assumption|]. eapply wf_cache; eauto.
  - rewrite ObjFacts.keys_map_values, keys_deep.
    apply wf_keys; [assumption|]. now apply backing_lt.
Qed.

Lemma keys_view_ordered h t :
  wf h -> t < next_type h -> Obj.ordered (Obj.keys (view h t)) = true.
Proof.
  intros Hwf Ht. unfold view.
  destruct (EnumType._nameLookup (types h t)) as [l|] eqn:E.
  - rewrite keys_deep. apply wf_key_order; [assumption|].
    eapply wf_cache; eauto.
  - rewrite ObjFacts.keys_map_values, keys_deep.
    apply wf_key_order; [assumption|]. now apply backing_lt.
Qed.

(** The read view of [t] only depends on the type, its config, and the
    allocated maps and objects. *)
Lemma view_frame h h' t :
  wf h -> t < next_type h ->
  types h' t = types h t ->
  configs h' (EnumType._enumConfig (types h t))
  = configs h (EnumType._enumConfig (types h t)) ->
  (forall x, x < next_map h -> maps h' x = maps h x) ->
  (forall x, x < next_obj h -> objs h' x = objs h x) ->
  view h' t = view h t.
Proof.
  intros Hwf Ht Hty Hc Hm Ho.
  assert (Hd : forall l, l < next_map h -> deep h' l = deep h l).
  { intros l Hl. apply deep_frame; [now apply Hm|].
    intros v Hv. apply Ho. eapply wf_targets; eauto. }
  unfold view, backing. rewrite Hty, Hc.
  destruct (EnumType._nameLookup (types h t)) as [l|] eqn:E.
  - apply Hd. eapply wf_cache; eauto.
  - f_equal. apply Hd. now apply backing_lt.
Qed.

Lemma refreshed_idem o : refreshed (refreshed o) = refreshed o.
Proof. unfold refreshed. now rewrite strip_define, strip_idem. Qed.

Lemma refreshed_strip o o' : strip o = strip o' -> refreshed o = refreshed o'.
Proof. unfold refreshed. now intros ->. Qed.

Lemma map_refreshed_idem (m : Obj.t JsObject) :
  Obj.map_values refreshed (Obj.map_values refreshed m)
  = Obj.map_values refreshed m.
Proof.
  rewrite ObjFacts.map_values_map_values. apply map_ext.
  intros [k v]. simpl. now rewrite refreshed_idem.
Qed.

(** Tables of objects that agree up to the marker have the same read view. *)
Lemma map_refreshed_strip h h' (m : ValueMap) :
  (forall v, In v (Obj.targets m) -> strip (objs h' v) = strip (objs h v)) ->
  Obj.map_values refreshed (Obj.map_values (objs h') m)
  = Obj.map_values refreshed (Obj.map_values (objs h) m).
Proof.
  intros H. rewrite !ObjFacts.map_values_map_values.
  apply ObjFacts.map_values_ext. intros v Hv. apply refreshed_strip. now apply H.
Qed.

Lemma JsVal_eqb_eq a b : JsVal_eqb a b = true -> a = b.
Proof.
  destruct a, b; simpl; try discriminate; try reflexivity; intros H.
  - apply Bool.eqb_prop in H. now subst.
  - apply Z.eqb_eq in H. now subst.
  - apply String.eqb_eq in H. now subst.
  - apply Nat.eqb_eq in H. now subst.
Qed.

Lemma JsObject_eqb_eq a : forall b, JsObject_eqb a b = true -> a = b.
Proof.
  induction a as [|[k v] a IH]; intros [|[k' v'] b]; simpl;
    try discriminate; [reflexivity|].
  rewrite !andb_true_iff. intros [[Hk Hv] Hr].
  apply String.eqb_eq in Hk. apply JsVal_eqb_eq in Hv. apply IH in Hr.
  now subst.
Qed.

(** A settled view is its own read view. *)
Lemma settled_refreshed h t :
  settled h t = true -> Obj.map_values refreshed (view h t) = view h t.
Proof.
  unfold settled. rewrite forallb_forall. intros H.
  unfold Obj.map_values. rewrite <- (map_id (view h t)) at 2.
  apply map_ext_in. intros [k v] Hin. simpl. f_equal.
  apply JsObject_eqb_eq. apply (H _ Hin).
Qed.

Lemma get_settled h t k p :
  settled h t = true -> Obj.get (view h t) k = Some p -> refreshed p = p.
Proof.
  unfold settled. rewrite forallb_forall. intros H Hg.
  apply ObjFacts.get_Some_In in Hg. apply JsObject_eqb_eq. apply (H _ Hg).
Qed.

Lemma map_values_delete_all {A B} (f : A -> B) names (o : Obj.t A) :
  Obj.map_values f (delete_all names o)
  = delete_all names (Obj.map_values f o).
Proof.
  revert o. induction names as [|n ns IH]; intros o; [reflexivity|].
  simpl. unfold delete_all in *. simpl.
  now rewrite IH, ObjFacts.map_values_delete.
Qed.

Lemma In_keys_delete_all {V} names (o : Obj.t V) k :
  In k (Obj.keys (delete_all names o)) <-> In k (Obj.keys o) /\ ~ In k names.
Proof.
  revert o. induction names as [|n ns IH]; intros o; simpl; [tauto|].
  unfold delete_all in *. simpl. rewrite IH, ObjFacts.In_keys_delete.
  intuition congruence.
Qed.

Lemma keys_delete_all {V} names (o : Obj.t V) :
  Obj.keys (delete_all names o) = unmoved names (Obj.keys o).
Proof.
  revert o. induction names as [|n ns IH]; intros o.
  - simpl. unfold unmoved. simpl. symmetry. apply forallb_filter_id.
    now apply forallb_forall.
  - unfold delete_all in *. simpl. rewrite IH, ObjFacts.keys_delete.
    unfold unmoved. rewrite ObjFacts.filter_filter. apply filter_ext.
    intros k. simpl. rewrite negb_orb. reflexivity.
Qed.

Lemma get_delete_all {V} names (o : Obj.t V) k :
  Obj.get (delete_all names o) k
  = if Obj.mem k names then None else Obj.get o k.
Proof.
  revert o. induction names as [|n ns IH]; intros o; [reflexivity|].
  unfold delete_all in *. simpl. rewrite IH.
  destruct (String.eqb_spec k n) as [->|Hne]; simpl.
  - destruct (Obj.mem n ns); [reflexivity | apply ObjFacts.get_delete_same].
  - destruct (Obj.mem k ns); [reflexivity|].
    apply ObjFacts.get_delete_other. congruence.
Qed.


Lemma NoDup_keys_delete_all {V} names (o : Obj.t V) :
  NoDup (Obj.keys o) -> NoDup (Obj.keys (delete_all names o)).
Proof.
  revert o. induction names as [|n ns IH]; intros o H; [assumption|].
  unfold delete_all in *. simpl. apply IH. now apply ObjFacts.NoDup_keys_delete.
Qed.

Lemma ordered_keys_delete_all {V} names (o : Obj.t V) :
  Obj.ordered (Obj.keys o) = true ->
  Obj.ordered (Obj.keys (delete_all names o)) = true.
Proof.
  revert o. induction names as [|n ns IH]; intros o H; [assumption|].
  unfold delete_all in *. simpl. apply IH. now apply ObjFacts.ordered_delete.
Qed.

Lemma In_targets_delete_all names (m : ValueMap) x :
  In x (Obj.targets (delete_all names m)) -> In x (Obj.targets m).
Proof.
  revert m. induction names as [|n ns IH]; intros m; [tauto|].
  unfold delete_all in *. simpl. intros H. apply IH in H.
  eapply In_targets_delete; eauto.
Qed.

(** The loop of [removeField]: the listed keys leave the table [values]. *)
Lemma delete_loop values names : forall h,
  exists h',
    forEach names (fun valueName =>
      m <- read_map values ;;
      write_map values (Obj.delete m valueName)) h = (Normal tt, h')
    /\ frontier h' = frontier h /\ objs h' = objs h
    /\ configs h' = configs h /\ types h' = types h
    /\ (forall x, x <> values -> maps h' x = maps h x)
    /\ maps h' values = delete_all names (maps h values).
Proof.
  induction names as [|n ns IH]; intros h.
  - exists h. simpl. repeat split; reflexivity.
  - set (h1 := with_maps h (upd (maps h) values
                              (Obj.delete (maps h values) n)) (next_map h)).
    destruct (IH h1) as (h' & Hrun & Hf & Ho & Hc & Ht & Hm & Hv).
    exists h'. split; [exact Hrun|]. repeat split; try assumption.
    + intros x Hx. rewrite Hm by assumption. simpl. now apply upd_other.
    + rewrite Hv. simpl. now rewrite upd_same.
Qed.

(** Replacing an allocated table by one with fewer entries keeps the store
    well formed. *)
Lemma wf_shrink h h' l :
  wf h -> l < next_map h ->
  frontier h' = frontier h -> objs h' = objs h -> configs h' = configs h ->
  types h' = types h ->
  (forall x, x <> l -> maps h' x = maps h x) ->
  NoDup (Obj.keys (maps h' l)) ->
  Obj.ordered (Obj.keys (maps h' l)) = true ->
  (forall v, In v (Obj.targets (maps h' l)) -> In v (Obj.targets (maps h l))) ->
  wf h'.
Proof.
  intros Hwf Hl Hf Ho Hc Ht Hm Hnd Hord Hsub.
  injection Hf as Hno Hnm Hnc Hnt.
  constructor; rewrite ?Hno, ?Hnm, ?Hnc, ?Hnt, ?Ho, ?Hc, ?Ht.
  - now apply wf_config.
  - now apply wf_cache.
  - now apply wf_values.
  - intros x Hx. destruct (Nat.eq_dec x l) as [->|Hne]; [assumption|].
    rewrite Hm by assumption. now apply wf_keys.
  - intros x v Hx. destruct (Nat.eq_dec x l) as [->|Hne].
    + intros Hv. apply Hsub in Hv. now apply (@wf_targets h Hwf l v Hl).
    + rewrite Hm by assumption. now apply wf_targets.
  - now apply wf_props.
  - intros x Hx. destruct (Nat.eq_dec x l) as [->|Hne]; [assumption|].
    rewrite Hm by assumption. now apply wf_key_order.
  - now apply wf_prop_order.
Qed.

Lemma removeField_spec this nameOrArray h :
  wf h -> gqType this < next_type h ->
  exists h',
    removeField this nameOrArray h = (Normal this, h')
    /\ mutated (gqType this) [] h h'
    /\ view h' (gqType this)
       = Obj.map_values refreshed
           (delete_all (names_of nameOrArray) (view h (gqType this))).
Proof.
  intros Hwf Ht. set (t := gqType this) in *.
  set (names := names_of nameOrArray).
  destruct (@getFields_spec this h Hwf Ht) as (l & h1 & Hrun1 & F).
  fold t in F.
  destruct (delete_loop l names h1) as (h2 & Hrun2 & Hf & Ho & Hc & Hty & Hm & Hl).
  pose proof Hf as Hf'. injection Hf' as Hno Hnm Hnc Hnt.
  assert (Hnd : NoDup (Obj.keys (maps h2 l))).
  { rewrite Hl. apply NoDup_keys_delete_all.
    apply (wf_keys (fe_wf F)). apply (fe_lt F). }
  assert (Hord : Obj.ordered (Obj.keys (maps h2 l)) = true).
  { rewrite Hl. apply ordered_keys_delete_all.
    apply (wf_key_order (fe_wf F)). apply (fe_lt F). }
  assert (Hsub : forall v, In v (Obj.targets (maps h2 l)) ->
                           In v (Obj.targets (maps h1 l))).
  { intros v. rewrite Hl. apply In_targets_delete_all. }
  assert (Hwf2 : wf h2).
  { apply (@wf_shrink h1 h2 l); try assumption.
    - apply (fe_wf F).
    - apply (fe_lt F). }
  set (m := Obj.copy (maps h2 l)).
  assert (Hm' : m = maps h2 l) by (now apply ObjFacts.copy_id).
  destruct (@install_spec this m h2) as (h' & Hrun3 & I).
  { assumption. }
  { rewrite Hnt, (fe_next_type F). assumption. }
  { now rewrite Hm'. }
  { rewrite Hm'. intros v Hv. rewrite Hno.
    apply Hsub in Hv. apply (@wf_targets h1 (fe_wf F) l v (fe_lt F) Hv). }
  { now rewrite Hm'. }
  fold t in I. exists h'. split; [|split].
  - unfold removeField.
    change (match nameOrArray with
            | OneName name => [name]
            | NameArray names0 => names0
            end) with names.
    unfold bind at 1. rewrite Hrun1.
    unfold bind at 1. rewrite Hrun2.
    unfold bind at 1, read_map at 1. fold m. exact Hrun3.
  - eapply mutated_intro with (h1 := h2) (m := m); try exact I.
    + pose proof (fe_grows F) as [G1 G2 G3 G4].
      constructor; rewrite ?Hno, ?Hnm, ?Hnc, ?Hnt; assumption.
    + rewrite Hnt. apply (fe_next_type F).
    + rewrite Hnc. apply (fe_next_config F).
    + rewrite Hc. apply (fe_configs F).
    + intros x Hx. rewrite Hty. now apply (fe_types F).
    + rewrite Hty, (fe_type F). reflexivity.
    + intros x Hx Hne. destruct (Nat.eq_dec x l) as [->|Hxl].
      * exfalso. apply Hne. now apply (fe_fresh F).
      * rewrite Hm by assumption. now apply (fe_maps F).
    + intros x Hx. rewrite Ho. now apply (fe_objs F).
    + intros x Hx Hlt. left. rewrite Hm' in Hx. apply Hsub in Hx.
      now apply (fe_locs F).
  - rewrite (is_view I), Hm', Hl, Ho.
    rewrite <- (ObjFacts.map_values_map_values (objs h1) refreshed).
    rewrite map_values_delete_all. fold (deep h1 l). now rewrite (fe_deep F).
Qed.

Lemma has_map_values {A B} (f : A -> B) (o : Obj.t A) k :
  Obj.has (Obj.map_values f o) k = Obj.has o k.
Proof.
  unfold Obj.has. rewrite ObjFacts.get_map_values.
  now destruct (Obj.get o k).
Qed.

Lemma hasField_spec this name h :
  wf h -> gqType this < next_type h ->
  exists h',
    hasField this name h = (Normal (Obj.has (view h (gqType this)) name), h')
    /\ view h' (gqType this) = view h (gqType this).
Proof.
  intros Hwf Ht.
  destruct (@getFields_spec this h Hwf Ht) as (l & h1 & Hrun1 & F).
  exists h1. split.
  - unfold hasField, bind. rewrite Hrun1. unfold read_map, ret.
    rewrite <- (fe_deep F). unfold deep. now rewrite has_map_values.
  - apply (fetched_view F).
Qed.

End Mutators.

(** ** Name and description *)

(** C9. After [setTypeName(s)] both [getTypeName()] and the name of the config
    mirror [_enumConfig] are [s]; after [setDescription(s)] both
    [getDescription()] and the description of the mirror are [s].  Each setter
    writes the type and its mirror in the same call. *)
Theorem setTypeName_setDescription_lockstep (this : EnumTypeComposer)
    (s : string) (h : Heap) :
  (let h' := store (setTypeName this s) h in
   outcome (setTypeName this s) h = Normal this
   /\ outcome (getTypeName this) h' = Normal s
   /\ EnumType.name (types h' (gqType this)) = s
   /\ Config.name (configs h' (EnumType._enumConfig (types h' (gqType this))))
      = s)
  /\
  (let h' := store (setDescription this s) h in
   outcome (setDescription this s) h = Normal this
   /\ outcome (getDescription this) h' = Normal s
   /\ EnumType.description (types h' (gqType this)) = Some s
   /\ Config.description
        (configs h' (EnumType._enumConfig (types h' (gqType this))))
      = Some s).
Proof.
  split; cbv zeta; unfold store, outcome.
  - unfold setTypeName, getTypeName, bind, read_type, write_type, read_config,
      write_config, ret. simpl. rewrite !upd_same. simpl. rewrite ?upd_same.
    auto.
  - unfold setDescription, getDescription, bind, read_type, write_type,
      read_config, write_config, ret. simpl. rewrite !upd_same. simpl.
    rewrite ?upd_same. repeat split; try reflexivity.
    destruct (String.eqb_spec s ""); congruence.
Qed.

(** ** Full replacement *)

(** C10. [setFields(m)] works on the caller's object: the map installed as the
    backing config is [m] itself, its entries are untouched, and every value
    config reachable through a key of [m] has lost its [isDeprecated] property
    in place. *)
Theorem setFields_mutates_argument (this : EnumTypeComposer) (m : loc)
    (h : Heap) :
  let h' := store (setFields this m) h in
  outcome (setFields this m) h = Normal this
  /\ backing h' (gqType this) = m
  /\ maps h' m = maps h m
  /\ forall k v, Obj.get (maps h m) k = Some v ->
       objs h' v = Obj.delete (objs h v) "isDeprecated"
       /\ Obj.has (objs h' v) "isDeprecated" = false.
Proof.
  cbv zeta. unfold store, outcome.
  destruct (setFields_run this m h) as (h' & Hrun & Hf & Hm & Ho & Hc & Hty).
  rewrite Hrun. simpl. split; [reflexivity|]. split; [|split].
  - unfold backing. rewrite (Hty (gqType this)), Nat.eqb_refl. simpl.
    rewrite Hc, Nat.eqb_refl. reflexivity.
  - now rewrite Hm.
  - intros k v Hk.
    assert (E : objs h' v = strip (objs h v)).
    { rewrite Ho.
      assert (R : reached (maps h m) (Obj.keys (maps h m)) v = true).
      { apply reached_In. exists k. split; [|assumption].
        eapply ObjFacts.get_In_keys; eauto. }
      now rewrite R. }
    split; [exact E|]. rewrite E. apply has_strip.
Qed.

(** C1, as stated, fails: on the sample store, [setFields] of the caller's map
    followed by [getFields()] does not give that map with its markers
    stripped, because the read view carries a marker of its own for every
    value. *)
Lemma getFields_after_setFields_is_not_stripped_argument :
  ~ (forall (this : EnumTypeComposer) (m : loc) (h : Heap),
       well_formed h = true -> gqType this < next_type h -> m < next_map h ->
       forall l h',
         (setFields this m ;;; getFields this) h = (Normal l, h') ->
         deep h' l = Obj.map_values strip (deep h m)).
Proof.
  intros H.
  pose (r := (setFields Color pink_map ;;; getFields Color) color_heap).
  assert (E : (setFields Color pink_map ;;; getFields Color) color_heap
              = (Normal 3, snd r)).
  { vm_compute. reflexivity. }
  specialize (H Color pink_map color_heap eq_refl).
  specialize (H ltac:(vm_compute; lia) ltac:(vm_compute; lia)).
  specialize (H _ _ E).
  vm_compute in H. discriminate H.
Qed.

(** C1, amended. After [setFields(m)] the backing map is [m] with the marker
    stripped from each value config, and [getFields()] returns its read view:
    the names of [m] in the order of [m], each config stripped and then given
    the marker derived from [deprecationReason].  So the round trip gives [m]
    back up to the [isDeprecated] property only. *)
Theorem setFields_getFields (this : EnumTypeComposer) (m : loc) (h : Heap) :
  well_formed h = true -> gqType this < next_type h -> m < next_map h ->
  exists l h',
    (setFields this m ;;; getFields this) h = (Normal l, h')
    /\ backing h' (gqType this) = m
    /\ deep h' m = Obj.map_values strip (deep h m)
    /\ deep h' l
       = Obj.map_values GraphQLEnumType.defineEnumValue
           (Obj.map_values strip (deep h m))
    /\ Obj.map_values strip (deep h' l) = Obj.map_values strip (deep h m).
Proof.
  intros Hwf Ht Hm. apply well_formed_wf in Hwf.
  destruct (@setFields_spec this m h Hwf Ht Hm) as (h1 & Hrun1 & R).
  pose proof (rp_frontier R) as Hf. injection Hf as Hno Hnm Hnc Hnt.
  destruct (@getFields_spec this h1 (rp_wf R)) as (l & h2 & Hrun2 & F).
  { now rewrite Hnt. }
  exists l, h2. split; [|split; [|split; [|split]]].
  - unfold bind. rewrite Hrun1. exact Hrun2.
  - unfold backing. rewrite (fe_type F), (fe_configs F). apply (rp_backing R).
  - rewrite <- (rp_deep R). apply (fetched_deep_old (rp_wf R) F). lia.
  - rewrite (fe_deep F), (rp_view R), ObjFacts.map_values_map_values.
    reflexivity.
  - rewrite (fe_deep F), (rp_view R), !ObjFacts.map_values_map_values.
    apply map_ext. intros [k v]. simpl. unfold refreshed.
    now rewrite strip_define, strip_idem.
Qed.

Lemma setFields_getFields_witness :
  exists l h',
    (setFields Color pink_map ;;; getFields Color) color_heap = (Normal l, h')
    /\ backing h' (gqType Color) = pink_map
    /\ deep h' pink_map = Obj.map_values strip (deep color_heap pink_map)
    /\ deep h' l
       = Obj.map_values GraphQLEnumType.defineEnumValue
           (Obj.map_values strip (deep color_heap pink_map))
    /\ Obj.map_values strip (deep h' l)
       = Obj.map_values strip (deep color_heap pink_map).
Proof.
  apply (@setFields_getFields Color pink_map color_heap).
  - reflexivity.
  - vm_compute. lia.
  - vm_compute. lia.
Defined.


(** ** Merging *)

(** C2. From any store, [addFields(a)] followed by [addFields(b)] leaves the
    composer with the same field map as one [addFields({ ...a, ...b })]: the
    same names in the same order with the same values; and under every name of
    [b] the field map shows the config of [b]. *)
Theorem addFields_twice_is_addFields_spread (this : EnumTypeComposer)
    (a b : loc) (h : Heap) :
  well_formed h = true -> gqType this < next_type h ->
  a < next_map h -> b < next_map h ->
  exists l1 h1 l2 h2,
    (addFields this a ;;; addFields this b ;;; getFields this) h
    = (Normal l1, h1)
    /\ (ma <- read_map a ;; mb <- read_map b ;;
        ab <- new_map (Obj.spread ma mb) ;;
        addFields this ab ;;; getFields this) h
       = (Normal l2, h2)
    /\ deep h1 l1 = deep h2 l2
    /\ forall k v, Obj.get (maps h b) k = Some v ->
         Obj.get (deep h1 l1) k = Some (refreshed (objs h v)).
Proof.
  intros Hwf Ht Ha Hb. apply well_formed_wf in Hwf.
  set (t := gqType this) in *.
  (* first run *)
  destruct (@addFields_spec this a h Hwf Ht Ha)
    as (h1 & R1 & M1 & V1 & F1 & _).
  fold t in M1, V1.
  pose proof (mu_grows M1) as [G1 G2 G3 G4].
  assert (Ht1 : t < next_type h1) by (rewrite (mu_next_type M1); exact Ht).
  assert (Hb1 : b < next_map h1) by lia.
  destruct (@addFields_spec this b h1 (mu_wf M1) Ht1 Hb1)
    as (h2 & R2 & M2 & V2 & F2 & _).
  fold t in M2, V2.
  assert (Ht2 : t < next_type h2) by (rewrite (mu_next_type M2); exact Ht1).
  destruct (@getFields_spec this h2 (mu_wf M2) Ht2) as (l1 & h3 & R3 & Fe3).
  fold t in Fe3.
  (* second run *)
  set (ab := next_map h).
  set (mab := Obj.spread (maps h a) (maps h b)).
  set (h0 := alloc_map h mab).
  assert (Hwf0 : wf h0).
  { apply wf_new_map;
      [assumption | apply ObjFacts.NoDup_keys_spread |
      | apply ObjFacts.ordered_spread].
    intros v Hv. apply In_targets_spread in Hv as [Hv|Hv].
    - exact (@wf_targets h Hwf a v Ha Hv).
    - exact (@wf_targets h Hwf b v Hb Hv). }
  assert (Hab : ab < next_map h0) by (simpl; lia).
  destruct (@addFields_spec this ab h0 Hwf0 Ht Hab)
    as (h4 & R4 & M4 & V4 & F4 & _).
  fold t in M4, V4.
  assert (Ht4 : t < next_type h4) by (rewrite (mu_next_type M4); exact Ht).
  destruct (@getFields_spec this h4 (mu_wf M4) Ht4) as (l2 & h5 & R5 & Fe5).
  fold t in Fe5.
  (* what the caller's tables hold *)
  assert (Hdb : Obj.map_values refreshed (deep h1 b)
                = Obj.map_values refreshed (deep h b)).
  { unfold deep. rewrite (F1 b Hb). apply map_refreshed_strip.
    intros v Hv. apply (mu_strip M1). exact (@wf_targets h Hwf b v Hb Hv). }
  assert (Hv0 : view h0 t = view h t).
  { apply view_frame; try assumption; try reflexivity.
    intros x Hx. simpl. apply upd_other. unfold ab. lia. }
  assert (Hdab : deep h0 ab = Obj.spread (deep h a) (deep h b)).
  { unfold deep. simpl. rewrite upd_same. apply deep_spread. }
  pose proof (keys_view_NoDup Hwf Ht) as NV.
  assert (NA : NoDup (Obj.keys (deep h a))).
  { rewrite keys_deep. now apply wf_keys. }
  assert (NB : NoDup (Obj.keys (deep h b))).
  { rewrite keys_deep. now apply wf_keys. }
  assert (Heq : view h2 t = view h4 t).
  { rewrite V2, V4, V1, Hv0, Hdab.
    rewrite !ObjFacts.map_values_spread, !map_refreshed_idem, Hdb.
    apply ObjFacts.spread_assoc; now rewrite ObjFacts.keys_map_values. }
  exists l1, h3, l2, h5. split; [|split; [|split]].
  - unfold bind. rewrite R1, R2. exact R3.
  - unfold bind at 1, read_map at 1. unfold bind at 1, read_map at 1.
    unfold bind at 1, new_map at 1. fold ab. fold mab.
    change (alloc_map h mab) with h0.
    unfold bind. rewrite R4. exact R5.
  - rewrite (fe_deep Fe3), (fe_deep Fe5). exact Heq.
  - intros k v Hk. rewrite (fe_deep Fe3), V2.
    rewrite ObjFacts.get_map_values, ObjFacts.get_spread.
    + rewrite get_deep, (F1 b Hb), Hk. simpl. f_equal.
      apply refreshed_strip. apply (mu_strip M1).
      apply (@wf_targets h Hwf b v Hb).
      apply ObjFacts.get_Some_In in Hk. now apply (in_map snd) in Hk.
    + apply keys_view_NoDup; [apply (mu_wf M1) | assumption].
    + rewrite keys_deep, (F1 b Hb). now apply wf_keys.
Qed.

(** ** Removal *)




(** ** Reordering *)

Section Reorder.
Local Open Scope list_scope.

Lemma In_dedup l x : In x (dedup l) <-> In x l.
Proof.
  induction l as [|y l IH]; simpl; [tauto|].
  rewrite filter_In, IH, negb_true_iff, String.eqb_neq.
  destruct (string_dec y x); intuition congruence.
Qed.

Lemma filter_absent (l : list string) x :
  ~ In x l -> filter (fun y => negb (String.eqb y x)) l = l.
Proof.
  intros H. apply forallb_filter_id. apply forallb_forall.
  intros y Hy. apply negb_true_iff, String.eqb_neq. congruence.
Qed.

Lemma filter_dedup (p : string -> bool) l :
  filter p (dedup l) = dedup (filter p l).
Proof.
  induction l as [|x l IH]; simpl; [reflexivity|].
  destruct (p x) eqn:E; simpl.
  - rewrite <- IH, !ObjFacts.filter_filter. f_equal.
    apply filter_ext. intros y. apply andb_comm.
  - rewrite <- IH, ObjFacts.filter_filter. apply filter_ext. intros y.
    destruct (String.eqb_spec y x) as [->|Hne]; simpl; [now rewrite E|].
    reflexivity.
Qed.

Lemma NoDup_dedup l : NoDup (dedup l).
Proof.
  induction l as [|x l IH]; simpl; constructor.
  - rewrite filter_In, negb_true_iff, String.eqb_neq. tauto.
  - now apply NoDup_filter.
Qed.

Lemma mem_filter (p : string -> bool) l x :
  Obj.mem x (filter p l) = Obj.mem x l && p x.
Proof.
  apply eq_true_iff_eq.
  rewrite andb_true_iff, !ObjFacts.mem_In, filter_In. tauto.
Qed.

Lemma moved_cons_in n ns old :
  In n old ->
  moved (n :: ns) old
  = n :: moved ns (filter (fun k => negb (String.eqb k n)) old).
Proof.
  intros Hin. unfold moved. simpl.
  apply ObjFacts.mem_In in Hin. rewrite Hin. simpl. f_equal.
  rewrite filter_dedup, ObjFacts.filter_filter. f_equal.
  apply filter_ext. intros x. now rewrite mem_filter.
Qed.

Lemma moved_cons_out n ns old : ~ In n old -> moved (n :: ns) old = moved ns old.
Proof.
  intros Hin. unfold moved. simpl.
  apply ObjFacts.mem_false in Hin. now rewrite Hin.
Qed.

Lemma In_moved names old x : In x (moved names old) <-> In x names /\ In x old.
Proof.
  unfold moved. rewrite In_dedup, filter_In, ObjFacts.mem_In. tauto.
Qed.

Section Loop.
Variable V : Type.
Implicit Types (o f : Obj.t V).

Lemma no_index_spec ks :
  no_index ks = true <-> forall k, In k ks -> Obj.is_array_index k = false.
Proof.
  unfold no_index. rewrite forallb_forall. split; intros H k Hk.
  - apply negb_true_iff. now apply H.
  - apply negb_true_iff. now apply H.
Qed.

Lemma no_setter_spec names old :
  no_setter names old = true <-> ~ (In "__proto__" names /\ In "__proto__" old).
Proof.
  unfold no_setter.
  rewrite negb_true_iff, andb_false_iff, !ObjFacts.mem_false. split.
  - tauto.
  - intros H. destruct (in_dec string_dec "__proto__" names); tauto.
Qed.

Lemma no_setter_reaches o k :
  k <> "__proto__" -> Obj.reaches_setter o k = false.
Proof.
  intros H. unfold Obj.reaches_setter. apply String.eqb_neq in H.
  now rewrite H.
Qed.

(** What the loop of [reorderFields] leaves of the table it reads. *)
Lemma reorder_loop_snd names : forall o f,
  snd (reorder_loop names o f) = delete_all names f.
Proof.
  induction names as [|n ns IH]; intros o f; [reflexivity|].
  simpl. destruct (Obj.get f n) as [v|] eqn:E.
  - rewrite IH. reflexivity.
  - rewrite IH. unfold delete_all. simpl.
    rewrite ObjFacts.delete_absent; [reflexivity|].
    now apply ObjFacts.get_None.
Qed.

Lemma reorder_loop_NoDup names : forall o f,
  NoDup (Obj.keys o) -> NoDup (Obj.keys (fst (reorder_loop names o f))).
Proof.
  induction names as [|n ns IH]; intros o f Ho; [assumption|].
  simpl. destruct (Obj.get f n) as [v|]; [|now apply IH].
  apply IH. destruct (Obj.reaches_setter o n); [assumption|].
  now apply ObjFacts.NoDup_keys_set.
Qed.

Lemma reorder_loop_ordered names : forall o f,
  Obj.ordered (Obj.keys o) = true ->
  Obj.ordered (Obj.keys (fst (reorder_loop names o f))) = true.
Proof.
  induction names as [|n ns IH]; intros o f Ho; [assumption|].
  simpl. destruct (Obj.get f n) as [v|]; [|now apply IH].
  apply IH. destruct (Obj.reaches_setter o n); [assumption|].
  now apply ObjFacts.ordered_set.
Qed.

(** What the loop of [reorderFields] computes when no field is an array
    index and no assignment reaches the setter. *)
Lemma reorder_loop_spec names : forall o f,
  NoDup (Obj.keys f) -> NoDup (Obj.keys o) ->
  (forall k, In k (Obj.keys o) -> ~ In k (Obj.keys f)) ->
  (forall k, In k (Obj.keys f) -> Obj.is_array_index k = false) ->
  ~ (In "__proto__" names /\ In "__proto__" (Obj.keys f)) ->
  Obj.keys (fst (reorder_loop names o f))
  = Obj.keys o ++ moved names (Obj.keys f)
  /\ forall k,
      Obj.get (fst (reorder_loop names o f)) k
      = match Obj.get o k with
        | Some v => Some v
        | None => if Obj.mem k names then Obj.get f k else None
        end.
Proof.
  induction names as [|n ns IH]; intros o f Hf Ho Hd Hp Hs.
  - simpl. unfold moved. simpl. rewrite app_nil_r.
    split; [reflexivity|]. intros k. now destruct (Obj.get o k).
  - simpl. destruct (Obj.get f n) as [v|] eqn:E.
    + assert (Hn : In n (Obj.keys f)) by (eapply ObjFacts.get_In_keys; eauto).
      assert (Hno : ~ In n (Obj.keys o)) by (intros H; now apply (Hd n H)).
      pose proof (Hp n Hn) as Hi.
      assert (Hnp : n <> "__proto__").
      { intros ->. apply Hs. split; [now left | assumption]. }
      rewrite (@no_setter_reaches o n Hnp).
      destruct (IH (Obj.set o n v) (Obj.delete f n)) as (H2 & H4).
      { now apply ObjFacts.NoDup_keys_delete. }
      { now apply ObjFacts.NoDup_keys_set. }
      { intros k Hk. rewrite ObjFacts.In_keys_delete.
        apply ObjFacts.In_keys_set in Hk as [Hk| ->]; [|tauto].
        intros [Hk' _]. now apply (Hd k Hk). }
      { intros k Hk. apply ObjFacts.In_keys_delete in Hk as [Hk _].
        now apply Hp. }
      { intros [H1 H2]. apply ObjFacts.In_keys_delete in H2 as [H2 _].
        apply Hs. split; [now right | assumption]. }
      split.
      * rewrite H2, ObjFacts.set_fresh, ObjFacts.keys_app by assumption.
        rewrite ObjFacts.keys_delete, moved_cons_in by assumption.
        rewrite <- app_assoc. reflexivity.
      * intros k. rewrite H4.
        destruct (String.eqb_spec k n) as [->|Hne]; simpl.
        -- rewrite ObjFacts.get_set_same.
           apply ObjFacts.get_None in Hno. now rewrite Hno.
        -- rewrite ObjFacts.get_set_other by congruence.
           rewrite ObjFacts.get_delete_other by congruence. reflexivity.
    + assert (Hn : ~ In n (Obj.keys f)) by now apply ObjFacts.get_None.
      destruct (IH o f Hf Ho Hd Hp) as (H2 & H4).
      { intros [H1 H2]. apply Hs. split; [now right | assumption]. }
      split.
      * rewrite H2, moved_cons_out by assumption. reflexivity.
      * intros k. rewrite H4. destruct (Obj.get o k); [reflexivity|].
        destruct (String.eqb_spec k n) as [->|Hne]; simpl; [|reflexivity].
        rewrite E. now destruct (Obj.mem n ns).
Qed.

(** With no array index among the fields and no assignment to the setter,
    the fields listed come first, in the order of the list, and the others
    follow in their prior order. *)
Lemma keys_reordered names f :
  NoDup (Obj.keys f) ->
  no_index (Obj.keys f) = true -> no_setter names (Obj.keys f) = true ->
  Obj.keys (reordered names f)
  = moved names (Obj.keys f) ++ unmoved names (Obj.keys f).
Proof.
  intros Hf Hp' Hs'.
  pose proof (proj1 (no_index_spec _) Hp') as Hp.
  pose proof (proj1 (no_setter_spec _ _) Hs') as Hs.
  destruct (@reorder_loop_spec names [] f Hf) as (H2 & H4);
    [constructor | intros k [] | assumption | assumption |].
  pose proof (reorder_loop_snd names [] f) as H1.
  unfold reordered. rewrite ObjFacts.keys_spread.
  - rewrite H2, H1, keys_delete_all. simpl. f_equal.
    apply forallb_filter_id. apply forallb_forall. intros k Hk.
    apply negb_true_iff, ObjFacts.mem_false. rewrite In_moved.
    apply filter_In in Hk as [_ Hk]. apply negb_true_iff in Hk.
    apply ObjFacts.mem_false in Hk. tauto.
  - apply reorder_loop_NoDup. constructor.
  - now apply reorder_loop_ordered.
  - rewrite H1. now apply NoDup_keys_delete_all.
  - intros k Hk _. rewrite H1 in Hk.
    apply In_keys_delete_all in Hk as [Hk _]. now apply Hp.
Qed.

(** A field keeps its value, unless it is the field [__proto__] and
    listed. *)
Lemma get_reordered names f k :
  NoDup (Obj.keys f) ->
  ~ (k = "__proto__" /\ In k names /\ In k (Obj.keys f)) ->
  Obj.get (reordered names f) k = Obj.get f k.
Proof.
  intros Hf Hk.
  pose proof (reorder_loop_snd names [] f) as H1.
  assert (H4 : forall o g, NoDup (Obj.keys o) ->
            (forall x, In x (Obj.keys o) -> ~ In x (Obj.keys g)) ->
            ~ (k = "__proto__" /\ In k names /\ In k (Obj.keys g)) ->
            Obj.get (fst (reorder_loop names o g)) k
            = match Obj.get o k with
              | Some v => Some v
              | None => if Obj.mem k names then Obj.get g k else None
              end).
  { clear H1 Hf Hk. induction names as [|n ns IH]; intros o g Ho Hd Hk.
    - simpl. now destruct (Obj.get o k).
    - simpl. destruct (Obj.get g n) as [v|] eqn:E.
      + assert (Hn : In n (Obj.keys g))
          by (eapply ObjFacts.get_In_keys; eauto).
        assert (Hno : ~ In n (Obj.keys o)) by (intros H; now apply (Hd n H)).
        rewrite IH.
        * destruct (String.eqb_spec k n) as [->|Hne]; simpl.
          -- rewrite no_setter_reaches.
             ++ rewrite ObjFacts.get_set_same.
                apply ObjFacts.get_None in Hno. now rewrite Hno.
             ++ intros ->. apply Hk.
                split; [reflexivity | split; [now left | assumption]].
          -- assert (G : Obj.get (if Obj.reaches_setter o n then o
                                  else Obj.set o n v) k = Obj.get o k).
             { destruct (Obj.reaches_setter o n); [reflexivity|].
               apply ObjFacts.get_set_other. congruence. }
             rewrite G, ObjFacts.get_delete_other by congruence.
             reflexivity.
        * destruct (Obj.reaches_setter o n); [assumption|].
          now apply ObjFacts.NoDup_keys_set.
        * intros x Hx. rewrite ObjFacts.In_keys_delete.
          destruct (Obj.reaches_setter o n).
          -- intros [Hx' _]. now apply (Hd x Hx).
          -- apply ObjFacts.In_keys_set in Hx as [Hx| ->]; [|tauto].
             intros [Hx' _]. now apply (Hd x Hx).
        * intros (K1 & K2 & K3). apply ObjFacts.In_keys_delete in K3 as [K3 _].
          apply Hk. split; [assumption | split; [now right | assumption]].
      + rewrite IH; try assumption.
        * destruct (Obj.get o k); [reflexivity|].
          destruct (String.eqb_spec k n) as [->|Hne]; simpl; [|reflexivity].
          rewrite E. now destruct (Obj.mem n ns).
        * intros (K1 & K2 & K3). apply Hk.
          split; [assumption | split; [now right | assumption]]. }
  unfold reordered. rewrite ObjFacts.get_spread.
  - rewrite H1, get_delete_all, H4;
      [|constructor|intros x []|assumption]. simpl.
    destruct (Obj.mem k names); [reflexivity|]. now destruct (Obj.get f k).
  - apply reorder_loop_NoDup. constructor.
  - rewrite H1. now apply NoDup_keys_delete_all.
Qed.

End Loop.

Lemma reorder_loop_map {A B} (g : A -> B) names : forall (o f : Obj.t A),
  reorder_loop names (Obj.map_values g o) (Obj.map_values g f)
  = (Obj.map_values g (fst (reorder_loop names o f)),
     Obj.map_values g (snd (reorder_loop names o f))).
Proof.
  induction names as [|n ns IH]; intros o f; simpl; [reflexivity|].
  rewrite ObjFacts.get_map_values. destruct (Obj.get f n); simpl.
  - unfold Obj.reaches_setter. rewrite ObjFacts.has_map_values'.
    destruct (String.eqb n "__proto__" && negb (Obj.has o n)).
    + rewrite <- ObjFacts.map_values_delete. apply IH.
    + rewrite <- ObjFacts.map_values_set, <- ObjFacts.map_values_delete.
      apply IH.
  - apply IH.
Qed.

Lemma reordered_map {A B} (g : A -> B) names (f : Obj.t A) :
  Obj.map_values g (reordered names f) = reordered names (Obj.map_values g f).
Proof.
  unfold reordered.
  change (@nil (string * B)) with (Obj.map_values g (@nil (string * A))).
  rewrite reorder_loop_map. simpl. apply ObjFacts.map_values_spread.
Qed.

Lemma In_targets_reorder_loop names : forall (o f : ValueMap) x,
  In x (Obj.targets (fst (reorder_loop names o f)))
  \/ In x (Obj.targets (snd (reorder_loop names o f))) ->
  In x (Obj.targets o) \/ In x (Obj.targets f).
Proof.
  induction names as [|n ns IH]; intros o f x; simpl; [tauto|].
  destruct (Obj.get f n) as [v|] eqn:E; [|apply IH].
  intros H. apply IH in H as [H|H].
  - destruct (Obj.reaches_setter o n); [tauto|].
    apply In_targets_set in H as [H| ->]; [tauto|]. right.
    apply ObjFacts.get_Some_In in E. now apply (in_map snd) in E.
  - right. eapply In_targets_delete; eauto.
Qed.

End Reorder.

Section ReorderFields.
Local Open Scope list_scope.

Lemma forEach_cons {X} (f : X -> M unit) x xs h h1 :
  f x h = (Normal tt, h1) -> forEach (x :: xs) f h = forEach xs f h1.
Proof. intros H. simpl. unfold bind. now rewrite H. Qed.

Lemma forEach_cons_throw {X} (f : X -> M unit) x xs h h1 e :
  f x h = (Throw e, h1) -> forEach (x :: xs) f h = (Throw e, h1).
Proof. intros H. simpl. unfold bind. now rewrite H. Qed.

Lemma forEach_app {X} (f : X -> M unit) xs ys h h1 :
  forEach xs f h = (Normal tt, h1) ->
  forEach (xs ++ ys) f h = forEach ys f h1.
Proof.
  revert h. induction xs as [|x xs IH]; intros h H.
  - simpl in H. now injection H as ->.
  - simpl in *. unfold bind in *. destruct (f x h) as [[[]|e] h2].
    + now apply IH.
    + discriminate.
Qed.

(** An assignment to a member of the value map [lo] writes that map, or its
    prototype. *)
Lemma member_set_run (lo : loc) k v h :
  exists h1,
    member_set lo k v h = (Normal tt, h1)
    /\ frontier h1 = frontier h /\ objs h1 = objs h
    /\ configs h1 = configs h /\ types h1 = types h
    /\ (forall x, x <> lo -> maps h1 x = maps h x)
    /\ maps h1 lo = (if Obj.reaches_setter (maps h lo) k then maps h lo
                     else Obj.set (maps h lo) k v)
    /\ protos h1 lo = (if Obj.reaches_setter (maps h lo) k then Some v
                       else protos h lo).
Proof.
  unfold member_set, bind, read_map.
  destruct (Obj.reaches_setter (maps h lo) k); eexists; (split; [reflexivity|]);
    simpl; repeat split; try reflexivity;
    try (intros x Hx; now apply upd_other); apply upd_same.
Qed.

(** The loop of [reorderFields] on the store: only the two tables change. *)
Lemma reorder_heap_loop (lo lf : loc) names : forall h,
  lo <> lf ->
  exists h',
    forEach names (fun name =>
      f <- read_map lf ;;
      match Obj.get f name with
      | Some v =>
          member_set lo name v ;;;
          f' <- read_map lf ;;
          write_map lf (Obj.delete f' name)
      | None => ret tt
      end) h = (Normal tt, h')
    /\ frontier h' = frontier h /\ objs h' = objs h
    /\ configs h' = configs h /\ types h' = types h
    /\ (forall x, x <> lo -> x <> lf -> maps h' x = maps h x)
    /\ maps h' lo = fst (reorder_loop names (maps h lo) (maps h lf))
    /\ maps h' lf = snd (reorder_loop names (maps h lo) (maps h lf)).
Proof.
  induction names as [|n ns IH]; intros h Hne.
  - exists h. simpl. repeat split; reflexivity.
  - cbn [reorder_loop]. destruct (Obj.get (maps h lf) n) as [v|] eqn:E.
    + destruct (member_set_run lo n v h)
        as (h1 & R1 & Hf1 & Ho1 & Hc1 & Ht1 & Hm1 & Hlo1 & _).
      set (h2 := with_maps h1 (upd (maps h1) lf (Obj.delete (maps h1 lf) n))
                   (next_map h1)).
      assert (E1 : maps h1 lf = maps h lf) by (apply Hm1; congruence).
      assert (E2 : maps h2 lf = Obj.delete (maps h lf) n).
      { simpl. now rewrite upd_same, E1. }
      assert (E3 : maps h2 lo = maps h1 lo).
      { simpl. now apply upd_other. }
      destruct (IH h2 Hne) as (h' & Hrun & Hf & Ho & Hc & Ht & Hm & Hlo & Hlf).
      exists h'. split.
      { rewrite (@forEach_cons _ _ n ns h h2); [exact Hrun|].
        unfold bind at 1, read_map at 1. rewrite E.
        unfold bind at 1. rewrite R1. reflexivity. }
      split; [rewrite Hf; exact Hf1|]. split; [rewrite Ho; exact Ho1|].
      split; [rewrite Hc; exact Hc1|]. split; [rewrite Ht; exact Ht1|].
      split; [|split].
      * intros x Hx1 Hx2. rewrite Hm by assumption. simpl.
        rewrite upd_other by assumption. now apply Hm1.
      * rewrite Hlo, E2, E3, Hlo1. reflexivity.
      * rewrite Hlf, E2, E3, Hlo1. reflexivity.
    + destruct (IH h Hne) as (h' & Hrun & Hf & Ho & Hc & Ht & Hm & Hlo & Hlf).
      exists h'. split.
      { rewrite (@forEach_cons _ _ n ns h h); [exact Hrun|].
        unfold bind at 1, read_map at 1. rewrite E. reflexivity. }
      repeat split; assumption.
Qed.

Lemma view_locs_frame h h' t :
  wf h -> t < next_type h -> types h' t = types h t ->
  (forall x, x < next_map h -> maps h' x = maps h x) ->
  view_locs h' t = view_locs h t.
Proof.
  intros Hwf Ht Hty Hm. unfold view_locs. rewrite Hty.
  destruct (EnumType._nameLookup (types h t)) as [l|] eqn:E; [|reflexivity].
  rewrite Hm; [reflexivity|]. eapply wf_cache; eauto.
Qed.

Lemma reorderFields_spec this names h :
  wf h -> gqType this < next_type h ->
  exists h',
    reorderFields this names h = (Normal this, h')
    /\ mutated (gqType this) [] h h'
    /\ view h' (gqType this)
       = Obj.map_values refreshed (reordered names (view h (gqType this))).
Proof.
  intros Hwf Ht. set (t := gqType this) in *.
  set (lo := next_map h).
  set (h0 := alloc_map h []).
  assert (Hwf0 : wf h0).
  { apply wf_new_map; [assumption | constructor | intros v [] | reflexivity]. }
  assert (Hm0 : forall x, x < next_map h -> maps h0 x = maps h x).
  { intros x Hx. simpl. apply upd_other. unfold lo. lia. }
  assert (Hv0 : view h0 t = view h t).
  { apply view_frame; try assumption; reflexivity. }
  assert (Hl0 : view_locs h0 t = view_locs h t).
  { apply view_locs_frame; try assumption; reflexivity. }
  destruct (@getFields_spec this h0 Hwf0 Ht) as (l & h1 & Hrun1 & F).
  fold t in F. pose proof (fe_grows F) as [G1 G2 G3 G4]. simpl in G1, G2.
  assert (Hold : l < next_map h0 -> l < next_map h).
  { intros Hl. apply (fe_fresh F) in Hl. eapply (wf_cache Hwf); eauto. }
  assert (Hne : lo <> l).
  { intros <-. assert (lo < next_map h) by (apply Hold; simpl; lia).
    unfold lo in *. lia. }
  assert (Hlo1 : maps h1 lo = []).
  { rewrite (fe_maps F) by (simpl; lia). simpl. apply upd_same. }
  destruct (@reorder_heap_loop lo l names h1 Hne)
    as (h2 & Hrun2 & Hf & Ho & Hc & Hty & Hm & Hlo & Hlf).
  rewrite Hlo1 in Hlo, Hlf.
  pose proof Hf as Hf'. injection Hf' as Hno Hnm Hnc Hnt.
  assert (Hnl : NoDup (Obj.keys (maps h1 l))).
  { apply (wf_keys (fe_wf F)). apply (fe_lt F). }
  pose proof (reorder_loop_snd names [] (maps h1 l)) as S1.
  assert (S3 : NoDup (Obj.keys (fst (reorder_loop names [] (maps h1 l)))))
    by (apply reorder_loop_NoDup; constructor).
  assert (S5 : Obj.ordered
                 (Obj.keys (fst (reorder_loop names [] (maps h1 l)))) = true)
    by now apply reorder_loop_ordered.
  assert (Hsub : forall v,
             In v (Obj.targets (maps h2 lo)) \/ In v (Obj.targets (maps h2 l)) ->
             In v (Obj.targets (maps h1 l))).
  { intros v Hv. rewrite Hlo, Hlf in Hv.
    apply In_targets_reorder_loop in Hv as [[]|Hv]. exact Hv. }
  assert (Hwf2 : wf h2).
  { constructor; rewrite ?Hno, ?Hnm, ?Hnc, ?Hnt, ?Ho, ?Hc, ?Hty.
    - apply (wf_config (fe_wf F)).
    - apply (wf_cache (fe_wf F)).
    - apply (wf_values (fe_wf F)).
    - intros x Hx. destruct (Nat.eq_dec x lo) as [->|N1].
      { rewrite Hlo. exact S3. }
      destruct (Nat.eq_dec x l) as [->|N2].
      { rewrite Hlf, S1. now apply NoDup_keys_delete_all. }
      rewrite Hm by assumption. now apply (wf_keys (fe_wf F)).
    - intros x v Hx Hv. destruct (Nat.eq_dec x lo) as [->|N1].
      { apply (@wf_targets h1 (fe_wf F) l v (fe_lt F)). apply Hsub. now left. }
      destruct (Nat.eq_dec x l) as [->|N2].
      { apply (@wf_targets h1 (fe_wf F) l v (fe_lt F)). apply Hsub. now right. }
      rewrite Hm in Hv by assumption.
      apply (@wf_targets h1 (fe_wf F) x v Hx Hv).
    - apply (wf_props (fe_wf F)).
    - intros x Hx. destruct (Nat.eq_dec x lo) as [->|N1].
      { rewrite Hlo. exact S5. }
      destruct (Nat.eq_dec x l) as [->|N2].
      { rewrite Hlf, S1. apply ordered_keys_delete_all.
        apply (wf_key_order (fe_wf F)). apply (fe_lt F). }
      rewrite Hm by assumption. now apply (wf_key_order (fe_wf F)).
    - apply (wf_prop_order (fe_wf F)). }
  set (m := Obj.spread (maps h2 lo) (maps h2 l)).
  destruct (@install_spec this m h2) as (h' & Hrun3 & I).
  { assumption. }
  { rewrite Hnt, (fe_next_type F). assumption. }
  { apply ObjFacts.NoDup_keys_spread. }
  { intros v Hv. rewrite Hno. apply In_targets_spread in Hv.
    apply Hsub in Hv. apply (@wf_targets h1 (fe_wf F) l v (fe_lt F) Hv). }
  { apply ObjFacts.ordered_spread. }
  fold t in I. exists h'. split; [|split].
  - unfold reorderFields. unfold bind at 1, new_map at 1. fold lo.
    change (alloc_map h []) with h0.
    unfold bind at 1. rewrite Hrun1. unfold bind at 1. rewrite Hrun2.
    unfold bind at 1, read_map at 1. unfold bind at 1, read_map at 1.
    fold m. exact Hrun3.
  - eapply mutated_intro with (h1 := h2) (m := m); try exact I.
    + constructor; rewrite ?Hno, ?Hnm, ?Hnc, ?Hnt; try assumption.
      * unfold lo in G2. lia.
    + rewrite Hnt. apply (fe_next_type F).
    + rewrite Hnc. apply (fe_next_config F).
    + rewrite Hc. apply (fe_configs F).
    + intros x Hx. rewrite Hty. now apply (fe_types F).
    + rewrite Hty, (fe_type F). reflexivity.
    + intros x Hx Hcache.
      assert (N1 : x <> lo) by (unfold lo; lia).
      assert (N2 : x <> l).
      { intros ->. apply Hcache. apply (fe_fresh F). simpl. lia. }
      rewrite Hm by assumption. rewrite (fe_maps F) by (simpl; lia).
      now apply Hm0.
    + intros x Hx. rewrite Ho. now apply (fe_objs F).
    + intros x Hx Hlt. left. apply In_targets_spread in Hx.
      apply Hsub in Hx. rewrite <- Hl0. now apply (fe_locs F).
  - rewrite (is_view I), Ho. unfold m. rewrite Hlo, Hlf.
    rewrite <- (ObjFacts.map_values_map_values (objs h1) refreshed).
    fold (reordered names (maps h1 l)). rewrite reordered_map.
    fold (deep h1 l). now rewrite (fe_deep F), Hv0.
Qed.

End ReorderFields.

(** C3, as stated, fails.  On the sample store with the fields [1], [a],
    [b] and [__proto__], [reorderFields(['b', 'a'])] leaves the field [1]
    first, as [Object.keys] lists an array index before the other names; and
    [reorderFields(['__proto__', 'a'])] loses the field [__proto__], since
    line 146 sets the prototype of [orderedFields] instead of a property. *)
Lemma reorderFields_keeps_an_index_first_and_loses_proto :
  ~ (forall (this : EnumTypeComposer) (n1 n2 : string) (h : Heap),
       well_formed h = true -> gqType this < next_type h ->
       n1 <> n2 ->
       In n1 (Obj.keys (view h (gqType this))) ->
       In n2 (Obj.keys (view h (gqType this))) ->
       forall ks h',
         (reorderFields this [n1; n2] ;;; getFieldNames this) h
         = (Normal ks, h') ->
         ks = n1 :: n2
              :: filter (fun k => negb (String.eqb k n1 || String.eqb k n2))
                   (Obj.keys (view h (gqType this))))
  /\ ~ (forall (this : EnumTypeComposer) (names : list string) (h : Heap),
          well_formed h = true -> gqType this < next_type h ->
          forall ks h',
            (reorderFields this names ;;; getFieldNames this) h
            = (Normal ks, h') ->
            forall k, In k ks <-> In k (Obj.keys (view h (gqType this)))).
Proof.
  split.
  - intros H.
    pose (r := (reorderFields Odd ["b"; "a"] ;;; getFieldNames Odd) odd_heap).
    assert (E : (reorderFields Odd ["b"; "a"] ;;; getFieldNames Odd) odd_heap
                = (Normal ["1"; "b"; "a"; "__proto__"], snd r)).
    { vm_compute. reflexivity. }
    specialize (H Odd "b" "a" odd_heap eq_refl).
    specialize (H ltac:(vm_compute; lia) ltac:(discriminate)).
    specialize (H ltac:(vm_compute; auto 10) ltac:(vm_compute; auto 10)).
    specialize (H _ _ E). vm_compute in H. discriminate H.
  - intros H.
    pose (r := (reorderFields Odd ["__proto__"; "a"] ;;; getFieldNames Odd)
                 odd_heap).
    assert (E : (reorderFields Odd ["__proto__"; "a"] ;;; getFieldNames Odd)
                  odd_heap
                = (Normal ["1"; "a"; "b"], snd r)).
    { vm_compute. reflexivity. }
    specialize (H Odd ["__proto__"; "a"] odd_heap eq_refl).
    specialize (H ltac:(vm_compute; lia) _ _ E "__proto__").
    assert (X : In "__proto__" ["1"; "a"; "b"]).
    { apply H. vm_compute. auto 10. }
    simpl in X. intuition discriminate.
Qed.

(** C3, as amended.  When no field name is an array index, and the field
    [__proto__], if there is one, is not among [names]:
    [reorderFields(names)] followed by [getFieldNames()] gives the names of
    [names] that are fields, in the order of [names] (a repeated name counts
    once), followed by all other fields in their prior order.  No field is
    added or removed, and each keeps its value.  For two distinct fields
    [n1], [n2] the result is [n1; n2] followed by the rest. *)
Theorem reorderFields_then_getFieldNames (this : EnumTypeComposer)
    (names : list string) (h : Heap) :
  well_formed h = true -> gqType this < next_type h ->
  no_index (Obj.keys (view h (gqType this))) = true ->
  no_setter names (Obj.keys (view h (gqType this))) = true ->
  let old := Obj.keys (view h (gqType this)) in
  exists ks h',
    (reorderFields this names ;;; getFieldNames this) h = (Normal ks, h')
    /\ ks = (moved names old ++ unmoved names old)%list
    /\ (forall k, In k ks <-> In k old)
    /\ (forall k, Obj.get (view h' (gqType this)) k
                  = option_map refreshed (Obj.get (view h (gqType this)) k))
    /\ (forall n1 n2, names = [n1; n2] -> n1 <> n2 ->
          In n1 old -> In n2 old ->
          ks = n1 :: n2
               :: filter (fun k => negb (String.eqb k n1 || String.eqb k n2))
                    old).
Proof.
  intros Hwf Ht Hni Hns old. apply well_formed_wf in Hwf.
  set (t := gqType this) in *.
  destruct (@reorderFields_spec this names h Hwf Ht) as (h1 & R1 & M1 & V1).
  fold t in M1, V1.
  assert (Ht1 : t < next_type h1) by (rewrite (mu_next_type M1); exact Ht).
  destruct (@getFields_spec this h1 (mu_wf M1) Ht1) as (l & h2 & R2 & F2).
  fold t in F2.
  pose proof (keys_view_NoDup Hwf Ht) as Hnd.
  assert (Hks : Obj.keys (maps h2 l)
                = (moved names old ++ unmoved names old)%list).
  { rewrite <- keys_deep, (fe_deep F2), V1, ObjFacts.keys_map_values.
    now apply keys_reordered. }
  exists (Obj.keys (maps h2 l)), h2. split; [|split; [|split; [|split]]].
  - unfold bind at 1. rewrite R1. unfold getFieldNames, bind. rewrite R2.
    reflexivity.
  - exact Hks.
  - intros k. rewrite Hks, in_app_iff, In_moved. unfold unmoved.
    rewrite filter_In, negb_true_iff, ObjFacts.mem_false.
    destruct (in_dec string_dec k names); tauto.
  - intros k. rewrite (fetched_view F2), V1, ObjFacts.get_map_values.
    rewrite get_reordered; [reflexivity | assumption |].
    intros (-> & K2 & K3). apply no_setter_spec in Hns. tauto.
  - intros n1 n2 -> Hne H1 H2. rewrite Hks.
    rewrite moved_cons_in by assumption.
    rewrite moved_cons_in.
    + unfold moved. simpl. unfold unmoved. simpl. do 2 f_equal.
      apply filter_ext. intros k. rewrite orb_false_r. reflexivity.
    + apply filter_In. split; [assumption|].
      apply negb_true_iff, String.eqb_neq. congruence.
Qed.


(** ** Footprints *)

Section Footprints.
Local Open Scope list_scope.

Lemma extends_refl h : extends h h.
Proof. constructor; auto using grows_refl. Qed.

Lemma extends_trans h1 h2 h3 : extends h1 h2 -> extends h2 h3 -> extends h1 h3.
Proof.
  intros A B. pose proof (ex_grows A) as [G1 G2 G3 G4].
  constructor.
  - eapply grows_trans; [apply (ex_grows A) | apply (ex_grows B)].
  - rewrite (ex_next_type B). apply (ex_next_type A).
  - rewrite (ex_next_config B). apply (ex_next_config A).
  - rewrite (ex_types B). apply (ex_types A).
  - rewrite (ex_configs B). apply (ex_configs A).
  - intros x Hx. rewrite (ex_maps B) by lia. now apply (ex_maps A).
  - intros x Hx. rewrite (ex_objs B) by lia. now apply (ex_objs A).
Qed.

Lemma extends_new_obj h o :
  extends h (with_objs h (upd (objs h) (next_obj h) o) (S (next_obj h))).
Proof.
  constructor; simpl; auto.
  - constructor; simpl; lia.
  - intros x Hx. apply upd_other. lia.
Qed.

Lemma extends_new_map h m :
  extends h (alloc_map h m).
Proof.
  constructor; simpl; auto.
  - constructor; simpl; lia.
  - intros x Hx. apply upd_other. lia.
Qed.

Lemma view_extends h h' t :
  wf h -> t < next_type h -> extends h h' -> view h' t = view h t.
Proof.
  intros Hwf Ht E. apply view_frame; try assumption.
  - now rewrite (ex_types E).
  - now rewrite (ex_configs E).
  - apply (ex_maps E).
  - apply (ex_objs E).
Qed.

Lemma view_locs_extends h h' t :
  wf h -> t < next_type h -> extends h h' -> view_locs h' t = view_locs h t.
Proof.
  intros Hwf Ht E. apply view_locs_frame; try assumption.
  - now rewrite (ex_types E).
  - apply (ex_maps E).
Qed.

Lemma framed_refl t h : framed t h h.
Proof. constructor; auto using grows_refl. Qed.

Lemma view_locs_shown h t v :
  In v (view_locs h t) -> In v (Obj.targets (maps h (shown h t))).
Proof.
  unfold view_locs, shown.
  destruct (EnumType._nameLookup (types h t)); [trivial | intros []].
Qed.

Lemma framed_trans t h1 h2 h3 : framed t h1 h2 -> framed t h2 h3 -> framed t h1 h3.
Proof.
  intros A B. pose proof (fr_grows A) as [G1 G2 G3 G4].
  constructor.
  - eapply grows_trans; [apply (fr_grows A) | apply (fr_grows B)].
  - rewrite (fr_next_type B). apply (fr_next_type A).
  - rewrite (fr_next_config B). apply (fr_next_config A).
  - intros x Hx. rewrite (fr_types B) by assumption. now apply (fr_types A).
  - rewrite (fr_enumConfig B). apply (fr_enumConfig A).
  - intros x Hx. rewrite (fr_configs B) by (now rewrite (fr_enumConfig A)).
    now apply (fr_configs A).
  - intros c Hc Hlt. apply (fr_cache A); [|assumption].
    apply (fr_cache B); [assumption | lia].
  - intros x Hx Hne. rewrite (fr_maps B).
    + now apply (fr_maps A).
    + lia.
    + intros Hc. apply Hne. now apply (fr_cache A).
  - intros v Hv Hlt. apply (fr_locs A); [|assumption].
    apply (fr_locs B); [assumption | lia].
  - intros x Hx Hv. rewrite (fr_objs B).
    + now apply (fr_objs A).
    + lia.
    + intros Hin. apply Hv. now apply (fr_locs A).
  - destruct (fr_shown B) as [E|E].
    + rewrite E. apply (fr_shown A).
    + right. lia.
  - intros v Hv Hlt. apply (fr_shown_locs A); [|assumption].
    apply (fr_shown_locs B); [assumption | lia].
Qed.

Lemma extends_framed t h h' :
  wf h -> t < next_type h -> extends h h' -> framed t h h'.
Proof.
  intros Hwf Ht E. constructor.
  - apply (ex_grows E).
  - apply (ex_next_type E).
  - apply (ex_next_config E).
  - intros x _. now rewrite (ex_types E).
  - now rewrite (ex_types E).
  - intros x _. now rewrite (ex_configs E).
  - intros c Hc _. now rewrite (ex_types E) in Hc.
  - intros x Hx _. now apply (ex_maps E).
  - intros v Hv _. now rewrite (view_locs_extends Hwf Ht E) in Hv.
  - intros x Hx _. now apply (ex_objs E).
  - left. unfold shown, backing. now rewrite (ex_types E), (ex_configs E).
  - intros v Hv _.
    assert (Hs : shown h' t = shown h t).
    { unfold shown, backing. now rewrite (ex_types E), (ex_configs E). }
    rewrite Hs, (ex_maps E) in Hv; [exact Hv|].
    unfold shown. destruct (EnumType._nameLookup (types h t)) as [l|] eqn:C.
    + eapply wf_cache; eauto.
    + now apply backing_lt.
Qed.

Lemma fetched_framed t h l h' : fetched t h l h' -> framed t h h'.
Proof.
  intros F. constructor.
  - apply (fe_grows F).
  - apply (fe_next_type F).
  - apply (fe_next_config F).
  - apply (fe_types F).
  - now rewrite (fe_type F).
  - intros x _. now rewrite (fe_configs F).
  - intros c Hc Hlt. rewrite (fe_cache F) in Hc. injection Hc as <-.
    now apply (fe_fresh F).
  - intros x Hx _. now apply (fe_maps F).
  - intros v Hv Hlt. unfold view_locs in Hv. rewrite (fe_cache F) in Hv.
    now apply (fe_locs F).
  - intros x Hx _. now apply (fe_objs F).
  - assert (Hs : shown h' t = l) by (unfold shown; now rewrite (fe_cache F)).
    rewrite Hs.
    destruct (Nat.lt_ge_cases l (next_map h)) as [Hl|Hl]; [left | now right].
    unfold shown. now rewrite (fe_fresh F Hl).
  - assert (Hs : shown h' t = l) by (unfold shown; now rewrite (fe_cache F)).
    rewrite Hs. intros v Hv Hlt.
    apply view_locs_shown. now apply (fe_locs F).
Qed.

Lemma mutated_framed t h h' : mutated t [] h h' -> framed t h h'.
Proof.
  intros Mu. constructor.
  - apply (mu_grows Mu).
  - apply (mu_next_type Mu).
  - apply (mu_next_config Mu).
  - apply (mu_types Mu).
  - now rewrite (mu_type Mu).
  - apply (mu_configs Mu).
  - intros c Hc. rewrite (mu_type Mu) in Hc. discriminate.
  - apply (mu_maps Mu).
  - intros v Hv. unfold view_locs in Hv. rewrite (mu_type Mu) in Hv.
    destruct Hv.
  - intros x Hx Hv. apply (mu_objs Mu); auto.
  - right. unfold shown. rewrite (mu_type Mu). simpl. apply (mu_backing Mu).
  - assert (Hs : shown h' t = backing h' t)
      by (unfold shown; now rewrite (mu_type Mu)).
    rewrite Hs. intros v Hv Hlt. apply view_locs_shown.
    destruct (mu_targets Mu Hv Hlt) as [H|[]]. exact H.
Qed.

(** A mutation whose arguments were allocated after [h], reached from [h] by
    a read and allocations, is a mutation from [h] without arguments. *)
Lemma mutated_after_fetch t args h l h1 h3 h4 :
  fetched t h l h1 -> extends h1 h3 -> mutated t args h3 h4 ->
  (forall x, In x args -> next_obj h <= x) ->
  mutated t [] h h4.
Proof.
  intros F E Mu Hargs.
  pose proof (fe_grows F) as [G1 G2 G3 G4].
  pose proof (ex_grows E) as [E1 E2 E3 E4].
  assert (Hty : types h3 t = EnumType.set_nameLookup (types h t) (Some l)).
  { rewrite (ex_types E). apply (fe_type F). }
  assert (Hcfg : EnumType._enumConfig (types h3 t)
                 = EnumType._enumConfig (types h t)) by now rewrite Hty.
  constructor.
  - apply (mu_wf Mu).
  - eapply grows_trans; [apply (fe_grows F)|].
    eapply grows_trans; [apply (ex_grows E) | apply (mu_grows Mu)].
  - rewrite (mu_next_type Mu), (ex_next_type E). apply (fe_next_type F).
  - rewrite (mu_next_config Mu), (ex_next_config E). apply (fe_next_config F).
  - rewrite (mu_type Mu), Hty. reflexivity.
  - intros x Hx. rewrite (mu_types Mu), (ex_types E) by assumption.
    now apply (fe_types F).
  - rewrite <- Hcfg, (mu_config Mu), (ex_configs E), (fe_configs F).
    reflexivity.
  - intros x Hx. rewrite (mu_configs Mu) by (now rewrite Hcfg).
    now rewrite (ex_configs E), (fe_configs F).
  - pose proof (mu_backing Mu). lia.
  - intros x Hx Hne. rewrite (mu_maps Mu).
    + rewrite (ex_maps E) by lia. now apply (fe_maps F).
    + lia.
    + rewrite Hty. simpl. intros [= <-]. apply Hne. now apply (fe_fresh F).
  - intros x Hx Hv _. rewrite (mu_objs Mu).
    + rewrite (ex_objs E) by lia. now apply (fe_objs F).
    + lia.
    + unfold view_locs. rewrite Hty. simpl. rewrite (ex_maps E) by apply (fe_lt F).
      intros Hin. apply Hv. now apply (fe_locs F).
    + intros Hin. apply Hargs in Hin. lia.
  - intros x Hx. rewrite (mu_strip Mu) by lia.
    rewrite (ex_objs E) by lia. now rewrite (fe_objs F).
  - intros v Hv Hlt. left.
    assert (Hlt3 : v < next_obj h3) by lia.
    destruct (mu_targets Mu Hv Hlt3) as [H|H].
    + unfold view_locs in H. rewrite Hty in H. simpl in H.
      rewrite (ex_maps E) in H by apply (fe_lt F). now apply (fe_locs F).
    + apply Hargs in H. lia.
Qed.

Lemma shown_lt h t : wf h -> t < next_type h -> shown h t < next_map h.
Proof.
  intros Hwf Ht. unfold shown.
  destruct (EnumType._nameLookup (types h t)) as [l|] eqn:E.
  - eapply wf_cache; eauto.
  - now apply backing_lt.
Qed.

Lemma framed_touched t h h' : framed t h h' -> touched t [] h h'.
Proof.
  intros Fr. constructor.
  - apply (fr_types Fr).
  - apply (fr_configs Fr).
  - apply (fr_maps Fr).
  - intros x Hx Hv _. now apply (fr_objs Fr).
Qed.

Lemma mutated_touched t args h h' : mutated t args h h' -> touched t args h h'.
Proof.
  intros Mu. constructor.
  - apply (mu_types Mu).
  - apply (mu_configs Mu).
  - apply (mu_maps Mu).
  - apply (mu_objs Mu).
Qed.

(** A call on the composer over [t2] does not change what the composer over
    a type apart from it shows, as long as the caller does not hand it the
    very objects that composer shows. *)
Lemma view_preserved h h' t1 t2 args :
  wf h -> t1 < next_type h -> apart h t1 t2 ->
  (forall v, In v (Obj.targets (maps h (shown h t1))) -> ~ In v args) ->
  touched t2 args h h' ->
  view h' t1 = view h t1.
Proof.
  intros Hwf Ht (N1 & N2 & N3 & N4) Hargs To.
  pose proof (shown_lt Hwf Ht) as Hs.
  assert (Hty : types h' t1 = types h t1) by now apply (to_types To).
  assert (Hc : configs h' (EnumType._enumConfig (types h t1))
               = configs h (EnumType._enumConfig (types h t1))).
  { now apply (to_configs To). }
  assert (Hd : deep h' (shown h t1) = deep h (shown h t1)).
  { apply deep_frame.
    - now apply (to_maps To).
    - intros v Hv. apply (to_objs To).
      + apply (@wf_targets h Hwf (shown h t1) v Hs Hv).
      + now apply N4.
      + now apply Hargs. }
  unfold view, backing. rewrite Hty, Hc. unfold shown, backing in Hd.
  destruct (EnumType._nameLookup (types h t1)); [exact Hd | now rewrite Hd].
Qed.

End Footprints.

(** ** Extending one field *)

Section ExtendField.
Local Open Scope list_scope.

Lemma bind_normal {A B} (c : M A) (k : A -> M B) h a h1 :
  c h = (Normal a, h1) -> (x <- c ;; k x) h = k a h1.
Proof. intros H. unfold bind. now rewrite H. Qed.

Lemma bind_throw {A B} (c : M A) (k : A -> M B) h e h1 :
  c h = (Throw e, h1) -> (x <- c ;; k x) h = (Throw e, h1).
Proof. intros H. unfold bind. now rewrite H. Qed.

Lemma bind_read_map {B} l (k : ValueMap -> M B) h :
  (m <- read_map l ;; k m) h = k (maps h l) h.
Proof. reflexivity. Qed.

Lemma bind_read_obj {B} l (k : JsObject -> M B) h :
  (o <- read_obj l ;; k o) h = k (objs h l) h.
Proof. reflexivity. Qed.

Lemma bind_read_type {B} l (k : EnumType.t -> M B) h :
  (ty <- read_type l ;; k ty) h = k (types h l) h.
Proof. reflexivity. Qed.

Lemma bind_new_obj {B} o (k : loc -> M B) h :
  (v <- new_obj o ;; k v) h
  = k (next_obj h) (with_objs h (upd (objs h) (next_obj h) o) (S (next_obj h))).
Proof. reflexivity. Qed.

Lemma bind_new_map {B} m (k : loc -> M B) h :
  (v <- new_map m ;; k v) h
  = k (next_map h) (alloc_map h m).
Proof. reflexivity. Qed.

Lemma bind_getTypeName {B} this (k : string -> M B) h :
  (n <- getTypeName this ;; k n) h = k (EnumType.name (types h (gqType this))) h.
Proof. reflexivity. Qed.

Lemma spread_single {V} (a : Obj.t V) k v :
  NoDup (Obj.keys a) -> Obj.ordered (Obj.keys a) = true ->
  Obj.spread a [(k, v)] = Obj.set a k v.
Proof. intros H Ho. now rewrite ObjFacts.spread_eq. Qed.

Lemma getField_spec this name h :
  wf h -> gqType this < next_type h ->
  exists l h1,
    fetched (gqType this) h l h1
    /\ match Obj.get (maps h1 l) name with
       | Some v => getField this name h = (Normal v, h1)
       | None =>
           getField this name h
           = (Throw (Error ("Cannot get value '" ++ name
                            ++ "' from enum type '"
                            ++ EnumType.name (types h (gqType this))
                            ++ "'. Value with such name does not exist."))%string,
              h1)
       end.
Proof.
  intros Hwf Ht.
  destruct (@getFields_spec this h Hwf Ht) as (l & h1 & Hrun1 & F).
  exists l, h1. split; [exact F|].
  destruct (Obj.get (maps h1 l) name) as [v|] eqn:E.
  - unfold getField. rewrite (@bind_normal _ _ _ _ _ _ _ Hrun1), bind_read_map, E.
    reflexivity.
  - unfold getField. rewrite (@bind_normal _ _ _ _ _ _ _ Hrun1), bind_read_map, E.
    rewrite bind_getTypeName, (fe_type F). reflexivity.
Qed.

Lemma extendField_throws this name partial h :
  wf h -> gqType this < next_type h ->
  Obj.get (view h (gqType this)) name = None ->
  exists h',
    extendField this name partial h
    = (Throw (Error ("Cannot extend value '" ++ name ++ "' from enum '"
                     ++ EnumType.name (types h (gqType this))
                     ++ "'. Value does not exist."))%string, h')
    /\ wf h' /\ framed (gqType this) h h'
    /\ view h' (gqType this) = view h (gqType this).
Proof.
  intros Hwf Ht Hg.
  destruct (@getField_spec this name h Hwf Ht) as (l & h1 & F & Hrun).
  assert (E : Obj.get (maps h1 l) name = None).
  { rewrite <- (fe_deep F), get_deep in Hg.
    now destruct (Obj.get (maps h1 l) name). }
  rewrite E in Hrun. exists h1. split; [|split; [|split]].
  - unfold extendField. unfold bind at 1, try_catch. rewrite Hrun.
    rewrite bind_getTypeName, (fe_type F). reflexivity.
  - apply (fe_wf F).
  - apply (fetched_framed F).
  - apply (fetched_view F).
Qed.

Lemma extendField_spec this name partial h prev :
  wf h -> gqType this < next_type h -> partial < next_obj h ->
  Obj.get (view h (gqType this)) name = Some prev ->
  exists h',
    extendField this name partial h = (Normal this, h')
    /\ mutated (gqType this) [] h h'
    /\ view h' (gqType this)
       = Obj.set (Obj.map_values refreshed (view h (gqType this))) name
           (refreshed (Obj.spread prev (objs h partial)))
    /\ deep h' (backing h' (gqType this))
       = Obj.set (Obj.map_values strip (view h (gqType this))) name
           (strip (Obj.spread prev (objs h partial))).
Proof.
  intros Hwf Ht Hp Hg. set (t := gqType this) in *.
  destruct (@getField_spec this name h Hwf Ht) as (l & h1 & F & Hrun).
  fold t in F. pose proof (fe_grows F) as [G1 G2 G3 G4].
  assert (E : exists v, Obj.get (maps h1 l) name = Some v /\ objs h1 v = prev).
  { rewrite <- (fe_deep F), get_deep in Hg.
    destruct (Obj.get (maps h1 l) name) as [v|]; [|discriminate].
    exists v. split; [reflexivity|]. now injection Hg. }
  destruct E as (v & E & Hprev). rewrite E in Hrun.
  set (merged := Obj.spread (objs h1 v) (objs h1 partial)).
  set (vc := next_obj h1).
  set (h2 := with_objs h1 (upd (objs h1) vc merged) (S vc)).
  set (single := next_map h2).
  set (h3 := alloc_map h2 [(name, vc)]).
  assert (Hwf2 : wf h2).
  { apply wf_new_obj; [apply (fe_wf F) | apply ObjFacts.NoDup_keys_spread
                      | apply ObjFacts.ordered_spread]. }
  assert (Hwf3 : wf h3).
  { apply wf_new_map;
      [assumption | repeat constructor; simpl; tauto | | reflexivity].
    intros x [<-|[]]. simpl. unfold vc. lia. }
  assert (E13 : extends h1 h3).
  { eapply extends_trans; [apply extends_new_obj | apply extends_new_map]. }
  assert (Ht3 : t < next_type h3).
  { rewrite (ex_next_type E13), (fe_next_type F). exact Ht. }
  destruct (@addFields_spec this single h3 Hwf3 Ht3)
    as (h4 & Hrun4 & Mu & V4 & _ & D4); [unfold single; simpl; lia|].
  fold t in Mu, V4, D4.
  assert (Hv3 : view h3 t = view h t).
  { rewrite (view_extends (fe_wf F)); [apply (fetched_view F) | | exact E13].
    rewrite (fe_next_type F). exact Ht. }
  assert (Hd3 : deep h3 single
                = [(name, Obj.spread prev (objs h partial))]).
  { unfold deep. simpl. rewrite !upd_same. simpl. rewrite upd_same.
    unfold merged. now rewrite Hprev, (@fe_objs _ _ _ _ F partial Hp). }
  assert (Hsp : Obj.spread (view h3 t) (deep h3 single)
                = Obj.set (view h t) name (Obj.spread prev (objs h partial))).
  { rewrite Hv3, Hd3.
    apply spread_single; [now apply keys_view_NoDup|].
    now apply keys_view_ordered. }
  exists h4. split; [|split; [|split]].
  - unfold extendField. unfold bind at 1, try_catch. rewrite Hrun.
    rewrite !bind_read_obj, bind_new_obj. fold merged vc.
    change (with_objs h1 (upd (objs h1) vc merged) (S vc)) with h2.
    unfold setField.
    assert (Hs : (single0 <- new_map (Obj.set [] name vc) ;;
                  addFields this single0 ;;; ret this) h2 = (Normal this, h4)).
    { rewrite bind_new_map. fold single.
      change (Obj.set [] name vc) with [(name, vc)].
      change (alloc_map h2 [(name, vc)])
        with h3.
      now rewrite (@bind_normal _ _ _ _ _ _ _ Hrun4). }
    now rewrite (@bind_normal _ _ _ _ _ _ _ Hs).
  - eapply mutated_after_fetch; [exact F | exact E13 | exact Mu |].
    simpl. rewrite upd_same. intros x [Hx|[]]. simpl in Hx.
    rewrite <- Hx. unfold vc. lia.
  - rewrite V4, Hsp. apply ObjFacts.map_values_set.
  - rewrite D4, Hsp. apply ObjFacts.map_values_set.
Qed.

End ExtendField.

Arguments bind_normal {A B c} k {h a h1} _.
Arguments bind_throw {A B c} k {h e h1} _.

(** [getFields()] returns a table that reads as [view]. *)
Lemma getFields_shows_view this h :
  wf h -> gqType this < next_type h ->
  exists l h',
    getFields this h = (Normal l, h')
    /\ deep h' l = view h (gqType this)
    /\ view h' (gqType this) = view h (gqType this).
Proof.
  intros Hwf Ht.
  destruct (@getFields_spec this h Hwf Ht) as (l & h1 & R & F).
  exists l, h1. split; [exact R|]. split; [apply (fe_deep F)|].
  apply (fetched_view F).
Qed.

Lemma view_props_NoDup h t k p :
  wf h -> t < next_type h -> Obj.get (view h t) k = Some p ->
  NoDup (Obj.keys p).
Proof.
  intros Hwf Ht. unfold view.
  destruct (EnumType._nameLookup (types h t)) as [l|] eqn:E.
  - rewrite get_deep.
    destruct (Obj.get (maps h l) k) as [v|] eqn:G; [|discriminate].
    intros [= <-]. apply (wf_props Hwf).
    apply (@wf_targets h Hwf l v).
    + eapply wf_cache; eauto.
    + apply ObjFacts.get_Some_In in G. now apply (in_map snd) in G.
  - rewrite ObjFacts.get_map_values, get_deep.
    destruct (Obj.get (maps h (backing h t)) k) as [v|] eqn:G; [|discriminate].
    intros [= <-]. apply ObjFacts.NoDup_keys_set. apply (wf_props Hwf).
    apply (@wf_targets h Hwf (backing h t) v).
    + now apply backing_lt.
    + apply ObjFacts.get_Some_In in G. now apply (in_map snd) in G.
Qed.




(** ** Deprecation *)

Section Deprecate.
Local Open Scope list_scope.

Lemma mutated_extends t h h1 h2 :
  wf h -> t < next_type h -> extends h h1 -> mutated t [] h1 h2 ->
  mutated t [] h h2.
Proof.
  intros Hwf Ht E Mu.
  pose proof (ex_grows E) as [E1 E2 E3 E4].
  constructor.
  - apply (mu_wf Mu).
  - eapply grows_trans; [apply (ex_grows E) | apply (mu_grows Mu)].
  - rewrite (mu_next_type Mu). apply (ex_next_type E).
  - rewrite (mu_next_config Mu). apply (ex_next_config E).
  - rewrite (mu_type Mu), (ex_types E). reflexivity.
  - intros x Hx. rewrite (mu_types Mu), (ex_types E) by assumption.
    reflexivity.
  - pose proof (mu_config Mu) as C. rewrite (ex_types E), (ex_configs E) in C.
    exact C.
  - intros x Hx. rewrite (mu_configs Mu) by (now rewrite (ex_types E)).
    now rewrite (ex_configs E).
  - pose proof (mu_backing Mu). lia.
  - intros x Hx Hne. rewrite (mu_maps Mu).
    + now apply (ex_maps E).
    + lia.
    + now rewrite (ex_types E).
  - intros x Hx Hv _. rewrite (mu_objs Mu).
    + now apply (ex_objs E).
    + lia.
    + now rewrite (view_locs_extends Hwf Ht E).
    + intros [].
  - intros x Hx. rewrite (mu_strip Mu) by lia. now rewrite (ex_objs E).
  - intros v Hv Hlt. left.
    assert (Hlt1 : v < next_obj h1) by lia.
    destruct (mu_targets Mu Hv Hlt1) as [H|[]].
    now rewrite (view_locs_extends Hwf Ht E) in H.
Qed.

Lemma get_refreshed p k :
  k <> "isDeprecated" -> Obj.get (refreshed p) k = Obj.get p k.
Proof.
  intros Hk. unfold refreshed. now rewrite get_define, get_strip.
Qed.

Lemma reason_after_merge prev r :
  NoDup (Obj.keys prev) ->
  Obj.get (refreshed (Obj.spread prev [("deprecationReason", r)]))
    "deprecationReason" = Some r.
Proof.
  intros Hnd. rewrite get_refreshed by discriminate.
  rewrite ObjFacts.get_spread; [reflexivity | assumption |].
  repeat constructor; simpl; tauto.
Qed.

Lemma deprecate_one_missing this existed rho field h :
  ~ In field existed ->
  deprecate_one this existed rho field h
  = (Throw (Error ("Cannot deprecate unexisted value '" ++ field
                   ++ "' from enum '"
                   ++ EnumType.name (types h (gqType this)) ++ "'"))%string,
     h).
Proof.
  intros Hin. unfold deprecate_one, indexOf_is_minus_one.
  apply ObjFacts.mem_false in Hin. rewrite Hin. reflexivity.
Qed.

Lemma deprecate_one_ok this existed rho field h :
  wf h -> gqType this < next_type h ->
  Obj.keys (view h (gqType this)) = existed -> In field existed ->
  exists h' prev,
    deprecate_one this existed rho field h = (Normal tt, h')
    /\ mutated (gqType this) [] h h'
    /\ Obj.get (view h (gqType this)) field = Some prev
    /\ view h' (gqType this)
       = Obj.set (Obj.map_values refreshed (view h (gqType this))) field
           (refreshed (Obj.spread prev [("deprecationReason", rho field)])).
Proof.
  intros Hwf Ht Hk Hin. set (t := gqType this) in *.
  destruct (ObjFacts.In_keys_get (view h t) field) as [prev Hprev].
  { now rewrite Hk. }
  set (o := [("deprecationReason", rho field)]).
  set (pl := next_obj h).
  set (h1 := with_objs h (upd (objs h) pl o) (S pl)).
  assert (E : extends h h1) by apply extends_new_obj.
  assert (Hwf1 : wf h1).
  { apply wf_new_obj;
      [assumption | repeat constructor; simpl; tauto | reflexivity]. }
  assert (Hv1 : view h1 t = view h t) by now apply view_extends.
  destruct (@extendField_spec this field pl h1 prev)
    as (h2 & R & Mu & V & _); try assumption.
  { simpl. lia. }
  { fold t. now rewrite Hv1. }
  fold t in Mu, V. exists h2, prev. split; [|split; [|split]].
  - unfold deprecate_one, indexOf_is_minus_one.
    apply ObjFacts.mem_In in Hin. rewrite Hin. simpl.
    change ((x <- ret tt ;;
             partial <- new_obj o ;;
             extendField this field partial ;;; ret tt) h = (Normal tt, h2)).
    unfold bind at 1, ret at 1. rewrite bind_new_obj. fold pl.
    change (with_objs h (upd (objs h) pl o) (S pl)) with h1.
    now rewrite (bind_normal _ R).
  - now apply (@mutated_extends t h h1 h2 Hwf Ht E).
  - exact Hprev.
  - rewrite V, Hv1. simpl. now rewrite upd_same.
Qed.

(** The loop over names that all exist. *)
Lemma deprecate_loop_ok this existed rho names : forall h,
  wf h -> gqType this < next_type h ->
  Obj.keys (view h (gqType this)) = existed ->
  (forall f, In f names -> In f existed) ->
  exists h',
    forEach names (deprecate_one this existed rho) h = (Normal tt, h')
    /\ wf h' /\ framed (gqType this) h h'
    /\ EnumType.name (types h' (gqType this))
       = EnumType.name (types h (gqType this))
    /\ Obj.keys (view h' (gqType this)) = existed
    /\ (forall f, In f names ->
          exists p, Obj.get (view h' (gqType this)) f = Some p
                    /\ reason p = Some (rho f))
    /\ (forall g, ~ In g names ->
          option_map reason (Obj.get (view h' (gqType this)) g)
          = option_map reason (Obj.get (view h (gqType this)) g)).
Proof.
  set (t := gqType this).
  induction names as [|f fs IH]; intros h Hwf Ht Hk Hall.
  - exists h. simpl.
    split; [reflexivity|]. split; [assumption|]. split; [apply framed_refl|].
    split; [reflexivity|]. split; [assumption|].
    split; [intros f []|reflexivity].
  - destruct (@deprecate_one_ok this existed rho f h Hwf Ht Hk)
      as (h1 & prev & R1 & Mu & Hprev & V1).
    { apply Hall. now left. }
    fold t in Mu, Hprev, V1.
    assert (Ht1 : t < next_type h1) by (rewrite (mu_next_type Mu); exact Ht).
    assert (Hk1 : Obj.keys (view h1 t) = existed).
    { rewrite V1, ObjFacts.keys_set_in; rewrite ObjFacts.keys_map_values;
        [exact Hk|]. eapply ObjFacts.get_In_keys; eauto. }
    assert (Hnd : NoDup (Obj.keys prev)).
    { eapply view_props_NoDup; eauto. }
    assert (Hf1 : option_map reason (Obj.get (view h1 t) f) = Some (Some (rho f))).
    { rewrite V1, ObjFacts.get_set_same. simpl. unfold reason.
      now rewrite reason_after_merge. }
    assert (Hg1 : forall g, g <> f ->
              option_map reason (Obj.get (view h1 t) g)
              = option_map reason (Obj.get (view h t) g)).
    { intros g Hg. rewrite V1, ObjFacts.get_set_other by congruence.
      rewrite ObjFacts.get_map_values.
      destruct (Obj.get (view h t) g); [|reflexivity]. simpl. unfold reason.
      now rewrite get_refreshed by discriminate. }
    destruct (IH h1 (mu_wf Mu) Ht1 Hk1)
      as (h' & R & Hwf' & Fr & Hn & Hk' & Hset & Hkeep).
    { intros g Hg. apply Hall. now right. }
    exists h'. split; [|split; [|split; [|split; [|split; [|split]]]]].
    + rewrite (@forEach_cons _ _ _ _ _ _ R1). exact R.
    + exact Hwf'.
    + eapply framed_trans; [apply (@mutated_framed _ _ _ Mu) | exact Fr].
    + rewrite Hn, (mu_type Mu). reflexivity.
    + exact Hk'.
    + intros g [<-|Hg]; [|now apply Hset].
      destruct (in_dec string_dec f fs) as [Hin|Hin]; [now apply Hset|].
      specialize (Hkeep f Hin). rewrite Hf1 in Hkeep.
      destruct (Obj.get (view h' t) f) as [p|]; [|discriminate].
      exists p. split; [reflexivity|]. now injection Hkeep.
    + intros g Hg. simpl in Hg. rewrite Hkeep by tauto.
      apply Hg1. intros ->. apply Hg. now left.
Qed.

(** The loop on a list whose first missing name is [missing]. *)
Lemma deprecate_loop_throws this existed rho pre missing post h :
  wf h -> gqType this < next_type h ->
  Obj.keys (view h (gqType this)) = existed ->
  (forall f, In f pre -> In f existed) -> ~ In missing existed ->
  exists h',
    forEach (pre ++ missing :: post) (deprecate_one this existed rho) h
    = (Throw (Error ("Cannot deprecate unexisted value '" ++ missing
                     ++ "' from enum '"
                     ++ EnumType.name (types h (gqType this)) ++ "'"))%string,
       h')
    /\ wf h' /\ framed (gqType this) h h'
    /\ (forall f, In f pre ->
          exists p, Obj.get (view h' (gqType this)) f = Some p
                    /\ reason p = Some (rho f)).
Proof.
  intros Hwf Ht Hk Hpre Hmiss.
  destruct (@deprecate_loop_ok this existed rho pre h Hwf Ht Hk Hpre)
    as (h' & R & Hwf' & Fr & Hn & _ & Hset & _).
  exists h'. split; [|split; [|split]]; try assumption.
  rewrite (@forEach_app _ _ _ (missing :: post) _ _ R).
  rewrite (@forEach_cons_throw _ _ missing post h' h' _
             (@deprecate_one_missing this existed rho missing h' Hmiss)).
  now rewrite Hn.
Qed.

Lemma forEach_single {X} (f : X -> M unit) x h : forEach [x] f h = f x h.
Proof.
  simpl. unfold bind, ret. destruct (f x h) as [[[]|e] h']; reflexivity.
Qed.

Lemma bind_ext {A B} (c : M A) (k1 k2 : A -> M B) h :
  (forall a h', k1 a h' = k2 a h') -> bind c k1 h = bind c k2 h.
Proof.
  intros H. unfold bind. destruct (c h) as [[a|e] h']; [apply H | reflexivity].
Qed.

Lemma bind_cong {A B} (c1 c2 : M A) (k : A -> M B) h :
  c1 h = c2 h -> bind c1 k h = bind c2 k h.
Proof. intros H. unfold bind. now rewrite H. Qed.

(** The three branches of [deprecateFields] are one loop. *)
Lemma deprecateFields_unfold this spec h :
  deprecateFields this spec h
  = (existed <- getFieldNames this ;;
     forEach (fields_of spec) (deprecate_one this existed (reason_of spec)) ;;;
     ret this) h.
Proof.
  unfold deprecateFields. apply bind_ext. intros existed h'.
  apply bind_cong.
  destruct spec as [field|names|fieldMap]; simpl fields_of.
  - rewrite forEach_single. reflexivity.
  - reflexivity.
  - reflexivity.
Qed.

Lemma getFieldNames_spec this h :
  wf h -> gqType this < next_type h ->
  exists l h1,
    getFieldNames this h = (Normal (Obj.keys (view h (gqType this))), h1)
    /\ fetched (gqType this) h l h1.
Proof.
  intros Hwf Ht.
  destruct (@getFields_spec this h Hwf Ht) as (l & h1 & R & F).
  exists l, h1. split; [|exact F].
  unfold getFieldNames. rewrite (bind_normal _ R), bind_read_map.
  unfold ret. now rewrite <- (fe_deep F), keys_deep.
Qed.

Lemma first_missing (names existed : list string) :
  (exists f, In f names /\ ~ In f existed) ->
  exists pre missing post,
    names = pre ++ missing :: post
    /\ (forall f, In f pre -> In f existed) /\ ~ In missing existed.
Proof.
  induction names as [|n ns IH]; intros (f & Hf & Hn); [destruct Hf|].
  destruct (in_dec string_dec n existed) as [Hin|Hin].
  - destruct Hf as [->|Hf]; [contradiction|].
    destruct IH as (pre & m & post & -> & Hpre & Hm); [eauto|].
    exists (n :: pre), m, post. split; [reflexivity|]. split; [|assumption].
    intros g [<-|Hg]; auto.
  - exists [], n, ns. split; [reflexivity|]. split; [intros g []|assumption].
Qed.

End Deprecate.

Section DeprecateFields.
Local Open Scope list_scope.

Lemma deprecateFields_ok this spec h :
  wf h -> gqType this < next_type h ->
  (forall f, In f (fields_of spec) -> In f (Obj.keys (view h (gqType this)))) ->
  exists h',
    deprecateFields this spec h = (Normal this, h')
    /\ wf h' /\ framed (gqType this) h h'
    /\ forall f, In f (fields_of spec) ->
         exists p, Obj.get (view h' (gqType this)) f = Some p
                   /\ reason p = Some (reason_of spec f).
Proof.
  intros Hwf Ht Hall. set (t := gqType this) in *.
  destruct (@getFieldNames_spec this h Hwf Ht) as (l & h1 & R1 & F).
  fold t in R1, F.
  assert (Ht1 : t < next_type h1) by (rewrite (fe_next_type F); exact Ht).
  destruct (@deprecate_loop_ok this (Obj.keys (view h t)) (reason_of spec)
              (fields_of spec) h1 (fe_wf F) Ht1)
    as (h' & R & Hwf' & Fr & _ & _ & Hset & _).
  { fold t. now rewrite (fetched_view F). }
  { exact Hall. }
  exists h'. split; [|split; [|split]]; try assumption.
  - rewrite deprecateFields_unfold, (bind_normal _ R1), (bind_normal _ R).
    reflexivity.
  - eapply framed_trans; [apply (fetched_framed F) | exact Fr].
Qed.

Lemma deprecateFields_throws this spec pre missing post h :
  wf h -> gqType this < next_type h ->
  fields_of spec = pre ++ missing :: post ->
  (forall f, In f pre -> In f (Obj.keys (view h (gqType this)))) ->
  ~ In missing (Obj.keys (view h (gqType this))) ->
  exists h',
    deprecateFields this spec h
    = (Throw (Error ("Cannot deprecate unexisted value '" ++ missing
                     ++ "' from enum '"
                     ++ EnumType.name (types h (gqType this)) ++ "'"))%string,
       h')
    /\ wf h' /\ framed (gqType this) h h'
    /\ forall f, In f pre ->
         exists p, Obj.get (view h' (gqType this)) f = Some p
                   /\ reason p = Some (reason_of spec f).
Proof.
  intros Hwf Ht Hsplit Hpre Hmiss. set (t := gqType this) in *.
  destruct (@getFieldNames_spec this h Hwf Ht) as (l & h1 & R1 & F).
  fold t in R1, F.
  assert (Ht1 : t < next_type h1) by (rewrite (fe_next_type F); exact Ht).
  destruct (@deprecate_loop_throws this (Obj.keys (view h t)) (reason_of spec)
              pre missing post h1 (fe_wf F) Ht1)
    as (h' & R & Hwf' & Fr & Hset); try assumption.
  { fold t. now rewrite (fetched_view F). }
  exists h'. split; [|split; [|split]]; try assumption.
  - rewrite deprecateFields_unfold, (bind_normal _ R1), Hsplit.
    rewrite (bind_throw _ R). fold t. now rewrite (fe_type F).
  - eapply framed_trans; [apply (fetched_framed F) | exact Fr].
Qed.

End DeprecateFields.

(** C6. [deprecateFields(fields)], where [fields] is a name, an array of names
    or a name-to-reason object: if one of the names it lists is not a field,
    the call throws an error whose message quotes a listed name that is
    missing; if all are fields, the call returns and every listed field shows
    as [deprecationReason] the string ['deprecated'] (name and array forms)
    or the reason the object gives for it (object form). *)
Theorem deprecateFields_checks_then_sets (this : EnumTypeComposer)
    (fields : DeprecateSpec) (h : Heap) :
  well_formed h = true -> gqType this < next_type h ->
  let t := gqType this in
  let existing := Obj.keys (view h t) in
  let h' := store (deprecateFields this fields) h in
  ((exists f, In f (fields_of fields) /\ ~ In f existing) ->
   exists missing,
     In missing (fields_of fields) /\ ~ In missing existing
     /\ outcome (deprecateFields this fields) h
        = Throw (Error ("Cannot deprecate unexisted value '" ++ missing
                        ++ "' from enum '" ++ EnumType.name (types h t)
                        ++ "'")))
  /\ ((forall f, In f (fields_of fields) -> In f existing) ->
      outcome (deprecateFields this fields) h = Normal this
      /\ forall f, In f (fields_of fields) ->
           exists p, Obj.get (view h' t) f = Some p
                     /\ Obj.get p "deprecationReason"
                        = Some (match fields with
                                | DeprecateMap fieldMap =>
                                    match Obj.get fieldMap f with
                                    | Some v => v
                                    | None => JUndefined
                                    end
                                | _ => JStr "deprecated"
                                end)).
Proof.
  intros Hwf Ht t existing h'. apply well_formed_wf in Hwf. split.
  - intros Hex.
    destruct (first_missing _ _ Hex) as (pre & missing & post & Hs & Hpre & Hm).
    destruct (@deprecateFields_throws this fields pre missing post h
                Hwf Ht Hs Hpre Hm) as (h1 & R & _).
    exists missing. split; [|split; [exact Hm|]].
    + rewrite Hs. apply in_or_app. right. now left.
    + unfold outcome. now rewrite R.
  - intros Hall.
    destruct (@deprecateFields_ok this fields h Hwf Ht Hall)
      as (h1 & R & _ & _ & Hset).
    assert (Hh : h' = h1) by (unfold h', store; now rewrite R).
    split; [unfold outcome; now rewrite R|].
    intros f Hf. rewrite Hh. destruct (Hset f Hf) as (p & Hp & Hr).
    exists p. split; [exact Hp|]. unfold reason in Hr. rewrite Hr.
    now destruct fields.
Qed.

(** C7. When the names [deprecateFields] visits are [pre], then a name that is
    not a field, then [post], the call throws for that name, and in the store
    it leaves behind every field of [pre] is already deprecated with its
    reason: names are checked and deprecated one at a time. *)
Theorem deprecateFields_fails_after_partial_mutation
    (this : EnumTypeComposer) (fields : DeprecateSpec)
    (pre post : list string) (missing : string) (h : Heap) :
  well_formed h = true -> gqType this < next_type h ->
  fields_of fields = (pre ++ missing :: post)%list ->
  (forall f, In f pre -> In f (Obj.keys (view h (gqType this)))) ->
  ~ In missing (Obj.keys (view h (gqType this))) ->
  let t := gqType this in
  let h' := store (deprecateFields this fields) h in
  outcome (deprecateFields this fields) h
  = Throw (Error ("Cannot deprecate unexisted value '" ++ missing
                  ++ "' from enum '" ++ EnumType.name (types h t) ++ "'"))
  /\ forall f, In f pre ->
       exists p, Obj.get (view h' t) f = Some p
                 /\ Obj.get p "deprecationReason" = Some (reason_of fields f).
Proof.
  intros Hwf Ht Hs Hpre Hm t h'. apply well_formed_wf in Hwf.
  destruct (@deprecateFields_throws this fields pre missing post h
              Hwf Ht Hs Hpre Hm) as (h1 & R & _ & _ & Hset).
  assert (Hh : h' = h1) by (unfold h', store; now rewrite R).
  split; [unfold outcome; now rewrite R|].
  intros f Hf. rewrite Hh. apply (Hset f Hf).
Qed.


(** ** Cloning *)

Section Clone.
Local Open Scope list_scope.

Lemma bind_write_map {B} l m (k : unit -> M B) h :
  (x <- write_map l m ;; k x) h
  = k tt (with_maps h (upd (maps h) l m) (next_map h)).
Proof. reflexivity. Qed.

(** Reading a member back just after the assignment gives the value
    assigned: as the own property, or as the prototype. *)
Lemma member_set_get (lo : loc) k v h :
  exists h1,
    member_set lo k v h = (Normal tt, h1)
    /\ member_get lo k h1 = (Normal (Some v), h1)
    /\ frontier h1 = frontier h /\ objs h1 = objs h
    /\ configs h1 = configs h /\ types h1 = types h
    /\ (forall x, x <> lo -> maps h1 x = maps h x)
    /\ maps h1 lo = (if Obj.reaches_setter (maps h lo) k then maps h lo
                     else Obj.set (maps h lo) k v).
Proof.
  destruct (member_set_run lo k v h)
    as (h1 & R & Hf & Ho & Hc & Ht & Hm & Hlo & Hp).
  exists h1. split; [exact R|]. split; [|tauto].
  unfold member_get, bind, read_map. rewrite Hlo.
  destruct (Obj.reaches_setter (maps h lo) k) eqn:S.
  - unfold Obj.reaches_setter in S. apply andb_true_iff in S as [S1 S2].
    apply negb_true_iff in S2. unfold Obj.has in S2.
    destruct (Obj.get (maps h lo) k); [discriminate|].
    rewrite S1. unfold read_proto. now rewrite Hp.
  - now rewrite ObjFacts.get_set_same.
Qed.

Lemma ordered_remove (l1 : list string) k l2 :
  Obj.ordered (l1 ++ k :: l2) = true -> Obj.ordered (l1 ++ l2) = true.
Proof.
  induction l1 as [|x l1 IH]; simpl app; intros H.
  - now apply KeyOrder.ordered_cons in H.
  - apply KeyOrder.ordered_cons in H as [H1 H2].
    apply KeyOrder.ordered_cons. split; [|now apply IH].
    intros e He. apply H1. apply in_app_or in He as [He|He];
      apply in_or_app; [now left | right; now right].
Qed.

(** The copying loop of [clone]: one fresh object per field, holding the
    properties of the original value without the marker.  The copy of a
    field [__proto__] becomes the prototype of the new table, not a field. *)
Lemma clone_loop (values nv : loc) (es : ValueMap) : forall h,
  values <> nv ->
  (forall k v, In (k, v) es -> Obj.get (maps h values) k = Some v) ->
  NoDup (Obj.keys (maps h nv) ++ Obj.keys es) ->
  Obj.ordered (Obj.keys (maps h nv) ++ Obj.keys es) = true ->
  ~ In "__proto__" (Obj.keys (maps h nv)) ->
  (forall v, In v (Obj.targets (maps h nv)) -> v < next_obj h) ->
  (forall v, In v (Obj.targets es) -> v < next_obj h) ->
  (forall x, x < next_obj h -> NoDup (Obj.keys (objs h x))) ->
  (forall x, x < next_obj h -> Obj.ordered (Obj.keys (objs h x)) = true) ->
  exists h',
    forEach (Obj.keys es) (fun fieldName =>
      m' <- read_map values ;;
      fresh <-
        match Obj.get m' fieldName with
        | Some v => o <- read_obj v ;; new_obj (Obj.copy o)
        | None => new_obj []
        end ;;
      member_set nv fieldName fresh ;;;
      w <- member_get nv fieldName ;;
      match w with
      | Some w =>
          o' <- read_obj w ;;
          write_obj w (Obj.delete o' "isDeprecated")
      | None =>
          throw (TypeError "Cannot convert undefined or null to object")
      end) h = (Normal tt, h')
    /\ next_obj h' = next_obj h + length es
    /\ next_map h' = next_map h /\ next_config h' = next_config h
    /\ next_type h' = next_type h
    /\ configs h' = configs h /\ types h' = types h
    /\ (forall x, x <> nv -> maps h' x = maps h x)
    /\ Obj.keys (maps h' nv)
       = Obj.keys (maps h nv) ++ Obj.keys (Obj.delete es "__proto__")
    /\ (forall v, In v (Obj.targets (maps h' nv)) ->
          In v (Obj.targets (maps h nv)) \/ next_obj h <= v < next_obj h')
    /\ (forall x, x < next_obj h -> objs h' x = objs h x)
    /\ (forall x, x < next_obj h' -> NoDup (Obj.keys (objs h' x)))
    /\ deep h' nv
       = deep h nv
         ++ Obj.map_values (fun c => strip (objs h c))
              (Obj.delete es "__proto__")
    /\ (forall x, x < next_obj h' ->
          Obj.ordered (Obj.keys (objs h' x)) = true).
Proof.
  induction es as [|[k c] es IH];
    intros h Hne Hget Hnd Hord Hnp Hnv Hes Hp Hq.
  - exists h. simpl. rewrite !app_nil_r, Nat.add_0_r.
    repeat split; try reflexivity; try assumption. now left.
  - set (fresh := next_obj h).
    set (ha := with_objs h (upd (objs h) fresh (Obj.copy (objs h c)))
                 (S fresh)).
    destruct (member_set_get nv k fresh ha)
      as (hb & Rb & Gb & Hfb & Hob & Hcb & Htb & Hmb & Hnvb).
    injection Hfb as Fb1 Fb2 Fb3 Fb4.
    set (h1 := with_objs hb
                 (upd (objs hb) fresh
                    (Obj.delete (objs hb fresh) "isDeprecated"))
                 (next_obj hb)).
    assert (Hc : c < next_obj h) by (apply Hes; now left).
    assert (Hk : ~ In k (Obj.keys (maps h nv))).
    { intros Hin. simpl in Hnd. apply NoDup_remove_2 in Hnd.
      apply Hnd. apply in_or_app. now left. }
    assert (Hm1 : maps h1 nv
                  = if String.eqb k "__proto__" then maps h nv
                    else maps h nv ++ [(k, fresh)]).
    { change (maps h1 nv) with (maps hb nv). rewrite Hnvb.
      change (maps ha nv) with (maps h nv).
      unfold Obj.reaches_setter.
      apply ObjFacts.has_false in Hk. rewrite Hk, andb_true_r.
      destruct (String.eqb k "__proto__"); [reflexivity|].
      apply ObjFacts.set_last; [now apply ObjFacts.has_false|].
      intros e He. apply KeyOrder.ordered_app in Hord as (_ & _ & Hord).
      apply Hord; [assumption | now left]. }
    assert (Ho1 : objs h1 fresh = strip (objs h c)).
    { change (objs h1 fresh)
        with (upd (objs hb) fresh (Obj.delete (objs hb fresh) "isDeprecated")
                fresh).
      rewrite upd_same, Hob. simpl. rewrite upd_same. unfold strip. f_equal.
      apply ObjFacts.copy_id; [now apply Hp | now apply Hq]. }
    assert (Hold : forall x, x < next_obj h -> objs h1 x = objs h x).
    { intros x Hx.
      change (objs h1 x)
        with (upd (objs hb) fresh (Obj.delete (objs hb fresh) "isDeprecated")
                x).
      rewrite upd_other by (unfold fresh; lia). rewrite Hob. simpl.
      apply upd_other. unfold fresh. lia. }
    assert (Hn1 : next_obj h1 = S fresh).
    { change (next_obj h1) with (next_obj hb). rewrite Fb1. reflexivity. }
    assert (Hstep :
      (fun fieldName : string =>
         m' <- read_map values ;;
         fresh <-
           match Obj.get m' fieldName with
           | Some v => o <- read_obj v ;; new_obj (Obj.copy o)
           | None => new_obj []
           end ;;
         member_set nv fieldName fresh ;;;
         w <- member_get nv fieldName ;;
         match w with
         | Some w =>
             o' <- read_obj w ;;
             write_obj w (Obj.delete o' "isDeprecated")
         | None =>
             throw (TypeError "Cannot convert undefined or null to object")
         end) k h = (Normal tt, h1)).
    { cbv beta. rewrite bind_read_map, (Hget k c) by now left.
      unfold bind at 1. unfold bind at 1, read_obj at 1, new_obj at 1.
      fold fresh. fold ha.
      unfold bind at 1. rewrite Rb. unfold bind at 1. rewrite Gb.
      reflexivity. }
    destruct (IH h1) as (h' & Hrun & Hno & Hnm & Hnc & Hnt & Hcf & Hty & Hm
                            & Hks & Hts & Ho & Hp' & Hd & Hq').
    { exact Hne. }
    { intros k' v' Hin. change (maps h1 values) with (maps hb values).
      rewrite Hmb by assumption. apply Hget. now right. }
    { rewrite Hm1. destruct (String.eqb k "__proto__").
      - simpl in Hnd. now apply NoDup_remove_1 in Hnd.
      - rewrite ObjFacts.keys_app, <- app_assoc. exact Hnd. }
    { rewrite Hm1. destruct (String.eqb k "__proto__").
      - simpl in Hord. now apply ordered_remove in Hord.
      - rewrite ObjFacts.keys_app, <- app_assoc. exact Hord. }
    { rewrite Hm1. destruct (String.eqb_spec k "__proto__"); [assumption|].
      rewrite ObjFacts.keys_app, in_app_iff. simpl. intuition congruence. }
    { rewrite Hm1, Hn1. intros x Hx.
      assert (In x (Obj.targets (maps h nv)) \/ x = fresh) as [H| ->].
      { destruct (String.eqb k "__proto__"); [now left|].
        unfold Obj.targets in Hx. rewrite map_app in Hx.
        apply in_app_or in Hx as [Hx|[Hx|[]]]; [now left | now right]. }
      - apply Hnv in H. unfold fresh. lia.
      - lia. }
    { intros x Hx. rewrite Hn1. assert (x < next_obj h); [|unfold fresh; lia].
      apply Hes. now right. }
    { intros x Hx. rewrite Hn1 in Hx. destruct (Nat.eq_dec x fresh) as [->|Hxf].
      - rewrite Ho1. apply ObjFacts.NoDup_keys_delete. now apply Hp.
      - rewrite Hold by (unfold fresh in *; lia). apply Hp.
        unfold fresh in *. lia. }
    { intros x Hx. rewrite Hn1 in Hx. destruct (Nat.eq_dec x fresh) as [->|Hxf].
      - rewrite Ho1. apply ObjFacts.ordered_delete. now apply Hq.
      - rewrite Hold by (unfold fresh in *; lia). apply Hq.
        unfold fresh in *. lia. }
    assert (Hdel : Obj.delete ((k, c) :: es) "__proto__"
                   = if String.eqb k "__proto__"
                     then Obj.delete es "__proto__"
                     else (k, c) :: Obj.delete es "__proto__").
    { unfold Obj.delete. simpl. now destruct (String.eqb k "__proto__"). }
    exists h'. split.
    { change (Obj.keys ((k, c) :: es)) with (k :: Obj.keys es).
      rewrite (@forEach_cons _ _ _ _ _ _ Hstep). exact Hrun. }
    split; [rewrite Hno, Hn1; unfold fresh; simpl; lia|].
    split; [rewrite Hnm; exact Fb2|]. split; [rewrite Hnc; exact Fb3|].
    split; [rewrite Hnt; exact Fb4|].
    split; [rewrite Hcf; exact Hcb|]. split; [rewrite Hty; exact Htb|].
    split.
    { intros x Hx. rewrite Hm by assumption.
      change (maps h1 x) with (maps hb x). now apply Hmb. }
    split.
    { rewrite Hks, Hm1, Hdel. destruct (String.eqb k "__proto__").
      - reflexivity.
      - rewrite ObjFacts.keys_app, <- app_assoc. reflexivity. }
    split.
    { intros v Hv. apply Hts in Hv as [Hv|Hv].
      - rewrite Hm1 in Hv.
        assert (In v (Obj.targets (maps h nv)) \/ v = fresh) as [H| ->].
        { destruct (String.eqb k "__proto__"); [now left|].
          unfold Obj.targets in Hv. rewrite map_app in Hv.
          apply in_app_or in Hv as [Hv|[Hv|[]]]; [now left | now right]. }
        + now left.
        + right. rewrite Hno, Hn1. unfold fresh. lia.
      - right. rewrite Hn1 in Hv. unfold fresh in Hv. lia. }
    split.
    { intros x Hx. rewrite Ho by (rewrite Hn1; unfold fresh; lia).
      now apply Hold. }
    split; [assumption|].
    split; [|assumption].
    assert (Hdn : deep h1 nv
                  = deep h nv
                    ++ (if String.eqb k "__proto__" then []
                        else [(k, strip (objs h c))])).
    { unfold deep. rewrite Hm1. destruct (String.eqb k "__proto__").
      - rewrite app_nil_r. apply ObjFacts.map_values_ext.
        intros x Hx. apply Hold. now apply Hnv.
      - unfold Obj.map_values. rewrite map_app. cbn [map fst snd].
        rewrite Ho1. f_equal. apply map_ext_in. intros [k' x] Hin.
        cbn [fst snd]. f_equal. apply Hold. apply Hnv.
        now apply (in_map snd) in Hin. }
    assert (Hrest : Obj.map_values (fun c0 => strip (objs h1 c0))
                      (Obj.delete es "__proto__")
                    = Obj.map_values (fun c0 => strip (objs h c0))
                        (Obj.delete es "__proto__")).
    { apply ObjFacts.map_values_ext. intros x Hx.
      f_equal. apply Hold. apply Hes. right.
      eapply In_targets_delete; eauto. }
    rewrite Hd, Hdn, Hrest, Hdel, <- app_assoc.
    destruct (String.eqb k "__proto__"); reflexivity.
Qed.

Ltac proj :=
  cbn [EnumType._enumConfig EnumType._nameLookup EnumType.name
       EnumType.description Config.values Config.name Config.description].

Lemma clone_spec this newTypeName h :
  wf h -> gqType this < next_type h -> newTypeName <> ""%string ->
  exists c h',
    clone this newTypeName h = (Normal (mkETC c), h')
    /\ cloned_from (gqType this) newTypeName h c h'.
Proof.
  intros Hwf Ht Hname. set (t := gqType this) in *.
  destruct (@getFields_spec this h Hwf Ht) as (l & h1 & R1 & F).
  fold t in F. pose proof (fe_grows F) as [G1 G2 G3 G4].
  pose proof (fe_wf F) as Hwf1. pose proof (fe_lt F) as Hl.
  set (nv := next_map h1).
  set (h2 := alloc_map h1 []).
  set (es := maps h1 l).
  assert (Hne : l <> nv) by (unfold nv; lia).
  assert (Hes : maps h2 l = es) by (simpl; now apply upd_other).
  assert (Hnd : NoDup (Obj.keys es)) by now apply (wf_keys Hwf1).
  assert (Hnv2 : maps h2 nv = []) by (simpl; apply upd_same).
  destruct (@clone_loop l nv es h2 Hne)
    as (h3 & R3 & Hno & Hnm & Hnc & Hnt & Hcf & Hty & Hm & Hks & Hts0 & Ho
           & Hp & Hd & Hq).
  { intros k v Hin. rewrite Hes. now apply ObjFacts.In_get. }
  { rewrite Hnv2. exact Hnd. }
  { rewrite Hnv2. now apply (wf_key_order Hwf1). }
  { rewrite Hnv2. intros []. }
  { rewrite Hnv2. intros v []. }
  { intros v Hv. simpl. apply (@wf_targets h1 Hwf1 l v Hl Hv). }
  { simpl. apply (wf_props Hwf1). }
  { simpl. apply (wf_prop_order Hwf1). }
  assert (Hts : forall v, In v (Obj.targets (maps h3 nv)) ->
                          next_obj h1 <= v < next_obj h3).
  { intros v Hv. apply Hts0 in Hv as [Hv|Hv]; [|exact Hv].
    rewrite Hnv2 in Hv. destruct Hv. }
  rewrite Hnv2 in Hks. simpl in Hks, Hno, Hnm, Hnc, Hnt, Hcf, Hty.
  set (cfg := next_config h3).
  set (h4 := with_configs h3
               (upd (configs h3) cfg (Config.make newTypeName None nv))
               (S cfg)).
  set (ty := next_type h4).
  set (h5 := with_types h4
               (upd (types h4) ty
                  (EnumType.make newTypeName None cfg None None None))
               (S ty)).
  set (d := description_or_empty h t).
  set (h6 := with_configs
               (with_types h5
                  (upd (types h5) ty
                     (EnumType.set_description (types h5 ty) (Some d)))
                  (next_type h5))
               (upd (configs h5) cfg
                  (Config.set_description (configs h5 cfg) (Some d)))
               (next_config h5)).
  assert (Hty_t : ty = next_type h).
  { unfold ty. simpl. rewrite Hnt. apply (fe_next_type F). }
  assert (Hcfg : cfg = next_config h).
  { unfold cfg. rewrite Hnc. apply (fe_next_config F). }
  assert (Htne : t <> ty) by lia.
  assert (Ht5 : types h5 t = types h1 t).
  { simpl. rewrite upd_other by assumption. now rewrite Hty. }
  assert (Hd5 : (if String.eqb d "" then ""%string else d) = d).
  { destruct (String.eqb_spec d ""); congruence. }
  assert (Hdesc : match EnumType.description (types h5 t) with
                  | Some d0 => if String.eqb d0 "" then ""%string else d0
                  | None => ""%string
                  end = d).
  { rewrite Ht5, (fe_type F). simpl. unfold d, description_or_empty.
    destruct (EnumType.description (types h t)) as [d0|]; [|reflexivity].
    destruct (String.eqb_spec d0 ""); congruence. }
  assert (Run : clone this newTypeName h = (Normal (mkETC ty), h6)).
  { unfold clone. apply String.eqb_neq in Hname. rewrite Hname.
    rewrite (bind_normal _ R1), bind_new_map. fold nv. fold h2.
    rewrite bind_read_map, Hes, (bind_normal _ R3).
    unfold bind at 1, new_config at 1. fold cfg. fold h4.
    unfold GraphQLEnumType.new.
    unfold bind at 1. unfold bind at 1, read_config at 1.
    unfold new_type at 1. fold ty.
    replace (configs h4 cfg) with (Config.make newTypeName None nv)
      by (simpl; now rewrite upd_same).
    simpl Config.name. simpl Config.description. fold h5.
    unfold bind at 1, getDescription at 1, bind at 1, read_type at 1, ret at 1.
    fold t. rewrite Hdesc.
    unfold setDescription, bind, read_type, write_type, read_config,
      write_config, ret. simpl gqType.
    replace (EnumType._enumConfig
               (types
                  (with_types h5
                     (upd (types h5) ty
                        (EnumType.set_description (types h5 ty) (Some d)))
                     (next_type h5)) ty)) with cfg
      by (simpl; now rewrite !upd_same).
    reflexivity. }
  assert (T6 : forall x, types h6 x
                 = if Nat.eqb x ty
                   then EnumType.make newTypeName (Some d) cfg None None None
                   else types h1 x).
  { intros x. simpl. unfold upd. rewrite !Nat.eqb_refl.
    destruct (Nat.eqb x ty); [reflexivity | now rewrite Hty]. }
  assert (C6 : forall x, configs h6 x
                 = if Nat.eqb x cfg
                   then Config.make newTypeName (Some d) nv
                   else configs h1 x).
  { intros x. simpl. unfold upd. rewrite !Nat.eqb_refl.
    destruct (Nat.eqb x cfg); [reflexivity | now rewrite Hcf]. }
  assert (M6 : maps h6 = maps h3) by reflexivity.
  assert (O6 : objs h6 = objs h3) by reflexivity.
  assert (Hback : backing h6 ty = nv).
  { unfold backing. rewrite (T6 ty), Nat.eqb_refl. proj.
    now rewrite (C6 cfg), Nat.eqb_refl. }
  assert (Hold_m : forall x, x < next_map h1 -> maps h6 x = maps h1 x).
  { intros x Hx. rewrite M6, Hm by (unfold nv; lia). simpl.
    apply upd_other. unfold nv. lia. }
  assert (Hold_o : forall x, x < next_obj h1 -> objs h6 x = objs h1 x).
  { intros x Hx. rewrite O6. now apply Ho. }
  assert (Hdeep : deep h6 nv
                  = Obj.map_values strip (Obj.delete (view h t) "__proto__")).
  { change (deep h3 nv
            = Obj.map_values strip (Obj.delete (view h t) "__proto__")).
    rewrite Hd. unfold deep at 1. rewrite Hnv2. simpl.
    rewrite <- (fe_deep F). unfold deep. fold es.
    rewrite <- ObjFacts.map_values_delete.
    rewrite ObjFacts.map_values_map_values.
    reflexivity. }
  assert (Hview_t : view h6 t = view h t).
  { rewrite <- (fetched_view F). apply view_frame; try assumption.
    - rewrite (fe_next_type F). exact Ht.
    - rewrite T6. apply Nat.eqb_neq in Htne. now rewrite Htne.
    - rewrite C6.
      assert (EnumType._enumConfig (types h1 t) < next_config h1).
      { apply (wf_config Hwf1). rewrite (fe_next_type F). exact Ht. }
      assert (N : EnumType._enumConfig (types h1 t) <> cfg).
      { rewrite Hcfg, <- (fe_next_config F). lia. }
      apply Nat.eqb_neq in N. now rewrite N. }
  assert (Hty1 : ty = next_type h1) by (unfold ty; simpl; exact Hnt).
  assert (Hcfg1 : cfg = next_config h1) by (unfold cfg; exact Hnc).
  assert (N6t : next_type h6 = S ty) by reflexivity.
  assert (N6c : next_config h6 = S cfg) by reflexivity.
  assert (N6m : next_map h6 = S nv) by (simpl; exact Hnm).
  assert (N6o : next_obj h6 = next_obj h1 + length es) by (simpl; exact Hno).
  exists ty, h6. split; [exact Run|].
  constructor.
  - constructor; rewrite ?N6t, ?N6c, ?N6m, ?N6o.
    + intros x Hx. rewrite T6.
      destruct (Nat.eqb_spec x ty) as [->|N]; proj; [lia|].
      assert (H : x < next_type h1) by lia.
      pose proof (@wf_config h1 Hwf1 x H). lia.
    + intros x c Hx. rewrite T6.
      destruct (Nat.eqb_spec x ty) as [->|N]; proj; [discriminate|].
      intros Hc.
      assert (H : x < next_type h1) by lia.
      pose proof (@wf_cache h1 Hwf1 x c H Hc). unfold nv. lia.
    + intros x Hx. rewrite C6.
      destruct (Nat.eqb_spec x cfg) as [->|N]; proj; [lia|].
      assert (H : x < next_config h1) by lia.
      pose proof (@wf_values h1 Hwf1 x H). unfold nv. lia.
    + intros x Hx. rewrite M6.
      destruct (Nat.eq_dec x nv) as [->|N].
      * rewrite Hks. now apply ObjFacts.NoDup_keys_delete.
      * rewrite Hm by assumption. simpl. rewrite upd_other by assumption.
        apply (wf_keys Hwf1). unfold nv in *. lia.
    + intros x v Hx. rewrite M6.
      destruct (Nat.eq_dec x nv) as [->|N].
      * intros Hv. apply Hts in Hv. lia.
      * rewrite Hm by assumption. simpl. rewrite upd_other by assumption.
        intros Hv.
        assert (H : x < next_map h1) by (unfold nv in *; lia).
        pose proof (@wf_targets h1 Hwf1 x v H Hv). lia.
    + intros x Hx. rewrite O6. apply Hp. lia.
    + intros x Hx. rewrite M6.
      destruct (Nat.eq_dec x nv) as [->|N].
      * rewrite Hks. apply ObjFacts.ordered_delete.
        now apply (wf_key_order Hwf1).
      * rewrite Hm by assumption. simpl. rewrite upd_other by assumption.
        apply (wf_key_order Hwf1). unfold nv in *. lia.
    + intros x Hx. rewrite O6. apply Hq. lia.
  - exact Hty_t.
  - rewrite N6t, Hty_t. reflexivity.
  - rewrite T6, Nat.eqb_refl. simpl. exact Hcfg.
  - rewrite Hback. unfold nv. lia.
  - rewrite Hback, M6. intros v Hv. apply Hts in Hv. lia.
  - rewrite T6, Nat.eqb_refl. reflexivity.
  - rewrite T6, Nat.eqb_refl. reflexivity.
  - rewrite (T6 ty), Nat.eqb_refl. proj. rewrite (C6 cfg), Nat.eqb_refl.
    reflexivity.
  - rewrite T6, Nat.eqb_refl. reflexivity.
  - rewrite T6. apply Nat.eqb_neq in Htne. rewrite Htne.
    now rewrite (fe_type F).
  - rewrite T6. apply Nat.eqb_neq in Htne. rewrite Htne.
    now rewrite (fe_type F).
  - rewrite Hback. exact Hdeep.
  - unfold view. rewrite (T6 ty), Nat.eqb_refl. proj.
    rewrite Hback, Hdeep, ObjFacts.map_values_map_values. reflexivity.
  - exact Hview_t.
  - unfold apart, view_locs. rewrite (T6 ty), Nat.eqb_refl. proj.
    split; [assumption|]. split; [|split; [discriminate | tauto]].
    rewrite (T6 t). apply Nat.eqb_neq in Htne. rewrite Htne.
    assert (EnumType._enumConfig (types h1 t) < next_config h1).
    { apply (wf_config Hwf1). rewrite (fe_next_type F). exact Ht. }
    rewrite (fe_next_config F) in H. lia.
  - assert (Hsh : shown h6 ty = nv).
    { unfold shown. rewrite (T6 ty), Nat.eqb_refl. proj. exact Hback. }
    assert (Hc_t : EnumType._nameLookup (types h6 t) = Some l).
    { rewrite T6. apply Nat.eqb_neq in Htne. rewrite Htne. apply (fe_cache F). }
    unfold apart. rewrite Hsh. split; [congruence|]. split; [|split].
    + rewrite (T6 ty), Nat.eqb_refl. proj. rewrite (T6 t).
      apply Nat.eqb_neq in Htne. rewrite Htne.
      assert (EnumType._enumConfig (types h1 t) < next_config h1).
      { apply (wf_config Hwf1). rewrite (fe_next_type F). exact Ht. }
      rewrite (fe_next_config F) in H. lia.
    + rewrite Hc_t. congruence.
    + intros v Hv. rewrite M6 in Hv. apply Hts in Hv.
      unfold view_locs. rewrite Hc_t, (Hold_m l Hl). intros Hin.
      pose proof (@wf_targets h1 Hwf1 l v Hl Hin). simpl in Hv. lia.
Qed.

End Clone.

Section Independence.
Local Open Scope list_scope.

Lemma all_or_missing (names existed : list string) :
  (forall f, In f names -> In f existed)
  \/ (exists f, In f names /\ ~ In f existed).
Proof.
  induction names as [|n ns IH].
  - left. intros f [].
  - destruct (in_dec string_dec n existed) as [Hin|Hin].
    + destruct IH as [IH|(f & Hf & Hn)].
      * left. intros f [<-|Hf]; auto.
      * right. exists f. split; [now right | assumption].
    + right. exists n. split; [now left | assumption].
Qed.

Lemma setTypeName_framed this s h :
  framed (gqType this) h (store (setTypeName this s) h).
Proof.
  unfold store, setTypeName, bind, read_type, write_type, read_config,
    write_config, ret. simpl. rewrite upd_same. simpl.
  constructor; simpl; auto.
  - constructor; simpl; lia.
  - intros x Hx. now apply upd_other.
  - now rewrite upd_same.
  - intros x Hx. now apply upd_other.
  - intros c. now rewrite upd_same.
  - intros v. unfold view_locs. simpl. now rewrite upd_same.
  - left. unfold shown, backing. simpl. now rewrite !upd_same.
  - intros v. unfold shown, backing. simpl. rewrite !upd_same. simpl.
    intros Hv _. exact Hv.
Qed.

Lemma setDescription_framed this s h :
  framed (gqType this) h (store (setDescription this s) h).
Proof.
  unfold store, setDescription, bind, read_type, write_type, read_config,
    write_config, ret. simpl. rewrite upd_same. simpl.
  constructor; simpl; auto.
  - constructor; simpl; lia.
  - intros x Hx. now apply upd_other.
  - now rewrite upd_same.
  - intros x Hx. now apply upd_other.
  - intros c. now rewrite upd_same.
  - intros v. unfold view_locs. simpl. now rewrite upd_same.
  - left. unfold shown, backing. simpl. now rewrite !upd_same.
  - intros v. unfold shown, backing. simpl. rewrite !upd_same. simpl.
    intros Hv _. exact Hv.
Qed.

(** The loop of [removeOtherFields]: the keys outside [keep] leave the
    table [values]. *)
Lemma keep_loop values keep ks : forall h,
  exists h',
    forEach ks (fun fieldName =>
      if indexOf_is_minus_one keep fieldName
      then f <- read_map values ;; write_map values (Obj.delete f fieldName)
      else ret tt) h = (Normal tt, h')
    /\ frontier h' = frontier h /\ objs h' = objs h
    /\ configs h' = configs h /\ types h' = types h
    /\ (forall x, x <> values -> maps h' x = maps h x)
    /\ maps h' values = delete_all (others keep ks) (maps h values).
Proof.
  induction ks as [|k ks IH]; intros h.
  - exists h. simpl. repeat split; reflexivity.
  - unfold others. cbn [filter]. destruct (Obj.mem k keep) eqn:E; cbn [negb].
    + destruct (IH h) as (h' & Hrun & Hrest).
      exists h'. split; [|exact Hrest].
      rewrite (@forEach_cons _ _ k ks h h); [exact Hrun|].
      unfold indexOf_is_minus_one. now rewrite E.
    + set (h1 := with_maps h (upd (maps h) values
                                (Obj.delete (maps h values) k)) (next_map h)).
      destruct (IH h1) as (h' & Hrun & Hf & Ho & Hc & Ht & Hm & Hv).
      exists h'. split.
      { rewrite (@forEach_cons _ _ k ks h h1); [exact Hrun|].
        unfold indexOf_is_minus_one. now rewrite E. }
      repeat split; try assumption.
      * intros x Hx. rewrite Hm by assumption. simpl. now apply upd_other.
      * rewrite Hv. unfold others, delete_all. simpl. now rewrite upd_same.
Qed.

Lemma removeOtherFields_spec this fieldNameOrArray h :
  wf h -> gqType this < next_type h ->
  exists h',
    removeOtherFields this fieldNameOrArray h = (Normal this, h')
    /\ wf h' /\ framed (gqType this) h h'
    /\ view h' (gqType this)
       = Obj.map_values refreshed
           (delete_all
              (others (names_of fieldNameOrArray)
                 (Obj.keys (view h (gqType this))))
              (view h (gqType this))).
Proof.
  intros Hwf Ht. set (t := gqType this) in *.
  set (keep := names_of fieldNameOrArray).
  destruct (@getFields_spec this h Hwf Ht) as (l & h1 & R1 & F).
  fold t in F. pose proof (fe_grows F) as [G1 G2 G3 G4].
  destruct (keep_loop l keep (Obj.keys (maps h1 l)) h1)
    as (h2 & R2 & Hf & Ho & Hc & Hty & Hm & Hl).
  pose proof Hf as Hf'. injection Hf' as Hno Hnm Hnc Hnt.
  assert (Hsub : forall v, In v (Obj.targets (maps h2 l)) ->
                           In v (Obj.targets (maps h1 l))).
  { intros v. rewrite Hl. apply In_targets_delete_all. }
  assert (Hwf2 : wf h2).
  { apply (@wf_shrink h1 h2 l); try assumption.
    - apply (fe_wf F).
    - apply (fe_lt F).
    - rewrite Hl. apply NoDup_keys_delete_all.
      apply (wf_keys (fe_wf F)). apply (fe_lt F).
    - rewrite Hl. apply ordered_keys_delete_all.
      apply (wf_key_order (fe_wf F)). apply (fe_lt F). }
  destruct (@setFields_spec this l h2) as (h3 & R3 & R); try assumption.
  { rewrite Hnt, (fe_next_type F). exact Ht. }
  { rewrite Hnm. apply (fe_lt F). }
  fold t in R. pose proof (rp_frontier R) as Hf3.
  injection Hf3 as Hno3 Hnm3 Hnc3 Hnt3.
  assert (Hcfg : EnumType._enumConfig (types h2 t)
                 = EnumType._enumConfig (types h t)).
  { now rewrite Hty, (fe_type F). }
  exists h3. split; [|split; [apply (rp_wf R)|split]].
  - unfold removeOtherFields.
    change (match fieldNameOrArray with
            | OneName name => [name]
            | NameArray names0 => names0
            end) with keep.
    rewrite (bind_normal _ R1), bind_read_map, (bind_normal _ R2).
    now rewrite (bind_normal _ R3).
  - constructor.
    + constructor; rewrite ?Hno3, ?Hnm3, ?Hnc3, ?Hnt3, ?Hno, ?Hnm, ?Hnc, ?Hnt;
        assumption.
    + rewrite Hnt3, Hnt. apply (fe_next_type F).
    + rewrite Hnc3, Hnc. apply (fe_next_config F).
    + intros x Hx. rewrite (rp_types R), Hty by assumption.
      now apply (fe_types F).
    + now rewrite (rp_type R), Hty, (fe_type F).
    + intros x Hx. rewrite (rp_configs R) by (now rewrite Hcfg).
      now rewrite Hc, (fe_configs F).
    + intros c. rewrite (rp_type R). discriminate.
    + intros x Hx Hne. rewrite (rp_maps R).
      destruct (Nat.eq_dec x l) as [->|N].
      * exfalso. apply Hne. now apply (fe_fresh F).
      * rewrite Hm by assumption. now apply (fe_maps F).
    + intros v. unfold view_locs. rewrite (rp_type R). intros [].
    + intros x Hx Hv. rewrite (rp_objs_out R).
      * rewrite Ho. now apply (fe_objs F).
      * intros Hin. apply Hv. apply (fe_locs F); [|assumption].
        now apply Hsub.
    + assert (Hs3 : shown h3 t = l).
      { unfold shown. rewrite (rp_type R). simpl. apply (rp_backing R). }
      rewrite Hs3.
      destruct (Nat.lt_ge_cases l (next_map h)) as [Hl'|Hl']; [left | now right].
      unfold shown. now rewrite (fe_fresh F Hl').
    + assert (Hs3 : shown h3 t = l).
      { unfold shown. rewrite (rp_type R). simpl. apply (rp_backing R). }
      rewrite Hs3, (rp_maps R). intros v Hv Hlt. apply view_locs_shown.
      apply (fe_locs F); [now apply Hsub | assumption].
  - rewrite (rp_view R). unfold deep. rewrite Hl, Ho.
    rewrite map_values_delete_all. fold (deep h1 l).
    rewrite <- keys_deep, (fe_deep F). reflexivity.
Qed.

Lemma setFields_touched this values h :
  touched (gqType this) (Obj.targets (maps h values)) h
    (store (setFields this values) h).
Proof.
  destruct (setFields_run this values h)
    as (h' & R & Hf & Hm & Ho & Hc & Hty).
  unfold store. rewrite R. simpl. constructor.
  - intros x Hx. rewrite Hty. apply Nat.eqb_neq in Hx. now rewrite Hx.
  - intros x Hx. rewrite Hc. apply Nat.eqb_neq in Hx. now rewrite Hx.
  - intros x _ _. now rewrite Hm.
  - intros x _ _ Hx. rewrite Ho.
    destruct (reached (maps h values) (Obj.keys (maps h values)) x) eqn:E;
      [|reflexivity].
    exfalso. apply Hx. apply reached_In in E as (k & _ & Hk).
    apply ObjFacts.get_Some_In in Hk. now apply (in_map snd) in Hk.
Qed.

Lemma setField_touched this name valueConfig h :
  wf h -> gqType this < next_type h -> valueConfig < next_obj h ->
  touched (gqType this) [valueConfig] h
    (store (setField this name valueConfig) h).
Proof.
  intros Hwf Ht Hv. set (t := gqType this) in *.
  set (single := next_map h).
  set (h1 := alloc_map h [(name, valueConfig)]).
  assert (E : extends h h1) by apply extends_new_map.
  assert (Hwf1 : wf h1).
  { apply wf_new_map;
      [assumption | repeat constructor; simpl; tauto | | reflexivity].
    intros x [<-|[]]. exact Hv. }
  destruct (@addFields_spec this single h1 Hwf1 Ht)
    as (h2 & R & Mu & _); [simpl; lia|].
  fold t in Mu.
  assert (Hs : maps h1 single = [(name, valueConfig)])
    by (simpl; apply upd_same).
  rewrite Hs in Mu. simpl Obj.targets in Mu.
  assert (Run : setField this name valueConfig h = (Normal this, h2)).
  { unfold setField. rewrite bind_new_map.
    change (Obj.set [] name valueConfig) with [(name, valueConfig)].
    fold single. fold h1. now rewrite (bind_normal _ R). }
  unfold store. rewrite Run. simpl. constructor.
  - intros x Hx. rewrite (mu_types Mu) by assumption.
    now rewrite (ex_types E).
  - intros x Hx. rewrite (mu_configs Mu) by (now rewrite (ex_types E)).
    now rewrite (ex_configs E).
  - intros x Hx Hne. pose proof (ex_grows E) as [E1 E2 E3 E4].
    rewrite (mu_maps Mu).
    + now apply (ex_maps E).
    + lia.
    + now rewrite (ex_types E).
  - intros x Hx Hl Ha. pose proof (ex_grows E) as [E1 E2 E3 E4].
    rewrite (mu_objs Mu).
    + now apply (ex_objs E).
    + lia.
    + now rewrite (view_locs_extends Hwf Ht E).
    + exact Ha.
Qed.

(** Every mutation of the composer over [t] stays within its footprint. *)
Lemma mutate_touched this mu h :
  wf h -> gqType this < next_type h -> allocated h mu ->
  touched (gqType this) (handed_over h mu) h (store (mutate this mu) h).
Proof.
  intros Hwf Ht Ha. set (t := gqType this) in *.
  destruct mu as [values|name v|a|arg|arg|names|name partial|spec|s|s];
    simpl mutate; simpl handed_over; simpl in Ha.
  - apply setFields_touched.
  - now apply setField_touched.
  - destruct (@addFields_spec this a h Hwf Ht Ha) as (h' & R & Mu & _).
    unfold store. rewrite R. now apply mutated_touched.
  - destruct (@removeField_spec this arg h Hwf Ht) as (h' & R & Mu & _).
    unfold store. rewrite R. now apply mutated_touched.
  - destruct (@removeOtherFields_spec this arg h Hwf Ht)
      as (h' & R & _ & Fr & _).
    unfold store. rewrite R. now apply framed_touched.
  - destruct (@reorderFields_spec this names h Hwf Ht) as (h' & R & Mu & _).
    unfold store. rewrite R. now apply mutated_touched.
  - destruct (Obj.get (view h t) name) as [prev|] eqn:G.
    + destruct (@extendField_spec this name partial h prev Hwf Ht Ha G)
        as (h' & R & Mu & _).
      unfold store. rewrite R. now apply mutated_touched.
    + destruct (@extendField_throws this name partial h Hwf Ht G)
        as (h' & R & _ & Fr & _).
      unfold store. rewrite R. now apply framed_touched.
  - destruct (all_or_missing (fields_of spec) (Obj.keys (view h t)))
      as [Hall|Hex].
    + destruct (@deprecateFields_ok this spec h Hwf Ht Hall)
        as (h' & R & _ & Fr & _).
      unfold store. rewrite R. now apply framed_touched.
    + destruct (first_missing _ _ Hex) as (pre & m & post & Hs & Hpre & Hm).
      destruct (@deprecateFields_throws this spec pre m post h
                  Hwf Ht Hs Hpre Hm) as (h' & R & _ & Fr & _).
      unfold store. rewrite R. now apply framed_touched.
  - apply framed_touched, setTypeName_framed.
  - apply framed_touched, setDescription_framed.
Qed.

End Independence.

(** ** What holds of every store a method can leave *)

(** A reflexive and transitive relation between the store before and the
    store after passes through [bind], [forEach] and [try_catch]: it holds of
    a method as soon as it holds of the writes the method is made of. *)
Section Preserves.
Local Open Scope list_scope.
Variable R : Heap -> Heap -> Prop.
Hypothesis R_refl : forall h, R h h.
Hypothesis R_trans : forall h1 h2 h3, R h1 h2 -> R h2 h3 -> R h1 h3.

Lemma preserves_ret {A} (a : A) : preserves R (ret a).
Proof. intros h. apply R_refl. Qed.

Lemma preserves_throw {A} e : preserves R (@throw A e).
Proof. intros h. apply R_refl. Qed.

Lemma preserves_bind {A B} (c : M A) (k : A -> M B) :
  preserves R c -> (forall a, preserves R (k a)) -> preserves R (bind c k).
Proof.
  intros Hc Hk h. specialize (Hc h). unfold store, bind in *.
  destruct (c h) as [[a|e] h1]; simpl in *; [|exact Hc].
  eapply R_trans; [exact Hc | apply Hk].
Qed.

Lemma preserves_try_catch {A} (c : M A) handler :
  preserves R c -> (forall e, preserves R (handler e)) ->
  preserves R (try_catch c handler).
Proof.
  intros Hc Hk h. specialize (Hc h). unfold store, try_catch in *.
  destruct (c h) as [[a|e] h1]; simpl in *; [exact Hc|].
  eapply R_trans; [exact Hc | apply Hk].
Qed.

Lemma preserves_forEach {X} (xs : list X) f :
  (forall x, preserves R (f x)) -> preserves R (forEach xs f).
Proof.
  intros Hf. induction xs as [|x xs IH]; simpl.
  - apply preserves_ret.
  - apply preserves_bind; [apply Hf | intros _; exact IH].
Qed.

Lemma preserves_read_obj l : preserves R (read_obj l).
Proof. intros h. apply R_refl. Qed.
Lemma preserves_read_map l : preserves R (read_map l).
Proof. intros h. apply R_refl. Qed.
Lemma preserves_read_config l : preserves R (read_config l).
Proof. intros h. apply R_refl. Qed.
Lemma preserves_read_type l : preserves R (read_type l).
Proof. intros h. apply R_refl. Qed.

End Preserves.

Section Headers.
Local Open Scope list_scope.

Lemma same_headers_refl h : same_headers h h.
Proof. split; reflexivity. Qed.

Lemma same_headers_trans h1 h2 h3 :
  same_headers h1 h2 -> same_headers h2 h3 -> same_headers h1 h3.
Proof.
  intros [T1 C1] [T2 C2]. split; intros x.
  - now rewrite T2, T1.
  - now rewrite C2, C1.
Qed.

Lemma headers_new_obj o : preserves same_headers (new_obj o).
Proof. intros h. split; reflexivity. Qed.
Lemma headers_write_obj l o : preserves same_headers (write_obj l o).
Proof. intros h. split; reflexivity. Qed.
Lemma headers_new_map m : preserves same_headers (new_map m).
Proof. intros h. split; reflexivity. Qed.
Lemma headers_write_map l m : preserves same_headers (write_map l m).
Proof. intros h. split; reflexivity. Qed.
Lemma headers_member_set o k v : preserves same_headers (member_set o k v).
Proof.
  intros h. unfold store, member_set, bind, read_map.
  destruct (Obj.reaches_setter (maps h o) k); split; reflexivity.
Qed.

(** Reading a type and writing it back with another part changed. *)
Lemma headers_update_type {A} t (g : EnumType.t -> EnumType.t) (k : M A) :
  (forall ty, type_header (g ty) = type_header ty) ->
  preserves same_headers k ->
  preserves same_headers (ty <- read_type t ;; write_type t (g ty) ;;; k).
Proof.
  intros Hg Hk h.
  change (same_headers h
            (store k (with_types h (upd (types h) t (g (types h t)))
                        (next_type h)))).
  eapply same_headers_trans; [|apply Hk].
  split; intros x; simpl; [|reflexivity].
  unfold upd. destruct (Nat.eqb x t) eqn:E; [|reflexivity].
  apply Nat.eqb_eq in E. subst x. apply Hg.
Qed.

Lemma headers_update_config {A} l (g : Config.t -> Config.t) (k : M A) :
  (forall c, config_header (g c) = config_header c) ->
  preserves same_headers k ->
  preserves same_headers (c <- read_config l ;; write_config l (g c) ;;; k).
Proof.
  intros Hg Hk h.
  change (same_headers h
            (store k (with_configs h (upd (configs h) l (g (configs h l)))
                        (next_config h)))).
  eapply same_headers_trans; [|apply Hk].
  split; intros x; simpl; [reflexivity|].
  unfold upd. destruct (Nat.eqb x l) eqn:E; [|reflexivity].
  apply Nat.eqb_eq in E. subst x. apply Hg.
Qed.

End Headers.

Create HintDb headers.
Create HintDb own_config.

(** One step of a proof that a computation preserves [same_headers], chosen
    by the shape of the computation; a method already dealt with is found in
    the hint database. *)
Ltac headers_step :=
  lazymatch goal with
  | |- preserves _ (ret _) => apply (@preserves_ret _ same_headers_refl)
  | |- preserves _ (throw _) => apply (@preserves_throw _ same_headers_refl)
  | |- preserves _ (new_obj _) => apply headers_new_obj
  | |- preserves _ (write_obj _ _) => apply headers_write_obj
  | |- preserves _ (new_map _) => apply headers_new_map
  | |- preserves _ (write_map _ _) => apply headers_write_map
  | |- preserves _ (member_set _ _ _) => apply headers_member_set
  | |- preserves _ (read_obj _) =>
      apply (@preserves_read_obj _ same_headers_refl)
  | |- preserves _ (read_map _) =>
      apply (@preserves_read_map _ same_headers_refl)
  | |- preserves _ (read_config _) =>
      apply (@preserves_read_config _ same_headers_refl)
  | |- preserves _ (read_type _) =>
      apply (@preserves_read_type _ same_headers_refl)
  | |- preserves _ (bind (read_type _) _) =>
      first [ apply headers_update_type; [intros ?; reflexivity|]
            | apply (@preserves_bind _ same_headers_trans); [|intros ?] ]
  | |- preserves _ (bind (read_config _) _) =>
      first [ apply headers_update_config; [intros ?; reflexivity|]
            | apply (@preserves_bind _ same_headers_trans); [|intros ?] ]
  | |- preserves _ (bind _ _) =>
      apply (@preserves_bind _ same_headers_trans); [|intros ?]
  | |- preserves _ (forEach _ _) =>
      apply (@preserves_forEach _ same_headers_refl same_headers_trans);
      intros ?
  | |- preserves _ (try_catch _ _) =>
      apply (@preserves_try_catch _ same_headers_trans); [|intros ?]
  | |- preserves _ (match ?x with _ => _ end) => destruct x
  | |- _ => solve [auto with headers]
  end.

Ltac headers := repeat headers_step.

Section HeadersOfMethods.
Local Open Scope list_scope.

Lemma headers_getFields this : preserves same_headers (getFields this).
Proof.
  unfold getFields, GraphQLEnumType._getNameLookup. headers.
Qed.

Lemma headers_getTypeName this : preserves same_headers (getTypeName this).
Proof. unfold getTypeName. headers. Qed.

#[local] Hint Resolve headers_getFields headers_getTypeName : headers.

Lemma headers_getField this name :
  preserves same_headers (getField this name).
Proof. unfold getField. headers. Qed.

Lemma headers_getFieldNames this :
  preserves same_headers (getFieldNames this).
Proof. unfold getFieldNames. headers. Qed.

Lemma headers_setFields this values :
  preserves same_headers (setFields this values).
Proof. unfold setFields. headers. Qed.

#[local] Hint Resolve headers_setFields headers_getField
  headers_getFieldNames : headers.

Lemma headers_addFields this newValues :
  preserves same_headers (addFields this newValues).
Proof. unfold addFields. headers. Qed.

#[local] Hint Resolve headers_addFields : headers.

Lemma headers_setField this name valueConfig :
  preserves same_headers (setField this name valueConfig).
Proof. unfold setField. headers. Qed.

#[local] Hint Resolve headers_setField : headers.

Lemma headers_extendField this name partial :
  preserves same_headers (extendField this name partial).
Proof. unfold extendField. headers. Qed.

#[local] Hint Resolve headers_extendField : headers.

Lemma headers_mutate this mu :
  is_field_mutation mu = true -> preserves same_headers (mutate this mu).
Proof.
  destruct mu; simpl; try discriminate; intros _.
  - apply headers_setFields.
  - apply headers_setField.
  - apply headers_addFields.
  - unfold removeField. headers.
  - unfold removeOtherFields. headers.
  - unfold reorderFields. headers.
  - apply headers_extendField.
  - unfold deprecateFields, deprecate_missing. headers.
Qed.

End HeadersOfMethods.

Section OwnConfig.
Local Open Scope list_scope.
Variable t : loc.

Lemma own_config_refl h : own_config t h h.
Proof. split; reflexivity. Qed.

Lemma own_config_trans h1 h2 h3 :
  own_config t h1 h2 -> own_config t h2 h3 -> own_config t h1 h3.
Proof.
  intros [T1 C1] [T2 C2]. split.
  - now rewrite T2.
  - intros x Hx. rewrite C2 by (now rewrite T1). now apply C1.
Qed.

Lemma own_new_obj o : preserves (own_config t) (new_obj o).
Proof. intros h. split; reflexivity. Qed.
Lemma own_write_obj l o : preserves (own_config t) (write_obj l o).
Proof. intros h. split; reflexivity. Qed.
Lemma own_new_map m : preserves (own_config t) (new_map m).
Proof. intros h. split; reflexivity. Qed.
Lemma own_write_map l m : preserves (own_config t) (write_map l m).
Proof. intros h. split; reflexivity. Qed.
Lemma own_member_set o k v : preserves (own_config t) (member_set o k v).
Proof.
  intros h. unfold store, member_set, bind, read_map.
  destruct (Obj.reaches_setter (maps h o) k); split; reflexivity.
Qed.

Lemma own_update_type {A} l (g : EnumType.t -> EnumType.t) (k : M A) :
  (forall ty, EnumType._enumConfig (g ty) = EnumType._enumConfig ty) ->
  preserves (own_config t) k ->
  preserves (own_config t) (ty <- read_type l ;; write_type l (g ty) ;;; k).
Proof.
  intros Hg Hk h.
  change (own_config t h
            (store k (with_types h (upd (types h) l (g (types h l)))
                        (next_type h)))).
  eapply own_config_trans; [|apply Hk].
  split; simpl; [|reflexivity].
  unfold upd. destruct (Nat.eqb t l) eqn:E; [|reflexivity].
  apply Nat.eqb_eq in E. subst l. apply Hg.
Qed.

(** [this.gqType._enumConfig.p = v] *)
Lemma own_update_config {A} (g : Config.t -> Config.t) (k : M A) :
  preserves (own_config t) k ->
  preserves (own_config t)
    (ty <- read_type t ;;
     c <- read_config (EnumType._enumConfig ty) ;;
     write_config (EnumType._enumConfig ty) (g c) ;;; k).
Proof.
  intros Hk h.
  set (l := EnumType._enumConfig (types h t)).
  change (own_config t h
            (store k (with_configs h (upd (configs h) l (g (configs h l)))
                        (next_config h)))).
  eapply own_config_trans; [|apply Hk].
  split; simpl; [reflexivity|].
  intros x Hx. now apply upd_other.
Qed.

End OwnConfig.

(** The same for [own_config]. *)
Ltac own_step :=
  lazymatch goal with
  | |- preserves _ (ret _) => apply (@preserves_ret _ (@own_config_refl _))
  | |- preserves _ (throw _) =>
      apply (@preserves_throw _ (@own_config_refl _))
  | |- preserves _ (new_obj _) => apply own_new_obj
  | |- preserves _ (write_obj _ _) => apply own_write_obj
  | |- preserves _ (new_map _) => apply own_new_map
  | |- preserves _ (write_map _ _) => apply own_write_map
  | |- preserves _ (member_set _ _ _) => apply own_member_set
  | |- preserves _ (read_obj _) =>
      apply (@preserves_read_obj _ (@own_config_refl _))
  | |- preserves _ (read_map _) =>
      apply (@preserves_read_map _ (@own_config_refl _))
  | |- preserves _ (read_config _) =>
      apply (@preserves_read_config _ (@own_config_refl _))
  | |- preserves _ (read_type _) =>
      apply (@preserves_read_type _ (@own_config_refl _))
  | |- preserves _ (bind (read_type _) _) =>
      first [ apply own_update_config
            | apply own_update_type; [intros ?; reflexivity|]
            | apply (@preserves_bind _ (@own_config_trans _)); [|intros ?] ]
  | |- preserves _ (bind _ _) =>
      apply (@preserves_bind _ (@own_config_trans _)); [|intros ?]
  | |- preserves _ (forEach _ _) =>
      apply (@preserves_forEach _ (@own_config_refl _) (@own_config_trans _));
      intros ?
  | |- preserves _ (try_catch _ _) =>
      apply (@preserves_try_catch _ (@own_config_trans _)); [|intros ?]
  | |- preserves _ (match ?x with _ => _ end) => destruct x
  | |- _ => solve [auto with own_config]
  end.

Ltac own := repeat own_step.

Section OwnConfigOfMethods.
Local Open Scope list_scope.

Lemma own_getFields this :
  preserves (own_config (gqType this)) (getFields this).
Proof. unfold getFields, GraphQLEnumType._getNameLookup. own. Qed.

Lemma own_getTypeName this :
  preserves (own_config (gqType this)) (getTypeName this).
Proof. unfold getTypeName. own. Qed.

#[local] Hint Resolve own_getFields own_getTypeName : own_config.

Lemma own_getField this name :
  preserves (own_config (gqType this)) (getField this name).
Proof. unfold getField. own. Qed.

Lemma own_getFieldNames this :
  preserves (own_config (gqType this)) (getFieldNames this).
Proof. unfold getFieldNames. own. Qed.

Lemma own_setFields this values :
  preserves (own_config (gqType this)) (setFields this values).
Proof. unfold setFields. own. Qed.

#[local] Hint Resolve own_getField own_getFieldNames own_setFields
  : own_config.

Lemma own_addFields this newValues :
  preserves (own_config (gqType this)) (addFields this newValues).
Proof. unfold addFields. own. Qed.

#[local] Hint Resolve own_addFields : own_config.

Lemma own_setField this name valueConfig :
  preserves (own_config (gqType this)) (setField this name valueConfig).
Proof. unfold setField. own. Qed.

#[local] Hint Resolve own_setField : own_config.

Lemma own_extendField this name partial :
  preserves (own_config (gqType this)) (extendField this name partial).
Proof. unfold extendField. own. Qed.

#[local] Hint Resolve own_extendField : own_config.

Lemma own_mutate this mu :
  preserves (own_config (gqType this)) (mutate this mu).
Proof.
  destruct mu; simpl.
  - apply own_setFields.
  - apply own_setField.
  - apply own_addFields.
  - unfold removeField. own.
  - unfold removeOtherFields. own.
  - unfold reorderFields. own.
  - apply own_extendField.
  - unfold deprecateFields, deprecate_missing. own.
  - unfold setTypeName. own.
  - unfold setDescription. own.
Qed.

Lemma own_after_all this mus : forall h,
  own_config (gqType this) h (after_all this mus h).
Proof.
  induction mus as [|mu mus IH]; intros h; simpl.
  - apply own_config_refl.
  - eapply own_config_trans; [apply own_mutate | apply IH].
Qed.

End OwnConfigOfMethods.

(** ** Every mutation is sound *)

Section Sound.
Local Open Scope list_scope.

(** Writing names and descriptions keeps a store well formed. *)
Lemma wf_header h h' :
  wf h -> frontier h' = frontier h ->
  objs h' = objs h -> maps h' = maps h ->
  (forall x, EnumType._enumConfig (types h' x) = EnumType._enumConfig (types h x)
             /\ EnumType._nameLookup (types h' x)
                = EnumType._nameLookup (types h x)) ->
  (forall x, Config.values (configs h' x) = Config.values (configs h x)) ->
  wf h'.
Proof.
  intros Hwf Hf Ho Hm Ht Hc. injection Hf as Hno Hnm Hnc Hnt.
  constructor; rewrite ?Hno, ?Hnm, ?Hnc, ?Hnt, ?Ho, ?Hm.
  - intros l Hl. rewrite (proj1 (Ht l)). now apply wf_config.
  - intros l c Hl. rewrite (proj2 (Ht l)). now apply wf_cache.
  - intros l Hl. rewrite Hc. now apply wf_values.
  - now apply wf_keys.
  - now apply wf_targets.
  - now apply wf_props.
  - now apply wf_key_order.
  - now apply wf_prop_order.
Qed.

Lemma setTypeName_run this s h :
  exists h', setTypeName this s h = (Normal this, h')
    /\ (wf h -> wf h') /\ frontier h' = frontier h.
Proof.
  eexists. split; [reflexivity|]. split; [|reflexivity].
  intros Hwf. apply (@wf_header h); try reflexivity; try assumption.
  - intros x. simpl. unfold upd.
    destruct (Nat.eqb x (gqType this)) eqn:E; [|split; reflexivity].
    apply Nat.eqb_eq in E. subst x. split; reflexivity.
  - intros x. simpl. rewrite upd_same. simpl. unfold upd.
    destruct (Nat.eqb x _) eqn:E; [|reflexivity].
    apply Nat.eqb_eq in E. now subst x.
Qed.

Lemma setDescription_run this s h :
  exists h', setDescription this s h = (Normal this, h')
    /\ (wf h -> wf h') /\ frontier h' = frontier h.
Proof.
  eexists. split; [reflexivity|]. split; [|reflexivity].
  intros Hwf. apply (@wf_header h); try reflexivity; try assumption.
  - intros x. simpl. unfold upd.
    destruct (Nat.eqb x (gqType this)) eqn:E; [|split; reflexivity].
    apply Nat.eqb_eq in E. subst x. split; reflexivity.
  - intros x. simpl. rewrite upd_same. simpl. unfold upd.
    destruct (Nat.eqb x _) eqn:E; [|reflexivity].
    apply Nat.eqb_eq in E. now subst x.
Qed.

(** Every mutation keeps the store well formed and only allocates. *)
Lemma mutate_sound this mu h :
  wf h -> gqType this < next_type h -> allocated h mu ->
  wf (store (mutate this mu) h) /\ grows h (store (mutate this mu) h)
  /\ next_type (store (mutate this mu) h) = next_type h.
Proof.
  intros Hwf Ht Ha. set (t := gqType this) in *.
  destruct mu as [values|name v|a|arg|arg|names|name partial|spec|s|s];
    simpl mutate; simpl in Ha.
  - destruct (@setFields_spec this values h Hwf Ht Ha) as (h' & R & Rp).
    unfold store. rewrite R. simpl. pose proof (rp_frontier Rp) as Hf.
    split; [apply (rp_wf Rp)|]. split; [now apply frontier_grows|].
    now injection Hf.
  - set (single := next_map h).
    set (h1 := alloc_map h [(name, v)]).
    assert (E : extends h h1) by apply extends_new_map.
    assert (Hwf1 : wf h1).
    { apply wf_new_map;
      [assumption | repeat constructor; simpl; tauto | | reflexivity].
      intros x [<-|[]]. exact Ha. }
    destruct (@addFields_spec this single h1 Hwf1 Ht)
      as (h2 & R & Mu & _); [simpl; lia|].
    assert (Run : setField this name v h = (Normal this, h2)).
    { unfold setField. rewrite bind_new_map.
      change (Obj.set [] name v) with [(name, v)].
      fold single. fold h1. now rewrite (bind_normal _ R). }
    unfold store. rewrite Run. simpl.
    split; [apply (mu_wf Mu)|]. split.
    + eapply grows_trans; [apply (ex_grows E) | apply (mu_grows Mu)].
    + rewrite (mu_next_type Mu). reflexivity.
  - destruct (@addFields_spec this a h Hwf Ht Ha) as (h' & R & Mu & _).
    unfold store. rewrite R. simpl.
    split; [apply (mu_wf Mu)|]. split; [apply (mu_grows Mu)|].
    apply (mu_next_type Mu).
  - destruct (@removeField_spec this arg h Hwf Ht) as (h' & R & Mu & _).
    unfold store. rewrite R. simpl.
    split; [apply (mu_wf Mu)|]. split; [apply (mu_grows Mu)|].
    apply (mu_next_type Mu).
  - destruct (@removeOtherFields_spec this arg h Hwf Ht)
      as (h' & R & Hwf' & Fr & _).
    unfold store. rewrite R. simpl.
    split; [exact Hwf'|]. split; [apply (fr_grows Fr)|].
    apply (fr_next_type Fr).
  - destruct (@reorderFields_spec this names h Hwf Ht) as (h' & R & Mu & _).
    unfold store. rewrite R. simpl.
    split; [apply (mu_wf Mu)|]. split; [apply (mu_grows Mu)|].
    apply (mu_next_type Mu).
  - destruct (Obj.get (view h t) name) as [prev|] eqn:G.
    + destruct (@extendField_spec this name partial h prev Hwf Ht Ha G)
        as (h' & R & Mu & _).
      unfold store. rewrite R. simpl.
      split; [apply (mu_wf Mu)|]. split; [apply (mu_grows Mu)|].
      apply (mu_next_type Mu).
    + destruct (@extendField_throws this name partial h Hwf Ht G)
        as (h' & R & Hwf' & Fr & _).
      unfold store. rewrite R. simpl.
      split; [exact Hwf'|]. split; [apply (fr_grows Fr)|].
      apply (fr_next_type Fr).
  - destruct (all_or_missing (fields_of spec) (Obj.keys (view h t)))
      as [Hall|Hex].
    + destruct (@deprecateFields_ok this spec h Hwf Ht Hall)
        as (h' & R & Hwf' & Fr & _).
      unfold store. rewrite R. simpl.
      split; [exact Hwf'|]. split; [apply (fr_grows Fr)|].
      apply (fr_next_type Fr).
    + destruct (first_missing _ _ Hex) as (pre & m & post & Hs & Hpre & Hm).
      destruct (@deprecateFields_throws this spec pre m post h
                  Hwf Ht Hs Hpre Hm) as (h' & R & Hwf' & Fr & _).
      unfold store. rewrite R. simpl.
      split; [exact Hwf'|]. split; [apply (fr_grows Fr)|].
      apply (fr_next_type Fr).
  - destruct (setTypeName_run this s h) as (h' & R & W & Hf).
    unfold store. rewrite R. simpl.
    split; [now apply W|]. split; [now apply frontier_grows|].
    now injection Hf.
  - destruct (setDescription_run this s h) as (h' & R & W & Hf).
    unfold store. rewrite R. simpl.
    split; [now apply W|]. split; [now apply frontier_grows|].
    now injection Hf.
Qed.

End Sound.

(** ** The clone and the original *)

Section Apart.
Local Open Scope list_scope.

Lemma cache_kept_framed t h h' : framed t h h' -> cache_kept t h h'.
Proof. intros Fr. split; [apply (fr_cache Fr) | apply (fr_locs Fr)]. Qed.

Lemma cache_kept_cleared t h h' :
  EnumType._nameLookup (types h' t) = None -> cache_kept t h h'.
Proof.
  intros C. split.
  - intros c Hc. congruence.
  - intros v Hv. unfold view_locs in Hv. rewrite C in Hv. destruct Hv.
Qed.

(** After a mutation the composer has the lookup table it had, a new one,
    or none. *)
Lemma mutate_cache_kept this mu h :
  wf h -> gqType this < next_type h -> allocated h mu ->
  cache_kept (gqType this) h (store (mutate this mu) h).
Proof.
  intros Hwf Ht Ha.
  destruct mu as [values|name v|a|arg|arg|names|name partial|spec|s|s];
    simpl mutate; simpl in Ha.
  - destruct (@setFields_spec this values h Hwf Ht Ha) as (h' & R & Rp).
    unfold store. rewrite R. cbn [snd]. apply cache_kept_cleared.
    now rewrite (rp_type Rp).
  - set (h1 := alloc_map h [(name, v)]).
    assert (Hwf1 : wf h1).
    { apply wf_new_map;
        [assumption | repeat constructor; simpl; tauto | | reflexivity].
      intros x [<-|[]]. exact Ha. }
    destruct (@addFields_spec this (next_map h) h1 Hwf1 Ht)
      as (h2 & R & Mu & _); [simpl; lia|].
    assert (Run : setField this name v h = (Normal this, h2)).
    { unfold setField. rewrite bind_new_map.
      change (Obj.set [] name v) with [(name, v)].
      fold h1. now rewrite (bind_normal _ R). }
    unfold store. rewrite Run. cbn [snd]. apply cache_kept_cleared.
    now rewrite (mu_type Mu).
  - destruct (@addFields_spec this a h Hwf Ht Ha) as (h' & R & Mu & _).
    unfold store. rewrite R. cbn [snd]. apply cache_kept_cleared.
    now rewrite (mu_type Mu).
  - destruct (@removeField_spec this arg h Hwf Ht) as (h' & R & Mu & _).
    unfold store. rewrite R. cbn [snd]. apply cache_kept_cleared.
    now rewrite (mu_type Mu).
  - destruct (@removeOtherFields_spec this arg h Hwf Ht)
      as (h' & R & _ & Fr & _).
    unfold store. rewrite R. cbn [snd]. now apply cache_kept_framed.
  - destruct (@reorderFields_spec this names h Hwf Ht) as (h' & R & Mu & _).
    unfold store. rewrite R. cbn [snd]. apply cache_kept_cleared.
    now rewrite (mu_type Mu).
  - destruct (Obj.get (view h (gqType this)) name) as [prev|] eqn:G.
    + destruct (@extendField_spec this name partial h prev Hwf Ht Ha G)
        as (h' & R & Mu & _).
      unfold store. rewrite R. cbn [snd]. apply cache_kept_cleared.
      now rewrite (mu_type Mu).
    + destruct (@extendField_throws this name partial h Hwf Ht G)
        as (h' & R & _ & Fr & _).
      unfold store. rewrite R. cbn [snd]. now apply cache_kept_framed.
  - destruct (all_or_missing (fields_of spec) (Obj.keys (view h (gqType this))))
      as [Hall|Hex].
    + destruct (@deprecateFields_ok this spec h Hwf Ht Hall)
        as (h' & R & _ & Fr & _).
      unfold store. rewrite R. cbn [snd]. now apply cache_kept_framed.
    + destruct (first_missing _ _ Hex) as (pre & m & post & Hs & Hpre & Hm).
      destruct (@deprecateFields_throws this spec pre m post h
                  Hwf Ht Hs Hpre Hm) as (h' & R & _ & Fr & _).
      unfold store. rewrite R. cbn [snd]. now apply cache_kept_framed.
  - apply cache_kept_framed, setTypeName_framed.
  - apply cache_kept_framed, setDescription_framed.
Qed.

Lemma shown_framed t h h' :
  framed t h h' ->
  (shown h' t = shown h t \/ next_map h <= shown h' t)
  /\ forall v, In v (Obj.targets (maps h' (shown h' t))) -> v < next_obj h ->
       In v (Obj.targets (maps h (shown h t))).
Proof. intros Fr. split; [apply (fr_shown Fr) | apply (fr_shown_locs Fr)]. Qed.

Lemma shown_mutated t args h h' :
  mutated t args h h' ->
  next_map h <= shown h' t
  /\ forall v, In v (Obj.targets (maps h' (shown h' t))) -> v < next_obj h ->
       In v (Obj.targets (maps h (shown h t))) \/ In v args.
Proof.
  intros Mu.
  assert (Hs : shown h' t = backing h' t)
    by (unfold shown; now rewrite (mu_type Mu)).
  rewrite Hs. split; [apply (mu_backing Mu)|].
  intros v Hv Hlt. destruct (mu_targets Mu Hv Hlt) as [H|H]; [left | now right].
  now apply view_locs_shown.
Qed.

(** The table a composer shows after a mutation is the one it showed, a new
    one, or the table handed to [setFields]; of the objects that existed it
    holds only those the former table held and those handed over. *)
Lemma mutate_shown this mu h :
  wf h -> gqType this < next_type h -> allocated h mu ->
  let t := gqType this in
  let h' := store (mutate this mu) h in
  (shown h' t = shown h t \/ next_map h <= shown h' t
   \/ mu = MSetFields (shown h' t))
  /\ forall v, In v (Obj.targets (maps h' (shown h' t))) -> v < next_obj h ->
       In v (Obj.targets (maps h (shown h t))) \/ In v (handed_over h mu).
Proof.
  intros Hwf Ht Ha t h'. subst h'.
  assert (FR : forall h', framed t h h' ->
            (shown h' t = shown h t \/ next_map h <= shown h' t
             \/ mu = MSetFields (shown h' t))
            /\ forall v, In v (Obj.targets (maps h' (shown h' t))) ->
                 v < next_obj h ->
                 In v (Obj.targets (maps h (shown h t)))
                 \/ In v (handed_over h mu)).
  { intros h' Fr. destruct (shown_framed Fr) as [[A|A] B].
    - split; [now left|]. intros v Hv Hlt. left. now apply B.
    - split; [right; now left|]. intros v Hv Hlt. left. now apply B. }
  assert (MU : forall h', mutated t (handed_over h mu) h h' ->
            (shown h' t = shown h t \/ next_map h <= shown h' t
             \/ mu = MSetFields (shown h' t))
            /\ forall v, In v (Obj.targets (maps h' (shown h' t))) ->
                 v < next_obj h ->
                 In v (Obj.targets (maps h (shown h t)))
                 \/ In v (handed_over h mu)).
  { intros h' Mu. destruct (shown_mutated Mu) as [A B].
    split; [right; now left | exact B]. }
  assert (MU0 : forall h', mutated t [] h h' ->
            (shown h' t = shown h t \/ next_map h <= shown h' t
             \/ mu = MSetFields (shown h' t))
            /\ forall v, In v (Obj.targets (maps h' (shown h' t))) ->
                 v < next_obj h ->
                 In v (Obj.targets (maps h (shown h t)))
                 \/ In v (handed_over h mu)).
  { intros h' Mu. apply FR. now apply mutated_framed. }
  destruct mu as [values|name v|a|arg|arg|names|name partial|spec|s|s];
    simpl mutate; simpl in Ha.
  - destruct (@setFields_spec this values h Hwf Ht Ha) as (h' & R & Rp).
    fold t in Rp. unfold store. rewrite R. cbn [snd].
    assert (Hs : shown h' t = values).
    { unfold shown. rewrite (rp_type Rp). simpl. apply (rp_backing Rp). }
    rewrite Hs. split; [right; now right|].
    intros x Hx _. right. simpl. now rewrite (rp_maps Rp) in Hx.
  - set (h1 := alloc_map h [(name, v)]).
    assert (E : extends h h1) by apply extends_new_map.
    assert (Hwf1 : wf h1).
    { apply wf_new_map;
        [assumption | repeat constructor; simpl; tauto | | reflexivity].
      intros x [<-|[]]. exact Ha. }
    destruct (@addFields_spec this (next_map h) h1 Hwf1 Ht)
      as (h2 & R & Mu & _); [simpl; lia|].
    fold t in Mu.
    assert (Hs : maps h1 (next_map h) = [(name, v)])
      by (simpl; apply upd_same).
    rewrite Hs in Mu. simpl Obj.targets in Mu.
    assert (Run : setField this name v h = (Normal this, h2)).
    { unfold setField. rewrite bind_new_map.
      change (Obj.set [] name v) with [(name, v)].
      fold h1. now rewrite (bind_normal _ R). }
    unfold store. rewrite Run. cbn [snd].
    destruct (shown_mutated Mu) as [A B].
    split; [right; left; simpl in A; lia|].
    intros x Hx Hlt. simpl handed_over.
    destruct (B x Hx) as [H|H]; [simpl; lia | left | now right].
    assert (Hsh : shown h1 t = shown h t).
    { unfold shown, backing. now rewrite (ex_types E), (ex_configs E). }
    rewrite Hsh, (ex_maps E) in H; [exact H | now apply shown_lt].
  - destruct (@addFields_spec this a h Hwf Ht Ha) as (h' & R & Mu & _).
    unfold store. rewrite R. cbn [snd]. now apply MU.
  - destruct (@removeField_spec this arg h Hwf Ht) as (h' & R & Mu & _).
    unfold store. rewrite R. cbn [snd]. now apply MU0.
  - destruct (@removeOtherFields_spec this arg h Hwf Ht)
      as (h' & R & _ & Fr & _).
    unfold store. rewrite R. cbn [snd]. now apply FR.
  - destruct (@reorderFields_spec this names h Hwf Ht) as (h' & R & Mu & _).
    unfold store. rewrite R. cbn [snd]. now apply MU0.
  - destruct (Obj.get (view h (gqType this)) name) as [prev|] eqn:G.
    + destruct (@extendField_spec this name partial h prev Hwf Ht Ha G)
        as (h' & R & Mu & _).
      unfold store. rewrite R. cbn [snd]. now apply MU0.
    + destruct (@extendField_throws this name partial h Hwf Ht G)
        as (h' & R & _ & Fr & _).
      unfold store. rewrite R. cbn [snd]. now apply FR.
  - destruct (all_or_missing (fields_of spec) (Obj.keys (view h (gqType this))))
      as [Hall|Hex].
    + destruct (@deprecateFields_ok this spec h Hwf Ht Hall)
        as (h' & R & _ & Fr & _).
      unfold store. rewrite R. cbn [snd]. now apply FR.
    + destruct (first_missing _ _ Hex) as (pre & m & post & Hs & Hpre & Hm).
      destruct (@deprecateFields_throws this spec pre m post h
                  Hwf Ht Hs Hpre Hm) as (h' & R & _ & Fr & _).
      unfold store. rewrite R. cbn [snd]. now apply FR.
  - apply FR, setTypeName_framed.
  - apply FR, setDescription_framed.
Qed.

(** A mutation of the composer over [t2] that is handed nothing the composer
    over [t1] shows leaves the view of [t1] as it is, and leaves the two
    composers apart. *)
Lemma apart_kept this t1 mu h :
  wf h -> gqType this < next_type h -> t1 < next_type h ->
  apart h t1 (gqType this) -> allocated h mu ->
  (forall v, In v (handed_over h mu) ->
     ~ In v (Obj.targets (maps h (shown h t1)))) ->
  let h' := store (mutate this mu) h in
  wf h' /\ gqType this < next_type h' /\ t1 < next_type h'
  /\ apart h' t1 (gqType this) /\ view h' t1 = view h t1.
Proof.
  intros Hwf Ht Ht1 Ap Ha Hoff h'. set (t2 := gqType this) in *.
  destruct (@mutate_sound this mu h Hwf Ht Ha) as (Hwf' & G & Hnt).
  pose proof (@mutate_touched this mu h Hwf Ht Ha) as To.
  pose proof (@mutate_cache_kept this mu h Hwf Ht Ha) as [K1 K2].
  pose proof (own_mutate this mu h) as [O1 O2].
  fold t2 h' in Hwf', G, Hnt, To, K1, K2, O1, O2.
  pose proof Ap as (N1 & N2 & N3 & N4).
  pose proof (shown_lt Hwf Ht1) as Hs.
  assert (Hty : types h' t1 = types h t1) by now apply (to_types To).
  assert (Hc : configs h' (EnumType._enumConfig (types h t1))
               = configs h (EnumType._enumConfig (types h t1))).
  { now apply (to_configs To). }
  assert (Hsh : shown h' t1 = shown h t1).
  { unfold shown, backing. now rewrite Hty, Hc. }
  assert (Hm : maps h' (shown h t1) = maps h (shown h t1)).
  { now apply (to_maps To). }
  split; [exact Hwf'|]. split; [now rewrite Hnt|]. split; [now rewrite Hnt|].
  split.
  - split; [exact N1|]. split; [now rewrite Hty, O1|]. split.
    + rewrite Hsh. intros C. apply N3. now apply K1.
    + rewrite Hsh, Hm. intros v Hv Hin. apply (N4 v Hv). apply K2.
      * exact Hin.
      * apply (@wf_targets h Hwf (shown h t1) v Hs Hv).
  - apply (@view_preserved h h' t1 t2 (handed_over h mu) Hwf Ht1 Ap).
    + intros v Hv Hin. now apply (Hoff v Hin).
    + exact To.
Qed.

(** So does every sequence of such mutations. *)
Lemma views_kept this t1 mus : forall h,
  wf h -> gqType this < next_type h -> t1 < next_type h ->
  apart h t1 (gqType this) -> hands_off this t1 mus h ->
  view (after_all this mus h) t1 = view h t1.
Proof.
  induction mus as [|mu mus IH]; intros h Hwf Ht Ht1 Ap Hoff; [reflexivity|].
  destruct Hoff as (Ha & Hv & Hrest).
  destruct (@apart_kept this t1 mu h Hwf Ht Ht1 Ap Ha Hv)
    as (Hwf' & Ht' & Ht1' & Ap' & V).
  change (after_all this (mu :: mus) h)
    with (after_all this mus (store (mutate this mu) h)).
  rewrite IH by assumption. exact V.
Qed.

(** When each of two composers is apart from the other, a mutation of one
    that is kept off the other leaves them so, and leaves the view of the
    other as it is. *)
Lemma both_apart_kept this t1 mu h :
  wf h -> gqType this < next_type h -> t1 < next_type h ->
  apart h t1 (gqType this) -> apart h (gqType this) t1 ->
  kept_off t1 mu h ->
  let h' := store (mutate this mu) h in
  wf h' /\ gqType this < next_type h' /\ t1 < next_type h'
  /\ apart h' t1 (gqType this) /\ apart h' (gqType this) t1
  /\ view h' t1 = view h t1.
Proof.
  intros Hwf Ht Ht1 Ap Ap' (Ha & Hoff & Hlk) h'.
  destruct (@apart_kept this t1 mu h Hwf Ht Ht1 Ap Ha Hoff)
    as (Hwf' & Ht' & Ht1' & Ap1 & V).
  fold h' in Hwf', Ht', Ht1', Ap1, V.
  split; [exact Hwf'|]. split; [exact Ht'|]. split; [exact Ht1'|].
  split; [exact Ap1|]. split; [|exact V].
  set (t2 := gqType this) in *.
  pose proof (@mutate_touched this mu h Hwf Ht Ha) as To.
  destruct (@mutate_shown this mu h Hwf Ht Ha) as [S1 S2].
  fold t2 h' in To, S1, S2.
  pose proof Ap as (N1 & N2 & N3 & N4).
  pose proof Ap' as (M1 & M2 & M3 & M4).
  pose proof Ap1 as (P1 & P2 & P3 & P4).
  assert (Hty : types h' t1 = types h t1) by now apply (to_types To).
  assert (Hvl : view_locs h' t1 = view_locs h t1).
  { unfold view_locs. rewrite Hty.
    destruct (EnumType._nameLookup (types h t1)) as [l|] eqn:C; [|reflexivity].
    rewrite (to_maps To); [reflexivity | eapply wf_cache; eauto |].
    unfold shown in N3. now rewrite C in N3. }
  split; [exact M1|]. split; [intros E; apply P2; now symmetry|]. split.
  - rewrite Hty. intros C.
    assert (Hl : shown h' t2 < next_map h) by (eapply wf_cache; eauto).
    destruct S1 as [S|[S|S]].
    + apply M3. now rewrite <- S.
    + lia.
    + now apply (Hlk _ S).
  - rewrite Hvl. intros v Hv Hin.
    assert (Hsh : In v (Obj.targets (maps h (shown h t1))))
      by now apply view_locs_shown.
    assert (Hlt : v < next_obj h).
    { apply (@wf_targets h Hwf (shown h t1) v); [now apply shown_lt | exact Hsh]. }
    destruct (S2 v Hv Hlt) as [H|H].
    + now apply (M4 v H).
    + now apply (Hoff v H).
Qed.

(** So in any sequence of such calls on the two composers, each call leaves
    the view of the other composer as it is. *)
Lemma calls_leave_other a b calls : forall h,
  wf h -> gqType a < next_type h -> gqType b < next_type h ->
  apart h (gqType a) (gqType b) -> apart h (gqType b) (gqType a) ->
  each_kept_off a b calls h -> each_leaves_other a b calls h.
Proof.
  induction calls as [|[on_a mu] calls IH]; intros h Hwf Hta Htb Ab Ba Hoff;
    [exact I|].
  destruct Hoff as [Hk Hrest]. destruct on_a; simpl in Hk, Hrest |- *.
  - destruct (@both_apart_kept a (gqType b) mu h Hwf Hta Htb Ba Ab Hk)
      as (Hwf' & Hta' & Htb' & Ba' & Ab' & V).
    split; [exact V|]. now apply IH.
  - destruct (@both_apart_kept b (gqType a) mu h Hwf Htb Hta Ab Ba Hk)
      as (Hwf' & Htb' & Hta' & Ab' & Ba' & V).
    split; [exact V|]. now apply IH.
Qed.

End Apart.

(** C8, as stated, fails.  On the sample store, [setField] on the clone with
    a value [getField] of the original returned changes what the original
    shows: [setFields] strips the object it is handed in place.  And the
    clone of a composer with a field [__proto__] lacks that field. *)
Lemma mutating_the_clone_can_change_the_original :
  ~ (forall (this : EnumTypeComposer) (newTypeName : string) (h : Heap)
            (mu : Mutation),
       well_formed h = true -> gqType this < next_type h ->
       newTypeName <> "" ->
       forall cloned h',
         clone this newTypeName h = (Normal cloned, h') ->
         allocated h' mu ->
         view (store (mutate cloned mu) h') (gqType this)
         = view h' (gqType this))
  /\ ~ (forall (this : EnumTypeComposer) (newTypeName : string) (h : Heap),
          well_formed h = true -> gqType this < next_type h ->
          newTypeName <> "" ->
          forall cloned h',
            clone this newTypeName h = (Normal cloned, h') ->
            Obj.keys (view h' (gqType cloned))
            = Obj.keys (view h (gqType this))).
Proof.
  split.
  - intros H.
    pose (r := clone Color "Shade" color_heap).
    assert (E : clone Color "Shade" color_heap = (Normal (mkETC 1), snd r)).
    { vm_compute. reflexivity. }
    assert (G : outcome (getField Color "GREEN") (snd r) = Normal 8).
    { vm_compute. reflexivity. }
    specialize (H Color "Shade" color_heap (MSetField "X" 8) eq_refl).
    specialize (H ltac:(vm_compute; lia) ltac:(discriminate) _ _ E).
    specialize (H ltac:(vm_compute; lia)).
    vm_compute in H. discriminate H.
  - intros H.
    pose (r := clone Odd "Even" odd_heap).
    assert (E : clone Odd "Even" odd_heap = (Normal (mkETC 1), snd r)).
    { vm_compute. reflexivity. }
    specialize (H Odd "Even" odd_heap eq_refl).
    specialize (H ltac:(vm_compute; lia) ltac:(discriminate) _ _ E).
    vm_compute in H. discriminate H.
Qed.

(** C8, amended.  [clone('')] throws.  With a non-empty name, and no field
    named [__proto__], [clone(newTypeName)] returns a composer over a type
    that did not exist before, named [newTypeName], with the description
    [getDescription()] gives for the original; its stored value map has the
    names of the original's fields, in order, each with the original's value
    without the marker [isDeprecated]; the original is unchanged.  The new
    type, its config, its value map and its value configs are all freshly
    allocated; the copy is one level deep, so every property of a value
    config is carried over as it is, a reference to an object included.
    Whatever sequence of mutators is then called on one of the two composers,
    the field map of the other stays what it was, as long as no call is
    handed a value config that the other composer shows.  And when mutators
    are called on the two composers in any order, each call leaves the field
    map of the other composer as it is, as long as no call is handed a value
    config that the other composer shows, or its lookup table as the new
    field map. *)
Theorem clone_is_independent (this : EnumTypeComposer) (newTypeName : string)
    (h : Heap) :
  well_formed h = true -> gqType this < next_type h ->
  Obj.mem "__proto__" (Obj.keys (view h (gqType this))) = false ->
  let t := gqType this in
  outcome (clone this "") h
  = Throw (Error
      "You should provide newTypeName:string for EnumTypeComposer.clone()")
  /\ (newTypeName <> "" ->
      exists cloned h',
        clone this newTypeName h = (Normal cloned, h')
        /\ outcome (getTypeName cloned) h' = Normal newTypeName
        /\ outcome (getDescription cloned) h'
           = outcome (getDescription this) h
        /\ outcome (getDescription this) h' = outcome (getDescription this) h
        /\ Obj.keys (view h' (gqType cloned)) = Obj.keys (view h t)
        /\ deep h' (backing h' (gqType cloned))
           = Obj.map_values strip (view h t)
        /\ view h' (gqType cloned) = Obj.map_values refreshed (view h t)
        /\ (settled h t = true -> view h' (gqType cloned) = view h t)
        /\ view h' t = view h t
        /\ (gqType cloned = next_type h
            /\ EnumType._enumConfig (types h' (gqType cloned)) = next_config h
            /\ next_map h <= backing h' (gqType cloned)
            /\ forall v,
                 In v (Obj.targets (maps h' (backing h' (gqType cloned)))) ->
                 next_obj h <= v)
        /\ (forall k p x, Obj.get (view h t) k = Some p ->
              x <> "isDeprecated" ->
              exists q,
                Obj.get (deep h' (backing h' (gqType cloned))) k = Some q
                /\ Obj.get q x = Obj.get p x)
        /\ (forall mus,
              (hands_off cloned t mus h' ->
               view (after_all cloned mus h') t = view h' t)
              /\ (hands_off this (gqType cloned) mus h' ->
                  view (after_all this mus h') (gqType cloned)
                  = view h' (gqType cloned)))
        /\ forall calls,
             each_kept_off this cloned calls h' ->
             each_leaves_other this cloned calls h').
Proof.
  intros Hwf Ht Hnp t. apply well_formed_wf in Hwf. split; [reflexivity|].
  intros Hname.
  destruct (@clone_spec this newTypeName h Hwf Ht Hname) as (c & h' & R & C).
  fold t in C. exists (mkETC c), h'. simpl gqType.
  assert (Hdel : Obj.delete (view h t) "__proto__" = view h t).
  { apply ObjFacts.delete_absent. now apply ObjFacts.mem_false. }
  pose proof (cl_view C) as CV. pose proof (cl_stored C) as CS.
  rewrite Hdel in CV, CS.
  assert (Hc : c < next_type h').
  { rewrite (cl_next_type C), (cl_type C). lia. }
  assert (Ht' : t < next_type h') by (rewrite (cl_next_type C); lia).
  split; [exact R|].
  split; [unfold outcome, getTypeName, bind, read_type, ret; simpl;
          now rewrite (cl_name C)|].
  split.
  { unfold outcome, getDescription, bind, read_type, ret. simpl. fold t.
    rewrite (cl_description C). unfold description_or_empty.
    destruct (EnumType.description (types h t)) as [d|]; [|reflexivity].
    destruct (String.eqb_spec d ""); [now subst | reflexivity]. }
  split.
  { unfold outcome, getDescription, bind, read_type, ret. simpl. fold t.
    now rewrite (cl_original_description C). }
  split; [rewrite CV; apply ObjFacts.keys_map_values|].
  split; [exact CS|].
  split; [exact CV|].
  split; [intros Hs; rewrite CV; now apply settled_refreshed|].
  split; [apply (cl_original C)|].
  split.
  { split; [apply (cl_type C)|]. split; [apply (cl_config C)|].
    split; [apply (cl_map C) | apply (cl_objs C)]. }
  split.
  { intros k p x Hk Hx. exists (strip p). split.
    - now rewrite CS, ObjFacts.get_map_values, Hk.
    - now apply get_strip. }
  split.
  { intros mus. split; intros Hoff.
    - apply (@views_kept (mkETC c) t mus h' (cl_wf C) Hc Ht' (cl_apart C) Hoff).
    - apply (@views_kept this c mus h' (cl_wf C) Ht' Hc (cl_apart' C) Hoff). }
  intros calls Hoff.
  apply (@calls_leave_other this (mkETC c) calls h' (cl_wf C) Ht' Hc
           (cl_apart C) (cl_apart' C) Hoff).
Qed.

(** ** The theorems at the sample store *)

Lemma addFields_twice_is_addFields_spread_witness :
  exists l1 h1 l2 h2,
    (addFields Color pink_map ;;; addFields Color teal_map ;;;
     getFields Color) color_heap = (Normal l1, h1)
    /\ (ma <- read_map pink_map ;; mb <- read_map teal_map ;;
        ab <- new_map (Obj.spread ma mb) ;;
        addFields Color ab ;;; getFields Color) color_heap
       = (Normal l2, h2)
    /\ deep h1 l1 = deep h2 l2
    /\ forall k v, Obj.get (maps color_heap teal_map) k = Some v ->
         Obj.get (deep h1 l1) k = Some (refreshed (objs color_heap v)).
Proof.
  apply (@addFields_twice_is_addFields_spread Color pink_map teal_map
           color_heap).
  - reflexivity.
  - vm_compute. lia.
  - vm_compute. lia.
  - vm_compute. lia.
Defined.

Lemma reorderFields_then_getFieldNames_witness :
  exists h',
    (reorderFields Color ["BLUE"; "PURPLE"; "RED"] ;;; getFieldNames Color)
      color_heap
    = (Normal ["BLUE"; "RED"; "GREEN"], h').
Proof.
  destruct (@reorderFields_then_getFieldNames Color ["BLUE"; "PURPLE"; "RED"]
              color_heap)
    as (ks & h' & R & E & _).
  - reflexivity.
  - vm_compute. lia.
  - reflexivity.
  - reflexivity.
  - exists h'. rewrite R, E. reflexivity.
Defined.


Lemma deprecateFields_checks_then_sets_witness :
  let fields := DeprecateMap [("RED", JStr "too red"); ("BLUE", JStr "sad")] in
  let h' := store (deprecateFields Color fields) color_heap in
  outcome (deprecateFields Color fields) color_heap = Normal Color
  /\ (exists p, Obj.get (view h' (gqType Color)) "BLUE" = Some p
                /\ Obj.get p "deprecationReason" = Some (JStr "sad"))
  /\ exists missing,
       outcome (deprecateFields Color (DeprecateName "PURPLE")) color_heap
       = Throw (Error ("Cannot deprecate unexisted value '" ++ missing
                       ++ "' from enum 'Color'")).
Proof.
  intros fields h'.
  destruct (@deprecateFields_checks_then_sets Color fields color_heap)
    as [_ H].
  - reflexivity.
  - vm_compute. lia.
  - destruct H as [A B].
    { intros f [<-|[<-|[]]]; vm_compute; tauto. }
    destruct (@deprecateFields_checks_then_sets Color (DeprecateName "PURPLE")
                color_heap) as [T _].
    + reflexivity.
    + vm_compute. lia.
    + destruct T as (missing & _ & _ & T).
      { exists "PURPLE". split; [now left|]. vm_compute.
        intros [H|[H|[H|[]]]]; discriminate H. }
      split; [exact A|]. split.
      * apply (B "BLUE"). simpl. tauto.
      * exists missing. exact T.
Defined.

Lemma deprecateFields_fails_after_partial_mutation_witness :
  let fields := DeprecateArray ["RED"; "PURPLE"; "GREEN"] in
  let h' := store (deprecateFields Color fields) color_heap in
  outcome (deprecateFields Color fields) color_heap
  = Throw (Error "Cannot deprecate unexisted value 'PURPLE' from enum 'Color'")
  /\ (exists p, Obj.get (view h' (gqType Color)) "RED" = Some p
                /\ Obj.get p "deprecationReason" = Some (JStr "deprecated"))
  /\ Obj.get (view color_heap (gqType Color)) "RED"
     = Some [("value", JNum 1); ("isDeprecated", JBool false)].
Proof.
  intros fields h'.
  destruct (@deprecateFields_fails_after_partial_mutation Color fields
              ["RED"] ["GREEN"] "PURPLE" color_heap) as [A B].
  - reflexivity.
  - vm_compute. lia.
  - reflexivity.
  - intros f [<-|[]]. vm_compute. tauto.
  - vm_compute. intros [H|[H|[H|[]]]]; discriminate H.
  - split; [exact A|]. split; [|reflexivity].
    apply (B "RED"). now left.
Defined.

Lemma clone_is_independent_witness :
  exists cloned h',
    clone Color "Shade" color_heap = (Normal cloned, h')
    /\ outcome (getTypeName cloned) h' = Normal "Shade"
    /\ view h' (gqType cloned) = view color_heap (gqType Color)
    /\ view (after_all cloned
               [MRemoveField (OneName "RED"); MReorderFields ["BLUE"];
                MSetTypeName "Tint"] h')
         (gqType Color)
       = view h' (gqType Color)
    /\ view (after_all Color
               [MDeprecateFields (DeprecateName "BLUE");
                MRemoveOtherFields (OneName "BLUE")] h')
         (gqType cloned)
       = view h' (gqType cloned)
    /\ each_leaves_other Color cloned
         [(false, MRemoveField (OneName "RED"));
          (true, MDeprecateFields (DeprecateName "BLUE"));
          (false, MReorderFields ["BLUE"]);
          (true, MRemoveOtherFields (OneName "BLUE"))] h'.
Proof.
  destruct (@clone_is_independent Color "Shade" color_heap) as [_ H].
  - reflexivity.
  - vm_compute. lia.
  - reflexivity.
  - destruct H
      as (cloned & h' & R & N & _ & _ & _ & _ & _ & S & _ & _ & _ & I & J).
    { discriminate. }
    exists cloned, h'. split; [exact R|]. split; [exact N|].
    split; [apply S; reflexivity|]. split; [|split].
    + apply (I [MRemoveField (OneName "RED"); MReorderFields ["BLUE"];
                MSetTypeName "Tint"]).
      simpl. repeat split; intros v [].
    + apply (I [MDeprecateFields (DeprecateName "BLUE");
                MRemoveOtherFields (OneName "BLUE")]).
      simpl. repeat split; intros v [].
    + apply (J [(false, MRemoveField (OneName "RED"));
                (true, MDeprecateFields (DeprecateName "BLUE"));
                (false, MReorderFields ["BLUE"]);
                (true, MRemoveOtherFields (OneName "BLUE"))]).
      cbn [each_kept_off kept_off callee negb allocated handed_over].
      repeat split; try (intros values E; discriminate E); intros v [].
Defined.

(** * Further properties *)

(** ** Reading fields *)

Section Readers.
Local Open Scope list_scope.

Lemma fetched_get t h l h1 name :
  fetched t h l h1 ->
  Obj.get (view h t) name = option_map (objs h1) (Obj.get (maps h1 l) name).
Proof.
  intros F. rewrite <- (fe_deep F). unfold deep.
  apply ObjFacts.get_map_values.
Qed.

End Readers.

(** X1. [getField(name)] returns the value object that [getFields()] holds
    under [name] when there is one, and otherwise throws the error "Cannot get
    value '<name>' from enum type '<type name>'. Value with such name does not
    exist."; either way the fields are what they were, and no object or table
    that existed before the call is modified. *)
Theorem getField_returns_or_throws (this : EnumTypeComposer) (name : string)
    (h : Heap) :
  well_formed h = true -> gqType this < next_type h ->
  let t := gqType this in
  let h' := store (getField this name) h in
  (forall p, Obj.get (view h t) name = Some p ->
     exists v, outcome (getField this name) h = Normal v /\ objs h' v = p)
  /\ (Obj.get (view h t) name = None ->
      outcome (getField this name) h
      = Throw (Error ("Cannot get value '" ++ name ++ "' from enum type '"
                      ++ EnumType.name (types h t)
                      ++ "'. Value with such name does not exist.")))
  /\ view h' t = view h t
  /\ (forall x, x < next_obj h -> objs h' x = objs h x)
  /\ (forall x, x < next_map h -> maps h' x = maps h x).
Proof.
  intros Hwf Ht t h'. apply well_formed_wf in Hwf.
  destruct (@getField_spec this name h Hwf Ht) as (l & h1 & F & R).
  fold t in F. pose proof (fetched_get name F) as G.
  assert (E : h' = h1).
  { unfold h', store. destruct (Obj.get (maps h1 l) name); now rewrite R. }
  rewrite E. split; [|split; [|split; [|split]]].
  - intros p Hp. rewrite Hp in G.
    destruct (Obj.get (maps h1 l) name) as [v|]; [|discriminate].
    exists v. unfold outcome. rewrite R. split; [reflexivity|].
    simpl in G. congruence.
  - intros Hn. rewrite Hn in G.
    destruct (Obj.get (maps h1 l) name) as [v|]; [discriminate|].
    unfold outcome. now rewrite R.
  - apply (fetched_view F).
  - apply (fe_objs F).
  - apply (fe_maps F).
Qed.

(** X2. The three readers agree: [getFieldNames()] lists every field once,
    [hasField(name)] is true exactly for the names it lists, and
    [getField(name)] returns (instead of throwing) exactly for those names;
    reading does not change the fields. *)
Theorem getFieldNames_hasField_getField_agree (this : EnumTypeComposer)
    (h : Heap) :
  well_formed h = true -> gqType this < next_type h ->
  let t := gqType this in
  exists ks,
    outcome (getFieldNames this) h = Normal ks
    /\ NoDup ks
    /\ (forall name,
          outcome (hasField this name) h = Normal (Obj.mem name ks))
    /\ (forall name,
          In name ks <-> exists v, outcome (getField this name) h = Normal v)
    /\ view (store (getFieldNames this) h) t = view h t
    /\ (forall name, view (store (hasField this name) h) t = view h t).
Proof.
  intros Hwf Ht t. apply well_formed_wf in Hwf.
  destruct (@getFieldNames_spec this h Hwf Ht) as (l & h1 & R & F).
  fold t in R, F.
  exists (Obj.keys (view h t)).
  split; [unfold outcome; now rewrite R|].
  split; [now apply keys_view_NoDup|].
  split; [|split; [|split]].
  - intros name.
    destruct (@hasField_spec this name h Hwf Ht) as (h2 & R2 & _).
    unfold outcome. rewrite R2. simpl. f_equal. fold t.
    destruct (Obj.has (view h t) name) eqn:E.
    + symmetry. apply ObjFacts.mem_In. now apply ObjFacts.has_In.
    + symmetry. apply ObjFacts.mem_false. intros Hin.
      apply ObjFacts.has_In in Hin. congruence.
  - intros name.
    destruct (@getField_spec this name h Hwf Ht) as (l' & h2 & F' & R').
    fold t in F'.
    assert (G : Obj.get (view h t) name
                = option_map (objs h2) (Obj.get (maps h2 l') name)).
    { rewrite <- (fe_deep F'). unfold deep. apply ObjFacts.get_map_values. }
    split.
    + intros Hin. apply ObjFacts.In_keys_get in Hin as [p Hp].
      rewrite Hp in G.
      destruct (Obj.get (maps h2 l') name) as [v|]; [|discriminate].
      exists v. unfold outcome. now rewrite R'.
    + intros [v Hv]. unfold outcome in Hv.
      destruct (Obj.get (maps h2 l') name) as [w|] eqn:E.
      * simpl in G. eapply ObjFacts.get_In_keys. exact G.
      * rewrite R' in Hv. discriminate.
  - unfold store. rewrite R. simpl. apply (fetched_view F).
  - intros name.
    destruct (@hasField_spec this name h Hwf Ht) as (h2 & R2 & V).
    unfold store. rewrite R2. exact V.
Qed.

(** ** Return values and the cached lookup table *)

Section Cleared.
Local Open Scope list_scope.
Variable t : loc.

Lemma cleared_bind {A B} (c : M A) (k : A -> M B) :
  (forall a, leaves_cleared t (k a)) -> leaves_cleared t (bind c k).
Proof.
  intros Hk h b h' R. unfold bind in R.
  destruct (c h) as [[a|e] h1]; [|discriminate]. now apply (Hk a h1 b).
Qed.

Lemma cleared_then_ret {A B} (c : M A) (b : B) :
  leaves_cleared t c -> leaves_cleared t (c ;;; ret b).
Proof.
  intros Hc h b' h' R. unfold bind, ret in R.
  destruct (c h) as [[a|e] h1] eqn:E; [|discriminate].
  injection R as _ <-. now apply (Hc h a).
Qed.

Lemma cleared_forEach {X} (f : X -> M unit) (x : X) (xs : list X) :
  (forall y, leaves_cleared t (f y)) -> leaves_cleared t (forEach (x :: xs) f).
Proof.
  intros Hf. revert x. induction xs as [|y ys IH]; intros x.
  - simpl. now apply cleared_then_ret.
  - change (leaves_cleared t (f x ;;; forEach (y :: ys) f)).
    apply cleared_bind. intros _. apply IH.
Qed.

End Cleared.

Section ClearedMethods.
Local Open Scope list_scope.

Lemma cleared_setFields this values :
  leaves_cleared (gqType this) (setFields this values).
Proof.
  intros h a h' R.
  destruct (setFields_run this values h) as (h1 & R1 & _ & _ & _ & _ & Hty).
  rewrite R1 in R. injection R as _ <-.
  rewrite Hty, Nat.eqb_refl. reflexivity.
Qed.

Lemma cleared_addFields this newValues :
  leaves_cleared (gqType this) (addFields this newValues).
Proof.
  unfold addFields. do 4 (apply cleared_bind; intros ?).
  apply cleared_then_ret, cleared_setFields.
Qed.

Lemma cleared_setField this name valueConfig :
  leaves_cleared (gqType this) (setField this name valueConfig).
Proof.
  unfold setField. apply cleared_bind; intros ?.
  apply cleared_then_ret, cleared_addFields.
Qed.

Lemma cleared_extendField this name partial :
  leaves_cleared (gqType this) (extendField this name partial).
Proof.
  unfold extendField. do 4 (apply cleared_bind; intros ?).
  apply cleared_then_ret, cleared_setField.
Qed.

Lemma cleared_mutate this mu :
  replaces_fields mu = true -> leaves_cleared (gqType this) (mutate this mu).
Proof.
  destruct mu as [values|name v|a|arg|arg|names|name partial|spec|s|s];
    simpl; try discriminate; intros Hr.
  - apply cleared_setFields.
  - apply cleared_setField.
  - apply cleared_addFields.
  - unfold removeField. do 4 (apply cleared_bind; intros ?).
    apply cleared_then_ret, cleared_setFields.
  - unfold removeOtherFields. do 3 (apply cleared_bind; intros ?).
    apply cleared_then_ret, cleared_setFields.
  - unfold reorderFields. do 6 (apply cleared_bind; intros ?).
    apply cleared_then_ret, cleared_setFields.
  - apply cleared_extendField.
  - intros h a h' R. rewrite deprecateFields_unfold in R. revert h a h' R.
    apply cleared_bind. intros existed. apply cleared_then_ret.
    destruct (fields_of spec) as [|f fs]; [discriminate|].
    apply cleared_forEach. intros y. unfold deprecate_one.
    do 2 (apply cleared_bind; intros ?).
    apply cleared_then_ret, cleared_extendField.
Qed.

End ClearedMethods.

(** X14. Every mutator returns the composer it was called on: [setFields],
    [setField], [addFields], [removeField], [removeOtherFields],
    [reorderFields], [setTypeName] and [setDescription] never throw, and
    [extendField] and [deprecateFields] return it whenever the names they are
    given are fields. *)
Theorem mutation_returns_this (this : EnumTypeComposer) (mu : Mutation)
    (h : Heap) :
  well_formed h = true -> gqType this < next_type h -> allocated h mu ->
  let fields := Obj.keys (view h (gqType this)) in
  match mu with
  | MExtendField name _ =>
      In name fields -> outcome (mutate this mu) h = Normal this
  | MDeprecateFields spec =>
      (forall name, In name (fields_of spec) -> In name fields) ->
      outcome (mutate this mu) h = Normal this
  | _ => outcome (mutate this mu) h = Normal this
  end.
Proof.
  intros Hwf Ht Ha fields. apply well_formed_wf in Hwf.
  set (t := gqType this) in *.
  destruct mu as [values|name v|a|arg|arg|names|name partial|spec|s|s];
    simpl mutate; simpl in Ha.
  - destruct (setFields_run this values h) as (h' & R & _).
    unfold outcome. now rewrite R.
  - set (single := next_map h).
    set (h1 := alloc_map h [(name, v)]).
    assert (Hwf1 : wf h1).
    { apply wf_new_map;
      [assumption | repeat constructor; simpl; tauto | | reflexivity].
      intros x [<-|[]]. exact Ha. }
    destruct (@addFields_spec this single h1 Hwf1 Ht)
      as (h2 & R & _); [simpl; lia|].
    unfold outcome, setField. rewrite bind_new_map.
    change (Obj.set [] name v) with [(name, v)].
    fold single. fold h1. now rewrite (bind_normal _ R).
  - destruct (@addFields_spec this a h Hwf Ht Ha) as (h' & R & _).
    unfold outcome. now rewrite R.
  - destruct (@removeField_spec this arg h Hwf Ht) as (h' & R & _).
    unfold outcome. now rewrite R.
  - destruct (@removeOtherFields_spec this arg h Hwf Ht) as (h' & R & _).
    unfold outcome. now rewrite R.
  - destruct (@reorderFields_spec this names h Hwf Ht) as (h' & R & _).
    unfold outcome. now rewrite R.
  - intros Hin. apply ObjFacts.In_keys_get in Hin as [prev G].
    destruct (@extendField_spec this name partial h prev Hwf Ht Ha G)
      as (h' & R & _).
    unfold outcome. now rewrite R.
  - intros Hall.
    destruct (@deprecateFields_ok this spec h Hwf Ht Hall) as (h' & R & _).
    unfold outcome. now rewrite R.
  - reflexivity.
  - reflexivity.
Qed.

(** X3. Two calls of [getFields()] in a row return the same table object, the
    second without touching the store; once a mutator that ends in
    [setFields] has returned, [getFields()] returns another table: a table
    fetched before the mutation is no longer the one the composer reads. *)
Theorem getFields_table_is_cached_until_mutation (this : EnumTypeComposer)
    (h : Heap) :
  well_formed h = true -> gqType this < next_type h ->
  exists l h1,
    getFields this h = (Normal l, h1)
    /\ getFields this h1 = (Normal l, h1)
    /\ forall mu h2,
         allocated h1 mu -> replaces_fields mu = true ->
         mutate this mu h1 = (Normal this, h2) ->
         exists l' h3, getFields this h2 = (Normal l', h3) /\ l' <> l.
Proof.
  intros Hwf Ht. apply well_formed_wf in Hwf. set (t := gqType this) in *.
  destruct (@getFields_spec this h Hwf Ht) as (l & h1 & R & F). fold t in F.
  exists l, h1. split; [exact R|]. split.
  - unfold getFields, GraphQLEnumType._getNameLookup.
    rewrite bind_read_type. fold t. now rewrite (fe_cache F).
  - intros mu h2 Ha Hr Run.
    assert (Ht1 : t < next_type h1) by (rewrite (fe_next_type F); exact Ht).
    destruct (@mutate_sound this mu h1 (fe_wf F) Ht1 Ha) as (Hwf2 & G & Hn).
    unfold store in Hwf2, G, Hn. rewrite Run in Hwf2, G, Hn. simpl in *.
    assert (Ht2 : t < next_type h2) by (rewrite Hn; exact Ht1).
    destruct (@getFields_spec this h2 Hwf2 Ht2) as (l' & h3 & R' & F').
    fold t in F'. exists l', h3. split; [exact R'|].
    intros ->. pose proof (fe_lt F) as Hl. destruct G as [_ G _ _].
    assert (C : EnumType._nameLookup (types h2 t) = Some l).
    { apply (fe_fresh F'). lia. }
    pose proof (@cleared_mutate this mu Hr h1 this h2 Run) as N.
    fold t in N. congruence.
Qed.

(** ** Adding fields *)

Section AddFields.
Local Open Scope list_scope.

(** [addFields] in two steps: the lookup table is fetched, then the merged
    table is installed. *)
Lemma addFields_steps this a h :
  wf h -> gqType this < next_type h -> a < next_map h ->
  exists l h1 h',
    fetched (gqType this) h l h1
    /\ addFields this a h = (Normal this, h')
    /\ installed (gqType this) (Obj.spread (maps h1 l) (maps h a)) h1 h'.
Proof.
  intros Hwf Ht Ha. set (t := gqType this) in *.
  destruct (@getFields_spec this h Hwf Ht) as (l & h1 & Hrun1 & F).
  fold t in F. pose proof (fe_grows F) as [G1 G2 G3 G4].
  set (m := Obj.spread (maps h1 l) (maps h1 a)).
  destruct (@install_spec this m h1) as (h' & Hrun2 & I).
  { apply (fe_wf F). }
  { rewrite (fe_next_type F). assumption. }
  { apply ObjFacts.NoDup_keys_spread. }
  { intros v Hv. apply In_targets_spread in Hv as [Hv|Hv].
    - eapply (wf_targets (fe_wf F)); [|exact Hv]. apply (fe_lt F).
    - eapply (wf_targets (fe_wf F)); [|exact Hv]. lia. }
  { apply ObjFacts.ordered_spread. }
  exists l, h1, h'. split; [exact F|]. split.
  - unfold addFields. unfold bind at 1. rewrite Hrun1.
    unfold bind at 1, read_map at 1. unfold bind at 1, read_map at 1.
    fold m. exact Hrun2.
  - fold t in I. unfold m in I. now rewrite (@fe_maps _ _ _ _ F a Ha) in I.
Qed.

(** The caller's value configs are installed as they are and stripped in
    place. *)
Lemma addFields_by_reference this a h k v :
  wf h -> gqType this < next_type h -> a < next_map h ->
  Obj.get (maps h a) k = Some v ->
  let h' := store (addFields this a) h in
  Obj.get (maps h' (backing h' (gqType this))) k = Some v
  /\ objs h' v = strip (objs h v).
Proof.
  intros Hwf Ht Ha Hk. set (t := gqType this) in *.
  destruct (@addFields_steps this a h Hwf Ht Ha) as (l & h1 & h' & F & R & I).
  fold t in F, I. unfold store. rewrite R. simpl.
  assert (Hnd1 : NoDup (Obj.keys (maps h1 l))).
  { apply (wf_keys (fe_wf F)), (fe_lt F). }
  assert (Hnda : NoDup (Obj.keys (maps h a))) by now apply wf_keys.
  assert (Hv : v < next_obj h).
  { apply (@wf_targets h Hwf a v Ha).
    apply ObjFacts.get_Some_In in Hk. now apply (in_map snd) in Hk. }
  split.
  - rewrite (is_backing I), (is_map I), ObjFacts.get_spread by assumption.
    now rewrite Hk.
  - assert (G : Obj.get (Obj.spread (maps h1 l) (maps h a)) k = Some v).
    { rewrite ObjFacts.get_spread by assumption. now rewrite Hk. }
    apply ObjFacts.get_Some_In in G. apply (in_map snd) in G.
    rewrite (@is_objs_in _ _ _ _ I v G).
    now rewrite (@fe_objs _ _ _ _ F v Hv).
Qed.

End AddFields.

(** X5. When the names of [newValues] that are not fields yet are not array
    indices, [addFields(newValues)] keeps the existing names in their order
    and appends those new names, in the order of [newValues].  Whatever the
    names: a field not named in [newValues] keeps its value up to
    re-derivation; under a name of [newValues] the composer stores the
    caller's config object itself, stripped of [isDeprecated] in place. *)
Theorem addFields_appends_new_names (this : EnumTypeComposer) (a : loc)
    (h : Heap) :
  well_formed h = true -> gqType this < next_type h -> a < next_map h ->
  let t := gqType this in
  let h' := store (addFields this a) h in
  let old := Obj.keys (view h t) in
  let new := filter (fun k => negb (Obj.mem k old)) (Obj.keys (maps h a)) in
  (no_index new = true -> Obj.keys (view h' t) = (old ++ new)%list)
  /\ (forall k, Obj.get (maps h a) k = None ->
        Obj.get (view h' t) k = option_map refreshed (Obj.get (view h t) k))
  /\ (forall k v, Obj.get (maps h a) k = Some v ->
        Obj.get (view h' t) k = Some (refreshed (objs h v))
        /\ Obj.get (maps h' (backing h' t)) k = Some v
        /\ objs h' v = Obj.delete (objs h v) "isDeprecated").
Proof.
  intros Hwf Ht Ha t h' old new. apply well_formed_wf in Hwf.
  destruct (@addFields_spec this a h Hwf Ht Ha) as (h1 & R & _ & V & _).
  fold t in V.
  assert (E : h' = h1) by (unfold h', store; now rewrite R).
  assert (Hnv : NoDup (Obj.keys (view h t))) by now apply keys_view_NoDup.
  assert (Hna : NoDup (Obj.keys (deep h a))).
  { rewrite keys_deep. now apply wf_keys. }
  split; [|split].
  - intros Hni. rewrite E, V, ObjFacts.keys_map_values, ObjFacts.keys_spread;
      try assumption.
    + now rewrite keys_deep.
    + now apply keys_view_ordered.
    + intros k Hk Hn. rewrite keys_deep in Hk.
      apply (proj1 (no_index_spec _) Hni). unfold new.
      apply filter_In. split; [assumption|].
      now apply negb_true_iff, ObjFacts.mem_false.
  - intros k Hk. rewrite E, V, ObjFacts.get_map_values.
    rewrite ObjFacts.get_spread by assumption.
    now rewrite get_deep, Hk.
  - intros k v Hk. split.
    + rewrite E, V, ObjFacts.get_map_values.
      rewrite ObjFacts.get_spread by assumption.
      now rewrite get_deep, Hk.
    + apply (@addFields_by_reference this a h k v Hwf Ht Ha Hk).
Qed.

(** X4. [setField(name, valueConfig)] sets one field: a name that is a field
    keeps its position, a new name that is not an array index goes last; the
    field then shows the properties of [valueConfig] (with the derived
    marker), the other fields keep their values up to re-derivation, and
    [hasField(name)] is true.  The object [valueConfig] itself becomes the
    stored config, and it loses its own [isDeprecated] property in place. *)
Theorem setField_sets_one_field (this : EnumTypeComposer) (name : string)
    (valueConfig : loc) (h : Heap) :
  well_formed h = true -> gqType this < next_type h ->
  valueConfig < next_obj h ->
  let t := gqType this in
  let h' := store (setField this name valueConfig) h in
  let old := Obj.keys (view h t) in
  (Obj.has (view h t) name = true -> Obj.keys (view h' t) = old)
  /\ (Obj.has (view h t) name = false -> Obj.is_array_index name = false ->
      Obj.keys (view h' t) = (old ++ [name])%list)
  /\ Obj.get (view h' t) name = Some (refreshed (objs h valueConfig))
  /\ (forall k, k <> name ->
        Obj.get (view h' t) k = option_map refreshed (Obj.get (view h t) k))
  /\ Obj.get (maps h' (backing h' t)) name = Some valueConfig
  /\ objs h' valueConfig = Obj.delete (objs h valueConfig) "isDeprecated"
  /\ outcome (hasField this name) h' = Normal true.
Proof.
  intros Hwf Ht Hv t h' old. apply well_formed_wf in Hwf.
  set (single := next_map h).
  set (h1 := alloc_map h [(name, valueConfig)]).
  assert (Ex : extends h h1) by apply extends_new_map.
  assert (Hwf1 : wf h1).
  { apply wf_new_map;
      [assumption | repeat constructor; simpl; tauto | | reflexivity].
    intros x [<-|[]]. exact Hv. }
  assert (Hs : maps h1 single = [(name, valueConfig)])
    by (simpl; apply upd_same).
  assert (Ha : single < next_map h1) by (simpl; lia).
  assert (Ht1 : gqType this < next_type h1) by exact Ht.
  destruct (@addFields_spec this single h1 Hwf1 Ht1 Ha)
    as (h2 & R & Mu & V & _).
  fold t in V, Mu.
  assert (Run : setField this name valueConfig h = (Normal this, h2)).
  { unfold setField. rewrite bind_new_map.
    change (Obj.set [] name valueConfig) with [(name, valueConfig)].
    fold single. fold h1. now rewrite (bind_normal _ R). }
  assert (E : h' = h2) by (unfold h', store; now rewrite Run).
  assert (Hv1 : view h1 t = view h t) by now apply view_extends.
  assert (Hnv : NoDup (Obj.keys (view h t))) by now apply keys_view_NoDup.
  assert (Hd : deep h1 single = [(name, objs h valueConfig)]).
  { unfold deep. rewrite Hs. simpl. reflexivity. }
  assert (V' : view h2 t
               = Obj.map_values refreshed
                   (Obj.set (view h t) name (objs h valueConfig))).
  { rewrite V, Hv1, Hd.
    rewrite spread_single; [reflexivity | assumption |].
    now apply keys_view_ordered. }
  assert (Hby := @addFields_by_reference this single h1 name valueConfig
                   Hwf1 Ht1 Ha).
  rewrite Hs in Hby. simpl in Hby. rewrite String.eqb_refl in Hby.
  specialize (Hby eq_refl). unfold store in Hby. rewrite R in Hby.
  simpl in Hby. fold t in Hby. destruct Hby as [B1 B2].
  rewrite E. split; [|split; [|split; [|split; [|split; [|split]]]]].
  - intros Hh. rewrite V', ObjFacts.keys_map_values.
    apply ObjFacts.keys_set_in. now apply ObjFacts.has_In.
  - intros Hh Hi. rewrite V', ObjFacts.keys_map_values.
    assert (Hn : ~ In name (Obj.keys (view h t))).
    { intros Hin. apply ObjFacts.has_In in Hin. congruence. }
    rewrite ObjFacts.set_fresh by assumption.
    now rewrite ObjFacts.keys_app.
  - now rewrite V', ObjFacts.get_map_values, ObjFacts.get_set_same.
  - intros k Hk. rewrite V', ObjFacts.get_map_values.
    now rewrite ObjFacts.get_set_other by congruence.
  - exact B1.
  - exact B2.
  - assert (Ht2 : gqType this < next_type h2).
    { rewrite (mu_next_type Mu). exact Ht1. }
    destruct (@hasField_spec this name h2 (mu_wf Mu) Ht2) as (h3 & R3 & _).
    unfold outcome. rewrite R3. simpl. fold t. f_equal.
    unfold Obj.has.
    now rewrite V', ObjFacts.get_map_values, ObjFacts.get_set_same.
Qed.

(** ** Removing fields *)

Section Removal.
Local Open Scope list_scope.

Lemma unmoved_others keep ks :
  unmoved (others keep ks) ks = filter (fun k => Obj.mem k keep) ks.
Proof.
  unfold unmoved, others. apply filter_ext_in. intros k Hk.
  rewrite mem_filter. apply ObjFacts.mem_In in Hk. rewrite Hk. simpl.
  apply negb_involutive.
Qed.

Lemma mem_others keep ks k :
  In k ks -> Obj.mem k (others keep ks) = negb (Obj.mem k keep).
Proof.
  intros Hk. unfold others. rewrite mem_filter.
  apply ObjFacts.mem_In in Hk. now rewrite Hk.
Qed.

Lemma mem_app k a b : Obj.mem k (a ++ b) = Obj.mem k a || Obj.mem k b.
Proof. unfold Obj.mem. apply existsb_app. Qed.

Lemma delete_all_app {V} a b (o : Obj.t V) :
  delete_all (a ++ b) o = delete_all b (delete_all a o).
Proof. unfold delete_all. apply fold_left_app. Qed.

Lemma delete_all_same_names {V} a b (o : Obj.t V) :
  NoDup (Obj.keys o) ->
  (forall k, Obj.mem k a = Obj.mem k b) ->
  delete_all a o = delete_all b o.
Proof.
  intros Hnd Hab. apply ObjFacts.table_ext.
  - now apply NoDup_keys_delete_all.
  - rewrite !keys_delete_all. unfold unmoved. apply filter_ext.
    intros k. now rewrite Hab.
  - intros k. rewrite !get_delete_all. now rewrite Hab.
Qed.

End Removal.

(** X6. [removeOtherFields(names)] never throws, also for names that are not
    fields: the fields left are the former fields that [names] lists, in their
    former order (not in the order of [names]), with their values (unchanged
    when the view was in derived form); with an empty array no field is
    left. *)
Theorem removeOtherFields_keeps_listed (this : EnumTypeComposer)
    (fieldNameOrArray : NameOrArray) (h : Heap) :
  well_formed h = true -> gqType this < next_type h ->
  let t := gqType this in
  let keep := names_of fieldNameOrArray in
  let h' := store (removeOtherFields this fieldNameOrArray) h in
  outcome (removeOtherFields this fieldNameOrArray) h = Normal this
  /\ Obj.keys (view h' t)
     = filter (fun k => Obj.mem k keep) (Obj.keys (view h t))
  /\ (forall k, Obj.get (view h' t) k
                = if Obj.mem k keep
                  then option_map refreshed (Obj.get (view h t) k)
                  else None)
  /\ (settled h t = true -> forall k, Obj.mem k keep = true ->
        Obj.get (view h' t) k = Obj.get (view h t) k)
  /\ (keep = [] -> view h' t = []).
Proof.
  intros Hwf Ht t keep h'. apply well_formed_wf in Hwf.
  destruct (@removeOtherFields_spec this fieldNameOrArray h Hwf Ht)
    as (h1 & R & _ & _ & V).
  fold t keep in V.
  assert (E : h' = h1) by (unfold h', store; now rewrite R).
  assert (G : forall k, Obj.get (view h1 t) k
                = if Obj.mem k keep
                  then option_map refreshed (Obj.get (view h t) k)
                  else None).
  { intros k. rewrite V, ObjFacts.get_map_values, get_delete_all.
    destruct (Obj.get (view h t) k) as [p|] eqn:Hk.
    - rewrite mem_others by (eapply ObjFacts.get_In_keys; eauto).
      destruct (Obj.mem k keep); reflexivity.
    - destruct (Obj.mem k (others keep _)), (Obj.mem k keep); reflexivity. }
  rewrite E. split; [unfold outcome; now rewrite R|].
  split; [|split; [exact G|split]].
  - rewrite V, ObjFacts.keys_map_values, keys_delete_all.
    apply unmoved_others.
  - intros Hs k Hk. rewrite G, Hk.
    destruct (Obj.get (view h t) k) as [p|] eqn:Hp; [|reflexivity].
    simpl. f_equal. eapply get_settled; eauto.
  - intros Hk.
    assert (K : Obj.keys (view h1 t) = []).
    { rewrite V, ObjFacts.keys_map_values, keys_delete_all, unmoved_others.
      rewrite Hk. clear. induction (Obj.keys (view h t)); simpl; auto. }
    destruct (view h1 t); [reflexivity | discriminate].
Qed.

(** X7. For the same argument, [removeField] and [removeOtherFields] split
    the fields: what one keeps the other removes, each in the former order,
    and every former field is kept by exactly one of the two. *)
Theorem removeField_removeOtherFields_split (this : EnumTypeComposer)
    (nameOrArray : NameOrArray) (h : Heap) :
  well_formed h = true -> gqType this < next_type h ->
  let t := gqType this in
  let old := Obj.keys (view h t) in
  let removed := Obj.keys (view (store (removeField this nameOrArray) h) t) in
  let kept :=
    Obj.keys (view (store (removeOtherFields this nameOrArray) h) t) in
  removed = filter (fun k => negb (Obj.mem k (names_of nameOrArray))) old
  /\ kept = filter (fun k => Obj.mem k (names_of nameOrArray)) old
  /\ (forall k, In k old <-> In k removed \/ In k kept)
  /\ (forall k, In k removed -> ~ In k kept).
Proof.
  intros Hwf Ht t old removed kept. apply well_formed_wf in Hwf.
  destruct (@removeField_spec this nameOrArray h Hwf Ht) as (h1 & R1 & _ & V1).
  destruct (@removeOtherFields_spec this nameOrArray h Hwf Ht)
    as (h2 & R2 & _ & _ & V2).
  fold t in V1, V2.
  assert (E1 : removed
               = filter (fun k => negb (Obj.mem k (names_of nameOrArray))) old).
  { unfold removed, store. rewrite R1. simpl.
    now rewrite V1, ObjFacts.keys_map_values, keys_delete_all. }
  assert (E2 : kept = filter (fun k => Obj.mem k (names_of nameOrArray)) old).
  { unfold kept, store. rewrite R2. simpl.
    rewrite V2, ObjFacts.keys_map_values, keys_delete_all.
    apply unmoved_others. }
  split; [exact E1|]. split; [exact E2|]. rewrite E1, E2. split.
  - intros k. rewrite !filter_In.
    destruct (Obj.mem k (names_of nameOrArray)); simpl; intuition congruence.
  - intros k. rewrite !filter_In.
    destruct (Obj.mem k (names_of nameOrArray)); simpl; intuition congruence.
Qed.

(** X8. Removing fields in two calls leaves the same fields as removing
    the names of both calls in one, and the order of the two calls does not
    matter. *)
Theorem removeField_twice_is_removeField_of_both (this : EnumTypeComposer)
    (a b : NameOrArray) (h : Heap) :
  well_formed h = true -> gqType this < next_type h ->
  let t := gqType this in
  let both := NameArray (names_of a ++ names_of b) in
  view (store (removeField this a ;;; removeField this b) h) t
  = view (store (removeField this both) h) t
  /\ view (store (removeField this b ;;; removeField this a) h) t
     = view (store (removeField this a ;;; removeField this b) h) t.
Proof.
  intros Hwf Ht t both. apply well_formed_wf in Hwf.
  assert (Two : forall x y,
    view (store (removeField this x ;;; removeField this y) h) t
    = Obj.map_values refreshed
        (delete_all (names_of x ++ names_of y) (view h t))).
  { intros x y.
    destruct (@removeField_spec this x h Hwf Ht) as (h1 & R1 & Mu & V1).
    assert (Ht1 : gqType this < next_type h1).
    { rewrite (mu_next_type Mu). exact Ht. }
    destruct (@removeField_spec this y h1 (mu_wf Mu) Ht1)
      as (h2 & R2 & _ & V2).
    fold t in V1, V2. unfold store. rewrite (bind_normal _ R1), R2. simpl.
    rewrite V2, V1, <- map_values_delete_all, map_refreshed_idem.
    now rewrite delete_all_app. }
  assert (Hnd : NoDup (Obj.keys (view h t))) by now apply keys_view_NoDup.
  split.
  - rewrite Two.
    destruct (@removeField_spec this both h Hwf Ht) as (h1 & R1 & _ & V1).
    fold t in V1. unfold store. rewrite R1. simpl. now rewrite V1.
  - rewrite !Two. f_equal. apply delete_all_same_names; [assumption|].
    intros k. rewrite !mem_app. apply orb_comm.
Qed.

(** ** Reordering twice *)

Section ReorderTwice.
Local Open Scope list_scope.

Lemma In_unmoved names old x :
  In x (unmoved names old) <-> In x old /\ ~ In x names.
Proof.
  unfold unmoved. rewrite filter_In, negb_true_iff, ObjFacts.mem_false.
  reflexivity.
Qed.

Lemma filter_none {A} (p : A -> bool) l :
  (forall x, In x l -> p x = false) -> filter p l = [].
Proof.
  induction l as [|a l IH]; intros H; simpl; [reflexivity|].
  rewrite (H a) by now left. apply IH. intros x Hx. apply H. now right.
Qed.

Lemma filter_all {A} (p : A -> bool) l :
  (forall x, In x l -> p x = true) -> filter p l = l.
Proof.
  induction l as [|a l IH]; intros H; simpl; [reflexivity|].
  rewrite (H a) by now left. f_equal. apply IH. intros x Hx. apply H.
  now right.
Qed.

(** The loop of [reorderFields], whatever the names: the moved fields that
    are no array indices are created in the order of [names], except a field
    [__proto__], which is lost. *)
Lemma reorder_loop_plain {V} names : forall (o f : Obj.t V),
  NoDup (Obj.keys f) ->
  (forall k, In k (Obj.keys o) -> ~ In k (Obj.keys f)) ->
  ~ In "__proto__" (Obj.keys o) ->
  Obj.plain (Obj.keys (fst (reorder_loop names o f)))
  = Obj.plain (Obj.keys o) ++ filter plain_name (moved names (Obj.keys f))
  /\ forall k,
      Obj.get (fst (reorder_loop names o f)) k
      = match Obj.get o k with
        | Some v => Some v
        | None =>
            if Obj.mem k names && negb (String.eqb k "__proto__")
            then Obj.get f k else None
        end.
Proof.
  induction names as [|n ns IH]; intros o f Hf Hd Hp.
  - simpl. unfold moved. simpl. rewrite app_nil_r.
    split; [reflexivity|]. intros k. now destruct (Obj.get o k).
  - cbn [reorder_loop]. destruct (Obj.get f n) as [v|] eqn:E.
    + assert (Hn : In n (Obj.keys f)) by (eapply ObjFacts.get_In_keys; eauto).
      assert (Hno : ~ In n (Obj.keys o)) by (intros H; now apply (Hd n H)).
      assert (Hr : Obj.reaches_setter o n = String.eqb n "__proto__").
      { unfold Obj.reaches_setter. apply ObjFacts.has_false in Hno.
        now rewrite Hno, andb_true_r. }
      rewrite Hr, moved_cons_in, <- ObjFacts.keys_delete by assumption.
      destruct (String.eqb_spec n "__proto__") as [->|Hne].
      * destruct (IH o (Obj.delete f "__proto__")) as (H2 & H4).
        { now apply ObjFacts.NoDup_keys_delete. }
        { intros k Hk. rewrite ObjFacts.In_keys_delete.
          intros [Hk' _]. now apply (Hd k Hk). }
        { assumption. }
        split; [exact H2|].
        intros k. rewrite H4. destruct (Obj.get o k); [reflexivity|].
        cbn [Obj.mem existsb].
        destruct (String.eqb_spec k "__proto__") as [->|Hk].
        -- now rewrite !andb_false_r.
        -- now rewrite ObjFacts.get_delete_other by congruence.
      * destruct (IH (Obj.set o n v) (Obj.delete f n)) as (H2 & H4).
        { now apply ObjFacts.NoDup_keys_delete. }
        { intros k Hk. rewrite ObjFacts.In_keys_delete.
          apply ObjFacts.In_keys_set in Hk as [Hk| ->]; [|tauto].
          intros [Hk' _]. now apply (Hd k Hk). }
        { rewrite ObjFacts.In_keys_set. intuition congruence. }
        split.
        -- rewrite H2, ObjFacts.plain_keys_set.
           apply ObjFacts.mem_false in Hno. rewrite Hno, orb_false_r.
           cbn [filter]. unfold plain_name at 2.
           apply String.eqb_neq in Hne. rewrite Hne, andb_true_r.
           destruct (Obj.is_array_index n); cbn [negb];
             [reflexivity | now rewrite <- app_assoc].
        -- intros k. rewrite H4. cbn [Obj.mem existsb].
           destruct (String.eqb_spec k n) as [->|Hk].
           ++ rewrite ObjFacts.get_set_same.
              apply ObjFacts.get_None in Hno. rewrite Hno.
              apply String.eqb_neq in Hne. now rewrite Hne, E.
           ++ rewrite ObjFacts.get_set_other by congruence.
              rewrite ObjFacts.get_delete_other by congruence. reflexivity.
    + assert (Hn : ~ In n (Obj.keys f)) by now apply ObjFacts.get_None.
      destruct (IH o f Hf Hd Hp) as (H2 & H4).
      split.
      * rewrite H2, moved_cons_out by assumption. reflexivity.
      * intros k. rewrite H4. destruct (Obj.get o k); [reflexivity|].
        cbn [Obj.mem existsb].
        destruct (String.eqb_spec k n) as [->|Hk]; [|reflexivity].
        rewrite E. cbn [orb].
        now destruct (Obj.mem n ns && negb (String.eqb n "__proto__")),
          (negb (String.eqb n "__proto__")).
Qed.

(** A field keeps its value, except the field [__proto__] when it is
    listed: that one is lost. *)
Lemma get_reordered_any {V} names (f : Obj.t V) k :
  NoDup (Obj.keys f) ->
  Obj.get (reordered names f) k
  = if Obj.mem k names && String.eqb k "__proto__" then None
    else Obj.get f k.
Proof.
  intros Hf.
  destruct (@reorder_loop_plain V names [] f Hf) as (_ & H4);
    [intros x [] | intros [] |].
  unfold reordered. rewrite ObjFacts.get_spread.
  - rewrite reorder_loop_snd, get_delete_all, H4. simpl.
    destruct (Obj.mem k names), (String.eqb k "__proto__"); simpl;
      try reflexivity; now destruct (Obj.get f k).
  - apply reorder_loop_NoDup. constructor.
  - rewrite reorder_loop_snd. now apply NoDup_keys_delete_all.
Qed.

Lemma In_keys_reordered {V} names (f : Obj.t V) k :
  NoDup (Obj.keys f) ->
  In k (Obj.keys (reordered names f))
  <-> In k (Obj.keys f) /\ ~ (In k names /\ k = "__proto__").
Proof.
  intros Hf. rewrite <- !ObjFacts.has_In. unfold Obj.has.
  rewrite get_reordered_any by assumption.
  destruct (Obj.mem k names) eqn:M; destruct (String.eqb_spec k "__proto__");
    simpl.
  - apply ObjFacts.mem_In in M. split; [discriminate | tauto].
  - destruct (Obj.get f k); intuition congruence.
  - apply ObjFacts.mem_false in M. destruct (Obj.get f k); intuition congruence.
  - destruct (Obj.get f k); intuition congruence.
Qed.

(** The names that are not array indices, after [reorderFields(names)]. *)
Lemma plain_keys_reordered {V} names (f : Obj.t V) :
  NoDup (Obj.keys f) ->
  Obj.plain (Obj.keys (reordered names f))
  = filter plain_name (moved names (Obj.keys f))
    ++ Obj.plain (unmoved names (Obj.keys f)).
Proof.
  intros Hf.
  destruct (@reorder_loop_plain V names [] f Hf) as (H2 & H4);
    [intros x [] | intros [] |].
  unfold reordered. rewrite ObjFacts.plain_keys_spread.
  - rewrite H2, reorder_loop_snd, keys_delete_all. simpl. f_equal.
    apply filter_all. intros x Hx. apply negb_true_iff, ObjFacts.mem_false.
    intros Hin. apply ObjFacts.In_keys_get in Hin as (v & Hv).
    rewrite H4 in Hv. simpl in Hv.
    unfold Obj.plain in Hx. apply filter_In in Hx as [Hx _].
    apply In_unmoved in Hx as [_ Hx]. apply ObjFacts.mem_false in Hx.
    rewrite Hx in Hv. discriminate.
  - apply reorder_loop_NoDup. constructor.
  - rewrite reorder_loop_snd. now apply NoDup_keys_delete_all.
Qed.

(** [reorderFields(names)] gives a table that [reorderFields(names)]
    leaves as it is. *)
Lemma reordered_idem {V} names (f : Obj.t V) :
  NoDup (Obj.keys f) ->
  reordered names (reordered names f) = reordered names f.
Proof.
  intros Hnd.
  assert (Hnd' : NoDup (Obj.keys (reordered names f))).
  { unfold reordered. apply ObjFacts.NoDup_keys_spread. }
  apply ObjFacts.ordered_table_ext.
  - unfold reordered at 1. apply ObjFacts.NoDup_keys_spread.
  - exact Hnd'.
  - unfold reordered at 1. apply ObjFacts.ordered_spread.
  - unfold reordered. apply ObjFacts.ordered_spread.
  - rewrite (@plain_keys_reordered V names _ Hnd').
    rewrite (@plain_keys_reordered V names _ Hnd). f_equal.
    + unfold moved. rewrite !filter_dedup. f_equal.
      rewrite !ObjFacts.filter_filter. apply filter_ext_in. intros x Hx.
      destruct (Obj.mem x (Obj.keys (reordered names f))) eqn:M1;
        destruct (Obj.mem x (Obj.keys f)) eqn:M2; simpl; try reflexivity.
      * apply ObjFacts.mem_In, In_keys_reordered in M1 as [M1 _];
          [|assumption].
        apply ObjFacts.mem_In in M1. congruence.
      * apply ObjFacts.mem_false in M1. apply ObjFacts.mem_In in M2.
        rewrite In_keys_reordered in M1 by assumption.
        unfold plain_name. destruct (String.eqb_spec x "__proto__");
          [now rewrite andb_false_r|].
        exfalso. apply M1. split; [assumption | tauto].
    + unfold unmoved at 1, Obj.plain at 1.
      rewrite ObjFacts.filter_filter.
      rewrite (filter_ext _ (fun k => negb (Obj.is_array_index k)
                                     && negb (Obj.mem k names)))
        by (intros k; apply andb_comm).
      rewrite <- ObjFacts.filter_filter.
      fold (Obj.plain (Obj.keys (reordered names f))).
      rewrite (@plain_keys_reordered V names _ Hnd), filter_app.
      rewrite filter_none, filter_all; [reflexivity| |].
      * intros x Hx. unfold Obj.plain in Hx. apply filter_In in Hx as [Hx _].
        apply In_unmoved in Hx as [_ Hx].
        now apply negb_true_iff, ObjFacts.mem_false.
      * intros x Hx. apply filter_In in Hx as [Hx _].
        apply In_moved in Hx as [Hx _].
        now apply negb_false_iff, ObjFacts.mem_In.
  - intros k. rewrite (@get_reordered_any V names _ k Hnd').
    rewrite (@get_reordered_any V names _ k Hnd).
    now destruct (Obj.mem k names && String.eqb k "__proto__").
Qed.

(** With an empty array the table goes through a spread only. *)
Lemma reordered_nil {V} (f : Obj.t V) :
  NoDup (Obj.keys f) -> Obj.ordered (Obj.keys f) = true ->
  reordered [] f = f.
Proof.
  intros Hnd Ho. unfold reordered. simpl. unfold Obj.spread. simpl.
  now apply ObjFacts.copy_id.
Qed.

Lemma dedup_NoDup l : NoDup l -> dedup l = l.
Proof.
  induction 1 as [|x l Hx Hnd IH]; simpl; [reflexivity|].
  rewrite IH. f_equal. now apply filter_absent.
Qed.

Lemma moved_self old : NoDup old -> moved old old = old.
Proof.
  intros Hnd. unfold moved. rewrite filter_all.
  - now apply dedup_NoDup.
  - intros x Hx. now apply ObjFacts.mem_In.
Qed.

Lemma unmoved_self old : unmoved old old = [].
Proof.
  unfold unmoved. apply filter_none. intros x Hx.
  apply negb_false_iff. now apply ObjFacts.mem_In.
Qed.

(** With all the field names in their order, the table is rebuilt as it
    is, unless one of the fields is [__proto__]. *)
Lemma reordered_self {V} (f : Obj.t V) :
  NoDup (Obj.keys f) -> Obj.ordered (Obj.keys f) = true ->
  ~ In "__proto__" (Obj.keys f) ->
  reordered (Obj.keys f) f = f.
Proof.
  intros Hnd Ho Hp. apply ObjFacts.ordered_table_ext; try assumption.
  - unfold reordered. apply ObjFacts.NoDup_keys_spread.
  - unfold reordered. apply ObjFacts.ordered_spread.
  - rewrite plain_keys_reordered, moved_self, unmoved_self by assumption.
    unfold Obj.plain at 2. simpl. rewrite app_nil_r.
    apply filter_ext_in. intros x Hx. unfold plain_name.
    destruct (String.eqb_spec x "__proto__"); [now subst|].
    apply andb_true_r.
  - intros k. rewrite get_reordered_any by assumption.
    destruct (String.eqb_spec k "__proto__") as [->|Hk];
      [|now rewrite andb_false_r].
    rewrite andb_true_r. destruct (Obj.mem "__proto__" (Obj.keys f)) eqn:M;
      [|reflexivity].
    now apply ObjFacts.mem_In in M.
Qed.

End ReorderTwice.

(** X9. [reorderFields(names)] twice leaves the fields as one call does;
    with an empty array the order of the fields is unchanged, and so it is
    with the current field names in their order, unless one of the fields is
    [__proto__]. *)
Theorem reorderFields_is_idempotent (this : EnumTypeComposer)
    (names : list string) (h : Heap) :
  well_formed h = true -> gqType this < next_type h ->
  let t := gqType this in
  let old := Obj.keys (view h t) in
  view (store (reorderFields this names ;;; reorderFields this names) h) t
  = view (store (reorderFields this names) h) t
  /\ Obj.keys (view (store (reorderFields this []) h) t) = old
  /\ (Obj.mem "__proto__" old = false ->
      Obj.keys (view (store (reorderFields this old) h) t) = old).
Proof.
  intros Hwf Ht t old. apply well_formed_wf in Hwf.
  assert (Hnd : NoDup (Obj.keys (view h t))) by now apply keys_view_NoDup.
  assert (Hord : Obj.ordered (Obj.keys (view h t)) = true)
    by now apply keys_view_ordered.
  assert (One : forall ns,
    view (store (reorderFields this ns) h) t
    = Obj.map_values refreshed (reordered ns (view h t))).
  { intros ns.
    destruct (@reorderFields_spec this ns h Hwf Ht) as (h1 & R1 & _ & V1).
    unfold store. rewrite R1. exact V1. }
  split; [|split].
  - destruct (@reorderFields_spec this names h Hwf Ht) as (h1 & R1 & Mu & V1).
    assert (Ht1 : gqType this < next_type h1).
    { rewrite (mu_next_type Mu). exact Ht. }
    destruct (@reorderFields_spec this names h1 (mu_wf Mu) Ht1)
      as (h2 & R2 & _ & V2).
    fold t in V1, V2. rewrite One. unfold store.
    rewrite (bind_normal _ R1), R2. simpl.
    rewrite V2, V1, <- reordered_map, map_refreshed_idem.
    now rewrite reordered_idem.
  - rewrite One, ObjFacts.keys_map_values, reordered_nil by assumption.
    reflexivity.
  - intros Hp. rewrite One, ObjFacts.keys_map_values.
    unfold old. rewrite reordered_self; [reflexivity | assumption.. |].
    now apply ObjFacts.mem_false.
Qed.

(** ** The table a caller holds *)

Section LiveTable.
Local Open Scope list_scope.

Lemma getFields_cached this h l :
  EnumType._nameLookup (types h (gqType this)) = Some l ->
  getFields this h = (Normal l, h).
Proof.
  intros C. unfold getFields, GraphQLEnumType._getNameLookup.
  rewrite bind_read_type. now rewrite C.
Qed.

(** [removeField] on a type whose lookup table [l] is cached. *)
Lemma removeField_on_cached this nameOrArray h l :
  wf h -> gqType this < next_type h -> l < next_map h ->
  EnumType._nameLookup (types h (gqType this)) = Some l ->
  exists h2 h',
    removeField this nameOrArray h = (Normal this, h')
    /\ maps h2 l = delete_all (names_of nameOrArray) (maps h l)
    /\ objs h2 = objs h /\ next_map h2 = next_map h
    /\ installed (gqType this) (maps h2 l) h2 h'.
Proof.
  intros Hwf Ht Hl C. set (t := gqType this) in *.
  set (names := names_of nameOrArray).
  pose proof (getFields_cached this h C) as R1.
  destruct (delete_loop l names h) as (h2 & R2 & Hf & Ho & Hc & Hty & Hm & Hd).
  pose proof Hf as Hf'. injection Hf' as Hno Hnm Hnc Hnt.
  assert (Hnd : NoDup (Obj.keys (maps h2 l))).
  { rewrite Hd. apply NoDup_keys_delete_all. now apply (wf_keys Hwf). }
  assert (Hord : Obj.ordered (Obj.keys (maps h2 l)) = true).
  { rewrite Hd. apply ordered_keys_delete_all. now apply (wf_key_order Hwf). }
  assert (Hsub : forall v, In v (Obj.targets (maps h2 l)) ->
                           In v (Obj.targets (maps h l))).
  { intros v. rewrite Hd. apply In_targets_delete_all. }
  assert (Hwf2 : wf h2) by (apply (@wf_shrink h h2 l); assumption).
  set (m := Obj.copy (maps h2 l)).
  assert (Hm' : m = maps h2 l) by (now apply ObjFacts.copy_id).
  destruct (@install_spec this m h2) as (h' & R3 & I).
  { assumption. }
  { rewrite Hnt. assumption. }
  { now rewrite Hm'. }
  { rewrite Hm'. intros v Hv. rewrite Hno.
    apply Hsub in Hv. apply (@wf_targets h Hwf l v Hl Hv). }
  { now rewrite Hm'. }
  exists h2, h'. split; [|split; [exact Hd|split; [exact Ho|split]]].
  - unfold removeField.
    change (match nameOrArray with
            | OneName name => [name]
            | NameArray names0 => names0
            end) with names.
    unfold bind at 1. rewrite R1.
    unfold bind at 1. rewrite R2.
    unfold bind at 1, read_map at 1. fold m. exact R3.
  - exact Hnm.
  - rewrite <- Hm'. exact I.
Qed.

(** [removeOtherFields] on a type whose lookup table [l] is cached. *)
Lemma removeOtherFields_on_cached this fieldNameOrArray h l :
  wf h -> gqType this < next_type h -> l < next_map h ->
  EnumType._nameLookup (types h (gqType this)) = Some l ->
  exists h2 h',
    removeOtherFields this fieldNameOrArray h = (Normal this, h')
    /\ maps h2 l
       = delete_all (others (names_of fieldNameOrArray) (Obj.keys (maps h l)))
           (maps h l)
    /\ objs h2 = objs h
    /\ replaced (gqType this) l h2 h'.
Proof.
  intros Hwf Ht Hl C. set (t := gqType this) in *.
  set (keep := names_of fieldNameOrArray).
  pose proof (getFields_cached this h C) as R1.
  destruct (keep_loop l keep (Obj.keys (maps h l)) h)
    as (h2 & R2 & Hf & Ho & Hc & Hty & Hm & Hd).
  pose proof Hf as Hf'. injection Hf' as Hno Hnm Hnc Hnt.
  assert (Hsub : forall v, In v (Obj.targets (maps h2 l)) ->
                           In v (Obj.targets (maps h l))).
  { intros v. rewrite Hd. apply In_targets_delete_all. }
  assert (Hwf2 : wf h2).
  { apply (@wf_shrink h h2 l); try assumption.
    - rewrite Hd. apply NoDup_keys_delete_all. now apply (wf_keys Hwf).
    - rewrite Hd. apply ordered_keys_delete_all.
      now apply (wf_key_order Hwf). }
  destruct (@setFields_spec this l h2) as (h3 & R3 & R); try assumption.
  { rewrite Hnt. exact Ht. }
  { rewrite Hnm. exact Hl. }
  exists h2, h3. split; [|split; [exact Hd|split; [exact Ho|exact R]]].
  unfold removeOtherFields.
  change (match fieldNameOrArray with
          | OneName name => [name]
          | NameArray names0 => names0
          end) with keep.
  rewrite (bind_normal _ R1), bind_read_map, (bind_normal _ R2).
  now rewrite (bind_normal _ R3).
Qed.

End LiveTable.

(** X10. The table [getFields()] returns is edited in place by the removals:
    after [removeField] the table a caller fetched before has lost the
    removed names, while the composer goes on with a copy; after
    [removeOtherFields] that very table, with the other names deleted, is the
    backing value map of the type.  In both cases the value objects left in
    the table have lost their [isDeprecated] property. *)
Theorem removal_edits_the_fetched_table (this : EnumTypeComposer)
    (nameOrArray : NameOrArray) (h : Heap) :
  well_formed h = true -> gqType this < next_type h ->
  let t := gqType this in
  let names := names_of nameOrArray in
  exists l h0,
    getFields this h = (Normal l, h0)
    /\ (let h' := store (removeField this nameOrArray) h0 in
        maps h' l = delete_all names (maps h0 l)
        /\ backing h' t <> l
        /\ forall k v, Obj.get (maps h' l) k = Some v ->
             objs h' v = Obj.delete (objs h0 v) "isDeprecated")
    /\ (let h' := store (removeOtherFields this nameOrArray) h0 in
        maps h' l
        = delete_all (others names (Obj.keys (maps h0 l))) (maps h0 l)
        /\ backing h' t = l
        /\ forall k v, Obj.get (maps h' l) k = Some v ->
             objs h' v = Obj.delete (objs h0 v) "isDeprecated").
Proof.
  intros Hwf Ht t names. apply well_formed_wf in Hwf.
  destruct (@getFields_spec this h Hwf Ht) as (l & h0 & R0 & F). fold t in F.
  assert (Ht0 : gqType this < next_type h0).
  { rewrite (fe_next_type F). exact Ht. }
  exists l, h0. split; [exact R0|]. split.
  - destruct (@removeField_on_cached this nameOrArray h0 l (fe_wf F) Ht0
                (fe_lt F) (fe_cache F))
      as (h2 & h' & R & Hd & Ho & Hnm & I).
    fold t in I. unfold store. rewrite R. simpl.
    assert (Hne : l <> next_map h2) by (pose proof (fe_lt F); lia).
    split; [|split].
    + now rewrite (is_maps I) by exact Hne.
    + rewrite (is_backing I). congruence.
    + intros k v Hk. rewrite (is_maps I) in Hk by exact Hne.
      apply ObjFacts.get_Some_In in Hk. apply (in_map snd) in Hk.
      rewrite (@is_objs_in _ _ _ _ I v Hk). now rewrite Ho.
  - destruct (@removeOtherFields_on_cached this nameOrArray h0 l (fe_wf F) Ht0
                (fe_lt F) (fe_cache F))
      as (h2 & h' & R & Hd & Ho & Rp).
    fold t in Rp. unfold store. rewrite R. simpl.
    split; [|split].
    + now rewrite (rp_maps Rp).
    + apply (rp_backing Rp).
    + intros k v Hk. rewrite (rp_maps Rp) in Hk.
      apply ObjFacts.get_Some_In in Hk. apply (in_map snd) in Hk.
      rewrite (@rp_objs_in _ _ _ _ Rp v Hk). now rewrite Ho.
Qed.

(** ** What the mutators leave alone *)

(** X11. Whatever it does, returning or throwing, a mutator of a composer
    writes among the existing objects only the composer's type, its config,
    its cached lookup table, the values of that table and the value configs
    the caller hands to [setFields], [addFields] or [setField]: the
    properties of every other existing object, the entries of every other
    existing table, and every other config and type are as before. *)
Theorem mutation_writes_only_its_own (this : EnumTypeComposer)
    (mu : Mutation) (h : Heap) :
  well_formed h = true -> gqType this < next_type h -> allocated h mu ->
  let t := gqType this in
  let h' := store (mutate this mu) h in
  (forall x, x < next_obj h -> ~ In x (view_locs h t) ->
     ~ In x (handed_over h mu) -> objs h' x = objs h x)
  /\ (forall x, x < next_map h -> EnumType._nameLookup (types h t) <> Some x ->
        maps h' x = maps h x)
  /\ (forall x, x <> EnumType._enumConfig (types h t) ->
        configs h' x = configs h x)
  /\ (forall x, x <> t -> types h' x = types h x).
Proof.
  intros Hwf Ht Ha t h'. apply well_formed_wf in Hwf.
  pose proof (@mutate_touched this mu h Hwf Ht Ha) as T. fold t h' in T.
  split; [apply (to_objs T)|]. split; [apply (to_maps T)|].
  split; [apply (to_configs T) | apply (to_types T)].
Qed.

(** X12. [extendField] on a name that is not a field has no other effect
    than the call of [getFields()] it starts with: the fields are unchanged
    and no existing object, table or config is modified. *)
Theorem extendField_missing_changes_nothing (this : EnumTypeComposer)
    (name : string) (partial : loc) (h : Heap) :
  well_formed h = true -> gqType this < next_type h ->
  Obj.has (view h (gqType this)) name = false ->
  let t := gqType this in
  let h' := store (extendField this name partial) h in
  view h' t = view h t
  /\ (forall x, x < next_obj h -> objs h' x = objs h x)
  /\ (forall x, x < next_map h -> maps h' x = maps h x)
  /\ configs h' = configs h
  /\ h' = store (getFields this) h.
Proof.
  intros Hwf Ht Hh t h'. apply well_formed_wf in Hwf.
  assert (Hg : Obj.get (view h t) name = None).
  { unfold Obj.has in Hh. fold t in Hh.
    now destruct (Obj.get (view h t) name). }
  destruct (@getFields_spec this h Hwf Ht) as (l & h1 & R1 & F). fold t in F.
  assert (E : Obj.get (maps h1 l) name = None).
  { rewrite <- (fe_deep F), get_deep in Hg.
    now destruct (Obj.get (maps h1 l) name). }
  assert (Run : snd (extendField this name partial h) = h1).
  { unfold extendField. unfold bind at 1, try_catch. unfold getField.
    rewrite (bind_normal _ R1), bind_read_map, E. reflexivity. }
  unfold h', store. rewrite Run, R1. simpl.
  split; [apply (fetched_view F)|]. split; [apply (fe_objs F)|].
  split; [apply (fe_maps F)|]. split; [apply (fe_configs F)|reflexivity].
Qed.

Section DeprecateOthers.
Local Open Scope list_scope.

Lemma option_map_refreshed_idem (x : option JsObject) :
  option_map refreshed (option_map refreshed x) = option_map refreshed x.
Proof. destruct x; simpl; [|reflexivity]. now rewrite refreshed_idem. Qed.

(** The loop of [deprecateFields] on the fields it does not visit. *)
Lemma deprecate_loop_others this existed rho names : forall h,
  wf h -> gqType this < next_type h ->
  Obj.keys (view h (gqType this)) = existed ->
  (forall f, In f names -> In f existed) ->
  forall g, ~ In g names ->
    Obj.get
      (view (store (forEach names (deprecate_one this existed rho)) h)
         (gqType this)) g
    = match names with
      | [] => Obj.get (view h (gqType this)) g
      | _ :: _ => option_map refreshed (Obj.get (view h (gqType this)) g)
      end.
Proof.
  set (t := gqType this).
  induction names as [|f fs IH]; intros h Hwf Ht Hk Hall g Hg.
  - reflexivity.
  - destruct (@deprecate_one_ok this existed rho f h Hwf Ht Hk)
      as (h1 & prev & R1 & Mu & Hprev & V1).
    { apply Hall. now left. }
    fold t in Mu, Hprev, V1.
    assert (Ht1 : t < next_type h1) by (rewrite (mu_next_type Mu); exact Ht).
    assert (Hk1 : Obj.keys (view h1 t) = existed).
    { rewrite V1, ObjFacts.keys_set_in; rewrite ObjFacts.keys_map_values;
        [exact Hk|]. eapply ObjFacts.get_In_keys; eauto. }
    assert (Hg1 : Obj.get (view h1 t) g
                  = option_map refreshed (Obj.get (view h t) g)).
    { rewrite V1, ObjFacts.get_set_other.
      - apply ObjFacts.get_map_values.
      - intros ->. apply Hg. now left. }
    assert (S1 : store (forEach (f :: fs) (deprecate_one this existed rho)) h
                 = store (forEach fs (deprecate_one this existed rho)) h1).
    { unfold store. now rewrite (@forEach_cons _ _ _ _ _ _ R1). }
    rewrite S1, (IH h1 (mu_wf Mu) Ht1 Hk1).
    + rewrite Hg1. destruct fs; [reflexivity|].
      apply option_map_refreshed_idem.
    + intros x Hx. apply Hall. now right.
    + intros Hin. apply Hg. now right.
Qed.

End DeprecateOthers.

(** X13. When every listed name is a field, [deprecateFields] keeps the
    field names and their order and leaves the fields it does not list as
    they were (up to re-derivation; unchanged when the view was in derived
    form); with no name listed the fields are unchanged. *)
Theorem deprecateFields_touches_listed_only (this : EnumTypeComposer)
    (fields : DeprecateSpec) (h : Heap) :
  well_formed h = true -> gqType this < next_type h ->
  (forall f, In f (fields_of fields) ->
     In f (Obj.keys (view h (gqType this)))) ->
  let t := gqType this in
  let h' := store (deprecateFields this fields) h in
  Obj.keys (view h' t) = Obj.keys (view h t)
  /\ (forall g, ~ In g (fields_of fields) ->
        Obj.get (view h' t) g
        = match fields_of fields with
          | [] => Obj.get (view h t) g
          | _ :: _ => option_map refreshed (Obj.get (view h t) g)
          end)
  /\ (settled h t = true -> forall g, ~ In g (fields_of fields) ->
        Obj.get (view h' t) g = Obj.get (view h t) g)
  /\ (fields_of fields = [] -> view h' t = view h t).
Proof.
  intros Hwf Ht Hall t h'. apply well_formed_wf in Hwf.
  destruct (@getFieldNames_spec this h Hwf Ht) as (l & h1 & R1 & F).
  fold t in R1, F.
  assert (Ht1 : t < next_type h1) by (rewrite (fe_next_type F); exact Ht).
  assert (Hk1 : Obj.keys (view h1 t) = Obj.keys (view h t)).
  { now rewrite (fetched_view F). }
  destruct (@deprecate_loop_ok this (Obj.keys (view h t)) (reason_of fields)
              (fields_of fields) h1 (fe_wf F) Ht1 Hk1 Hall)
    as (h2 & R & _ & _ & _ & Hk' & _ & _).
  fold t in Hk'.
  assert (E : h' = h2).
  { unfold h', store. rewrite deprecateFields_unfold.
    now rewrite (bind_normal _ R1), (bind_normal _ R). }
  assert (S2 : store (forEach (fields_of fields)
                        (deprecate_one this (Obj.keys (view h t))
                           (reason_of fields))) h1 = h2).
  { unfold store. now rewrite R. }
  assert (Others : forall g, ~ In g (fields_of fields) ->
        Obj.get (view h2 t) g
        = match fields_of fields with
          | [] => Obj.get (view h t) g
          | _ :: _ => option_map refreshed (Obj.get (view h t) g)
          end).
  { intros g Hg.
    pose proof (@deprecate_loop_others this (Obj.keys (view h t))
                  (reason_of fields) (fields_of fields) h1 (fe_wf F) Ht1
                  Hk1 Hall g Hg) as D.
    fold t in D. rewrite S2 in D. rewrite D. now rewrite (fetched_view F). }
  rewrite E. split; [exact Hk'|]. split; [exact Others|]. split.
  - intros Hs g Hg. rewrite (Others g Hg).
    destruct (fields_of fields); [reflexivity|].
    destruct (Obj.get (view h t) g) as [p|] eqn:Hp; [|reflexivity].
    simpl. f_equal. eapply get_settled; eauto.
  - intros Hnil. rewrite Hnil in R. simpl in R. injection R as <-.
    apply (fetched_view F).
Qed.

(** X17. [setTypeName] leaves the fields and the description as they were,
    [setDescription] the fields and the name; neither writes a value object
    or a table. *)
Theorem setTypeName_setDescription_leave_fields (this : EnumTypeComposer)
    (s : string) (h : Heap) :
  let t := gqType this in
  (let h' := store (setTypeName this s) h in
   view h' t = view h t
   /\ outcome (getDescription this) h' = outcome (getDescription this) h
   /\ objs h' = objs h /\ maps h' = maps h)
  /\
  (let h' := store (setDescription this s) h in
   view h' t = view h t
   /\ outcome (getTypeName this) h' = outcome (getTypeName this) h
   /\ objs h' = objs h /\ maps h' = maps h).
Proof.
  intros t. split.
  - unfold store, setTypeName, bind, read_type, write_type, read_config,
      write_config, ret. simpl. rewrite upd_same. simpl.
    split; [|split; [|split]]; try reflexivity.
    + unfold view, deep, backing. simpl. fold t.
      rewrite !upd_same. reflexivity.
    + unfold outcome, getDescription, bind, read_type, ret. simpl. fold t.
      now rewrite upd_same.
  - unfold store, setDescription, bind, read_type, write_type, read_config,
      write_config, ret. simpl. rewrite upd_same. simpl.
    split; [|split; [|split]]; try reflexivity.
    + unfold view, deep, backing. simpl. fold t.
      rewrite !upd_same. reflexivity.
    + unfold outcome, getTypeName, bind, read_type, ret. simpl. fold t.
      now rewrite upd_same.
Qed.

(** ** Names, descriptions and [create] *)

(** X15. No mutator of the fields changes a name or a description: after
    it, returning or throwing, every type and every config object has the
    name and description it had and every type mirrors the config object it
    mirrored, so that [getTypeName()] and [getDescription()] of every composer
    give what they gave. *)
Theorem field_mutations_never_rename (this other : EnumTypeComposer)
    (mu : Mutation) (h : Heap) :
  is_field_mutation mu = true ->
  let h' := store (mutate this mu) h in
  same_headers h h'
  /\ outcome (getTypeName other) h' = outcome (getTypeName other) h
  /\ outcome (getDescription other) h' = outcome (getDescription other) h.
Proof.
  intros Hm h'. pose proof (@headers_mutate this mu Hm h) as H.
  fold h' in H. split; [exact H|]. destruct H as [T _].
  specialize (T (gqType other)). unfold type_header in T.
  injection T as Tn Td _.
  unfold outcome, getTypeName, getDescription, bind, read_type, ret. simpl.
  now rewrite Tn, Td.
Qed.

(** X16. If the type of a composer and its config object agree on the name
    and on the description, they still do after any mutator of that composer,
    whether it returns or throws. *)
Theorem mutation_keeps_mirror (this : EnumTypeComposer) (mu : Mutation)
    (h : Heap) :
  mirrored h (gqType this) -> mirrored (store (mutate this mu) h) (gqType this).
Proof.
  intros [Mn Md]. set (t := gqType this) in *.
  destruct (is_field_mutation mu) eqn:Hm.
  - destruct (@headers_mutate this mu Hm h) as [T C]. fold t in T, C.
    pose proof (T t) as Tt. unfold type_header in Tt. injection Tt as Tn Td Tc.
    pose proof (C (EnumType._enumConfig (types h t))) as Ct.
    unfold config_header in Ct. injection Ct as Cn Cd.
    unfold mirrored. rewrite Tc, Tn, Td, Cn, Cd. now split.
  - destruct mu; try discriminate; simpl mutate.
    + unfold store, setTypeName, bind, read_type, write_type, read_config,
        write_config, ret, mirrored. simpl. fold t.
      repeat (rewrite upd_same; simpl). now split.
    + unfold store, setDescription, bind, read_type, write_type, read_config,
        write_config, ret, mirrored. simpl. fold t.
      repeat (rewrite upd_same; simpl). now split.
Qed.

Section CreateFacts.
Local Open Scope list_scope.
Variable createType : string -> M CreatedType.

Lemma create_by_name_run typeName h :
  NAME_RX_test typeName = true ->
  create createType (OptsString typeName) h
  = (Normal (mkETC (next_type h)),
     with_types
       (with_configs
          (alloc_map h [])
          (upd (configs h) (next_config h)
             (Config.make typeName None (next_map h)))
          (S (next_config h)))
       (upd (types h) (next_type h)
          (EnumType.make typeName None (next_config h) None None None))
       (S (next_type h))).
Proof.
  intros Hn. unfold create. rewrite Hn.
  unfold GraphQLEnumType.new, bind, new_map, new_config, read_config,
    new_type, ret. simpl. now rewrite upd_same.
Qed.

Lemma create_from_config_run config h :
  create createType (OptsObject config) h
  = (Normal (mkETC (next_type h)),
     with_types
       (with_configs h
          (upd (configs h) (next_config h) (configs h config))
          (S (next_config h)))
       (upd (types h) (next_type h)
          (EnumType.make (Config.name (configs h config))
             (Config.description (configs h config))
             (next_config h) None None None))
       (S (next_type h))).
Proof.
  unfold create, GraphQLEnumType.new, bind, new_config, read_config,
    new_type, ret. simpl. now rewrite upd_same.
Qed.

End CreateFacts.

(** X18. [create(typeName)] with a string that matches
    [/^[_a-zA-Z][_a-zA-Z0-9]*$/] never consults [TypeMapper]: it returns a
    composer over a new type of that name, with no description and no field,
    whose config object carries the same name, and it leaves every existing
    object as it was. *)
Theorem create_by_name (createType : string -> M CreatedType)
    (typeName : string) (h : Heap) :
  NAME_RX_test typeName = true ->
  exists e h',
    create createType (OptsString typeName) h = (Normal e, h')
    /\ gqType e = next_type h
    /\ outcome (getTypeName e) h' = Normal typeName
    /\ outcome (getDescription e) h' = Normal ""
    /\ outcome (getFieldNames e) h' = Normal []
    /\ (forall name, outcome (hasField e name) h' = Normal false)
    /\ mirrored h' (gqType e)
    /\ objs h' = objs h
    /\ (forall x, x < next_map h -> maps h' x = maps h x)
    /\ (forall x, x < next_config h -> configs h' x = configs h x)
    /\ (forall x, x < next_type h -> types h' x = types h x).
Proof.
  intros Hn. eexists. eexists.
  split; [apply (create_by_name_run createType typeName h Hn)|].
  split; [reflexivity|].
  unfold outcome, getTypeName, getDescription, getFieldNames, hasField,
    getFields, GraphQLEnumType._getNameLookup, mirrored, bind, read_type,
    read_config, read_map, new_map, write_type, ret. simpl.
  rewrite !upd_same. simpl. rewrite !upd_same. simpl. rewrite !upd_same.
  simpl.
  split; [reflexivity|]. split; [reflexivity|]. split; [reflexivity|].
  split; [reflexivity|]. split; [split; reflexivity|].
  split; [reflexivity|].
  split; [|split]; intros x Hx; apply upd_other; lia.
Qed.

(** X19. [create(config)] with a config object builds the type from a copy
    of it: the new type has the name of the config and shows the values of
    its value map, which it shares; and whatever mutators are then called on
    the composer, in any number, returning or throwing, the caller's config
    object is never written. *)
Theorem create_copies_the_config (createType : string -> M CreatedType)
    (config : loc) (h : Heap) :
  config < next_config h ->
  exists e h',
    create createType (OptsObject config) h = (Normal e, h')
    /\ gqType e = next_type h
    /\ EnumType._enumConfig (types h' (gqType e)) = next_config h
    /\ configs h' (next_config h) = configs h config
    /\ outcome (getTypeName e) h' = Normal (Config.name (configs h config))
    /\ backing h' (gqType e) = Config.values (configs h config)
    /\ view h' (gqType e)
       = Obj.map_values GraphQLEnumType.defineEnumValue
           (deep h (Config.values (configs h config)))
    /\ mirrored h' (gqType e)
    /\ forall mus, configs (after_all e mus h') config = configs h config.
Proof.
  intros Hc. eexists. eexists.
  split; [apply (create_from_config_run createType config h)|].
  set (h' := with_types _ _ _).
  assert (T : types h' (next_type h)
              = EnumType.make (Config.name (configs h config))
                  (Config.description (configs h config))
                  (next_config h) None None None)
    by apply upd_same.
  assert (C : configs h' (next_config h) = configs h config) by apply upd_same.
  simpl gqType.
  split; [reflexivity|]. split; [now rewrite T|]. split; [exact C|].
  split.
  { unfold outcome, getTypeName, bind, read_type, ret. simpl gqType.
    simpl. now rewrite upd_same. }
  split.
  { unfold backing. rewrite T. cbn [EnumType._enumConfig]. now rewrite C. }
  split.
  { unfold view, backing. rewrite T.
    cbn [EnumType._enumConfig EnumType._nameLookup]. rewrite C. reflexivity. }
  split.
  { unfold mirrored. rewrite T.
    cbn [EnumType._enumConfig EnumType.name EnumType.description].
    rewrite C. now split. }
  intros mus.
  destruct (own_after_all (mkETC (next_type h)) mus h') as [_ O].
  simpl gqType in O. rewrite O.
  - simpl. apply upd_other. lia.
  - rewrite T. simpl. lia.
Qed.

(** X20. When [create(opts)] throws on its own account.  An argument that
    is neither a string, nor an enum type, nor an object gives the error "You
    should provide GraphQLEnumTypeConfig or string with enum name or SDL".  A
    string that is not a plain name goes to [TypeMapper.createType]: an error
    it throws is passed on, a result that is not an enum type gives the error
    "You should provide correct GraphQLEnumType type definition.Eg. `enum
    MyType { KEY1 KEY2 KEY3 }`", and an enum type it returns is wrapped.  An
    enum type given as argument is wrapped as it is: [getType()] returns it
    and nothing is allocated. *)
Theorem create_throws_or_wraps (createType : string -> M CreatedType)
    (opts : CreateOpts) (h : Heap) :
  let sdl typeName :=
    opts = OptsString typeName /\ NAME_RX_test typeName = false in
  (opts = OptsOther ->
   create createType opts h
   = (Throw (Error
        "You should provide GraphQLEnumTypeConfig or string with enum name or SDL"),
      h))
  /\ (forall typeName h', sdl typeName ->
        createType typeName h = (Normal CreatedOther, h') ->
        create createType opts h
        = (Throw (Error
             "You should provide correct GraphQLEnumType type definition.Eg. `enum MyType { KEY1 KEY2 KEY3 }`"),
           h'))
  /\ (forall typeName e h', sdl typeName ->
        createType typeName h = (Throw e, h') ->
        create createType opts h = (Throw e, h'))
  /\ (forall typeName ty h', sdl typeName ->
        createType typeName h = (Normal (CreatedEnumType ty), h') ->
        create createType opts h = (Normal (mkETC ty), h'))
  /\ (forall ty, opts = OptsEnumType ty ->
        (e <- create createType opts ;; getType e) h = (Normal ty, h)).
Proof.
  intros sdl. split; [intros ->; reflexivity|].
  split; [intros s h' [-> Hn] R; simpl; rewrite Hn;
          now rewrite (bind_normal _ R)|].
  split; [intros s e h' [-> Hn] R; simpl; rewrite Hn;
          now rewrite (bind_throw _ R)|].
  split; [intros s ty h' [-> Hn] R; simpl; rewrite Hn;
          now rewrite (bind_normal _ R)|].
  intros ty ->. reflexivity.
Qed.

(** ** Setting a field and removing it again *)

Section SetThenRemove.
Local Open Scope list_scope.

(** [setField] by its effect on what [getFields()] shows. *)
Lemma setField_spec this name valueConfig h :
  wf h -> gqType this < next_type h -> valueConfig < next_obj h ->
  exists h',
    setField this name valueConfig h = (Normal this, h')
    /\ wf h' /\ next_type h' = next_type h
    /\ view h' (gqType this)
       = Obj.map_values refreshed
           (Obj.set (view h (gqType this)) name (objs h valueConfig)).
Proof.
  intros Hwf Ht Hv. set (t := gqType this) in *.
  set (single := next_map h).
  set (h1 := alloc_map h [(name, valueConfig)]).
  assert (Ex : extends h h1) by apply extends_new_map.
  assert (Hwf1 : wf h1).
  { apply wf_new_map;
      [assumption | repeat constructor; simpl; tauto | | reflexivity].
    intros x [<-|[]]. exact Hv. }
  assert (Hs : maps h1 single = [(name, valueConfig)])
    by (simpl; apply upd_same).
  destruct (@addFields_spec this single h1 Hwf1 Ht)
    as (h2 & R & Mu & V & _); [simpl; lia|].
  fold t in V, Mu. exists h2.
  split; [|split; [apply (mu_wf Mu)|split; [apply (mu_next_type Mu)|]]].
  - unfold setField. rewrite bind_new_map.
    change (Obj.set [] name valueConfig) with [(name, valueConfig)].
    fold single. fold h1. now rewrite (bind_normal _ R).
  - rewrite V, (view_extends Hwf Ht Ex). unfold deep. rewrite Hs. simpl.
    rewrite spread_single; [reflexivity| |].
    + now apply keys_view_NoDup.
    + now apply keys_view_ordered.
Qed.

End SetThenRemove.

(** X21. [setField(name, valueConfig)] followed by [removeField(name)]
    leaves the fields that were there under other names, each up to
    re-derivation: when [name] was not a field the fields are the former
    ones, and they are unchanged when the view was in derived form. *)
Theorem setField_then_removeField (this : EnumTypeComposer) (name : string)
    (valueConfig : loc) (h : Heap) :
  well_formed h = true -> gqType this < next_type h ->
  valueConfig < next_obj h ->
  let t := gqType this in
  let h' :=
    store (setField this name valueConfig ;;;
           removeField this (OneName name)) h in
  view h' t = Obj.map_values refreshed (Obj.delete (view h t) name)
  /\ (Obj.has (view h t) name = false ->
      view h' t = Obj.map_values refreshed (view h t))
  /\ (Obj.has (view h t) name = false -> settled h t = true ->
      view h' t = view h t).
Proof.
  intros Hwf Ht Hv t h'. apply well_formed_wf in Hwf.
  destruct (@setField_spec this name valueConfig h Hwf Ht Hv)
    as (h1 & R1 & Hwf1 & Hn1 & V1).
  assert (Ht1 : gqType this < next_type h1) by (rewrite Hn1; exact Ht).
  destruct (@removeField_spec this (OneName name) h1 Hwf1 Ht1)
    as (h2 & R2 & _ & V2).
  fold t in V1, V2.
  assert (E : h' = h2).
  { unfold h', store. now rewrite (bind_normal _ R1), R2. }
  assert (V : view h2 t = Obj.map_values refreshed (Obj.delete (view h t) name)).
  { rewrite V2, V1. simpl names_of. unfold delete_all. simpl.
    rewrite <- ObjFacts.map_values_delete, map_refreshed_idem.
    now rewrite ObjFacts.delete_set. }
  assert (A : Obj.has (view h t) name = false ->
              Obj.delete (view h t) name = view h t).
  { intros Hh. apply ObjFacts.delete_absent. intros Hin.
    apply ObjFacts.has_In in Hin. congruence. }
  rewrite E. split; [exact V|]. split.
  - intros Hh. now rewrite V, A.
  - intros Hh Hs. rewrite V, A by assumption. now apply settled_refreshed.
Qed.

(** ** Well-formed stores stay well formed *)

Section WellFormed.
Local Open Scope list_scope.

(** [well_formed] decides [wf]. *)
Lemma wf_well_formed h : wf h -> well_formed h = true.
Proof.
  intros Hwf. unfold well_formed.
  rewrite !andb_true_iff, !forallb_forall. repeat split.
  - intros l Hl. apply in_seq in Hl. unfold type_ok.
    apply andb_true_iff. split.
    + apply Nat.ltb_lt. apply (wf_config Hwf). lia.
    + destruct (EnumType._nameLookup (types h l)) as [c|] eqn:E;
        [|reflexivity].
      simpl. apply Nat.ltb_lt. apply (@wf_cache h Hwf l c); [lia|exact E].
  - intros l Hl. apply in_seq in Hl. unfold config_ok.
    apply Nat.ltb_lt. apply (wf_values Hwf). lia.
  - intros l Hl. apply in_seq in Hl. unfold map_ok.
    rewrite !andb_true_iff. repeat split.
    + apply nodupb_NoDup. apply (wf_keys Hwf). lia.
    + apply forallb_forall. intros v Hv. apply Nat.ltb_lt.
      apply (@wf_targets h Hwf l v); [lia|exact Hv].
    + apply (wf_key_order Hwf). lia.
  - intros l Hl. apply in_seq in Hl. unfold obj_ok.
    apply andb_true_iff. split.
    + apply nodupb_NoDup. apply (wf_props Hwf). lia.
    + apply (wf_prop_order Hwf). lia.
Qed.

Lemma wf_new_config h (c : Config.t) :
  wf h -> Config.values c < next_map h ->
  wf (with_configs h (upd (configs h) (next_config h) c) (S (next_config h))).
Proof.
  intros Hwf Hc. constructor; simpl.
  - intros l Hl. apply (wf_config Hwf) in Hl. lia.
  - now apply wf_cache.
  - intros l Hl. unfold upd. destruct (Nat.eqb_spec l (next_config h)).
    + assumption.
    + apply wf_values; [assumption | lia].
  - now apply wf_keys.
  - now apply wf_targets.
  - now apply wf_props.
  - now apply wf_key_order.
  - now apply wf_prop_order.
Qed.

Lemma wf_new_type h (ty : EnumType.t) :
  wf h -> EnumType._enumConfig ty < next_config h ->
  EnumType._nameLookup ty = None ->
  wf (with_types h (upd (types h) (next_type h) ty) (S (next_type h))).
Proof.
  intros Hwf Hc Hn. constructor; simpl.
  - intros l Hl. unfold upd. destruct (Nat.eqb_spec l (next_type h)).
    + assumption.
    + apply wf_config; [assumption | lia].
  - intros l c Hl. unfold upd. destruct (Nat.eqb_spec l (next_type h)).
    + rewrite Hn. discriminate.
    + apply wf_cache; [assumption | lia].
  - now apply wf_values.
  - now apply wf_keys.
  - now apply wf_targets.
  - now apply wf_props.
  - now apply wf_key_order.
  - now apply wf_prop_order.
Qed.

End WellFormed.

(** X22. The hypotheses of the theorems are kept by every method: from a
    well-formed store, every mutator (returning or throwing), [getFields],
    [clone], [create] with a plain name and [create] with a config object
    leave a well-formed store in which the composer, and the one returned,
    are allocated; the mutators and [getFields] only move the allocation
    frontiers forward, so what was allocated stays so. *)
Theorem well_formed_is_kept (createType : string -> M CreatedType)
    (h : Heap) :
  well_formed h = true ->
  (forall this mu, gqType this < next_type h -> allocated h mu ->
     let h' := store (mutate this mu) h in
     well_formed h' = true /\ grows h h' /\ gqType this < next_type h')
  /\ (forall this, gqType this < next_type h ->
        let h' := store (getFields this) h in
        well_formed h' = true /\ grows h h')
  /\ (forall this newTypeName, gqType this < next_type h ->
        let h' := store (clone this newTypeName) h in
        well_formed h' = true
        /\ forall cloned,
             outcome (clone this newTypeName) h = Normal cloned ->
             gqType cloned < next_type h' /\ gqType this < next_type h')
  /\ (forall typeName, NAME_RX_test typeName = true ->
        let h' := store (create createType (OptsString typeName)) h in
        well_formed h' = true
        /\ forall e,
             outcome (create createType (OptsString typeName)) h = Normal e ->
             gqType e < next_type h')
  /\ (forall config, config < next_config h ->
        let h' := store (create createType (OptsObject config)) h in
        well_formed h' = true
        /\ forall e,
             outcome (create createType (OptsObject config)) h = Normal e ->
             gqType e < next_type h').
Proof.
  intros Hwf. apply well_formed_wf in Hwf.
  split; [|split; [|split; [|split]]].
  - intros this mu Ht Ha h'.
    destruct (@mutate_sound this mu h Hwf Ht Ha) as (W & G & N).
    fold h' in W, G, N.
    split; [now apply wf_well_formed|]. split; [exact G|]. now rewrite N.
  - intros this Ht h'.
    destruct (@getFields_spec this h Hwf Ht) as (l & h1 & R & F).
    unfold h', store. rewrite R. simpl.
    split; [apply wf_well_formed, (fe_wf F) | apply (fe_grows F)].
  - intros this newTypeName Ht h'.
    destruct (string_dec newTypeName "") as [->|Hne].
    + split; [now apply wf_well_formed|]. intros cloned Ho. discriminate Ho.
    + destruct (@clone_spec this newTypeName h Hwf Ht Hne)
        as (c & h1 & R & C).
      unfold h', store, outcome. rewrite R. simpl.
      split; [apply wf_well_formed, (cl_wf C)|].
      intros cloned Hc. injection Hc as <-. simpl.
      rewrite (cl_next_type C), (cl_type C). lia.
  - intros typeName Hn h'.
    unfold h', store, outcome.
    rewrite (create_by_name_run createType typeName h Hn). simpl.
    split.
    + apply wf_well_formed.
      apply (@wf_new_type
               (with_configs
                  (alloc_map h [])
                  (upd (configs h) (next_config h)
                     (Config.make typeName None (next_map h)))
                  (S (next_config h)))); [|simpl; lia|reflexivity].
      apply (@wf_new_config
               (alloc_map h [])); [|simpl; lia].
      apply wf_new_map; [assumption|constructor|intros v []|reflexivity].
    + intros e He. injection He as <-. simpl. lia.
  - intros config Hc h'.
    unfold h', store, outcome.
    rewrite (create_from_config_run createType config h). simpl.
    split.
    + apply wf_well_formed.
      apply (@wf_new_type
               (with_configs h
                  (upd (configs h) (next_config h) (configs h config))
                  (S (next_config h)))); [|simpl; lia|reflexivity].
      apply wf_new_config; [assumption|]. now apply (wf_values Hwf).
    + intros e He. injection He as <-. simpl. lia.
Qed.

(** ** The further theorems at the sample store *)

Lemma getField_returns_or_throws_witness :
  (exists v,
     outcome (getField Color "GREEN") color_heap = Normal v
     /\ objs (store (getField Color "GREEN") color_heap) v
        = [("value", JNum 2); ("deprecationReason", JStr "old");
           ("isDeprecated", JBool true)])
  /\ outcome (getField Color "PURPLE") color_heap
     = Throw (Error ("Cannot get value 'PURPLE' from enum type 'Color'."
                     ++ " Value with such name does not exist.")).
Proof.
  split.
  - destruct (@getField_returns_or_throws Color "GREEN" color_heap)
      as (A & _); [reflexivity | vm_compute; lia |].
    apply A. reflexivity.
  - destruct (@getField_returns_or_throws Color "PURPLE" color_heap)
      as (_ & B & _); [reflexivity | vm_compute; lia |].
    apply B. reflexivity.
Defined.

Lemma getFieldNames_hasField_getField_agree_witness :
  exists ks,
    outcome (getFieldNames Color) color_heap = Normal ks
    /\ outcome (hasField Color "BLUE") color_heap
       = Normal (Obj.mem "BLUE" ks)
    /\ (In "PURPLE" ks <->
        exists v, outcome (getField Color "PURPLE") color_heap = Normal v).
Proof.
  destruct (@getFieldNames_hasField_getField_agree Color color_heap)
    as (ks & A & _ & B & C & _); [reflexivity | vm_compute; lia |].
  exists ks. split; [exact A|]. split; [apply B | apply C].
Defined.

Lemma getFields_table_is_cached_until_mutation_witness :
  exists l h1,
    getFields Color color_heap = (Normal l, h1)
    /\ getFields Color h1 = (Normal l, h1)
    /\ forall h2,
         removeField Color (OneName "RED") h1 = (Normal Color, h2) ->
         exists l' h3, getFields Color h2 = (Normal l', h3) /\ l' <> l.
Proof.
  destruct (@getFields_table_is_cached_until_mutation Color color_heap)
    as (l & h1 & A & B & C); [reflexivity | vm_compute; lia |].
  exists l, h1. split; [exact A|]. split; [exact B|].
  intros h2. apply (C (MRemoveField (OneName "RED")) h2 Logic.I eq_refl).
Defined.

Lemma setField_sets_one_field_witness :
  let h' := store (setField Color "RED" red_update) color_heap in
  Obj.keys (view h' (gqType Color)) = ["RED"; "GREEN"; "BLUE"]
  /\ Obj.get (view h' (gqType Color)) "RED"
     = Some [("value", JNum 7); ("description", JStr "the red one");
             ("isDeprecated", JBool false)]
  /\ Obj.get (maps h' (backing h' (gqType Color))) "RED" = Some red_update.
Proof.
  destruct (@setField_sets_one_field Color "RED" red_update color_heap)
    as (A & _ & B & _ & C & _);
    [reflexivity | vm_compute; lia | vm_compute; lia |].
  split; [apply A; reflexivity|]. split; [exact B | exact C].
Defined.

Lemma addFields_appends_new_names_witness :
  let h' := store (addFields Color pink_map) color_heap in
  Obj.keys (view h' (gqType Color)) = ["RED"; "GREEN"; "BLUE"; "PINK"]
  /\ Obj.get (maps h' (backing h' (gqType Color))) "PINK" = Some 3
  /\ objs h' 3 = [("value", JNum 4)].
Proof.
  destruct (@addFields_appends_new_names Color pink_map color_heap)
    as (A & _ & B); [reflexivity | vm_compute; lia | vm_compute; lia |].
  split; [apply A; reflexivity|].
  destruct (B "PINK" 3 eq_refl) as (_ & C & D). split; [exact C | exact D].
Defined.

Lemma removeOtherFields_keeps_listed_witness :
  let arg := NameArray ["BLUE"; "PURPLE"; "RED"] in
  let h' := store (removeOtherFields Color arg) color_heap in
  outcome (removeOtherFields Color arg) color_heap = Normal Color
  /\ Obj.keys (view h' (gqType Color)) = ["RED"; "BLUE"]
  /\ Obj.get (view h' (gqType Color)) "RED"
     = Obj.get (view color_heap (gqType Color)) "RED".
Proof.
  destruct (@removeOtherFields_keeps_listed Color
              (NameArray ["BLUE"; "PURPLE"; "RED"]) color_heap)
    as (A & B & _ & C & _); [reflexivity | vm_compute; lia |].
  split; [exact A|]. split; [exact B|]. apply C; reflexivity.
Defined.

Lemma removeField_removeOtherFields_split_witness :
  Obj.keys (view (store (removeField Color (OneName "GREEN")) color_heap)
              (gqType Color)) = ["RED"; "BLUE"]
  /\ Obj.keys (view (store (removeOtherFields Color (OneName "GREEN"))
                       color_heap) (gqType Color)) = ["GREEN"].
Proof.
  destruct (@removeField_removeOtherFields_split Color (OneName "GREEN")
              color_heap) as (A & B & _); [reflexivity | vm_compute; lia |].
  split; [exact A | exact B].
Defined.

Lemma removeField_twice_is_removeField_of_both_witness :
  view (store (removeField Color (OneName "RED") ;;;
               removeField Color (NameArray ["BLUE"; "RED"])) color_heap)
    (gqType Color)
  = view (store (removeField Color (NameArray ["RED"; "BLUE"; "RED"]))
            color_heap) (gqType Color).
Proof.
  destruct (@removeField_twice_is_removeField_of_both Color (OneName "RED")
              (NameArray ["BLUE"; "RED"]) color_heap) as (A & _);
    [reflexivity | vm_compute; lia |].
  exact A.
Defined.

Lemma reorderFields_is_idempotent_witness :
  view (store (reorderFields Color ["BLUE"; "RED"] ;;;
               reorderFields Color ["BLUE"; "RED"]) color_heap) (gqType Color)
  = view (store (reorderFields Color ["BLUE"; "RED"]) color_heap)
      (gqType Color)
  /\ Obj.keys (view (store (reorderFields Color []) color_heap)
                 (gqType Color)) = ["RED"; "GREEN"; "BLUE"]
  /\ Obj.keys (view (store (reorderFields Color ["RED"; "GREEN"; "BLUE"])
                        color_heap)
                 (gqType Color)) = ["RED"; "GREEN"; "BLUE"].
Proof.
  destruct (@reorderFields_is_idempotent Color ["BLUE"; "RED"] color_heap)
    as (A & B & C); [reflexivity | vm_compute; lia |].
  split; [exact A|]. split; [exact B | exact (C eq_refl)].
Defined.

Lemma removal_edits_the_fetched_table_witness :
  exists l h0,
    getFields Color color_heap = (Normal l, h0)
    /\ (let h' := store (removeField Color (OneName "GREEN")) h0 in
        maps h' l = Obj.delete (maps h0 l) "GREEN"
        /\ backing h' (gqType Color) <> l)
    /\ (let h' := store (removeOtherFields Color (OneName "GREEN")) h0 in
        backing h' (gqType Color) = l).
Proof.
  destruct (@removal_edits_the_fetched_table Color (OneName "GREEN")
              color_heap)
    as (l & h0 & R & (A & B & _) & (_ & C & _));
    [reflexivity | vm_compute; lia |].
  exists l, h0. split; [exact R|].
  split; [split; [exact A | exact B] | exact C].
Defined.

Lemma mutation_writes_only_its_own_witness :
  let h' := store (mutate Color (MExtendField "RED" red_update)) color_heap in
  objs h' red_update = objs color_heap red_update
  /\ maps h' pink_map = maps color_heap pink_map.
Proof.
  destruct (@mutation_writes_only_its_own Color
              (MExtendField "RED" red_update) color_heap)
    as (A & B & _); [reflexivity | vm_compute; lia | vm_compute; lia |].
  assert (H1 : red_update < next_obj color_heap) by (vm_compute; lia).
  assert (H2 : ~ In red_update (view_locs color_heap (gqType Color)))
    by (vm_compute; intros []).
  assert (H3 : ~ In red_update
                 (handed_over color_heap (MExtendField "RED" red_update)))
    by (vm_compute; intros []).
  assert (H4 : pink_map < next_map color_heap) by (vm_compute; lia).
  assert (H5 : EnumType._nameLookup (types color_heap (gqType Color))
               <> Some pink_map) by (vm_compute; discriminate).
  split; [exact (A red_update H1 H2 H3) | exact (B pink_map H4 H5)].
Defined.

Lemma extendField_missing_changes_nothing_witness :
  let h' := store (extendField Color "PURPLE" red_update) color_heap in
  view h' (gqType Color) = view color_heap (gqType Color)
  /\ h' = store (getFields Color) color_heap.
Proof.
  destruct (@extendField_missing_changes_nothing Color "PURPLE" red_update
              color_heap) as (A & _ & _ & _ & B);
    [reflexivity | vm_compute; lia | reflexivity |].
  split; [exact A | exact B].
Defined.

Lemma deprecateFields_touches_listed_only_witness :
  let h' :=
    store (deprecateFields Color (DeprecateArray ["BLUE"])) color_heap in
  Obj.keys (view h' (gqType Color)) = ["RED"; "GREEN"; "BLUE"]
  /\ Obj.get (view h' (gqType Color)) "GREEN"
     = Obj.get (view color_heap (gqType Color)) "GREEN".
Proof.
  destruct (@deprecateFields_touches_listed_only Color
              (DeprecateArray ["BLUE"]) color_heap) as (A & _ & B & _).
  - reflexivity.
  - vm_compute. lia.
  - intros f [<-|[]]. vm_compute. tauto.
  - split; [exact A|]. apply B; [reflexivity|].
    intros [H|[]]. discriminate H.
Defined.

Lemma mutation_returns_this_witness :
  outcome (mutate Color (MRemoveOtherFields (OneName "PURPLE"))) color_heap
  = Normal Color
  /\ outcome (mutate Color (MExtendField "RED" red_update)) color_heap
     = Normal Color.
Proof.
  split.
  - apply (@mutation_returns_this Color
             (MRemoveOtherFields (OneName "PURPLE")) color_heap);
      [reflexivity | vm_compute; lia | exact Logic.I].
  - apply (@mutation_returns_this Color (MExtendField "RED" red_update)
             color_heap);
      [reflexivity | vm_compute; lia | vm_compute; lia | vm_compute; tauto].
Defined.

Lemma field_mutations_never_rename_witness :
  let h' :=
    store (mutate Color (MDeprecateFields (DeprecateName "PURPLE")))
      color_heap in
  outcome (getTypeName Color) h' = Normal "Color"
  /\ outcome (getDescription Color) h' = Normal "".
Proof.
  destruct (@field_mutations_never_rename Color Color
              (MDeprecateFields (DeprecateName "PURPLE")) color_heap eq_refl)
    as (_ & A & B).
  split; [exact A | exact B].
Defined.

Lemma mutation_keeps_mirror_witness :
  mirrored (store (mutate Color (MSetTypeName "Colour")) color_heap)
    (gqType Color)
  /\ mirrored (store (mutate Color (MAddFields pink_map)) color_heap)
       (gqType Color).
Proof.
  split.
  - apply (@mutation_keeps_mirror Color (MSetTypeName "Colour") color_heap).
    split; reflexivity.
  - apply (@mutation_keeps_mirror Color (MAddFields pink_map) color_heap).
    split; reflexivity.
Defined.

Lemma create_by_name_witness :
  exists e h',
    create (fun _ => ret CreatedOther) (OptsString "Color_2") empty_heap
    = (Normal e, h')
    /\ outcome (getTypeName e) h' = Normal "Color_2"
    /\ outcome (getFieldNames e) h' = Normal [].
Proof.
  destruct (@create_by_name (fun _ => ret CreatedOther) "Color_2" empty_heap
              eq_refl) as (e & h' & R & _ & A & _ & B & _).
  exists e, h'. split; [exact R|]. split; [exact A | exact B].
Defined.

Lemma create_copies_the_config_witness :
  exists e h',
    create (fun _ => ret CreatedOther) (OptsObject 0) color_heap
    = (Normal e, h')
    /\ outcome (getTypeName e) h' = Normal "Color"
    /\ Obj.keys (view h' (gqType e)) = ["RED"; "GREEN"; "BLUE"]
    /\ configs
         (after_all e [MSetTypeName "Shade"; MRemoveField (OneName "RED")] h')
         0
       = configs color_heap 0.
Proof.
  destruct (@create_copies_the_config (fun _ => ret CreatedOther) 0
              color_heap) as (e & h' & R & _ & _ & _ & A & _ & V & _ & B).
  - vm_compute. lia.
  - exists e, h'. split; [exact R|]. split; [exact A|]. split.
    + rewrite V. reflexivity.
    + apply B.
Defined.

Lemma setField_then_removeField_witness :
  view (store (setField Color "PINK" red_update ;;;
               removeField Color (OneName "PINK")) color_heap) (gqType Color)
  = view color_heap (gqType Color).
Proof.
  destruct (@setField_then_removeField Color "PINK" red_update color_heap)
    as (_ & _ & A); [reflexivity | vm_compute; lia | vm_compute; lia |].
  apply A; reflexivity.
Defined.

Lemma well_formed_is_kept_witness :
  well_formed (store (mutate Color (MAddFields teal_map)) color_heap) = true
  /\ well_formed (store (clone Color "Shade") color_heap) = true
  /\ well_formed
       (store (create (fun _ => ret CreatedOther) (OptsObject 0)) color_heap)
     = true.
Proof.
  destruct (@well_formed_is_kept (fun _ => ret CreatedOther) color_heap
              eq_refl) as (A & _ & B & _ & C).
  split; [|split].
  - apply (A Color (MAddFields teal_map)); vm_compute; lia.
  - apply (B Color "Shade"). vm_compute. lia.
  - apply (C 0). vm_compute. lia.
Defined.
